(** * Bedtime story app: audio orchestration and story history

    A shallow embedding of the orchestration module of the story-time
    client (the [App] component and the helpers it closes over): the
    undo/redo history of story snapshots, the narration queue with its
    generation counter, the ambiance player, and the turn handler
    [handleSendMessage] with its dialogue derivation and voice assignment.

    Conventions.
    - A JavaScript string is a [string] whose characters stand for code
      units below 256.
    - A React state variable or a ref is a record field; a handler is a
      function from the state before to the state after.  An [async]
      function is cut at its [await]s: the code up to the first [await] runs
      when the function is called, and each later piece runs when the
      scheduler delivers the awaited outcome, as an event.
    - Platform calls that may throw (audio contexts, decoding, network) take
      their outcome from the event that delivers them or from a field of the
      state that only the environment changes.
    - A finite Number is a rational; a product is rounded to the nearest
      binary64 value as the platform rounds it. *)

From Stdlib Require Import Ascii String ZArith QArith Qround Qpower Lqa.
From stdpp Require Import gmap strings list fin_maps.

(** ** JavaScript string helpers *)

Module JsString.

(** [\s] and [String.prototype.trim] agree on what white space is:
    TAB, LF, VT, FF, CR, SPACE and NBSP among the code units below 256. *)
Definition isSpace (c : ascii) : bool :=
  let n := nat_of_ascii c in
  ((9 <=? n) && (n <=? 13)) || (n =? 32) || (n =? 160).

(** [A-Z] *)
Definition isUpper (c : ascii) : bool :=
  let n := nat_of_ascii c in (65 <=? n) && (n <=? 90).

Definition isChar (d c : ascii) : bool := Ascii.eqb c d.
Definition notChar (d c : ascii) : bool := negb (Ascii.eqb c d).

(** Longest prefix whose characters satisfy [p], and what follows it. *)
Fixpoint span (p : ascii -> bool) (s : string) : string * string :=
  match s with
  | EmptyString => (EmptyString, EmptyString)
  | String c t =>
      if p c then let '(a, b) := span p t in (String c a, b)
      else (EmptyString, s)
  end.

Fixpoint dropWhile (p : ascii -> bool) (s : string) : string :=
  match s with
  | EmptyString => EmptyString
  | String c t => if p c then dropWhile p t else s
  end.

Definition trimStart (s : string) : string := dropWhile isSpace s.
Definition trimEnd (s : string) : string :=
  String.rev (dropWhile isSpace (String.rev s)).

(** [s.trim()] *)
Definition trim (s : string) : string := trimEnd (trimStart s).

(** JavaScript truthiness of a string: non-empty. *)
Definition truthy (s : string) : bool :=
  match s with EmptyString => false | _ => true end.

(** [s.substring(0, n)] *)
Fixpoint take (n : nat) (s : string) : string :=
  match n, s with
  | S k, String c t => String c (take k t)
  | _, _ => EmptyString
  end.

(** [s.substring(1)] *)
Definition dropFirst (s : string) : string :=
  match s with EmptyString => EmptyString | String _ t => t end.

(** [s.startsWith(p)] *)
Fixpoint startsWith (p s : string) : bool :=
  match p, s with
  | EmptyString, _ => true
  | String a p', String b s' => Ascii.eqb a b && startsWith p' s'
  | String _ _, EmptyString => false
  end.

(** [s.includes(p)] *)
Fixpoint includes (p s : string) : bool :=
  startsWith p s ||
  match s with
  | EmptyString => false
  | String _ t => includes p t
  end.

(** The regular expression [{[^}]+}] anchored at the head of [s]: an
    opening brace, one or more characters other than the closing brace,
    a closing brace.  The greedy run stops at the first closing brace, and
    no shorter run can be followed by one.  Returns the matched text and
    the rest of the string. *)
Definition matchMarkup (s : string) : option (string * string) :=
  match s with
  | String c t =>
      if Ascii.eqb c "{" then
        match span (notChar "}") t with
        | (String r run, String _ rest) =>
            Some (String c (String r run +:+ "}"), rest)
        | _ => None
        end
      else None
  | EmptyString => None
  end.

(** [s.replace(/{[^}]+}/g, f)]: matches are found left to right, each
    search starting where the previous match ended. *)
Fixpoint replaceMarkup_from (fuel : nat) (f : string -> string) (s : string)
  : string :=
  match fuel with
  | O => s
  | S n =>
      match s with
      | EmptyString => EmptyString
      | String c t =>
          match matchMarkup s with
          | Some (m, rest) => f m +:+ replaceMarkup_from n f rest
          | None => String c (replaceMarkup_from n f t)
          end
      end
  end.

Definition replaceMarkup (f : string -> string) (s : string) : string :=
  replaceMarkup_from (String.length s) f s.

(** [(match) => match.split('|')[0].substring(1)]: the part of the
    match before its first bar, without its first character. *)
Definition markupWord (m : string) : string :=
  dropFirst (fst (span (notChar "|") m)).

(** [.replace(/{[^}]+}/g, (match) => match.split('|')[0].substring(1))] *)
Definition stripMarkup (s : string) : string := replaceMarkup markupWord s.

(** [.replace(/{[^}]+}/g, '')] *)
Definition dropMarkup (s : string) : string :=
  replaceMarkup (fun _ => EmptyString) s.

(** The speaker-tag regular expression of [handleSendMessage] anchored
    at the head of [s]: an opening bracket, group 1 = one or more of
    [A-Z\s], a closing bracket, group 2 = any run of characters other
    than the opening bracket.  Returns the two groups and the rest of the
    string.  Group 1 is the whole run of capitals and white space, which
    the closing bracket must follow at once; group 2 runs to the next
    opening bracket or to the end. *)
Definition matchTag (s : string) : option (string * string * string) :=
  match s with
  | String c t =>
      if Ascii.eqb c "[" then
        match span (fun x => isUpper x || isSpace x) t with
        | (String r run, String d rest) =>
            if Ascii.eqb d "]" then
              let '(body, rest') := span (notChar "[") rest in
              Some (String r run, body, rest')
            else None
        | _ => None
        end
      else None
  | EmptyString => None
  end.

(** [s.matchAll] of the speaker-tag expression with the [g] flag: the
    groups of every match, left to right; after a match the search
    resumes where it ended, otherwise one character further. *)
Fixpoint matchAllTags_from (fuel : nat) (s : string)
  : list (string * string) :=
  match fuel with
  | O => []
  | S n =>
      match s with
      | EmptyString => []
      | String _ t =>
          match matchTag s with
          | Some (g1, g2, rest) => (g1, g2) :: matchAllTags_from n rest
          | None => matchAllTags_from n t
          end
      end
  end.

Definition matchAllTags (s : string) : list (string * string) :=
  matchAllTags_from (String.length s) s.

End JsString.

(** ** Data model *)

Inductive MessageAuthor := USER | MODEL.

Record ChatMessage := { author : MessageAuthor; text : string }.

(** A JavaScript value as [JSON.parse] and property access produce it.  An
    object lists its own properties, one binding per key. *)
#[local] Unset Elimination Schemes.
Inductive JSValue :=
| JUndefined
| JNull
| JBool (b : bool)
| JNum (n : Z)
| JStr (s : string)
| JArr (items : list JSValue)
| JObj (props : list (string * JSValue)).
#[local] Set Elimination Schemes.

(** [interface StoryState].  The field [choices] is declared [string[]]; at
    run time it holds whatever [handleSendMessage] stored, so it is a
    [JSValue] here. *)
Module StoryState.
Record t := mk {
  chatHistory : list ChatMessage;
  imageUrl : option string;
  choices : JSValue
}.
End StoryState.
Abbreviation StoryState := StoryState.t.

Definition availableVoices : list string := ["Puck"; "Charon"; "Fenrir"; "Zephyr"].
Definition narratorVoice : string := "Kore".

Definition imageAdjectives : list string :=
  ["whimsical"; "charming"; "vibrant"; "dreamy"; "enchanting"; "playful";
   "cozy"; "magical"; "delightful"; "colorful"; "gentle"; "sweet"].
Definition imageStyles : list string :=
  ["storybook illustration"; "watercolor painting"; "crayon drawing";
   "colored pencil art"; "digital painting"; "charming cartoon style";
   "gouache painting"; "delightful sketch"].
Definition imageDetails : list string :=
  ["with soft, warm lighting"; "in a friendly, inviting world";
   "featuring cute and lovable characters";
   "set in a beautiful, serene landscape";
   "with a touch of sparkle and wonder";
   "in a simple and clear style for kids"; "full of happy details"].

Definition ambianceAudioMap : gmap string string :=
  list_to_map
    [("forest", "https://upload.wikimedia.org/wikipedia/commons/4/41/Forest_sounds.ogg");
     ("cave", "https://upload.wikimedia.org/wikipedia/commons/0/0d/Sound_of_a_cave.ogg");
     ("celebration", "https://upload.wikimedia.org/wikipedia/commons/e/e3/Crowd_Cheering_Sound_Effect.ogg");
     ("mystery", "https://upload.wikimedia.org/wikipedia/commons/b/b3/Creepy_Music_Box.ogg");
     ("ocean", "https://upload.wikimedia.org/wikipedia/commons/3/3a/Ocean_waves_sound_effect.ogg");
     ("calm", "https://upload.wikimedia.org/wikipedia/commons/1/1b/Peaceful_sound_of_a_small_stream.ogg")]%string.

Definition calmUrl : string :=
  "https://upload.wikimedia.org/wikipedia/commons/1/1b/Peaceful_sound_of_a_small_stream.ogg".

(** [ambianceAudioMap[ambianceKeyword] || ambianceAudioMap.calm] *)
Definition ambianceUrlFor (ambianceKeyword : string) : string :=
  match ambianceAudioMap !! ambianceKeyword with
  | Some url => if JsString.truthy url then url else calmUrl
  | None => calmUrl
  end.

Definition welcomeMessage : ChatMessage :=
  {| author := MODEL;
     text := "Hello! I can tell you a story. What should our adventure be about today?" |}.

Definition errorMessage : ChatMessage :=
  {| author := MODEL;
     text := "Oh dear! My imagination got stuck. Let's try telling a different story." |}.

Definition initialStoryState : StoryState :=
  {| StoryState.chatHistory := [welcomeMessage];
     StoryState.imageUrl := Some "https://picsum.photos/seed/welcome/1024/1024"%string;
     StoryState.choices := JArr [] |}.

(** ** The history log

    [history] and [historyIndex] are two React state variables; the three
    places that write them are the commit at the end of a turn, [handleUndo]
    and [handleRedo]. *)

Module History.

(** [const canUndo = historyIndex > 0] *)
Definition canUndo (historyIndex : nat) : bool := 0 <? historyIndex.

(** [const canRedo = historyIndex < history.length - 1]; the subtraction
    is on JavaScript numbers, so an empty log gives [-1]. *)
Definition canRedo {A} (history : list A) (historyIndex : nat) : bool :=
  (Z.of_nat historyIndex <? Z.of_nat (length history) - 1)%Z.

(** The commit of [handleSendMessage]:
    [newHistory = history.slice(0, historyIndex + 1)],
    [setHistory([...newHistory, newState])],
    [setHistoryIndex(newHistory.length)]. *)
Definition commit {A} (history : list A) (historyIndex : nat) (newState : A)
  : list A * nat :=
  let newHistory := take (S historyIndex) history in
  (newHistory ++ [newState], length newHistory).

(** [canUndo && setHistoryIndex(historyIndex - 1)] *)
Definition undo (historyIndex : nat) : nat :=
  if canUndo historyIndex then historyIndex - 1 else historyIndex.

(** [canRedo && setHistoryIndex(historyIndex + 1)] *)
Definition redo {A} (history : list A) (historyIndex : nat) : nat :=
  if canRedo history historyIndex then historyIndex + 1 else historyIndex.

End History.

(** ** The narration player

    The refs [narrationAudioContext], [currentNarrationSource],
    [narrationQueue], [isPlayingNarration] and [narrationVersion], together
    with what the platform holds for them: the sources started so far (a
    source is named by its position in [started]), those whose [ended]
    event has not fired yet, and the invocations of [processNarrationQueue]
    that are suspended at an [await]. *)

Inductive AudioContextState := suspended | running | closed.

(** A started [AudioBufferSourceNode]: the payload its buffer was decoded
    from and the [currentVersion] its [onended] handler closes over. *)
Record NarrationSource := { src_audio : string; src_version : nat }.

Inductive NarrationAwait := awaitResume | awaitDecode.

(** A suspended invocation of [processNarrationQueue]: its constants
    [currentVersion] and [audioData], the [await] it is parked at, and
    whether the [finally] of [handleSendMessage] waits for its promise
    (through [await playNarrationSequence]). *)
Record NarrationTask := {
  task_version : nat;
  task_audio : string;
  task_await : NarrationAwait;
  task_notify : bool
}.

Record Narration := {
  narrationAudioContext : option AudioContextState;
  currentNarrationSource : option nat;
  narrationQueue : list string;
  isPlayingNarration : bool;
  narrationVersion : nat;
  started : list NarrationSource;
  pendingEnded : gset nat;
  narrationTasks : gmap nat NarrationTask;
  nextNarrationTask : nat;
  (** what [new AudioContext(...)] would do now: throw ([None]) or give a
      context in that state *)
  narrationContextFactory : option AudioContextState
}.

Definition set_narrationAudioContext v (n : Narration) : Narration :=
  {| narrationAudioContext := v;
     currentNarrationSource := currentNarrationSource n;
     narrationQueue := narrationQueue n;
     isPlayingNarration := isPlayingNarration n;
     narrationVersion := narrationVersion n; started := started n;
     pendingEnded := pendingEnded n; narrationTasks := narrationTasks n;
     nextNarrationTask := nextNarrationTask n;
     narrationContextFactory := narrationContextFactory n |}.

Definition set_currentNarrationSource v (n : Narration) : Narration :=
  {| narrationAudioContext := narrationAudioContext n;
     currentNarrationSource := v; narrationQueue := narrationQueue n;
     isPlayingNarration := isPlayingNarration n;
     narrationVersion := narrationVersion n; started := started n;
     pendingEnded := pendingEnded n; narrationTasks := narrationTasks n;
     nextNarrationTask := nextNarrationTask n;
     narrationContextFactory := narrationContextFactory n |}.

Definition set_narrationQueue v (n : Narration) : Narration :=
  {| narrationAudioContext := narrationAudioContext n;
     currentNarrationSource := currentNarrationSource n; narrationQueue := v;
     isPlayingNarration := isPlayingNarration n;
     narrationVersion := narrationVersion n; started := started n;
     pendingEnded := pendingEnded n; narrationTasks := narrationTasks n;
     nextNarrationTask := nextNarrationTask n;
     narrationContextFactory := narrationContextFactory n |}.

Definition set_isPlayingNarration v (n : Narration) : Narration :=
  {| narrationAudioContext := narrationAudioContext n;
     currentNarrationSource := currentNarrationSource n;
     narrationQueue := narrationQueue n; isPlayingNarration := v;
     narrationVersion := narrationVersion n; started := started n;
     pendingEnded := pendingEnded n; narrationTasks := narrationTasks n;
     nextNarrationTask := nextNarrationTask n;
     narrationContextFactory := narrationContextFactory n |}.

Definition set_narrationVersion v (n : Narration) : Narration :=
  {| narrationAudioContext := narrationAudioContext n;
     currentNarrationSource := currentNarrationSource n;
     narrationQueue := narrationQueue n;
     isPlayingNarration := isPlayingNarration n; narrationVersion := v;
     started := started n; pendingEnded := pendingEnded n;
     narrationTasks := narrationTasks n;
     nextNarrationTask := nextNarrationTask n;
     narrationContextFactory := narrationContextFactory n |}.

Definition set_narrationContextFactory v (n : Narration) : Narration :=
  {| narrationAudioContext := narrationAudioContext n;
     currentNarrationSource := currentNarrationSource n;
     narrationQueue := narrationQueue n;
     isPlayingNarration := isPlayingNarration n;
     narrationVersion := narrationVersion n; started := started n;
     pendingEnded := pendingEnded n; narrationTasks := narrationTasks n;
     nextNarrationTask := nextNarrationTask n;
     narrationContextFactory := v |}.

(** Park an invocation at an [await]. *)
Definition suspend (t : NarrationTask) (n : Narration) : Narration :=
  {| narrationAudioContext := narrationAudioContext n;
     currentNarrationSource := currentNarrationSource n;
     narrationQueue := narrationQueue n;
     isPlayingNarration := isPlayingNarration n;
     narrationVersion := narrationVersion n; started := started n;
     pendingEnded := pendingEnded n;
     narrationTasks := <[nextNarrationTask n := t]> (narrationTasks n);
     nextNarrationTask := S (nextNarrationTask n);
     narrationContextFactory := narrationContextFactory n |}.

(** Take a parked invocation out when its [await] settles. *)
Definition wake (tid : nat) (n : Narration) : Narration :=
  {| narrationAudioContext := narrationAudioContext n;
     currentNarrationSource := currentNarrationSource n;
     narrationQueue := narrationQueue n;
     isPlayingNarration := isPlayingNarration n;
     narrationVersion := narrationVersion n; started := started n;
     pendingEnded := pendingEnded n;
     narrationTasks := delete tid (narrationTasks n);
     nextNarrationTask := nextNarrationTask n;
     narrationContextFactory := narrationContextFactory n |}.

(** [source.start(); currentNarrationSource.current = source;
    source.onended = ...] *)
Definition startSource (audio : string) (version : nat) (n : Narration)
  : Narration :=
  let sid := length (started n) in
  {| narrationAudioContext := narrationAudioContext n;
     currentNarrationSource := Some sid; narrationQueue := narrationQueue n;
     isPlayingNarration := isPlayingNarration n;
     narrationVersion := narrationVersion n;
     started := started n ++ [{| src_audio := audio; src_version := version |}];
     pendingEnded := {[sid]} ∪ pendingEnded n;
     narrationTasks := narrationTasks n;
     nextNarrationTask := nextNarrationTask n;
     narrationContextFactory := narrationContextFactory n |}.

(** The [ended] event of a source has been delivered. *)
Definition retire (sid : nat) (n : Narration) : Narration :=
  {| narrationAudioContext := narrationAudioContext n;
     currentNarrationSource := currentNarrationSource n;
     narrationQueue := narrationQueue n;
     isPlayingNarration := isPlayingNarration n;
     narrationVersion := narrationVersion n; started := started n;
     pendingEnded := pendingEnded n ∖ {[sid]};
     narrationTasks := narrationTasks n;
     nextNarrationTask := nextNarrationTask n;
     narrationContextFactory := narrationContextFactory n |}.

Definition initialNarration (factory : option AudioContextState) : Narration :=
  {| narrationAudioContext := None; currentNarrationSource := None;
     narrationQueue := []; isPlayingNarration := false;
     narrationVersion := 0; started := []; pendingEnded := ∅;
     narrationTasks := ∅; nextNarrationTask := 0;
     narrationContextFactory := factory |}.

(** What the scheduler and the platform deliver to the narration player. *)
Inductive NarrationEvent :=
| resumeSettled (tid : nat) (ok : bool)
    (** the promise of [narrationAudioContext.current.resume()] *)
| decodeSettled (tid : nat) (decoded : bool) (startable : bool)
    (** the promise of [decodeAudioData(...)], and whether creating,
        connecting and starting the source would succeed *)
| sourceEnded (sid : nat)
    (** the [ended] event of a started source *)
| contextStateChanged (s : AudioContextState)
    (** the platform suspends, resumes or closes the context *)
| contextFactoryChanged (f : option AudioContextState).

Section NarrationPlayer.

(** [decode] of [utils/audio] is not part of the sources at hand: whether
    it throws on a payload is a parameter. *)
Variable decodeThrows : string -> bool.

Definition stopNarration (n : Narration) : Narration :=
  let n := set_narrationVersion (S (narrationVersion n)) n in
  let n := set_narrationQueue [] n in
  let n :=
    match currentNarrationSource n with
    | Some _ => set_currentNarrationSource None n
    | None => n
    end in
  set_isPlayingNarration false n.

(** The [catch] of [processNarrationQueue]: clear the flag and, when the
    generation is still the captured one, call [processNarrationQueue]
    again without awaiting it ([again]). *)
Definition failedChunk (again : Narration -> Narration)
    (currentVersion : nat) (n : Narration) : Narration :=
  let n := set_isPlayingNarration false n in
  if currentVersion =? narrationVersion n then again n else n.

(** From the generation check that follows the resume to the
    [await decodeAudioData(...)].  The boolean of the result tells that
    the invocation has returned and that [handleSendMessage] waits for
    it. *)
Definition decodeChunk (again : Narration -> Narration)
    (currentVersion : nat) (audioData : string) (notify : bool)
    (n : Narration) : Narration * bool :=
  if negb (currentVersion =? narrationVersion n) then
    (set_isPlayingNarration false n, notify)
  else if decodeThrows audioData then
    (failedChunk again currentVersion n, notify)
  else
    (suspend {| task_version := currentVersion; task_audio := audioData;
                task_await := awaitDecode; task_notify := notify |} n,
     false).

(** [processNarrationQueue], up to its first [await].  It calls itself
    from its own [catch], each time on a queue one item shorter: [fuel]
    bounds these calls and [S (length queue)] is enough. *)
Fixpoint processNarrationQueue_fuel (fuel : nat) (notify : bool)
    (n : Narration) : Narration * bool :=
  match fuel with
  | O => (n, notify)
  | S fuel' =>
      let currentVersion := narrationVersion n in
      if isPlayingNarration n || bool_decide (narrationQueue n = []) then
        (n, notify)
      else
        let n := set_isPlayingNarration true n in
        match narrationQueue n with
        | [] => (set_isPlayingNarration false n, notify)
        | audioData :: rest =>
            let n := set_narrationQueue rest n in
            if negb (JsString.truthy audioData) then
              (set_isPlayingNarration false n, notify)
            else
              let created :=
                match narrationAudioContext n with
                | Some _ => Some n
                | None =>
                    match narrationContextFactory n with
                    | Some s => Some (set_narrationAudioContext (Some s) n)
                    | None => None
                    end
                end in
              match created with
              | None => (set_isPlayingNarration false n, notify)
              | Some n =>
                  match narrationAudioContext n with
                  | Some suspended =>
                      (suspend {| task_version := currentVersion;
                                  task_audio := audioData;
                                  task_await := awaitResume;
                                  task_notify := notify |} n, false)
                  | _ =>
                      decodeChunk
                        (fun n' => fst (processNarrationQueue_fuel fuel' false n'))
                        currentVersion audioData notify n
                  end
              end
        end
  end.

Definition processNarrationQueue (notify : bool) (n : Narration)
  : Narration * bool :=
  processNarrationQueue_fuel (S (length (narrationQueue n))) notify n.

(** [processNarrationQueue();] with the promise dropped. *)
Definition processNext (n : Narration) : Narration :=
  fst (processNarrationQueue false n).

Definition playNarrationSequence (notify : bool) (audioDataArray : list string)
    (n : Narration) : Narration * bool :=
  let n := stopNarration n in
  let n := set_narrationQueue audioDataArray n in
  processNarrationQueue notify n.

Definition playNarration (notify : bool) (base64Audio : string)
    (n : Narration) : Narration * bool :=
  let n := stopNarration n in
  let n := set_narrationQueue [base64Audio] n in
  processNarrationQueue notify n.

(** The continuation after [await narrationAudioContext.current.resume()]. *)
Definition onResumeSettled (tid : nat) (ok : bool) (n : Narration)
  : Narration * bool :=
  match narrationTasks n !! tid with
  | Some t =>
      match task_await t with
      | awaitResume =>
          let n := wake tid n in
          if ok then
            let n :=
              match narrationAudioContext n with
              | Some _ => set_narrationAudioContext (Some running) n
              | None => n
              end in
            decodeChunk processNext (task_version t) (task_audio t)
              (task_notify t) n
          else (set_isPlayingNarration false n, task_notify t)
      | awaitDecode => (n, false)
      end
  | None => (n, false)
  end.

(** The continuation after [await decodeAudioData(...)]. *)
Definition onDecodeSettled (tid : nat) (decoded startable : bool)
    (n : Narration) : Narration * bool :=
  match narrationTasks n !! tid with
  | Some t =>
      match task_await t with
      | awaitDecode =>
          let n := wake tid n in
          if negb decoded then
            (failedChunk processNext (task_version t) n, task_notify t)
          else if negb (task_version t =? narrationVersion n) then
            (set_isPlayingNarration false n, task_notify t)
          else if negb startable then
            (failedChunk processNext (task_version t) n, task_notify t)
          else
            (startSource (task_audio t) (task_version t) n, task_notify t)
      | awaitResume => (n, false)
      end
  | None => (n, false)
  end.

(** [source.onended] *)
Definition onSourceEnded (sid : nat) (n : Narration) : Narration :=
  if bool_decide (sid ∈ pendingEnded n) then
    match started n !! sid with
    | Some src =>
        let n := retire sid n in
        let n := set_isPlayingNarration false n in
        let n :=
          if bool_decide (currentNarrationSource n = Some sid)
          then set_currentNarrationSource None n else n in
        if src_version src =? narrationVersion n then processNext n else n
    | None => n
    end
  else n.

Definition narrationStep (e : NarrationEvent) (n : Narration)
  : Narration * bool :=
  match e with
  | resumeSettled tid ok => onResumeSettled tid ok n
  | decodeSettled tid decoded startable =>
      onDecodeSettled tid decoded startable n
  | sourceEnded sid => (onSourceEnded sid n, false)
  | contextStateChanged s =>
      (match narrationAudioContext n with
       | Some _ => set_narrationAudioContext (Some s) n
       | None => n
       end, false)
  | contextFactoryChanged f => (set_narrationContextFactory f n, false)
  end.

Definition narrationRun (es : list NarrationEvent) (n : Narration)
  : Narration :=
  foldl (fun n e => fst (narrationStep e n)) n es.

End NarrationPlayer.

(** ** Dialogue segments and character voices

    The "Character Voice Logic" block of [handleSendMessage]. *)

Record DialoguePart := { speaker : string; part_text : string }.

(** [!newCharacterVoices[speaker]] is false: the speaker has a voice, and
    the voice is not the empty string. *)
Definition hasVoice (voices : gmap string string) (name : string) : bool :=
  match voices !! name with
  | Some v => JsString.truthy v
  | None => false
  end.

(** [Set.prototype.add] on a set kept in insertion order. *)
Definition setAdd (x : string) (l : list string) : list string :=
  if bool_decide (x ∈ l) then l else l ++ [x].

(** One round of [for (const match of matches)]. *)
Definition scanMatch (voices : gmap string string)
    (acc : list DialoguePart * list string) (m : string * string)
  : list DialoguePart * list string :=
  let '(dialogueParts, unassignedChars) := acc in
  let name := JsString.trim (fst m) in
  let txt := JsString.trim (JsString.stripMarkup (snd m)) in
  if negb (JsString.truthy txt) then acc
  else
    (dialogueParts ++ [{| speaker := name; part_text := txt |}],
     if negb (hasVoice voices name) then setAdd name unassignedChars
     else unassignedChars).

(** The loop over the matches, then the branch for un-tagged text. *)
Definition deriveDialogue (voices : gmap string string) (storyText : string)
  : list DialoguePart * list string :=
  let '(dialogueParts, unassignedChars) :=
    foldl (scanMatch voices) ([], []) (JsString.matchAllTags storyText) in
  if bool_decide (dialogueParts = []) && JsString.truthy (JsString.trim storyText)
  then ([{| speaker := "NARRATOR"; part_text := storyText |}], unassignedChars)
  else (dialogueParts, unassignedChars).

(** [availableVoices.filter(v => !assignedVoices.has(v))] with
    [assignedVoices = new Set(Object.values(newCharacterVoices))]. *)
Definition availableVoicePool (voices : gmap string string) : list string :=
  filter (fun v => v ∉ (map_to_list voices).*2) availableVoices.

(** ** Numbers

    A finite JavaScript Number is a rational here.  An arithmetic
    operation gives the binary64 value nearest to its exact result, which
    is written out. *)

Module JsNumber.

(** The exponent of the leading bit of a positive rational [x]:
    [2^e <= x < 2^(e+1)]. *)
Definition binade (x : Q) : Z :=
  let a := (Z.log2 (Qnum x) - Z.log2 (Zpos (Qden x)))%Z in
  if Qle_bool (2 ^ a) x then a else (a - 1)%Z.

(** The nearest integer, ties to the even one. *)
Definition roundHalfEven (t : Q) : Z :=
  let f := Qfloor t in
  match (t - inject_Z f ?= 1 # 2)%Q with
  | Lt => f
  | Gt => (f + 1)%Z
  | Eq => if Z.even f then f else (f + 1)%Z
  end.

(** The spacing of the binary64 values around a positive [x]: 53
    significant bits, and never finer than [2^-1074]. *)
Definition ulp (x : Q) : Q := 2 ^ (Z.max (binade x) (-1022) - 52).

Definition roundPositive (x : Q) : Q :=
  inject_Z (roundHalfEven (x / ulp x)) * ulp x.

(** The binary64 value nearest to [x], ties to even, as every arithmetic
    operation on Numbers rounds its exact result; results beyond the
    largest finite value are not covered. *)
Definition roundDouble (x : Q) : Q :=
  match (x ?= 0)%Q with
  | Eq => 0
  | Gt => roundPositive x
  | Lt => - roundPositive (- x)
  end.

(** [x * y] on Numbers. *)
Definition multiply (x y : Q) : Q := roundDouble (x * y).

(** A finite binary64 value: [m * 2^e] with a significand below [2^53]
    and an exponent from [-1074] to [971]. *)
Definition isDouble (x : Q) : Prop :=
  exists m e : Z,
    (Z.abs m < 2 ^ 53)%Z /\ (-1074 <= e <= 971)%Z /\ x == inject_Z m * 2 ^ e.

End JsNumber.

(** What [Math.random()] returns: a double that is at least 0 and below
    1. *)
Definition unitDouble (r : Q) : Prop :=
  JsNumber.isDouble r /\ (0 <= r)%Q /\ (r < 1)%Q.

Section Random.

(** [Math.random()]: the value of its [k]-th call, a double in [[0, 1)]. *)
Variable Math_random : nat -> Q.

(** [arr[Math.floor(Math.random() * arr.length)]], drawing call number
    [k]; [None] stands for [undefined]. *)
Definition getRandomElement {T} (k : nat) (arr : list T) : option T :=
  let i :=
    Qfloor (JsNumber.multiply (Math_random k) (inject_Z (Z.of_nat (length arr)))) in
  if (i <? 0)%Z then None else arr !! Z.to_nat i.

(** One round of [unassignedChars.forEach]: the state is the voice map,
    what is left of the pool, and the number of calls of [Math.random] so
    far.  An [undefined] draw is stored as the empty string, which every
    later test treats alike. *)
Definition assignVoice (acc : gmap string string * list string * nat)
    (char : string) : gmap string string * list string * nat :=
  let '(voices, pool, k) := acc in
  match pool with
  | v :: pool' => (<[char := v]> voices, pool', k)
  | [] =>
      (<[char := default EmptyString (getRandomElement k availableVoices)]> voices,
       [], S k)
  end.

Definition assignVoices (voices : gmap string string)
    (unassignedChars : list string) (k : nat) : gmap string string * nat :=
  let '(voices', _, k') :=
    foldl assignVoice (voices, availableVoicePool voices, k) unassignedChars in
  (voices', k').

(** [newCharacterVoices[part.speaker] || narratorVoice] *)
Definition voiceOf (voices : gmap string string) (name : string) : string :=
  match voices !! name with
  | Some v => if JsString.truthy v then v else narratorVoice
  | None => narratorVoice
  end.

(** The arguments of the [textToSpeech] calls, in order. *)
Definition speechRequests (voices : gmap string string)
    (dialogueParts : list DialoguePart) : list (string * string) :=
  map (fun part => (part_text part, voiceOf voices (speaker part))) dialogueParts.

(** The template literal of [imagePrompt]; it draws calls [k], [k+1] and
    [k+2] of [Math.random]. *)
Definition imagePrompt (k : nat) (storyText : string) : string :=
  let pick arr j := default "undefined"%string (getRandomElement j arr) in
  "A " +:+ pick imageAdjectives k +:+ " " +:+ pick imageStyles (S k) +:+ ", "
    +:+ pick imageDetails (S (S k)) +:+ ", of: "
    +:+ JsString.take 300 (JsString.dropMarkup storyText).

End Random.

(** ** The ambiance player

    The refs [ambianceAudioContext], [ambianceGainNode],
    [currentAmbianceSource] and [currentAmbianceUrl], the looping sources
    started so far, the old sources whose stop is scheduled, and the
    invocations of [playAmbiance] suspended at an [await].  Gain automation
    is kept as the list of calls made on the gain parameter, without their
    times. *)

Inductive GainLevel := gainZero | gainAmbiance.

Inductive GainOp :=
| gainValue (v : GainLevel)
| linearRampToValueAtTime (v : GainLevel)
| setValueAtTime (v : GainLevel)
| cancelScheduledValues.

Inductive AmbianceAwait :=
| ambAwaitResume | ambAwaitFetch | ambAwaitBody | ambAwaitDecode.

(** A suspended invocation of [playAmbiance]: its argument [url] and the
    [isAmbianceMuted] of the render it closes over. *)
Record AmbianceTask := {
  amb_url : string;
  amb_muted : bool;
  amb_await : AmbianceAwait
}.

Record Ambiance := {
  ambianceAudioContext : option AudioContextState;
  ambianceGainNode : option (list GainOp);
  currentAmbianceSource : option nat;
  currentAmbianceUrl : option string;
  ambianceStarted : list string;
  scheduledStops : list nat;
  ambianceTasks : gmap nat AmbianceTask;
  nextAmbianceTask : nat;
  ambianceContextFactory : option AudioContextState
}.

Definition set_ambianceAudioContext v (a : Ambiance) : Ambiance :=
  {| ambianceAudioContext := v; ambianceGainNode := ambianceGainNode a;
     currentAmbianceSource := currentAmbianceSource a;
     currentAmbianceUrl := currentAmbianceUrl a;
     ambianceStarted := ambianceStarted a; scheduledStops := scheduledStops a;
     ambianceTasks := ambianceTasks a; nextAmbianceTask := nextAmbianceTask a;
     ambianceContextFactory := ambianceContextFactory a |}.

Definition set_ambianceGainNode v (a : Ambiance) : Ambiance :=
  {| ambianceAudioContext := ambianceAudioContext a; ambianceGainNode := v;
     currentAmbianceSource := currentAmbianceSource a;
     currentAmbianceUrl := currentAmbianceUrl a;
     ambianceStarted := ambianceStarted a; scheduledStops := scheduledStops a;
     ambianceTasks := ambianceTasks a; nextAmbianceTask := nextAmbianceTask a;
     ambianceContextFactory := ambianceContextFactory a |}.

Definition set_currentAmbianceSource v (a : Ambiance) : Ambiance :=
  {| ambianceAudioContext := ambianceAudioContext a;
     ambianceGainNode := ambianceGainNode a; currentAmbianceSource := v;
     currentAmbianceUrl := currentAmbianceUrl a;
     ambianceStarted := ambianceStarted a; scheduledStops := scheduledStops a;
     ambianceTasks := ambianceTasks a; nextAmbianceTask := nextAmbianceTask a;
     ambianceContextFactory := ambianceContextFactory a |}.

Definition set_currentAmbianceUrl v (a : Ambiance) : Ambiance :=
  {| ambianceAudioContext := ambianceAudioContext a;
     ambianceGainNode := ambianceGainNode a;
     currentAmbianceSource := currentAmbianceSource a;
     currentAmbianceUrl := v; ambianceStarted := ambianceStarted a;
     scheduledStops := scheduledStops a; ambianceTasks := ambianceTasks a;
     nextAmbianceTask := nextAmbianceTask a;
     ambianceContextFactory := ambianceContextFactory a |}.

Definition set_ambianceContextFactory v (a : Ambiance) : Ambiance :=
  {| ambianceAudioContext := ambianceAudioContext a;
     ambianceGainNode := ambianceGainNode a;
     currentAmbianceSource := currentAmbianceSource a;
     currentAmbianceUrl := currentAmbianceUrl a;
     ambianceStarted := ambianceStarted a; scheduledStops := scheduledStops a;
     ambianceTasks := ambianceTasks a; nextAmbianceTask := nextAmbianceTask a;
     ambianceContextFactory := v |}.

(** A call on [gainNode.gain]; nothing is recorded without a gain node. *)
Definition gainCall (op : GainOp) (a : Ambiance) : Ambiance :=
  match ambianceGainNode a with
  | Some ops => set_ambianceGainNode (Some (ops ++ [op])) a
  | None => a
  end.

(** [setTimeout(() => { oldSource.stop(); ... }, FADE_TIME * 1000)] *)
Definition scheduleStop (sid : nat) (a : Ambiance) : Ambiance :=
  {| ambianceAudioContext := ambianceAudioContext a;
     ambianceGainNode := ambianceGainNode a;
     currentAmbianceSource := currentAmbianceSource a;
     currentAmbianceUrl := currentAmbianceUrl a;
     ambianceStarted := ambianceStarted a;
     scheduledStops := scheduledStops a ++ [sid];
     ambianceTasks := ambianceTasks a; nextAmbianceTask := nextAmbianceTask a;
     ambianceContextFactory := ambianceContextFactory a |}.

Definition ambSuspend (t : AmbianceTask) (a : Ambiance) : Ambiance :=
  {| ambianceAudioContext := ambianceAudioContext a;
     ambianceGainNode := ambianceGainNode a;
     currentAmbianceSource := currentAmbianceSource a;
     currentAmbianceUrl := currentAmbianceUrl a;
     ambianceStarted := ambianceStarted a; scheduledStops := scheduledStops a;
     ambianceTasks := <[nextAmbianceTask a := t]> (ambianceTasks a);
     nextAmbianceTask := S (nextAmbianceTask a);
     ambianceContextFactory := ambianceContextFactory a |}.

Definition ambWake (tid : nat) (a : Ambiance) : Ambiance :=
  {| ambianceAudioContext := ambianceAudioContext a;
     ambianceGainNode := ambianceGainNode a;
     currentAmbianceSource := currentAmbianceSource a;
     currentAmbianceUrl := currentAmbianceUrl a;
     ambianceStarted := ambianceStarted a; scheduledStops := scheduledStops a;
     ambianceTasks := delete tid (ambianceTasks a);
     nextAmbianceTask := nextAmbianceTask a;
     ambianceContextFactory := ambianceContextFactory a |}.

(** [newSource.start(...); currentAmbianceSource.current = newSource] *)
Definition ambStart (url : string) (a : Ambiance) : Ambiance :=
  {| ambianceAudioContext := ambianceAudioContext a;
     ambianceGainNode := ambianceGainNode a;
     currentAmbianceSource := Some (length (ambianceStarted a));
     currentAmbianceUrl := currentAmbianceUrl a;
     ambianceStarted := ambianceStarted a ++ [url];
     scheduledStops := scheduledStops a; ambianceTasks := ambianceTasks a;
     nextAmbianceTask := nextAmbianceTask a;
     ambianceContextFactory := ambianceContextFactory a |}.

Definition initialAmbiance (factory : option AudioContextState) : Ambiance :=
  {| ambianceAudioContext := None; ambianceGainNode := None;
     currentAmbianceSource := None; currentAmbianceUrl := None;
     ambianceStarted := []; scheduledStops := []; ambianceTasks := ∅;
     nextAmbianceTask := 0; ambianceContextFactory := factory |}.

Inductive AmbianceEvent :=
| ambResumeSettled (tid : nat) (ok : bool)
    (** the promise of [audioCtx.resume()] *)
| ambFetchSettled (tid : nat) (response : option (bool * option string))
    (** the promise of [fetch(url)]: rejected, or a response with its [ok]
        flag and its content type *)
| ambBodySettled (tid : nat) (byteLength : option nat)
    (** the promise of [response.arrayBuffer()] *)
| ambDecodeSettled (tid : nat) (decoded : bool) (startable : bool)
    (** the promise of [audioCtx.decodeAudioData(arrayBuffer)], and whether
        creating, connecting and starting the source would succeed *)
| ambContextStateChanged (s : AudioContextState)
| ambContextFactoryChanged (f : option AudioContextState).

Module AmbiancePlayer.

(** The [catch] of [playAmbiance]. *)
Definition failed (a : Ambiance) : Ambiance := set_currentAmbianceUrl None a.

(** From [const gainNode = ambianceGainNode.current!] to [await fetch(url)]. *)
Definition fadeOutAndFetch (url : string) (muted : bool) (a : Ambiance)
  : Ambiance :=
  let a :=
    match currentAmbianceSource a with
    | Some oldSource =>
        let a := gainCall (linearRampToValueAtTime gainZero) a in
        let a := scheduleStop oldSource a in
        set_currentAmbianceSource None a
    | None => a
    end in
  ambSuspend {| amb_url := url; amb_muted := muted; amb_await := ambAwaitFetch |} a.

(** [playAmbiance(url)], up to its first [await], called from a render
    whose [isAmbianceMuted] is [muted]. *)
Definition playAmbiance (url : string) (muted : bool) (a : Ambiance) : Ambiance :=
  if bool_decide (currentAmbianceUrl a = Some url) then a
  else
    let a := set_currentAmbianceUrl (Some url) a in
    let created :=
      match ambianceAudioContext a with
      | Some _ => Some a
      | None =>
          match ambianceContextFactory a with
          | Some s =>
              let a := set_ambianceAudioContext (Some s) a in
              Some (set_ambianceGainNode
                      (Some [gainValue (if muted then gainZero else gainAmbiance)]) a)
          | None => None
          end
      end in
    match created with
    | None => a
    | Some a =>
        match ambianceAudioContext a with
        | Some suspended =>
            ambSuspend {| amb_url := url; amb_muted := muted;
                          amb_await := ambAwaitResume |} a
        | _ => fadeOutAndFetch url muted a
        end
    end.

Definition onResumeSettled (tid : nat) (ok : bool) (a : Ambiance) : Ambiance :=
  match ambianceTasks a !! tid with
  | Some t =>
      match amb_await t with
      | ambAwaitResume =>
          let a := ambWake tid a in
          if ok then
            let a :=
              match ambianceAudioContext a with
              | Some _ => set_ambianceAudioContext (Some running) a
              | None => a
              end in
            fadeOutAndFetch (amb_url t) (amb_muted t) a
          else a
      | _ => a
      end
  | None => a
  end.

Definition onFetchSettled (tid : nat) (response : option (bool * option string))
    (a : Ambiance) : Ambiance :=
  match ambianceTasks a !! tid with
  | Some t =>
      match amb_await t with
      | ambAwaitFetch =>
          let a := ambWake tid a in
          match response with
          | None => failed a
          | Some (ok, contentType) =>
              if negb ok then failed a
              else
                ambSuspend {| amb_url := amb_url t; amb_muted := amb_muted t;
                              amb_await := ambAwaitBody |} a
          end
      | _ => a
      end
  | None => a
  end.

Definition onBodySettled (tid : nat) (byteLength : option nat) (a : Ambiance)
  : Ambiance :=
  match ambianceTasks a !! tid with
  | Some t =>
      match amb_await t with
      | ambAwaitBody =>
          let a := ambWake tid a in
          match byteLength with
          | None => failed a
          | Some len =>
              if len <? 1024 then failed a
              else
                ambSuspend {| amb_url := amb_url t; amb_muted := amb_muted t;
                              amb_await := ambAwaitDecode |} a
          end
      | _ => a
      end
  | None => a
  end.

Definition onDecodeSettled (tid : nat) (decoded startable : bool) (a : Ambiance)
  : Ambiance :=
  match ambianceTasks a !! tid with
  | Some t =>
      match amb_await t with
      | ambAwaitDecode =>
          let a := ambWake tid a in
          if negb decoded || negb startable then failed a
          else
            let a := ambStart (amb_url t) a in
            let a := gainCall cancelScheduledValues a in
            if negb (amb_muted t) then
              let a := gainCall (setValueAtTime gainZero) a in
              gainCall (linearRampToValueAtTime gainAmbiance) a
            else gainCall (setValueAtTime gainZero) a
      | _ => a
      end
  | None => a
  end.

Definition step (e : AmbianceEvent) (a : Ambiance) : Ambiance :=
  match e with
  | ambResumeSettled tid ok => onResumeSettled tid ok a
  | ambFetchSettled tid response => onFetchSettled tid response a
  | ambBodySettled tid byteLength => onBodySettled tid byteLength a
  | ambDecodeSettled tid decoded startable => onDecodeSettled tid decoded startable a
  | ambContextStateChanged s =>
      match ambianceAudioContext a with
      | Some _ => set_ambianceAudioContext (Some s) a
      | None => a
      end
  | ambContextFactoryChanged f => set_ambianceContextFactory f a
  end.

(** The gain-node half of [handleToggleAmbianceMute]. *)
Definition toggleMute (newMutedState : bool) (a : Ambiance) : Ambiance :=
  match ambianceAudioContext a with
  | Some _ =>
      gainCall (linearRampToValueAtTime
                  (if newMutedState then gainZero else gainAmbiance)) a
  | None => a
  end.

End AmbiancePlayer.

(** ** The component state

    The React state variables of [App] that the orchestration reads or
    writes, its refs, the turns of [handleSendMessage] suspended at an
    [await], and the number of calls of [Math.random] made so far.  The
    font settings and the save slot play no part in it and are left out. *)

(** Where a turn is suspended: at [await chatSession.current.sendMessage],
    or at [await Promise.all], with the locals that outlive it. *)
Inductive TurnAwait :=
| awaitGeneration
| awaitAll (finalChatHistory : list ChatMessage) (newChoices : JSValue)
    (storyText : string) (prompt : string) (requests : list (string * string)).

(** A suspended invocation of [handleSendMessage]: the [history],
    [historyIndex], [characterVoices] and [isAmbianceMuted] of the render
    it closes over, and its locals. *)
Record TurnTask := {
  turn_history : list StoryState;
  turn_historyIndex : nat;
  turn_characterVoices : gmap string string;
  turn_isAmbianceMuted : bool;
  turn_userInput : string;
  turn_newChatHistory : list ChatMessage;
  turn_await : TurnAwait
}.

Record App := {
  chatHistory : list ChatMessage;
  imageUrl : option string;
  isLoading : bool;
  choices : JSValue;
  isShareable : bool;
  isAmbianceMuted : bool;
  characterVoices : gmap string string;
  history : list StoryState;
  historyIndex : nat;
  chatSession : bool;
  welcomeAudioHandled : bool;
  narration : Narration;
  ambiance : Ambiance;
  turns : gmap nat TurnTask;
  nextTurn : nat;
  randomCalls : nat
}.

Definition set_chatHistory (v : list ChatMessage) (s : App) : App :=
  {| chatHistory := v; imageUrl := imageUrl s; isLoading := isLoading s;
     choices := choices s; isShareable := isShareable s;
     isAmbianceMuted := isAmbianceMuted s;
     characterVoices := characterVoices s; history := history s;
     historyIndex := historyIndex s; chatSession := chatSession s;
     welcomeAudioHandled := welcomeAudioHandled s; narration := narration s;
     ambiance := ambiance s; turns := turns s; nextTurn := nextTurn s;
     randomCalls := randomCalls s |}.

Definition set_imageUrl (v : option string) (s : App) : App :=
  {| chatHistory := chatHistory s; imageUrl := v; isLoading := isLoading s;
     choices := choices s; isShareable := isShareable s;
     isAmbianceMuted := isAmbianceMuted s;
     characterVoices := characterVoices s; history := history s;
     historyIndex := historyIndex s; chatSession := chatSession s;
     welcomeAudioHandled := welcomeAudioHandled s; narration := narration s;
     ambiance := ambiance s; turns := turns s; nextTurn := nextTurn s;
     randomCalls := randomCalls s |}.

Definition set_isLoading (v : bool) (s : App) : App :=
  {| chatHistory := chatHistory s; imageUrl := imageUrl s; isLoading := v;
     choices := choices s; isShareable := isShareable s;
     isAmbianceMuted := isAmbianceMuted s;
     characterVoices := characterVoices s; history := history s;
     historyIndex := historyIndex s; chatSession := chatSession s;
     welcomeAudioHandled := welcomeAudioHandled s; narration := narration s;
     ambiance := ambiance s; turns := turns s; nextTurn := nextTurn s;
     randomCalls := randomCalls s |}.

Definition set_choices (v : JSValue) (s : App) : App :=
  {| chatHistory := chatHistory s; imageUrl := imageUrl s;
     isLoading := isLoading s; choices := v; isShareable := isShareable s;
     isAmbianceMuted := isAmbianceMuted s;
     characterVoices := characterVoices s; history := history s;
     historyIndex := historyIndex s; chatSession := chatSession s;
     welcomeAudioHandled := welcomeAudioHandled s; narration := narration s;
     ambiance := ambiance s; turns := turns s; nextTurn := nextTurn s;
     randomCalls := randomCalls s |}.

Definition set_isShareable (v : bool) (s : App) : App :=
  {| chatHistory := chatHistory s; imageUrl := imageUrl s;
     isLoading := isLoading s; choices := choices s; isShareable := v;
     isAmbianceMuted := isAmbianceMuted s;
     characterVoices := characterVoices s; history := history s;
     historyIndex := historyIndex s; chatSession := chatSession s;
     welcomeAudioHandled := welcomeAudioHandled s; narration := narration s;
     ambiance := ambiance s; turns := turns s; nextTurn := nextTurn s;
     randomCalls := randomCalls s |}.

Definition set_isAmbianceMuted (v : bool) (s : App) : App :=
  {| chatHistory := chatHistory s; imageUrl := imageUrl s;
     isLoading := isLoading s; choices := choices s;
     isShareable := isShareable s; isAmbianceMuted := v;
     characterVoices := characterVoices s; history := history s;
     historyIndex := historyIndex s; chatSession := chatSession s;
     welcomeAudioHandled := welcomeAudioHandled s; narration := narration s;
     ambiance := ambiance s; turns := turns s; nextTurn := nextTurn s;
     randomCalls := randomCalls s |}.

Definition set_characterVoices (v : gmap string string) (s : App) : App :=
  {| chatHistory := chatHistory s; imageUrl := imageUrl s;
     isLoading := isLoading s; choices := choices s;
     isShareable := isShareable s; isAmbianceMuted := isAmbianceMuted s;
     characterVoices := v; history := history s;
     historyIndex := historyIndex s; chatSession := chatSession s;
     welcomeAudioHandled := welcomeAudioHandled s; narration := narration s;
     ambiance := ambiance s; turns := turns s; nextTurn := nextTurn s;
     randomCalls := randomCalls s |}.

Definition set_history (v : list StoryState) (s : App) : App :=
  {| chatHistory := chatHistory s; imageUrl := imageUrl s;
     isLoading := isLoading s; choices := choices s;
     isShareable := isShareable s; isAmbianceMuted := isAmbianceMuted s;
     characterVoices := characterVoices s; history := v;
     historyIndex := historyIndex s; chatSession := chatSession s;
     welcomeAudioHandled := welcomeAudioHandled s; narration := narration s;
     ambiance := ambiance s; turns := turns s; nextTurn := nextTurn s;
     randomCalls := randomCalls s |}.

Definition set_historyIndex (v : nat) (s : App) : App :=
  {| chatHistory := chatHistory s; imageUrl := imageUrl s;
     isLoading := isLoading s; choices := choices s;
     isShareable := isShareable s; isAmbianceMuted := isAmbianceMuted s;
     characterVoices := characterVoices s; history := history s;
     historyIndex := v; chatSession := chatSession s;
     welcomeAudioHandled := welcomeAudioHandled s; narration := narration s;
     ambiance := ambiance s; turns := turns s; nextTurn := nextTurn s;
     randomCalls := randomCalls s |}.

Definition set_chatSession (v : bool) (s : App) : App :=
  {| chatHistory := chatHistory s; imageUrl := imageUrl s;
     isLoading := isLoading s; choices := choices s;
     isShareable := isShareable s; isAmbianceMuted := isAmbianceMuted s;
     characterVoices := characterVoices s; history := history s;
     historyIndex := historyIndex s; chatSession := v;
     welcomeAudioHandled := welcomeAudioHandled s; narration := narration s;
     ambiance := ambiance s; turns := turns s; nextTurn := nextTurn s;
     randomCalls := randomCalls s |}.

Definition set_welcomeAudioHandled (v : bool) (s : App) : App :=
  {| chatHistory := chatHistory s; imageUrl := imageUrl s;
     isLoading := isLoading s; choices := choices s;
     isShareable := isShareable s; isAmbianceMuted := isAmbianceMuted s;
     characterVoices := characterVoices s; history := history s;
     historyIndex := historyIndex s; chatSession := chatSession s;
     welcomeAudioHandled := v; narration := narration s;
     ambiance := ambiance s; turns := turns s; nextTurn := nextTurn s;
     randomCalls := randomCalls s |}.

Definition set_narration (v : Narration) (s : App) : App :=
  {| chatHistory := chatHistory s; imageUrl := imageUrl s;
     isLoading := isLoading s; choices := choices s;
     isShareable := isShareable s; isAmbianceMuted := isAmbianceMuted s;
     characterVoices := characterVoices s; history := history s;
     historyIndex := historyIndex s; chatSession := chatSession s;
     welcomeAudioHandled := welcomeAudioHandled s; narration := v;
     ambiance := ambiance s; turns := turns s; nextTurn := nextTurn s;
     randomCalls := randomCalls s |}.

Definition set_ambiance (v : Ambiance) (s : App) : App :=
  {| chatHistory := chatHistory s; imageUrl := imageUrl s;
     isLoading := isLoading s; choices := choices s;
     isShareable := isShareable s; isAmbianceMuted := isAmbianceMuted s;
     characterVoices := characterVoices s; history := history s;
     historyIndex := historyIndex s; chatSession := chatSession s;
     welcomeAudioHandled := welcomeAudioHandled s; narration := narration s;
     ambiance := v; turns := turns s; nextTurn := nextTurn s;
     randomCalls := randomCalls s |}.

Definition set_turns (v : gmap nat TurnTask) (s : App) : App :=
  {| chatHistory := chatHistory s; imageUrl := imageUrl s;
     isLoading := isLoading s; choices := choices s;
     isShareable := isShareable s; isAmbianceMuted := isAmbianceMuted s;
     characterVoices := characterVoices s; history := history s;
     historyIndex := historyIndex s; chatSession := chatSession s;
     welcomeAudioHandled := welcomeAudioHandled s; narration := narration s;
     ambiance := ambiance s; turns := v; nextTurn := nextTurn s;
     randomCalls := randomCalls s |}.

Definition set_nextTurn (v : nat) (s : App) : App :=
  {| chatHistory := chatHistory s; imageUrl := imageUrl s;
     isLoading := isLoading s; choices := choices s;
     isShareable := isShareable s; isAmbianceMuted := isAmbianceMuted s;
     characterVoices := characterVoices s; history := history s;
     historyIndex := historyIndex s; chatSession := chatSession s;
     welcomeAudioHandled := welcomeAudioHandled s; narration := narration s;
     ambiance := ambiance s; turns := turns s; nextTurn := v;
     randomCalls := randomCalls s |}.

Definition set_randomCalls (v : nat) (s : App) : App :=
  {| chatHistory := chatHistory s; imageUrl := imageUrl s;
     isLoading := isLoading s; choices := choices s;
     isShareable := isShareable s; isAmbianceMuted := isAmbianceMuted s;
     characterVoices := characterVoices s; history := history s;
     historyIndex := historyIndex s; chatSession := chatSession s;
     welcomeAudioHandled := welcomeAudioHandled s; narration := narration s;
     ambiance := ambiance s; turns := turns s; nextTurn := nextTurn s;
     randomCalls := v |}.

Definition initialApp (narrationFactory ambianceFactory : option AudioContextState)
  : App :=
  {| chatHistory := StoryState.chatHistory initialStoryState;
     imageUrl := StoryState.imageUrl initialStoryState;
     isLoading := false;
     choices := StoryState.choices initialStoryState;
     isShareable := false;
     isAmbianceMuted := false;
     characterVoices := {[ "NARRATOR"%string := narratorVoice ]};
     history := [initialStoryState];
     historyIndex := 0;
     chatSession := true;
     welcomeAudioHandled := false;
     narration := initialNarration narrationFactory;
     ambiance := initialAmbiance ambianceFactory;
     turns := ∅;
     nextTurn := 0;
     randomCalls := 0 |}.

(** What happens to the orchestration state: the user's actions on the
    story, and the promises that settle.  The clicks on Save and on Load,
    which act on the storage and on the font settings as well, are events
    of the whole component, [ShellEvent] below. *)
Inductive AppEvent :=
| sendMessage (userInput : string)
| undoClicked
| redoClicked
| muteToggled
| welcomeSpeechSettled (audio : option string)
    (** the [textToSpeech] call of [initializeApp] *)
| generationSettled (tid : nat) (response : option (option string))
    (** [chatSession.current.sendMessage]: rejected, or a response whose
        [text] is [undefined] or a string *)
| allSettled (tid : nat) (newImageUrl ambianceKeyword : string)
    (speech : nat -> option string)
    (** [Promise.all]: the illustration, the mood, and for the [i]-th
        [textToSpeech] call its payload, or [None] when it rejects *)
| narrationEvent (e : NarrationEvent)
| ambianceEvent (e : AmbianceEvent).

Section Orchestration.

Variable decodeThrows : string -> bool.

(** [JSON.parse]: [None] when it throws. *)
Variable JSON_parse : string -> option JSValue.

Variable Math_random : nat -> Q.

(** The effect "Sync component state with history for undo/redo", run
    when [history] or [historyIndex] has changed. *)
Definition syncWithHistory (s : App) : App :=
  match history s !! historyIndex s with
  | Some snap =>
      let s := set_chatHistory (StoryState.chatHistory snap) s in
      let s := set_imageUrl (StoryState.imageUrl snap) s in
      set_choices (StoryState.choices snap) s
  | None => s
  end.

(** [chatHistory.length > 1 && imageUrl &&
    !imageUrl.includes('picsum.photos/seed/welcome')], as a truth value. *)
Definition storyHasBegun (chat : list ChatMessage) (url : option string)
  : bool :=
  (1 <? length chat) &&
  match url with
  | Some u =>
      JsString.truthy u && negb (JsString.includes "picsum.photos/seed/welcome" u)
  | None => false
  end.

(** The effect on [chatHistory] and [imageUrl]. *)
Definition syncShareable (s : App) : App :=
  set_isShareable (storyHasBegun (chatHistory s) (imageUrl s)) s.

Definition handleUndo (s : App) : App :=
  if History.canUndo (historyIndex s) then
    syncShareable (syncWithHistory (set_historyIndex (historyIndex s - 1) s))
  else s.

Definition handleRedo (s : App) : App :=
  if History.canRedo (history s) (historyIndex s) then
    syncShareable (syncWithHistory (set_historyIndex (historyIndex s + 1) s))
  else s.

Definition handleToggleAmbianceMute (s : App) : App :=
  let newMutedState := negb (isAmbianceMuted s) in
  let s := set_isAmbianceMuted newMutedState s in
  set_ambiance (AmbiancePlayer.toggleMute newMutedState (ambiance s)) s.

(** The [.then] and [.catch] of the welcome [textToSpeech] call. *)
Definition onWelcomeSpeechSettled (audio : option string) (s : App) : App :=
  match audio with
  | Some audioData =>
      if negb (welcomeAudioHandled s) then
        let s := set_welcomeAudioHandled true s in
        set_narration (fst (playNarration decodeThrows false audioData (narration s))) s
      else s
  | None => set_welcomeAudioHandled true s
  end.

(** The value bound to [key] among the properties of an object,
    [undefined] when there is none. *)
Fixpoint lookupProp (key : string) (props : list (string * JSValue))
  : JSValue :=
  match props with
  | [] => JUndefined
  | (k, v) :: rest => if bool_decide (k = key) then v else lookupProp key rest
  end.

(** [v.key] for the keys [story] and [choices]: [None] when the access
    throws, that is on [null] and [undefined]; numbers, booleans, strings
    and arrays have no such property. *)
Definition getProp (v : JSValue) (key : string) : option JSValue :=
  match v with
  | JUndefined | JNull => None
  | JObj props => Some (lookupProp key props)
  | _ => Some JUndefined
  end.

(** The inner [try]/[catch] of [handleSendMessage]: [storyText] and
    [newChoices] after it.  Both assignments come before the test that
    throws, and the [catch] resets [storyText] alone. *)
Definition parseResponse (responseText : string) : string * JSValue :=
  match JSON_parse responseText with
  | None => (responseText, JArr [])
  | Some parsedResponse =>
      match getProp parsedResponse "story", getProp parsedResponse "choices" with
      | Some story, Some newChoices =>
          match story, newChoices with
          | JStr storyText, JArr _ => (storyText, newChoices)
          | _, _ => (responseText, newChoices)
          end
      | _, _ => (responseText, JArr [])
      end
  end.

Definition spawnTurn (t : TurnTask) (s : App) : App :=
  set_nextTurn (S (nextTurn s)) (set_turns (<[nextTurn s := t]> (turns s)) s).

(** [handleSendMessage(userInput)], up to
    [await chatSession.current.sendMessage]. *)
Definition handleSendMessage (userInput : string) (s : App) : App :=
  if negb (JsString.truthy (JsString.trim userInput)) || isLoading s
     || negb (chatSession s)
  then s
  else
    let render := s in
    let s := set_welcomeAudioHandled true s in
    let s := set_narration (stopNarration (narration s)) s in
    let s := set_isLoading true s in
    let s := set_choices (JArr []) s in
    let userMessage := {| author := USER; text := userInput |} in
    let currentChatHistory :=
      match history render !! historyIndex render with
      | Some snap => StoryState.chatHistory snap
      | None => []
      end in
    let newChatHistory := currentChatHistory ++ [userMessage] in
    let s := set_chatHistory newChatHistory s in
    let s :=
      spawnTurn {| turn_history := history render;
                   turn_historyIndex := historyIndex render;
                   turn_characterVoices := characterVoices render;
                   turn_isAmbianceMuted := isAmbianceMuted render;
                   turn_userInput := userInput;
                   turn_newChatHistory := newChatHistory;
                   turn_await := awaitGeneration |} s in
    syncShareable s.

(** The [catch] and the [finally] of [handleSendMessage]. *)
Definition turnFailed (s : App) : App :=
  let s := set_chatHistory (chatHistory s ++ [errorMessage]) s in
  let s := set_isLoading false s in
  syncShareable s.

(** From the response of the generation call to [await Promise.all]. *)
Definition onGenerationSettled (tid : nat) (response : option (option string))
    (s : App) : App :=
  match turns s !! tid with
  | Some t =>
      match turn_await t with
      | awaitGeneration =>
          let s := set_turns (delete tid (turns s)) s in
          match response with
          | None => turnFailed s
          | Some None =>
              (* [storyText] is [undefined]: the template literal draws its
                 three random elements, then [storyText.replace] throws *)
              turnFailed (set_randomCalls (3 + randomCalls s) s)
          | Some (Some responseText) =>
              let '(storyText, newChoices) := parseResponse responseText in
              let modelMessage := {| author := MODEL; text := storyText |} in
              let finalChatHistory := turn_newChatHistory t ++ [modelMessage] in
              let k := randomCalls s in
              let prompt := imagePrompt Math_random k storyText in
              let '(dialogueParts, unassignedChars) :=
                deriveDialogue (turn_characterVoices t) storyText in
              let '(newCharacterVoices, k') :=
                assignVoices Math_random (turn_characterVoices t)
                  unassignedChars (3 + k) in
              let s := set_randomCalls k' s in
              let s := set_characterVoices newCharacterVoices s in
              spawnTurn
                {| turn_history := turn_history t;
                   turn_historyIndex := turn_historyIndex t;
                   turn_characterVoices := turn_characterVoices t;
                   turn_isAmbianceMuted := turn_isAmbianceMuted t;
                   turn_userInput := turn_userInput t;
                   turn_newChatHistory := turn_newChatHistory t;
                   turn_await :=
                     awaitAll finalChatHistory newChoices storyText prompt
                       (speechRequests newCharacterVoices dialogueParts) |} s
          end
      | awaitAll _ _ _ _ _ => s
      end
  | None => s
  end.

(** The results of the [textToSpeech] promises, in request order; [None]
    when one of them rejects. *)
Definition collectSpeech (speech : nat -> option string) (count : nat)
  : option (list string) :=
  mapM speech (seq 0 count).

(** "Final State Update": the commit, the ambiance switch, the narration
    sequence, and the [finally] once [playNarrationSequence] has
    returned. *)
Definition onAllSettled (tid : nat) (newImageUrl ambianceKeyword : string)
    (speech : nat -> option string) (s : App) : App :=
  match turns s !! tid with
  | Some t =>
      match turn_await t with
      | awaitAll finalChatHistory newChoices storyText prompt requests =>
          let s := set_turns (delete tid (turns s)) s in
          match collectSpeech speech (length requests) with
          | None => turnFailed s
          | Some audioData =>
              let newState :=
                {| StoryState.chatHistory := finalChatHistory;
                   StoryState.imageUrl := Some newImageUrl;
                   StoryState.choices := newChoices |} in
              let '(history', historyIndex') :=
                History.commit (turn_history t) (turn_historyIndex t) newState in
              let s := set_history history' s in
              let s := set_historyIndex historyIndex' s in
              let s :=
                set_ambiance
                  (AmbiancePlayer.playAmbiance (ambianceUrlFor ambianceKeyword)
                     (turn_isAmbianceMuted t) (ambiance s)) s in
              let '(n, returned) :=
                playNarrationSequence decodeThrows true audioData (narration s) in
              let s := set_narration n s in
              let s := if returned then set_isLoading false s else s in
              syncShareable (syncWithHistory s)
          end
      | awaitGeneration => s
      end
  | None => s
  end.

(** A narration event; when it makes the invocation return that
    [handleSendMessage] waits for, the [finally] runs. *)
Definition onNarrationEvent (e : NarrationEvent) (s : App) : App :=
  let '(n, returned) := narrationStep decodeThrows e (narration s) in
  let s := set_narration n s in
  if returned then set_isLoading false s else s.

Definition appStep (e : AppEvent) (s : App) : App :=
  match e with
  | sendMessage userInput => handleSendMessage userInput s
  | undoClicked => handleUndo s
  | redoClicked => handleRedo s
  | muteToggled => handleToggleAmbianceMute s
  | welcomeSpeechSettled audio => onWelcomeSpeechSettled audio s
  | generationSettled tid response => onGenerationSettled tid response s
  | allSettled tid newImageUrl ambianceKeyword speech =>
      onAllSettled tid newImageUrl ambianceKeyword speech s
  | narrationEvent e => onNarrationEvent e s
  | ambianceEvent e => set_ambiance (AmbiancePlayer.step e (ambiance s)) s
  end.

Definition appRun (es : list AppEvent) (s : App) : App :=
  foldl (fun s e => appStep e s) s es.

End Orchestration.

(** ** Scripts of operations

    The histories, call sequences and schedules that the properties below
    quantify over. *)

(** An operation on the history log: the commit of a turn run from the
    current render, an undo, a redo. *)
Inductive HistOp (A : Type) :=
| opCommit (snapshot : A)
| opUndo
| opRedo.
Arguments opCommit {A} snapshot.
Arguments opUndo {A}.
Arguments opRedo {A}.

Definition applyOp {A} (log : list A * nat) (op : HistOp A) : list A * nat :=
  let '(history, historyIndex) := log in
  match op with
  | opCommit snapshot => History.commit history historyIndex snapshot
  | opUndo => (history, History.undo historyIndex)
  | opRedo => (history, History.redo history historyIndex)
  end.


(** [current()]: the snapshot at the cursor. *)
Definition currentSnapshot {A} (log : list A * nat) : option A :=
  fst log !! snd log.

(** A snapshot that holds one model message, to tell snapshots apart. *)
Definition snapshotOf (label : string) : StoryState :=
  {| StoryState.chatHistory := [{| author := MODEL; text := label |}];
     StoryState.imageUrl := None;
     StoryState.choices := JArr [] |}.

(** The cursor is a valid index of the log. *)
Definition cursorValid {A} (log : list A * nat) : Prop :=
  snd log < length (fst log).

(** The history log of a component state. *)
Definition logOf (s : App) : list StoryState * nat :=
  (history s, historyIndex s).

(** What a handler leaves alone when it only moves the cursor: the log,
    the voice map, the narration player (queue, generation counter, active
    source, started sources, suspended invocations), the ambiance player
    (current track, source, gain automation), the loading and mute flags
    and the turns in flight. *)
Definition sameButCursorAndView (s s' : App) : Prop :=
  history s' = history s
  /\ characterVoices s' = characterVoices s
  /\ narration s' = narration s
  /\ ambiance s' = ambiance s
  /\ isLoading s' = isLoading s
  /\ isAmbianceMuted s' = isAmbianceMuted s
  /\ chatSession s' = chatSession s
  /\ welcomeAudioHandled s' = welcomeAudioHandled s
  /\ turns s' = turns s
  /\ nextTurn s' = nextTurn s
  /\ randomCalls s' = randomCalls s.

(** The view shows the snapshot at the cursor. *)
Definition viewAtCursor (s : App) : Prop :=
  forall snap, history s !! historyIndex s = Some snap ->
    chatHistory s = StoryState.chatHistory snap
    /\ imageUrl s = StoryState.imageUrl snap
    /\ choices s = StoryState.choices snap
    /\ isShareable s
       = storyHasBegun (StoryState.chatHistory snap) (StoryState.imageUrl snap).

(** What one call of [processNarrationQueue] may do to the player, up to
    its first [await]: it starts no source and leaves the generation
    counter alone, drops items from the head of the queue, and parks at
    most one invocation, on an item of the queue, under the current
    generation.  [r] is the boolean of its result. *)
Definition drainedFrom (notify : bool) (n n' : Narration) (r : bool) : Prop :=
  narrationVersion n' = narrationVersion n
  /\ started n' = started n
  /\ pendingEnded n' = pendingEnded n
  /\ currentNarrationSource n' = currentNarrationSource n
  /\ (exists dropped, narrationQueue n = dropped ++ narrationQueue n')
  /\ ((narrationTasks n' = narrationTasks n
       /\ nextNarrationTask n' = nextNarrationTask n /\ r = notify)
      \/ (exists t,
             narrationTasks n' = <[nextNarrationTask n := t]> (narrationTasks n)
             /\ nextNarrationTask n' = S (nextNarrationTask n)
             /\ task_version t = narrationVersion n
             /\ task_audio t ∈ narrationQueue n
             /\ ((r = false /\ task_notify t = notify)
                 \/ (r = notify /\ task_notify t = false)))).

(** No suspended invocation and no started source carries a generation
    above the counter. *)
Definition versionsBounded (n : Narration) : Prop :=
  map_Forall (fun _ t => task_version t <= narrationVersion n) (narrationTasks n)
  /\ Forall (fun src => src_version src <= narrationVersion n) (started n).

(** A source of the current generation, decoded from a payload that
    satisfies [P]. *)
Definition sourceFrom (P : string -> Prop) (n : Narration)
    (src : NarrationSource) : Prop :=
  src_version src = narrationVersion n /\ P (src_audio src).

(** The player plays payloads that satisfy [P] and nothing else: what is
    queued, and what the invocations of the current generation hold,
    satisfies [P], and every source started since [base] is a source of the
    current generation decoded from such a payload. *)
Definition playsOnly (base : list NarrationSource) (P : string -> Prop)
    (n : Narration) : Prop :=
  versionsBounded n
  /\ (forall x, x ∈ narrationQueue n -> P x)
  /\ map_Forall (fun _ t => task_version t = narrationVersion n -> P (task_audio t))
       (narrationTasks n)
  /\ exists new, started n = base ++ new /\ Forall (sourceFrom P n) new.

(** An enqueue-replace call. *)
Inductive NarrationCall :=
| callPlayNarration (notify : bool) (base64Audio : string)
| callPlayNarrationSequence (notify : bool) (audioDataArray : list string).

Definition callItems (c : NarrationCall) : list string :=
  match c with
  | callPlayNarration _ base64Audio => [base64Audio]
  | callPlayNarrationSequence _ audioDataArray => audioDataArray
  end.

(** Anything that can happen to the player: a call, a cancellation, an
    event. *)
Inductive NarrationAction :=
| actCall (c : NarrationCall)
| actStop
| actEvent (e : NarrationEvent).

Section NarrationScripts.

Variable decodeThrows : string -> bool.

Definition narrationCall (n : Narration) (c : NarrationCall) : Narration :=
  match c with
  | callPlayNarration notify base64Audio =>
      fst (playNarration decodeThrows notify base64Audio n)
  | callPlayNarrationSequence notify audioDataArray =>
      fst (playNarrationSequence decodeThrows notify audioDataArray n)
  end.

(** Calls issued back to back: no event is delivered in between. *)
Definition narrationCalls (cs : list NarrationCall) (n : Narration) : Narration :=
  foldl narrationCall n cs.

Definition narrationAct (n : Narration) (a : NarrationAction) : Narration :=
  match a with
  | actCall c => narrationCall n c
  | actStop => stopNarration n
  | actEvent e => fst (narrationStep decodeThrows e n)
  end.

Definition narrationActs (acts : list NarrationAction) (n : Narration)
  : Narration :=
  foldl narrationAct n acts.

End NarrationScripts.

(** The event [e] settles the [await] that the invocation [t], parked
    under [tid], is suspended at. *)
Definition settles (e : NarrationEvent) (tid : nat) (t : NarrationTask) : Prop :=
  match e, task_await t with
  | resumeSettled tid' _, awaitResume => tid' = tid
  | decodeSettled tid' _ _, awaitDecode => tid' = tid
  | _, _ => False
  end.

(** What an invocation that finds its generation superseded does: it
    returns, having cleared the playing flag and nothing else; no source is
    started, and the queue, the counter and the active source are as they
    were. *)
Definition abortedOnly (tid : nat) (n n' : Narration) : Prop :=
  narrationVersion n' = narrationVersion n
  /\ started n' = started n
  /\ narrationQueue n' = narrationQueue n
  /\ currentNarrationSource n' = currentNarrationSource n
  /\ pendingEnded n' = pendingEnded n
  /\ narrationTasks n' = delete tid (narrationTasks n)
  /\ isPlayingNarration n' = false.

(** Nothing is in flight: no invocation is suspended and no started source
    has its [ended] event outstanding. *)
Definition quiescent (n : Narration) : Prop :=
  narrationTasks n = ∅ /\ pendingEnded n = ∅.

(** [newChatHistory] of a turn started in the state [s]: the chat of the
    snapshot at the cursor, and the user's message. *)
Definition turnChat (s : App) (userInput : string) : list ChatMessage :=
  match history s !! historyIndex s with
  | Some snap => StoryState.chatHistory snap
  | None => []
  end ++ [{| author := USER; text := userInput |}].

(** The [finally] of a turn is still to come: an invocation of
    [processNarrationQueue] that [handleSendMessage] waits for is parked. *)
Definition finallyPending (s : App) : Prop :=
  exists tid t, narrationTasks (narration s) !! tid = Some t /\ task_notify t = true.

(** Where the invocation parked under [tid] will be parked for its decode:
    under a new number when it is still at the resume. *)
Definition decodeTaskOf (s : App) (tid : nat) (t : NarrationTask) : nat :=
  match task_await t with
  | awaitResume => nextNarrationTask (narration s)
  | awaitDecode => tid
  end.

(** The double quote, and the response text [{"choices":["Go on"]}] written
    with it. *)
Definition dquote : string := String (ascii_of_nat 34) EmptyString.

Definition goOnResponse : string :=
  "{" +:+ dquote +:+ "choices" +:+ dquote +:+ ":[" +:+ dquote +:+ "Go on"
      +:+ dquote +:+ "]}".

(** A stand-in for [JSON.parse] that knows this one text. *)
Definition parseGoOn (s : string) : option JSValue :=
  if bool_decide (s = goOnResponse)
  then Some (JObj [("choices"%string, JArr [JStr "Go on"])])
  else None.

(** How one event may change the log: not at all, by a step of the cursor,
    or by the one commit of a turn parked at [Promise.all], made from the
    [history] and [historyIndex] that the turn closes over. *)
Definition logStep (s s' : App) : Prop :=
  logOf s' = logOf s
  \/ logOf s' = applyOp (logOf s) opUndo
  \/ logOf s' = applyOp (logOf s) opRedo
  \/ exists tid t finalChatHistory newChoices storyText prompt requests newImageUrl,
       turns s !! tid = Some t
       /\ turn_await t = awaitAll finalChatHistory newChoices storyText prompt requests
       /\ logOf s'
          = History.commit (turn_history t) (turn_historyIndex t)
              {| StoryState.chatHistory := finalChatHistory;
                 StoryState.imageUrl := Some newImageUrl;
                 StoryState.choices := newChoices |}.

(** Nothing of the current generation is in flight: every suspended
    invocation and every started source whose [ended] event is outstanding
    belongs to a superseded generation. *)
Definition silent (n : Narration) : Prop :=
  (forall tid t, narrationTasks n !! tid = Some t ->
                 task_version t <> narrationVersion n)
  /\ (forall sid src, sid ∈ pendingEnded n -> started n !! sid = Some src ->
                      src_version src <> narrationVersion n).

(** At most one thing of the current generation is in flight, a suspended
    invocation or a started source: once it is taken away the player is
    silent. *)
Definition singleDrain (n : Narration) : Prop :=
  (forall tid t, narrationTasks n !! tid = Some t ->
                 task_version t = narrationVersion n -> silent (wake tid n))
  /\ (forall sid src, sid ∈ pendingEnded n -> started n !! sid = Some src ->
                      src_version src = narrationVersion n -> silent (retire sid n)).

(** ** Logs that grow from the seed *)

(** The chat opens with the welcome message. *)
Definition opensWithWelcome (chat : list ChatMessage) : Prop :=
  head chat = Some welcomeMessage.

(** A log as the component builds it: the cursor is a valid index, the
    first snapshot is the seed, and the chat of every snapshot opens with
    the welcome message. *)
Definition seededLog (log : list StoryState * nat) : Prop :=
  cursorValid log
  /\ fst log !! 0 = Some initialStoryState
  /\ Forall (fun snap => opensWithWelcome (StoryState.chatHistory snap)) (fst log).

(** What a suspended turn holds: such a log, and chats that open with the
    welcome message. *)
Definition turnSeeded (t : TurnTask) : Prop :=
  seededLog (turn_history t, turn_historyIndex t)
  /\ opensWithWelcome (turn_newChatHistory t)
  /\ match turn_await t with
     | awaitGeneration => True
     | awaitAll finalChatHistory _ _ _ _ => opensWithWelcome finalChatHistory
     end.

Definition seeded (s : App) : Prop :=
  seededLog (logOf s)
  /\ opensWithWelcome (chatHistory s)
  /\ map_Forall (fun _ t => turnSeeded t) (turns s).

(** An event that neither starts a turn nor settles a call of one: a
    click on undo, redo or mute, or an event of the audio players. *)
Definition besideTurns (e : AppEvent) : Prop :=
  match e with
  | sendMessage _ | generationSettled _ _ | allSettled _ _ _ _ => False
  | _ => True
  end.

(** ** Schedules of the narration player *)

(** The schedule on which a queue of [count] items plays through: for each
    item its decode resolves and then its source ends.  The invocations are
    parked under consecutive numbers from [tid] on, and the sources started
    at consecutive positions from [sid] on. *)
Fixpoint playThrough (tid sid count : nat) : list NarrationEvent :=
  match count with
  | O => []
  | S count' =>
      decodeSettled tid true true :: sourceEnded sid
        :: playThrough (S tid) (S sid) count'
  end.

(** The sources of the payloads [items], started under generation [v]. *)
Definition sourcesOf (v : nat) (items : list string) : list NarrationSource :=
  map (fun audio => {| src_audio := audio; src_version := v |}) items.

(** The player is idle on a running context, with [items] queued. *)
Definition idleWith (items : list string) (n : Narration) : Prop :=
  isPlayingNarration n = false
  /\ narrationQueue n = items
  /\ narrationAudioContext n = Some running
  /\ currentNarrationSource n = None.

(** ** The sources that have been stopped *)

(** The source on which an action calls [stop()]: a call or a
    cancellation stops the active source, an event stops none. *)
Definition stoppedByAct (n : Narration) (a : NarrationAction) : gset nat :=
  match a, currentNarrationSource n with
  | actCall _, Some sid | actStop, Some sid => {[ sid ]}
  | _, _ => ∅
  end.

(** The player after a script, together with the sources that the script
    has stopped on the way. *)
Definition narrationTrace (decodeThrows : string -> bool)
    (acts : list NarrationAction) (start : Narration * gset nat)
  : Narration * gset nat :=
  foldl (fun acc a =>
           (narrationAct decodeThrows (fst acc) a,
            snd acc ∪ stoppedByAct (fst acc) a))
        start acts.

(** Every source that has not ended yet has been stopped or is the active
    one, and the active one has not ended and belongs to the current
    generation. *)
Definition tracked (n : Narration) (stopped : gset nat) : Prop :=
  (forall sid, sid ∈ pendingEnded n ->
     sid ∈ stopped \/ currentNarrationSource n = Some sid)
  /\ (forall sid, currentNarrationSource n = Some sid ->
        sid ∈ pendingEnded n
        /\ exists src, started n !! sid = Some src
                       /\ src_version src = narrationVersion n).

(** ** What the component does to the narration player *)

(** An event that is not the settling of a [Promise.all]. *)
Definition beforeAllSettled (e : AppEvent) : Prop :=
  match e with
  | allSettled _ _ _ _ => False
  | _ => True
  end.

(** The narration is at rest after a message was sent: silent, without
    queue or active source, with the welcome audio out of the way. *)
Definition atRest (base : list NarrationSource) (s : App) : Prop :=
  versionsBounded (narration s)
  /\ silent (narration s)
  /\ started (narration s) = base
  /\ narrationQueue (narration s) = []
  /\ currentNarrationSource (narration s) = None
  /\ welcomeAudioHandled s = true.

(** ** Schedules of the ambiance player *)

(** Where a switch fails inside the [try] block of [playAmbiance]: the
    fetch rejects; the response is not [ok]; the body cannot be read; the
    body has fewer than 1024 bytes; the decode rejects or the source
    cannot be created, connected and started.  The steps before the
    failure succeed, with the content type and the byte length given. *)
Inductive SwitchFailure :=
| fetchRejected
| responseNotOk (contentType : option string)
| bodyRejected (contentType : option string)
| bodyTooShort (contentType : option string) (byteLength : nat)
| decodeFailed (contentType : option string) (byteLength : nat)
    (decoded startable : bool).

Definition failsInTry (f : SwitchFailure) : Prop :=
  match f with
  | bodyTooShort _ byteLength => byteLength < 1024
  | decodeFailed _ byteLength decoded startable =>
      1024 <= byteLength /\ decoded && startable = false
  | _ => True
  end.

(** The schedule on which the invocation of [playAmbiance] that is parked
    at its fetch under [tid] meets the failure [f]. *)
Definition failureSchedule (tid : nat) (f : SwitchFailure) : list AmbianceEvent :=
  match f with
  | fetchRejected => [ambFetchSettled tid None]
  | responseNotOk contentType => [ambFetchSettled tid (Some (false, contentType))]
  | bodyRejected contentType =>
      [ambFetchSettled tid (Some (true, contentType)); ambBodySettled (S tid) None]
  | bodyTooShort contentType byteLength =>
      [ambFetchSettled tid (Some (true, contentType));
       ambBodySettled (S tid) (Some byteLength)]
  | decodeFailed contentType byteLength decoded startable =>
      [ambFetchSettled tid (Some (true, contentType));
       ambBodySettled (S tid) (Some byteLength);
       ambDecodeSettled (S (S tid)) decoded startable]
  end.

(** The calls that a completed switch makes on the gain: the fade-out of
    the old track when there is one, then the cancellation of what is
    scheduled, the gain set to zero and, unless muted, the ramp up. *)
Definition switchGainOps (hadSource muted : bool) : list GainOp :=
  (if hadSource then [linearRampToValueAtTime gainZero] else [])
  ++ [cancelScheduledValues; setValueAtTime gainZero]
  ++ (if muted then [] else [linearRampToValueAtTime gainAmbiance]).

(** ** The generation service

    The three calls of [services/geminiService] that a turn waits for.
    Each takes what [ai.models.generateContent] gave: [None] when the call
    rejects, otherwise the part of the response that the function reads. *)

Definition ambianceKeywords : list string :=
  ["forest"; "cave"; "ocean"; "celebration"; "mystery"; "calm"].

Definition placeholderImage : string := "https://picsum.photos/512/512?grayscale".

(** [part.inlineData], with its optional fields [data] and [mimeType]. *)
Record InlineData := {
  inline_data : option string;
  inline_mimeType : option string
}.

(** A part of the first candidate; [inlineData] is all that is read. *)
Record Part := { part_inlineData : option InlineData }.

(** [generateIllustration(prompt)].  The response is
    [response.candidates?.[0]?.content?.parts], [None] when a link of the
    chain is missing.  The function never rejects. *)
Definition generateIllustration (response : option (option (list Part)))
  : string :=
  match response with
  | Some (Some parts) =>
      match List.find (fun p => bool_decide (is_Some (part_inlineData p))) parts with
      | Some {| part_inlineData := Some inlineData |} =>
          "data:" +:+ default "undefined" (inline_mimeType inlineData)
            +:+ ";base64," +:+ default "undefined" (inline_data inlineData)
      | _ => placeholderImage
      end
  | _ => placeholderImage
  end.

(** [textToSpeech(text, voiceName)].  The response is
    [response.candidates?.[0]?.content?.parts?.[0]?.inlineData?.data];
    the result is [None] when the promise rejects. *)
Definition textToSpeech (response : option (option string)) : option string :=
  match response with
  | Some (Some base64Audio) =>
      if JsString.truthy base64Audio then Some base64Audio else None
  | _ => None
  end.

Section StoryAmbiance.

Variable JSON_parse : string -> option JSValue.

(** [getStoryAmbiance(storyText)].  The response is [response.text],
    [None] for [undefined], on which [JSON.parse] throws.  The function
    never rejects. *)
Definition getStoryAmbiance (response : option (option string)) : string :=
  match response with
  | Some (Some responseText) =>
      match JSON_parse responseText with
      | Some parsed =>
          match getProp parsed "ambiance" with
          | Some (JStr ambiance) =>
              if bool_decide (ambiance ∈ ambianceKeywords) then ambiance
              else "calm"
          | _ => "calm"
          end
      | None => "calm"
      end
  | _ => "calm"
  end.

End StoryAmbiance.

(** ** Turns in flight *)

(** No suspended invocation of [processNarrationQueue] is awaited by a
    turn. *)
Definition noneAwaited (n : Narration) : Prop :=
  forall tid t, narrationTasks n !! tid = Some t -> task_notify t = false.

(** At most one suspended invocation is awaited by a turn. *)
Definition oneAwaited (n : Narration) : Prop :=
  forall tid1 t1 tid2 t2,
    narrationTasks n !! tid1 = Some t1 -> task_notify t1 = true ->
    narrationTasks n !! tid2 = Some t2 -> task_notify t2 = true ->
    tid1 = tid2.

(** At most one turn is in flight, either suspended at one of its calls or
    waiting for its narration to start, and the loading flag is set for as
    long as it is. *)
Definition oneTurn (s : App) : Prop :=
  (isLoading s = false ->
   (forall tid, turns s !! tid = None) /\ noneAwaited (narration s))
  /\ (forall tid1 t1 tid2 t2,
        turns s !! tid1 = Some t1 -> turns s !! tid2 = Some t2 -> tid1 = tid2)
  /\ (forall tid t, turns s !! tid = Some t -> noneAwaited (narration s))
  /\ oneAwaited (narration s).

(** ** Saving and loading

    [handleSaveStory] and [handleLoadStory], with the state they touch
    beyond [App]: the font settings, the flag of the load button, and the
    item of [localStorage] under [SAVE_KEY].  [JSON.stringify] and
    [JSON.parse] are the platform's; what the handlers hand to the one
    and read from the result of the other is written out here. *)

Record Shell := {
  app : App;
  fontSize : string;
  fontFamily : string;
  isSaveAvailable : bool;
  (** [localStorage.getItem(SAVE_KEY)]; [None] stands for [null] *)
  savedStory : option string
}.

Definition set_app (v : App) (sh : Shell) : Shell :=
  {| app := v; fontSize := fontSize sh; fontFamily := fontFamily sh;
     isSaveAvailable := isSaveAvailable sh; savedStory := savedStory sh |}.

(** The values of [enum MessageAuthor]. *)
Definition authorString (a : MessageAuthor) : string :=
  match a with USER => "user" | MODEL => "model" end.

(** The object [saveData] and what it holds, as JavaScript values. *)
Definition messageValue (m : ChatMessage) : JSValue :=
  JObj [("author"%string, JStr (authorString (author m)));
        ("text"%string, JStr (text m))].

Definition snapshotValue (snap : StoryState) : JSValue :=
  JObj [("chatHistory"%string, JArr (messageValue <$> StoryState.chatHistory snap));
        ("imageUrl"%string,
         match StoryState.imageUrl snap with
         | Some url => JStr url
         | None => JNull
         end);
        ("choices"%string, StoryState.choices snap)].

Definition voicesValue (voices : gmap string string) : JSValue :=
  JObj ((fun kv : string * string => (fst kv, JStr (snd kv))) <$> map_to_list voices).

Definition saveData (sh : Shell) : JSValue :=
  JObj [("history"%string, JArr (snapshotValue <$> history (app sh)));
        ("historyIndex"%string, JNum (Z.of_nat (historyIndex (app sh))));
        ("fontSize"%string, JStr (fontSize sh));
        ("fontFamily"%string, JStr (fontFamily sh));
        ("characterVoices"%string, voicesValue (characterVoices (app sh)))].

(** What a value comes back as from [JSON.parse(JSON.stringify(v))]: a
    property whose value is [undefined] is left out, an [undefined] in an
    array becomes [null]. *)
Fixpoint jsonRoundTrip (v : JSValue) : JSValue :=
  match v with
  | JArr items =>
      JArr (map (fun x => match x with
                          | JUndefined => JNull
                          | _ => jsonRoundTrip x
                          end) items)
  | JObj props =>
      JObj ((fix go (ps : list (string * JSValue)) : list (string * JSValue) :=
               match ps with
               | [] => []
               | (k, x) :: ps' =>
                   match x with
                   | JUndefined => go ps'
                   | _ => (k, jsonRoundTrip x) :: go ps'
                   end
               end) props)
  | _ => v
  end.

(** The values that the state variables can hold according to their
    declared types, read back from a parsed value; [None] for a value of
    another shape, with which the component leaves what is described
    here. *)
Definition asAuthor (v : JSValue) : option MessageAuthor :=
  match v with
  | JStr s =>
      if bool_decide (s = "user"%string) then Some USER
      else if bool_decide (s = "model"%string) then Some MODEL
      else None
  | _ => None
  end.

Definition asChatMessage (v : JSValue) : option ChatMessage :=
  match v with
  | JObj props =>
      match asAuthor (lookupProp "author" props), lookupProp "text" props with
      | Some a, JStr t => Some {| author := a; text := t |}
      | _, _ => None
      end
  | _ => None
  end.

Definition asArray {A} (f : JSValue -> option A) (v : JSValue) : option (list A) :=
  match v with
  | JArr items => mapM f items
  | _ => None
  end.

Definition asStoryState (v : JSValue) : option StoryState :=
  match v with
  | JObj props =>
      match asArray asChatMessage (lookupProp "chatHistory" props),
            lookupProp "imageUrl" props with
      | Some chat, JStr url =>
          Some {| StoryState.chatHistory := chat;
                  StoryState.imageUrl := Some url;
                  StoryState.choices := lookupProp "choices" props |}
      | Some chat, JNull =>
          Some {| StoryState.chatHistory := chat;
                  StoryState.imageUrl := None;
                  StoryState.choices := lookupProp "choices" props |}
      | _, _ => None
      end
  | _ => None
  end.

Definition asIndex (v : JSValue) : option nat :=
  match v with
  | JNum z => if (0 <=? z)%Z then Some (Z.to_nat z) else None
  | _ => None
  end.

Definition asString (v : JSValue) : option string :=
  match v with
  | JStr s => Some s
  | _ => None
  end.

(** [parsedData.characterVoices || { NARRATOR: narratorVoice }] *)
Definition asVoices (v : JSValue) : option (gmap string string) :=
  match v with
  | JUndefined | JNull | JBool false => Some {[ "NARRATOR"%string := narratorVoice ]}
  | JNum z => if (z =? 0)%Z then Some {[ "NARRATOR"%string := narratorVoice ]} else None
  | JStr s => if JsString.truthy s then None
              else Some {[ "NARRATOR"%string := narratorVoice ]}
  | JObj props =>
      list_to_map <$>
        mapM (fun kv : string * JSValue =>
                match snd kv with
                | JStr voice => Some (fst kv, voice)
                | _ => None
                end) props
  | _ => None
  end.

(** [v.key] on a value that is neither [null] nor [undefined]. *)
Definition propOf (v : JSValue) (key : string) : JSValue :=
  default JUndefined (getProp v key).

(** A snapshot as it comes back from the round trip through JSON. *)
Definition storedSnapshot (snap : StoryState) : StoryState :=
  {| StoryState.chatHistory := StoryState.chatHistory snap;
     StoryState.imageUrl := StoryState.imageUrl snap;
     StoryState.choices := jsonRoundTrip (StoryState.choices snap) |}.

Section Persistence.

Variable JSON_parse : string -> option JSValue.
Variable JSON_stringify : JSValue -> string.

(** The state once [initializeApp] has run, given the item found under
    [SAVE_KEY]. *)
Definition initialShell (saved : option string)
    (narrationFactory ambianceFactory : option AudioContextState) : Shell :=
  {| app := initialApp narrationFactory ambianceFactory;
     fontSize := "base";
     fontFamily := "'Nunito', sans-serif";
     isSaveAvailable :=
       match saved with
       | Some savedData => JsString.truthy savedData
       | None => false
       end;
     savedStory := saved |}.

(** [handleSaveStory]; when [setItem] throws, the handler ends there.
    The [alert] leaves no trace in the state. *)
Definition handleSaveStory (stored : bool) (sh : Shell) : Shell :=
  if stored then
    {| app := app sh; fontSize := fontSize sh; fontFamily := fontFamily sh;
       isSaveAvailable := true;
       savedStory := Some (JSON_stringify (saveData sh)) |}
  else sh.

(** The audio half of [handleLoadStory], which comes before
    [JSON.parse]: [stopNarration()], and for the ambiance a [stop()] on
    the current source, recorded with the stops of old sources, and the
    marker cleared; the ref of the source is left as it is. *)
Definition stopAudio (s : App) : App :=
  let s := set_narration (stopNarration (narration s)) s in
  match currentAmbianceSource (ambiance s) with
  | Some sid =>
      set_ambiance
        (set_currentAmbianceUrl None (scheduleStop sid (ambiance s))) s
  | None => s
  end.

(** [handleLoadStory].  [Some] of the state afterwards; when [JSON.parse]
    or the reading of [parsedData] throws, that is the state with the
    audio stopped and nothing else changed.  [None] when a state variable
    would be given a value outside its declared type. *)
Definition handleLoadStory (sh : Shell) : option Shell :=
  match savedStory sh with
  | None => Some sh
  | Some savedData =>
      if negb (JsString.truthy savedData) then Some sh
      else
        let s := stopAudio (app sh) in
        match JSON_parse savedData with
        | None => Some (set_app s sh)
        | Some parsedData =>
            match getProp parsedData "history" with
            | None => Some (set_app s sh)
            | Some _ =>
                match asArray asStoryState (propOf parsedData "history"),
                      asIndex (propOf parsedData "historyIndex"),
                      asString (propOf parsedData "fontSize"),
                      asString (propOf parsedData "fontFamily"),
                      asVoices (propOf parsedData "characterVoices") with
                | Some history', Some historyIndex', Some fontSize',
                  Some fontFamily', Some characterVoices' =>
                    let s := set_history history' s in
                    let s := set_historyIndex historyIndex' s in
                    let s := set_characterVoices characterVoices' s in
                    let s := set_isLoading false s in
                    Some {| app := syncShareable (syncWithHistory s);
                            fontSize := fontSize';
                            fontFamily := fontFamily';
                            isSaveAvailable := isSaveAvailable sh;
                            savedStory := savedStory sh |}
                | _, _, _, _, _ => None
                end
            end
        end
  end.

End Persistence.

(** The text that the stand-ins for [JSON.stringify] and [JSON.parse] of
    the instances know. *)
Definition savedText : string := "saved".

(** ** Sharing

    [handleShareStory] builds a page from the visible chat and has the
    browser download it; the page is what the handler is taken to return
    here, [None] when it returns before building one. *)

(** Among the code units below 256, the line terminators, which the dot
    of a regular expression does not match: LF and CR. *)
Definition isLineTerminator (c : ascii) : bool :=
  let n := nat_of_ascii c in (n =? 10) || (n =? 13).

(** The regular expression [\[.*?\]] anchored at the head of [s]: an
    opening bracket, the shortest run of characters other than line
    terminators that a closing bracket follows, the closing bracket.  The
    run ends at the first closing bracket, and no line terminator may come
    before it.  Returns the rest of the string. *)
Definition matchBracketed (s : string) : option string :=
  match s with
  | String c t =>
      if Ascii.eqb c "[" then
        match JsString.span
                (fun x => JsString.notChar "]" x && negb (isLineTerminator x)) t with
        | (_, String d rest) => if Ascii.eqb d "]" then Some rest else None
        | _ => None
        end
      else None
  | EmptyString => None
  end.

(** [s.replace(/\[.*?\]/g, '')]: matches are found left to right, each
    search starting where the previous match ended. *)
Fixpoint dropBracketed_from (fuel : nat) (s : string) : string :=
  match fuel with
  | O => s
  | S n =>
      match s with
      | EmptyString => EmptyString
      | String c t =>
          match matchBracketed s with
          | Some rest => dropBracketed_from n rest
          | None => String c (dropBracketed_from n t)
          end
      end
  end.

Definition dropBracketed (s : string) : string :=
  dropBracketed_from (String.length s) s.

(** At no position of [s] does the expression [\[.*?\]] match. *)
Fixpoint bracketFree (s : string) : bool :=
  match s with
  | EmptyString => true
  | String _ t =>
      match matchBracketed s with
      | Some _ => false
      | None => bracketFree t
      end
  end.

(** The text of a paragraph of the page: the message with its markup
    replaced by the words, the bracketed tags dropped, trimmed. *)
Definition paragraphText (msg : ChatMessage) : string :=
  JsString.trim (dropBracketed (JsString.stripMarkup (text msg))).

Definition paragraph (msg : ChatMessage) : string :=
  "<p>" +:+ paragraphText msg +:+ "</p>".

Definition isModel (msg : ChatMessage) : bool :=
  match author msg with MODEL => true | USER => false end.

(** [storyText]: the paragraphs of the messages of the model, the first
    of them left out, joined. *)
Definition shareText (chat : list ChatMessage) : string :=
  String.concat EmptyString (paragraph <$> drop 1 (List.filter isModel chat)).

Definition newline : string := String (ascii_of_nat 10) EmptyString.

(** The template of the page, cut where the image address and the story
    text are put in. *)
Definition pageHead : string :=
  newline
  +:+ "      <!DOCTYPE html><html lang="
  +:+ dquote
  +:+ "en"
  +:+ dquote
  +:+ "><head><meta charset="
  +:+ dquote
  +:+ "UTF-8"
  +:+ dquote
  +:+ "><title>My StoryTime Adventure</title><style>"
  +:+ newline
  +:+ "      @import url('https://fonts.googleapis.com/css2?family=Nunito:wght@400;"
  +:+ "700&display=swap');"
  +:+ newline
  +:+ "      body{font-family:'Nunito',sans-serif;line-height:1.6;color:#333;"
  +:+ "max-width:800px;margin:2rem auto;padding:2rem;background-color:#fdfcff;"
  +:+ "border-radius:16px;box-shadow:0 8px 24px rgba(0,0,0,0.05);}"
  +:+ newline
  +:+ "      h1{color:#6d28d9;text-align:center;}img{max-width:100%;"
  +:+ "height:auto;display:block;margin:2rem auto;border-radius:12px;"
  +:+ "box-shadow:0 4px 12px rgba(0,0,0,0.1);}"
  +:+ newline
  +:+ "      </style></head><body><h1>My StoryTime Adventure</h1><img src="
  +:+ dquote.

Definition pageMiddle : string :=
  dquote
  +:+ " alt="
  +:+ dquote
  +:+ "Story Illustration"
  +:+ dquote
  +:+ ">".

Definition pageEnd : string :=
  "</body></html>".

(** [htmlContent]; a [null] image address is written out as the word. *)
Definition htmlContent (imageUrl : option string) (storyText : string) : string :=
  pageHead
  +:+ match imageUrl with Some url => url | None => "null" end
  +:+ pageMiddle +:+ storyText +:+ pageEnd.

Definition handleShareStory (s : App) : option string :=
  if negb (isShareable s) then None
  else Some (htmlContent (imageUrl s) (shareText (chatHistory s))).

(** The share button is as the effect on [chatHistory] and [imageUrl]
    leaves it. *)
Definition shareableInSync (s : App) : Prop :=
  isShareable s = storyHasBegun (chatHistory s) (imageUrl s).

(** The line that [t] starts holds no closing bracket: the first
    character of [t] that is a closing bracket or a line terminator, if
    there is one, is a line terminator. *)
Definition unclosed (t : string) : bool :=
  match snd (JsString.span
               (fun x => JsString.notChar "]" x && negb (isLineTerminator x)) t) with
  | String d _ => negb (Ascii.eqb d "]")
  | EmptyString => true
  end.

(** ** The component with its storage

    Save and Load act on the storage and on the font settings as well as
    on the orchestration state, so a run of the whole component is made
    of the events of [AppEvent] and of the clicks on Save, on Load and on
    the font controls.  A click on Share changes no state.  The item
    under [SAVE_KEY] is written by [handleSaveStory] alone. *)

Inductive ShellEvent :=
| appEvent (e : AppEvent)
| saveClicked (stored : bool)
    (** a click on Save, and whether [localStorage.setItem] returns *)
| loadClicked
| fontSizeChanged (size : string)
| fontFamilyChanged (family : string).

Section Component.

Variable decodeThrows : string -> bool.
Variable JSON_parse : string -> option JSValue.
Variable JSON_stringify : JSValue -> string.
Variable Math_random : nat -> Q.

(** One event of the component.  The Load button is disabled unless
    [isSaveAvailable]; the other buttons of [StoryControls] that the
    handlers do not guard themselves are always enabled.  [None] when
    [handleLoadStory] gives a state variable a value outside its declared
    type. *)
Definition shellStep (e : ShellEvent) (sh : Shell) : option Shell :=
  match e with
  | appEvent e =>
      Some (set_app (appStep decodeThrows JSON_parse Math_random e (app sh)) sh)
  | saveClicked stored => Some (handleSaveStory JSON_stringify stored sh)
  | loadClicked =>
      if isSaveAvailable sh then handleLoadStory JSON_parse sh else Some sh
  | fontSizeChanged size =>
      Some {| app := app sh; fontSize := size; fontFamily := fontFamily sh;
              isSaveAvailable := isSaveAvailable sh; savedStory := savedStory sh |}
  | fontFamilyChanged family =>
      Some {| app := app sh; fontSize := fontSize sh; fontFamily := family;
              isSaveAvailable := isSaveAvailable sh; savedStory := savedStory sh |}
  end.

Fixpoint shellRun (es : list ShellEvent) (sh : Shell) : option Shell :=
  match es with
  | [] => Some sh
  | e :: es' =>
      match shellStep e sh with
      | Some sh' => shellRun es' sh'
      | None => None
      end
  end.

(** [P] holds of every event of the run [es] from [sh] and of the state
    in which the event arrives. *)
Fixpoint allAlong (P : ShellEvent -> Shell -> Prop) (es : list ShellEvent)
    (sh : Shell) : Prop :=
  match es with
  | [] => True
  | e :: es' =>
      P e sh
      /\ match shellStep e sh with
         | Some sh' => allAlong P es' sh'
         | None => True
         end
  end.

(** The text that a Save writes reads back as JSON carries it. *)
Definition saveReadsBack (e : ShellEvent) (sh : Shell) : Prop :=
  match e with
  | saveClicked true =>
      JSON_parse (JSON_stringify (saveData sh)) = Some (jsonRoundTrip (saveData sh))
  | _ => True
  end.

(** Load is clicked only while the loading flag is clear. *)
Definition loadWhenIdle (e : ShellEvent) (sh : Shell) : Prop :=
  match e with
  | loadClicked => isLoading (app sh) = false
  | _ => True
  end.

(** The stored item, when there is one and it is not empty, reads back as
    what Save wrote from a state whose log is as the component builds
    it. *)
Definition itemSeeded (item : option string) : Prop :=
  match item with
  | Some savedData =>
      JsString.truthy savedData = true ->
      exists saved,
        seededLog (logOf (app saved))
        /\ JSON_parse savedData = Some (jsonRoundTrip (saveData saved))
  | None => True
  end.

Definition shellSeeded (sh : Shell) : Prop :=
  seeded (app sh) /\ itemSeeded (savedStory sh).

End Component.

(** * Properties *)

Section HistoryProperties.

Context {A : Type}.

Lemma commit_eq (history : list A) (historyIndex : nat) (snapshot : A) :
  History.commit history historyIndex snapshot =
  (take (S historyIndex) history ++ [snapshot],
   length (take (S historyIndex) history)).
Proof. reflexivity. Qed.

Lemma commit_in_range (history : list A) (historyIndex : nat) (snapshot : A) :
  historyIndex < length history ->
  History.commit history historyIndex snapshot =
  (take (S historyIndex) history ++ [snapshot], S historyIndex).
Proof.
  intros Hlt. rewrite commit_eq. f_equal.
  rewrite length_take. lia.
Qed.




End HistoryProperties.

Section HistoryExample.

Context {A : Type}.




End HistoryExample.



(** ** Undo and redo on the component *)

Lemma handleUndo_log (s : App) :
  logOf (handleUndo s) = applyOp (logOf s) opUndo.
Proof.
  unfold handleUndo, logOf, applyOp, History.undo.
  destruct (History.canUndo (historyIndex s)); [|reflexivity].
  unfold syncShareable, syncWithHistory. simpl.
  destruct (history s !! (historyIndex s - 1)); reflexivity.
Qed.

Lemma handleRedo_log (s : App) :
  logOf (handleRedo s) = applyOp (logOf s) opRedo.
Proof.
  unfold handleRedo, logOf, applyOp, History.redo.
  destruct (History.canRedo (history s) (historyIndex s)); [|reflexivity].
  unfold syncShareable, syncWithHistory. simpl.
  destruct (history s !! (historyIndex s + 1)); reflexivity.
Qed.

Lemma syncWithHistory_frame (s : App) :
  sameButCursorAndView s (syncShareable (syncWithHistory s))
  /\ historyIndex (syncShareable (syncWithHistory s)) = historyIndex s.
Proof.
  unfold syncShareable, syncWithHistory, sameButCursorAndView.
  destruct (history s !! historyIndex s); simpl; repeat split.
Qed.

Lemma syncWithHistory_view (s : App) :
  viewAtCursor (syncShareable (syncWithHistory s)).
Proof.
  unfold viewAtCursor, syncShareable, syncWithHistory. intros snap.
  destruct (history s !! historyIndex s) as [snap'|] eqn:E; simpl.
  - rewrite E. intros [= <-]. repeat split.
  - rewrite E. discriminate.
Qed.

(** C10.  [handleUndo] and [handleRedo] write the cursor only, by one
    step or not at all; the log, the voice map, the narration queue,
    generation counter and active source, and the ambiance track and its
    source are what they were, so no audio is stopped or started; when the
    cursor has moved, the view is the snapshot under it, and otherwise the
    whole state is unchanged. *)
Theorem undo_redo_frame (s : App) :
  (sameButCursorAndView s (handleUndo s)
   /\ historyIndex (handleUndo s) = History.undo (historyIndex s)
   /\ (historyIndex (handleUndo s) <> historyIndex s -> viewAtCursor (handleUndo s))
   /\ (historyIndex (handleUndo s) = historyIndex s -> handleUndo s = s))
  /\ (sameButCursorAndView s (handleRedo s)
      /\ historyIndex (handleRedo s) = History.redo (history s) (historyIndex s)
      /\ (historyIndex (handleRedo s) <> historyIndex s -> viewAtCursor (handleRedo s))
      /\ (historyIndex (handleRedo s) = historyIndex s -> handleRedo s = s)).
Proof.
  split.
  - pose proof (handleUndo_log s) as Hlog.
    unfold logOf, applyOp in Hlog. injection Hlog as Hh Hi.
    unfold handleUndo in *. unfold History.undo, History.canUndo in *.
    destruct (0 <? historyIndex s) eqn:E.
    + apply Nat.ltb_lt in E.
      destruct (syncWithHistory_frame (set_historyIndex (historyIndex s - 1) s))
        as [Hf Hidx].
      split; [exact Hf|]. split; [exact Hi|]. split.
      * intros _. apply syncWithHistory_view.
      * rewrite Hi. lia.
    + split; [unfold sameButCursorAndView; tauto|].
      split; [reflexivity|]. split; [intros H; now elim H|reflexivity].
  - pose proof (handleRedo_log s) as Hlog.
    unfold logOf, applyOp in Hlog. injection Hlog as Hh Hi.
    unfold handleRedo in *. unfold History.redo, History.canRedo in *.
    destruct (Z.of_nat (historyIndex s) <? Z.of_nat (length (history s)) - 1)%Z eqn:E.
    + destruct (syncWithHistory_frame (set_historyIndex (historyIndex s + 1) s))
        as [Hf Hidx].
      split; [exact Hf|]. split; [exact Hi|]. split.
      * intros _. apply syncWithHistory_view.
      * rewrite Hi. lia.
    + split; [unfold sameButCursorAndView; tauto|].
      split; [reflexivity|]. split; [intros H; now elim H|reflexivity].
Qed.

(** An instance: an undo after the first committed turn, with
    its narration and its ambiance switch in flight. *)
Lemma undo_redo_frame_witness :
  let dec := fun _ : string => false in
  let rnd := fun _ : nat => 0%Q in
  let s := appRun dec parseGoOn rnd
             [sendMessage "hi";
              generationSettled 0 (Some (Some "Once upon a time..."%string));
              allSettled 1 "img" "calm" (fun _ => Some "AUD"%string)]
             (initialApp (Some running) (Some running)) in
  historyIndex (handleUndo s) <> historyIndex s
  /\ viewAtCursor (handleUndo s)
  /\ narration (handleUndo s) = narration s
  /\ ambiance (handleUndo s) = ambiance s.
Proof.
  intros dec rnd s.
  assert (H : historyIndex (handleUndo s) <> historyIndex s)
    by (vm_compute; discriminate).
  destruct (undo_redo_frame s) as ((Hsame & _ & Hview & _) & _).
  split; [exact H|]. split; [exact (Hview H)|].
  destruct Hsame as (_ & _ & Hn & Ha & _). split; [exact Hn|exact Ha].
Defined.

(** ** The narration player: what a drain may do, and what it keeps *)

Section NarrationProperties.

Variable decodeThrows : string -> bool.

Lemma drainedFrom_refl notify n : drainedFrom notify n n notify.
Proof.
  unfold drainedFrom. repeat split; try reflexivity.
  - exists []. reflexivity.
  - left. repeat split.
Qed.

Ltac drained_leaf a :=
  unfold drainedFrom; simpl;
  split; [reflexivity|]; split; [reflexivity|]; split; [reflexivity|];
  split; [reflexivity|]; split; [exists [a]; reflexivity|].

Lemma processNarrationQueue_fuel_drained (fuel : nat) :
  forall notify n,
    drainedFrom notify n
      (fst (processNarrationQueue_fuel decodeThrows fuel notify n))
      (snd (processNarrationQueue_fuel decodeThrows fuel notify n)).
Proof.
  induction fuel as [|fuel IH]; intros notify n.
  - apply drainedFrom_refl.
  - destruct n as [ctx cur queue playing version st pend tasks next factory].
    simpl.
    destruct playing; [apply drainedFrom_refl|].
    destruct queue as [|a rest]; [apply drainedFrom_refl|].
    simpl.
    destruct (JsString.truthy a); simpl;
      [|drained_leaf a; left; repeat split].
    assert (Hrun : forall ctx',
      drainedFrom notify
        {| narrationAudioContext := ctx; currentNarrationSource := cur;
           narrationQueue := a :: rest; isPlayingNarration := false;
           narrationVersion := version; started := st; pendingEnded := pend;
           narrationTasks := tasks; nextNarrationTask := next;
           narrationContextFactory := factory |}
        (fst (decodeChunk decodeThrows
           (fun n' => fst (processNarrationQueue_fuel decodeThrows fuel false n'))
           version a notify
           {| narrationAudioContext := ctx'; currentNarrationSource := cur;
              narrationQueue := rest; isPlayingNarration := true;
              narrationVersion := version; started := st; pendingEnded := pend;
              narrationTasks := tasks; nextNarrationTask := next;
              narrationContextFactory := factory |}))
        (snd (decodeChunk decodeThrows
           (fun n' => fst (processNarrationQueue_fuel decodeThrows fuel false n'))
           version a notify
           {| narrationAudioContext := ctx'; currentNarrationSource := cur;
              narrationQueue := rest; isPlayingNarration := true;
              narrationVersion := version; started := st; pendingEnded := pend;
              narrationTasks := tasks; nextNarrationTask := next;
              narrationContextFactory := factory |}))).
    { intros ctx'. unfold decodeChunk. simpl. rewrite Nat.eqb_refl. simpl.
      destruct (decodeThrows a); simpl.
      - unfold failedChunk. simpl. rewrite Nat.eqb_refl.
        match goal with |- context [processNarrationQueue_fuel _ fuel false ?m] =>
          pose proof (IH false m) as Hrec end.
        destruct Hrec as (Hv & Hs & Hp & Hc & (dropped & Hq) & Ht).
        simpl in Hv, Hs, Hp, Hc, Hq, Ht.
        unfold drainedFrom; simpl.
        split; [exact Hv|]. split; [exact Hs|]. split; [exact Hp|].
        split; [exact Hc|].
        split; [exists (a :: dropped); simpl; f_equal; exact Hq|].
        destruct Ht as [(Ht & Hn & _)|(t & Ht & Hn & Htv & Hta & Hno)].
        + left. repeat split; first [assumption|reflexivity].
        + right. exists t.
          split; [exact Ht|]. split; [exact Hn|]. split; [exact Htv|].
          split; [apply elem_of_cons; now right|].
          right. split; [reflexivity|]. destruct Hno as [[_ H]|[_ H]]; exact H.
      - drained_leaf a. right. eexists. repeat split; try reflexivity.
        + simpl. apply elem_of_cons; now left.
        + left. split; reflexivity. }
    assert (Hpark :
      drainedFrom notify
        {| narrationAudioContext := ctx; currentNarrationSource := cur;
           narrationQueue := a :: rest; isPlayingNarration := false;
           narrationVersion := version; started := st; pendingEnded := pend;
           narrationTasks := tasks; nextNarrationTask := next;
           narrationContextFactory := factory |}
        {| narrationAudioContext := Some suspended; currentNarrationSource := cur;
           narrationQueue := rest; isPlayingNarration := true;
           narrationVersion := version; started := st; pendingEnded := pend;
           narrationTasks :=
             <[next := {| task_version := version; task_audio := a;
                          task_await := awaitResume; task_notify := notify |}]> tasks;
           nextNarrationTask := S next;
           narrationContextFactory := factory |} false).
    { drained_leaf a. right. eexists. repeat split; try reflexivity.
      - simpl. apply elem_of_cons; now left.
      - left. split; reflexivity. }
    destruct ctx as [[| |]|]; simpl; try apply Hrun; try exact Hpark.
    destruct factory as [[| |]|]; simpl; try apply Hrun; try exact Hpark.
    drained_leaf a. left. repeat split.
Qed.
End NarrationProperties.

Section DrainFuel.

Variable decodeThrows : string -> bool.

(** [processNarrationQueue] never runs out of fuel: any amount above the
    length of the queue gives the same result. *)
Lemma processNarrationQueue_fuel_enough :
  forall a b notify n,
    length (narrationQueue n) < a -> length (narrationQueue n) < b ->
    processNarrationQueue_fuel decodeThrows a notify n
    = processNarrationQueue_fuel decodeThrows b notify n.
Proof.
  induction a as [|a IH]; intros b notify n Ha Hb; [lia|].
  destruct b as [|b]; [lia|].
  destruct n as [ctx cur queue playing version st pend tasks next factory].
  simpl in Ha, Hb. simpl.
  destruct playing; [reflexivity|].
  destruct queue as [|x rest]; [reflexivity|]. simpl in Ha, Hb. simpl.
  destruct (JsString.truthy x); [|reflexivity]. simpl.
  assert (Hd : forall ctx',
    decodeChunk decodeThrows
      (fun n' => fst (processNarrationQueue_fuel decodeThrows a false n'))
      version x notify
      {| narrationAudioContext := ctx'; currentNarrationSource := cur;
         narrationQueue := rest; isPlayingNarration := true;
         narrationVersion := version; started := st; pendingEnded := pend;
         narrationTasks := tasks; nextNarrationTask := next;
         narrationContextFactory := factory |}
    = decodeChunk decodeThrows
      (fun n' => fst (processNarrationQueue_fuel decodeThrows b false n'))
      version x notify
      {| narrationAudioContext := ctx'; currentNarrationSource := cur;
         narrationQueue := rest; isPlayingNarration := true;
         narrationVersion := version; started := st; pendingEnded := pend;
         narrationTasks := tasks; nextNarrationTask := next;
         narrationContextFactory := factory |}).
  { intros ctx'. unfold decodeChunk. simpl. rewrite Nat.eqb_refl. simpl.
    destruct (decodeThrows x); [|reflexivity].
    unfold failedChunk. simpl. rewrite Nat.eqb_refl.
    f_equal. f_equal. apply IH; simpl; lia. }
  destruct ctx as [[| |]|]; simpl; try apply Hd; try reflexivity.
  destruct factory as [[| |]|]; simpl; try apply Hd; reflexivity.
Qed.

End DrainFuel.

Section NarrationInvariant.

Variable decodeThrows : string -> bool.
Variable base : list NarrationSource.
Variable P : string -> Prop.

Lemma playsOnly_mono (n n' : Narration) :
  playsOnly base P n ->
  narrationVersion n' = narrationVersion n ->
  started n' = started n ->
  (forall x, x ∈ narrationQueue n' -> x ∈ narrationQueue n) ->
  (forall tid t, narrationTasks n' !! tid = Some t ->
                 narrationTasks n !! tid = Some t) ->
  playsOnly base P n'.
Proof.
  intros ((Hb1 & Hb2) & Hq & Ht & Hs) Hv Hst Hq' Ht'.
  unfold playsOnly, versionsBounded, sourceFrom. rewrite Hv, Hst.
  repeat split.
  - intros tid t Hl. apply (Hb1 tid t). now apply Ht'.
  - exact Hb2.
  - intros x Hx. apply Hq. now apply Hq'.
  - intros tid t Hl. apply (Ht tid t). now apply Ht'.
  - exact Hs.
Qed.

Lemma playsOnly_suspend (n : Narration) (t : NarrationTask) :
  playsOnly base P n ->
  task_version t = narrationVersion n ->
  P (task_audio t) ->
  playsOnly base P (suspend t n).
Proof.
  intros ((Hb1 & Hb2) & Hq & Ht & Hs) Hv Ha.
  unfold playsOnly, versionsBounded, sourceFrom. simpl.
  repeat split.
  - apply map_Forall_insert_2; [lia|exact Hb1].
  - exact Hb2.
  - exact Hq.
  - apply map_Forall_insert_2; [intros _; exact Ha|exact Ht].
  - exact Hs.
Qed.

Lemma playsOnly_drained (notify r : bool) (n n' : Narration) :
  playsOnly base P n ->
  drainedFrom notify n n' r ->
  playsOnly base P n'.
Proof.
  intros ((Hb1 & Hb2) & Hq & Ht & Hs) (Hv & Hst & _ & _ & (dropped & Hdq) & Htasks).
  assert (HP : forall x, x ∈ narrationQueue n' -> P x).
  { intros x Hx. apply Hq. rewrite Hdq. apply elem_of_app. now right. }
  unfold playsOnly, versionsBounded, sourceFrom. rewrite Hv, Hst.
  destruct Htasks as [(Htk & _ & _)|(t & Htk & _ & Htv & Hta & _)]; rewrite Htk.
  - repeat split; assumption.
  - repeat split; try assumption.
    + apply map_Forall_insert_2; [lia|exact Hb1].
    + apply map_Forall_insert_2; [intros _; now apply Hq|exact Ht].
Qed.

Lemma playsOnly_start (n : Narration) (audio : string) :
  playsOnly base P n ->
  P audio ->
  playsOnly base P (startSource audio (narrationVersion n) n).
Proof.
  intros ((Hb1 & Hb2) & Hq & Ht & (new & Hs & Hnew)) Ha.
  unfold playsOnly, versionsBounded, sourceFrom. simpl.
  repeat split; try assumption.
  - apply Forall_app. split; [exact Hb2|]. constructor; [simpl; lia|constructor].
  - exists (new ++ [{| src_audio := audio; src_version := narrationVersion n |}]).
    split; [rewrite Hs; now rewrite app_assoc|].
    apply Forall_app. split; [exact Hnew|].
    constructor; [split; [reflexivity|exact Ha]|constructor].
Qed.

End NarrationInvariant.

Section NarrationSteps.

Variable decodeThrows : string -> bool.
Variable base : list NarrationSource.
Variable P : string -> Prop.

Lemma processNarrationQueue_drained notify n :
  drainedFrom notify n
    (fst (processNarrationQueue decodeThrows notify n))
    (snd (processNarrationQueue decodeThrows notify n)).
Proof. apply processNarrationQueue_fuel_drained. Qed.

Lemma processNext_drained n :
  drainedFrom false n (processNext decodeThrows n)
    (snd (processNarrationQueue decodeThrows false n)).
Proof. apply processNarrationQueue_drained. Qed.

(** Changes that touch neither the counter, the log, the queue nor the
    suspended invocations. *)
Ltac frame_step H :=
  apply (playsOnly_mono base P _ _ H);
  [reflexivity|reflexivity|intros ? Hx; exact Hx|intros ? ? Hl; exact Hl].

Lemma playsOnly_flag b n :
  playsOnly base P n -> playsOnly base P (set_isPlayingNarration b n).
Proof. intros H. frame_step H. Qed.

Lemma playsOnly_context c n :
  playsOnly base P n -> playsOnly base P (set_narrationAudioContext c n).
Proof. intros H. frame_step H. Qed.

Lemma playsOnly_factory f n :
  playsOnly base P n -> playsOnly base P (set_narrationContextFactory f n).
Proof. intros H. frame_step H. Qed.

Lemma playsOnly_current c n :
  playsOnly base P n -> playsOnly base P (set_currentNarrationSource c n).
Proof. intros H. frame_step H. Qed.

Lemma playsOnly_retire sid n :
  playsOnly base P n -> playsOnly base P (retire sid n).
Proof. intros H. frame_step H. Qed.

Lemma playsOnly_wake tid n :
  playsOnly base P n -> playsOnly base P (wake tid n).
Proof.
  intros H. apply (playsOnly_mono base P _ _ H); try reflexivity.
  - intros ? Hx; exact Hx.
  - simpl. intros tid' t Hl. apply lookup_delete_Some in Hl. tauto.
Qed.

Lemma playsOnly_failedChunk v n :
  playsOnly base P n ->
  playsOnly base P (failedChunk (processNext decodeThrows) v n).
Proof.
  intros H. unfold failedChunk.
  apply (playsOnly_flag false) in H.
  destruct (v =? narrationVersion (set_isPlayingNarration false n)); [|exact H].
  eapply playsOnly_drained; [exact H|apply processNext_drained].
Qed.

Lemma playsOnly_decodeChunk v audio notify n :
  playsOnly base P n ->
  (v = narrationVersion n -> P audio) ->
  playsOnly base P
    (fst (decodeChunk decodeThrows (processNext decodeThrows) v audio notify n)).
Proof.
  intros H Ha. unfold decodeChunk.
  destruct (v =? narrationVersion n) eqn:E; simpl.
  - apply Nat.eqb_eq in E.
    destruct (decodeThrows audio); simpl.
    + now apply playsOnly_failedChunk.
    + apply playsOnly_suspend; [exact H|exact E|now apply Ha].
  - now apply playsOnly_flag.
Qed.

Lemma playsOnly_task tid t n :
  playsOnly base P n ->
  narrationTasks n !! tid = Some t ->
  task_version t = narrationVersion n -> P (task_audio t).
Proof. intros (_ & _ & Ht & _) Hl. exact (Ht tid t Hl). Qed.

(** Every event keeps the player playing what it plays. *)
Lemma playsOnly_step e n :
  playsOnly base P n ->
  playsOnly base P (fst (narrationStep decodeThrows e n)).
Proof.
  intros H. destruct e as [tid ok|tid decoded startable|sid|s|f]; simpl.
  - unfold onResumeSettled.
    destruct (narrationTasks n !! tid) as [t|] eqn:El; [|exact H].
    destruct (task_await t); [|exact H].
    pose proof (playsOnly_task tid t n H El) as Ht.
    apply (playsOnly_wake tid) in H.
    destruct ok; [|now apply playsOnly_flag].
    apply playsOnly_decodeChunk.
    + destruct (narrationAudioContext (wake tid n)); [now apply playsOnly_context|exact H].
    + destruct (narrationAudioContext (wake tid n)); exact Ht.
  - unfold onDecodeSettled.
    destruct (narrationTasks n !! tid) as [t|] eqn:El; [|exact H].
    destruct (task_await t); [exact H|].
    pose proof (playsOnly_task tid t n H El) as Ht.
    apply (playsOnly_wake tid) in H.
    destruct decoded; cbn [negb fst]; [|now apply playsOnly_failedChunk].
    destruct (task_version t =? narrationVersion (wake tid n)) eqn:E; cbn [negb fst];
      [|now apply playsOnly_flag].
    destruct startable; cbn [negb fst]; [|now apply playsOnly_failedChunk].
    apply Nat.eqb_eq in E. rewrite E.
    apply playsOnly_start; [exact H|]. apply Ht. exact E.
  - unfold onSourceEnded.
    destruct (bool_decide (sid ∈ pendingEnded n)); [|exact H].
    destruct (started n !! sid) as [src|]; [|exact H].
    apply (playsOnly_retire sid) in H.
    apply (playsOnly_flag false) in H.
    match goal with |- context [if bool_decide ?c then _ else _] =>
      destruct (bool_decide c) end.
    + apply (playsOnly_current None) in H.
      match goal with |- context [if ?c then _ else _] => destruct c end;
        [|exact H].
      eapply playsOnly_drained; [exact H|apply processNext_drained].
    + match goal with |- context [if ?c then _ else _] => destruct c end;
        [|exact H].
      eapply playsOnly_drained; [exact H|apply processNext_drained].
  - destruct (narrationAudioContext n); [now apply playsOnly_context|exact H].
  - now apply playsOnly_factory.
Qed.

Lemma playsOnly_run es n :
  playsOnly base P n ->
  playsOnly base P (narrationRun decodeThrows es n).
Proof.
  revert n. induction es as [|e es IH]; intros n H; simpl; [exact H|].
  apply IH. now apply playsOnly_step.
Qed.

End NarrationSteps.

Section NarrationCalls.

Variable decodeThrows : string -> bool.

Lemma bounded_playsOnly n :
  versionsBounded n -> playsOnly (started n) (fun _ => True) n.
Proof.
  intros Hb. split; [exact Hb|]. split; [trivial|]. split.
  - intros tid t _ _. exact I.
  - exists []. split; [now rewrite app_nil_r|constructor].
Qed.

Lemma versionsBounded_step e n :
  versionsBounded n -> versionsBounded (fst (narrationStep decodeThrows e n)).
Proof.
  intros Hb. apply bounded_playsOnly in Hb.
  apply (playsOnly_step decodeThrows _ _ e) in Hb. apply Hb.
Qed.

Lemma versionsBounded_stop n :
  versionsBounded n -> versionsBounded (stopNarration n).
Proof.
  intros (Ht & Hs). unfold stopNarration, versionsBounded.
  destruct n as [ctx cur queue playing version st pend tasks next factory].
  simpl in *. destruct cur; simpl; split.
  - intros tid t Hl. specialize (Ht tid t Hl). simpl in Ht. lia.
  - eapply Forall_impl; [exact Hs|]. simpl. intros; lia.
  - intros tid t Hl. specialize (Ht tid t Hl). simpl in Ht. lia.
  - eapply Forall_impl; [exact Hs|]. simpl. intros; lia.
Qed.

Lemma stopNarration_fields n :
  narrationVersion (stopNarration n) = S (narrationVersion n)
  /\ started (stopNarration n) = started n
  /\ narrationTasks (stopNarration n) = narrationTasks n
  /\ narrationQueue (stopNarration n) = []
  /\ isPlayingNarration (stopNarration n) = false
  /\ currentNarrationSource (stopNarration n) = None.
Proof.
  unfold stopNarration.
  destruct n as [ctx cur queue playing version st pend tasks next factory].
  simpl. destruct cur; simpl; repeat split.
Qed.

(** The state between [stopNarration()] and [processNarrationQueue()]
    in an enqueue-replace call. *)
Lemma replaced_playsOnly items n :
  versionsBounded n ->
  playsOnly (started n) (fun x => x ∈ items)
    (set_narrationQueue items (stopNarration n)).
Proof.
  intros Hb.
  destruct (stopNarration_fields n) as (Hv & Hs & Ht & _).
  pose proof (versionsBounded_stop n Hb) as Hb'.
  destruct Hb as [Hbt _].
  remember (stopNarration n) as m eqn:Em. clear Em.
  destruct m as [ctx cur queue playing version st pend tasks next factory].
  simpl in *. subst.
  split; [exact Hb'|]. split; [trivial|]. split.
  - simpl. intros tid t Hl Hv. specialize (Hbt tid t Hl). simpl in Hbt. lia.
  - exists []. split; [simpl; now rewrite app_nil_r|constructor].
Qed.

Lemma narrationCall_eq n c :
  narrationCall decodeThrows n c =
  fst (processNarrationQueue decodeThrows
         (match c with
          | callPlayNarration notify _ => notify
          | callPlayNarrationSequence notify _ => notify
          end)
         (set_narrationQueue (callItems c) (stopNarration n))).
Proof. destruct c; reflexivity. Qed.

Lemma narrationCall_playsOnly c n :
  versionsBounded n ->
  playsOnly (started n) (fun x => x ∈ callItems c) (narrationCall decodeThrows n c).
Proof.
  intros Hb. rewrite narrationCall_eq.
  eapply playsOnly_drained; [now apply replaced_playsOnly|].
  apply processNarrationQueue_drained.
Qed.

Lemma narrationCall_version c n :
  narrationVersion (narrationCall decodeThrows n c) = S (narrationVersion n).
Proof.
  rewrite narrationCall_eq.
  match goal with |- context [processNarrationQueue _ ?b ?m] =>
    destruct (processNarrationQueue_drained decodeThrows b m) as (Hv & _) end.
  rewrite Hv. destruct (stopNarration_fields n) as (Hs & _).
  remember (stopNarration n) as m. destruct m. simpl in *. exact Hs.
Qed.

Lemma narrationCall_started c n :
  started (narrationCall decodeThrows n c) = started n.
Proof.
  rewrite narrationCall_eq.
  match goal with |- context [processNarrationQueue _ ?b ?m] =>
    destruct (processNarrationQueue_drained decodeThrows b m) as (_ & Hst & _) end.
  rewrite Hst. destruct (stopNarration_fields n) as (_ & Hs & _).
  remember (stopNarration n) as m. destruct m. simpl in *. exact Hs.
Qed.

Lemma narrationCall_bounded c n :
  versionsBounded n -> versionsBounded (narrationCall decodeThrows n c).
Proof. intros Hb. apply (narrationCall_playsOnly c n Hb). Qed.

Lemma narrationCalls_facts cs :
  forall n, versionsBounded n ->
    versionsBounded (narrationCalls decodeThrows cs n)
    /\ started (narrationCalls decodeThrows cs n) = started n
    /\ narrationVersion (narrationCalls decodeThrows cs n)
       = narrationVersion n + length cs.
Proof.
  induction cs as [|c cs IH]; intros n Hb; simpl.
  - split; [exact Hb|]. split; [reflexivity|lia].
  - destruct (IH (narrationCall decodeThrows n c) (narrationCall_bounded c n Hb))
      as (H1 & H2 & H3).
    split; [exact H1|]. split.
    + rewrite H2. apply narrationCall_started.
    + rewrite H3, narrationCall_version. lia.
Qed.

Lemma narrationCalls_snoc cs c n :
  narrationCalls decodeThrows (cs ++ [c]) n
  = narrationCall decodeThrows (narrationCalls decodeThrows cs n) c.
Proof. unfold narrationCalls. now rewrite foldl_app. Qed.

Lemma initial_bounded factory : versionsBounded (initialNarration factory).
Proof.
  split; simpl.
  - apply map_Forall_empty.
  - constructor.
Qed.

Lemma narrationActs_bounded acts :
  forall n, versionsBounded n -> versionsBounded (narrationActs decodeThrows acts n).
Proof.
  induction acts as [|a acts IH]; intros n Hb; simpl; [exact Hb|].
  apply IH. destruct a as [c| |e]; simpl.
  - now apply narrationCall_bounded.
  - now apply versionsBounded_stop.
  - now apply versionsBounded_step.
Qed.

(** No event touches the generation counter. *)
Lemma failedChunk_version v n :
  narrationVersion (failedChunk (processNext decodeThrows) v n) = narrationVersion n.
Proof.
  unfold failedChunk.
  destruct (v =? narrationVersion (set_isPlayingNarration false n)); [|reflexivity].
  destruct (processNext_drained decodeThrows (set_isPlayingNarration false n))
    as (Hv & _).
  rewrite Hv. reflexivity.
Qed.

Lemma decodeChunk_version v audio notify n :
  narrationVersion
    (fst (decodeChunk decodeThrows (processNext decodeThrows) v audio notify n))
  = narrationVersion n.
Proof.
  unfold decodeChunk.
  destruct (v =? narrationVersion n); simpl; [|reflexivity].
  destruct (decodeThrows audio); simpl; [apply failedChunk_version|reflexivity].
Qed.

Lemma narrationStep_version e n :
  narrationVersion (fst (narrationStep decodeThrows e n)) = narrationVersion n.
Proof.
  destruct e as [tid ok|tid decoded startable|sid|s|f]; simpl.
  - unfold onResumeSettled.
    destruct (narrationTasks n !! tid) as [t|]; [|reflexivity].
    destruct (task_await t); [|reflexivity].
    destruct ok; [|reflexivity].
    rewrite decodeChunk_version.
    destruct (narrationAudioContext (wake tid n)); reflexivity.
  - unfold onDecodeSettled.
    destruct (narrationTasks n !! tid) as [t|]; [|reflexivity].
    destruct (task_await t); [reflexivity|].
    destruct decoded; cbn [negb fst]; [|now rewrite failedChunk_version].
    destruct (task_version t =? narrationVersion (wake tid n)); cbn [negb fst];
      [|reflexivity].
    destruct startable; cbn [negb fst]; [reflexivity|now rewrite failedChunk_version].
  - unfold onSourceEnded.
    destruct (bool_decide (sid ∈ pendingEnded n)); [|reflexivity].
    destruct (started n !! sid) as [src|]; [|reflexivity].
    match goal with |- context [if bool_decide ?c then _ else _] =>
      destruct (bool_decide c) end;
    match goal with |- context [if ?c then _ else _] => destruct c end;
    try reflexivity;
    match goal with |- context [processNext _ ?m] =>
      destruct (processNext_drained decodeThrows m) as (Hv & _); rewrite Hv end;
    reflexivity.
  - destruct (narrationAudioContext n); reflexivity.
  - reflexivity.
Qed.

Lemma narrationRun_version es n :
  narrationVersion (narrationRun decodeThrows es n) = narrationVersion n.
Proof.
  revert n. induction es as [|e es IH]; intros n; simpl; [reflexivity|].
  rewrite IH. apply narrationStep_version.
Qed.

End NarrationCalls.

(** ** Cancellation by the generation counter *)

Section Cancellation.

Variable decodeThrows : string -> bool.

Lemma stale_settle_aborts (n : Narration) (tid : nat) (t : NarrationTask)
    (e : NarrationEvent) :
  narrationTasks n !! tid = Some t ->
  task_version t <> narrationVersion n ->
  settles e tid t ->
  abortedOnly tid n (fst (narrationStep decodeThrows e n)).
Proof.
  intros Hl Hv Hs.
  assert (Hneq : (task_version t =? narrationVersion n) = false)
    by now apply Nat.eqb_neq.
  destruct n as [ctx cur queue playing version st pend tasks next factory].
  simpl in Hl, Hv, Hneq.
  destruct e as [tid' ok|tid' decoded startable|sid|s|f];
    unfold settles in Hs; destruct (task_await t) eqn:Ea; try contradiction;
    subst tid'; simpl.
  - unfold onResumeSettled. simpl. rewrite Hl, Ea.
    destruct ok; [|repeat split].
    destruct ctx; unfold decodeChunk; simpl; rewrite Hneq; repeat split.
  - unfold onDecodeSettled. simpl. rewrite Hl, Ea.
    destruct decoded; simpl.
    + rewrite Hneq. repeat split.
    + unfold failedChunk. simpl. rewrite Hneq. repeat split.
Qed.

(** C1, as amended.  Whatever the player has been through, after
    enqueue-replace calls issued back to back the generation counter has
    grown by one per call, no source has started during the calls, and
    every source that any later schedule of events starts belongs to the
    generation of the last call and was decoded from one of its items.
    An invocation that finds its generation superseded when its [await]
    settles returns without starting a source and without touching the
    queue, the counter or the active source; it does clear the playing
    flag. *)
Theorem narration_last_call_wins
    (factory : option AudioContextState) (pre : list NarrationAction)
    (earlier : list NarrationCall) (lastCall : NarrationCall)
    (post : list NarrationEvent) :
  let n0 := narrationActs decodeThrows pre (initialNarration factory) in
  let n1 := narrationCalls decodeThrows (earlier ++ [lastCall]) n0 in
  let n2 := narrationRun decodeThrows post n1 in
  narrationVersion n1 = narrationVersion n0 + S (length earlier)
  /\ started n1 = started n0
  /\ (exists new,
        started n2 = started n0 ++ new
        /\ Forall (fun src => src_version src = narrationVersion n1
                             /\ src_audio src ∈ callItems lastCall) new)
  /\ (forall n tid t e,
        narrationTasks n !! tid = Some t ->
        task_version t <> narrationVersion n ->
        settles e tid t ->
        abortedOnly tid n (fst (narrationStep decodeThrows e n))).
Proof.
  intros n0 n1 n2.
  assert (Hb0 : versionsBounded n0).
  { apply narrationActs_bounded. apply initial_bounded. }
  destruct (narrationCalls_facts decodeThrows earlier n0 Hb0) as (Hb & Hst & Hv).
  assert (Hp1 : playsOnly (started n0) (fun x => x ∈ callItems lastCall) n1).
  { unfold n1. rewrite narrationCalls_snoc. rewrite <- Hst.
    now apply narrationCall_playsOnly. }
  split.
  { unfold n1. rewrite narrationCalls_snoc, narrationCall_version, Hv. lia. }
  split.
  { unfold n1. now rewrite narrationCalls_snoc, narrationCall_started. }
  split.
  { apply (playsOnly_run decodeThrows _ _ post) in Hp1.
    destruct Hp1 as (_ & _ & _ & new & Hnew & Hall).
    exists new. split; [exact Hnew|].
    eapply Forall_impl; [exact Hall|].
    intros src [Hsv Hsa]. split; [|exact Hsa].
    rewrite Hsv. apply narrationRun_version. }
  intros n tid t e. apply stale_settle_aborts.
Qed.

End Cancellation.

(** An instance: two calls back to back, then the decode of the first
    call settles and its invocation, superseded, is aborted. *)
Lemma narration_last_call_wins_witness :
  let dec := fun _ : string => false in
  let n := narrationCalls dec
             [callPlayNarrationSequence false ["a"%string];
              callPlayNarrationSequence false ["b"%string]]
             (initialNarration (Some running)) in
  let t := {| task_version := 1; task_audio := "a"%string;
              task_await := awaitDecode; task_notify := false |} in
  narrationTasks n !! 0 = Some t
  /\ task_version t <> narrationVersion n
  /\ settles (decodeSettled 0 true true) 0 t
  /\ abortedOnly 0 n (fst (narrationStep dec (decodeSettled 0 true true) n)).
Proof.
  intros dec n t.
  assert (H1 : narrationTasks n !! 0 = Some t) by (vm_compute; reflexivity).
  assert (H2 : task_version t <> narrationVersion n) by (vm_compute; lia).
  assert (H3 : settles (decodeSettled 0 true true) 0 t) by reflexivity.
  split; [exact H1|]. split; [exact H2|]. split; [exact H3|].
  exact (proj2 (proj2 (proj2
    (narration_last_call_wins dec None [] [] (callPlayNarration false ""%string) [])))
    n 0 t (decodeSettled 0 true true) H1 H2 H3).
Defined.

(** C1, the last clause as the specification words it: after two calls
    back to back the second call's drain has set the playing flag, and the
    superseded invocation of the first call, when it aborts, clears it. *)
Lemma narration_abort_counterexample :
  let dec := fun _ : string => false in
  let n := narrationCalls dec
             [callPlayNarrationSequence false ["a"%string];
              callPlayNarrationSequence false ["b"%string]]
             (initialNarration (Some running)) in
  let n' := fst (narrationStep dec (decodeSettled 0 true true) n) in
  (exists t, narrationTasks n !! 0 = Some t
             /\ task_version t = 1 /\ narrationVersion n = 2)
  /\ started n' = []
  /\ isPlayingNarration n = true
  /\ isPlayingNarration n' = false.
Proof.
  vm_compute. split; [|repeat split].
  eexists. repeat split.
Qed.

(** ** The narration player, step by step *)

Section DrainEquations.

Variable decodeThrows : string -> bool.

(** The head of the queue decodes: the invocation parks at
    [await decodeAudioData]. *)
Lemma processNarrationQueue_parks notify n x rest ctx :
  isPlayingNarration n = false ->
  narrationQueue n = x :: rest ->
  JsString.truthy x = true ->
  narrationAudioContext n = Some ctx -> ctx <> suspended ->
  decodeThrows x = false ->
  processNarrationQueue decodeThrows notify n =
  (suspend {| task_version := narrationVersion n; task_audio := x;
              task_await := awaitDecode; task_notify := notify |}
     (set_narrationQueue rest (set_isPlayingNarration true n)), false).
Proof.
  intros Hp Hq Hx Hc Hs Hd. unfold processNarrationQueue. rewrite Hq.
  cbn [length]. remember (S (length rest)) as fuel eqn:Ef. clear Ef.
  destruct n as [c cur queue playing version st pend tasks next factory].
  simpl in *. subst. simpl. rewrite Hx. simpl.
  destruct ctx; try contradiction;
    unfold decodeChunk; simpl; rewrite Nat.eqb_refl, Hd; reflexivity.
Qed.

(** [decode] throws on the head of the queue: the item is dropped and
    the next one is tried at once. *)
Lemma processNarrationQueue_fuel_skips fuel notify n x rest ctx :
  isPlayingNarration n = false ->
  narrationQueue n = x :: rest ->
  JsString.truthy x = true ->
  narrationAudioContext n = Some ctx -> ctx <> suspended ->
  decodeThrows x = true ->
  processNarrationQueue_fuel decodeThrows (S fuel) notify n =
  (fst (processNarrationQueue_fuel decodeThrows fuel false
          (set_isPlayingNarration false (set_narrationQueue rest n))), notify).
Proof.
  intros Hp Hq Hx Hc Hs Hd.
  destruct n as [c cur queue playing version st pend tasks next factory].
  simpl in *. subst. simpl. rewrite Hx. simpl.
  destruct ctx; try contradiction;
    unfold decodeChunk, failedChunk; simpl; rewrite Nat.eqb_refl, Hd;
    simpl; rewrite ?Nat.eqb_refl; reflexivity.
Qed.

Lemma processNarrationQueue_skips notify n x rest ctx :
  isPlayingNarration n = false ->
  narrationQueue n = x :: rest ->
  JsString.truthy x = true ->
  narrationAudioContext n = Some ctx -> ctx <> suspended ->
  decodeThrows x = true ->
  processNarrationQueue decodeThrows notify n =
  (processNext decodeThrows
     (set_isPlayingNarration false (set_narrationQueue rest n)), notify).
Proof.
  intros Hp Hq Hx Hc Hs Hd. unfold processNext, processNarrationQueue.
  rewrite Hq. cbn [length].
  rewrite (processNarrationQueue_fuel_skips _ notify n x rest ctx Hp Hq Hx Hc Hs Hd).
  destruct n; reflexivity.
Qed.

(** The context is suspended: the invocation parks at [await resume()]. *)
Lemma processNarrationQueue_parks_resume notify n x rest :
  isPlayingNarration n = false ->
  narrationQueue n = x :: rest ->
  JsString.truthy x = true ->
  narrationAudioContext n = Some suspended ->
  processNarrationQueue decodeThrows notify n =
  (suspend {| task_version := narrationVersion n; task_audio := x;
              task_await := awaitResume; task_notify := notify |}
     (set_narrationQueue rest (set_isPlayingNarration true n)), false).
Proof.
  intros Hp Hq Hx Hc. unfold processNarrationQueue. rewrite Hq.
  cbn [length]. remember (S (length rest)) as fuel eqn:Ef. clear Ef.
  destruct n as [c cur queue playing version st pend tasks next factory].
  simpl in *. subst. simpl. rewrite Hx. reflexivity.
Qed.

Lemma processNarrationQueue_empty notify n :
  narrationQueue n = [] ->
  processNarrationQueue decodeThrows notify n = (n, notify).
Proof.
  intros Hq. unfold processNarrationQueue. rewrite Hq. simpl. rewrite Hq.
  rewrite orb_true_r. reflexivity.
Qed.

(** The decode of an invocation of the current generation resolves and
    the source starts. *)
Lemma onDecodeSettled_starts n tid t :
  narrationTasks n !! tid = Some t ->
  task_await t = awaitDecode ->
  task_version t = narrationVersion n ->
  onDecodeSettled decodeThrows tid true true n =
  (startSource (task_audio t) (task_version t) (wake tid n), task_notify t).
Proof.
  intros Hl Ha Hv. unfold onDecodeSettled. rewrite Hl, Ha. simpl.
  rewrite Hv, Nat.eqb_refl. reflexivity.
Qed.

(** The decode of an invocation of the current generation rejects: the
    flag is cleared and the next item is tried. *)
Lemma onDecodeSettled_rejected n tid t startable :
  narrationTasks n !! tid = Some t ->
  task_await t = awaitDecode ->
  task_version t = narrationVersion n ->
  onDecodeSettled decodeThrows tid false startable n =
  (processNext decodeThrows (set_isPlayingNarration false (wake tid n)),
   task_notify t).
Proof.
  intros Hl Ha Hv. unfold onDecodeSettled. rewrite Hl, Ha. simpl.
  unfold failedChunk. simpl. rewrite Hv, Nat.eqb_refl. reflexivity.
Qed.

(** The resume of an invocation rejects: the flag is cleared and the
    invocation returns; the queue is left as it is. *)
Lemma onResumeSettled_rejected n tid t :
  narrationTasks n !! tid = Some t ->
  task_await t = awaitResume ->
  onResumeSettled decodeThrows tid false n =
  (set_isPlayingNarration false (wake tid n), task_notify t).
Proof. intros Hl Ha. unfold onResumeSettled. now rewrite Hl, Ha. Qed.

(** The active source of the current generation ends: the next item is
    tried. *)
Lemma onSourceEnded_next n sid src :
  sid ∈ pendingEnded n ->
  started n !! sid = Some src ->
  src_version src = narrationVersion n ->
  currentNarrationSource n = Some sid ->
  onSourceEnded decodeThrows sid n =
  processNext decodeThrows
    (set_currentNarrationSource None
       (set_isPlayingNarration false (retire sid n))).
Proof.
  intros Hp Hs Hv Hc. unfold onSourceEnded.
  rewrite bool_decide_eq_true_2 by exact Hp. rewrite Hs.
  destruct n as [c cur queue playing version st pend tasks next factory].
  simpl in *. subst.
  rewrite bool_decide_eq_true_2 by reflexivity. simpl.
  rewrite Nat.eqb_refl. reflexivity.
Qed.

End DrainEquations.

(** ** Failures while draining the queue *)

Section QueueFailures.

Variable decodeThrows : string -> bool.

Lemma stopNarration_eq n :
  stopNarration n =
  set_isPlayingNarration false
    (set_currentNarrationSource None
       (set_narrationQueue [] (set_narrationVersion (S (narrationVersion n)) n))).
Proof.
  destruct n as [c cur queue playing version st pend tasks next factory].
  destruct cur; reflexivity.
Qed.

Ltac side :=
  simpl;
  first [ reflexivity | assumption | discriminate
        | apply lookup_insert_eq
        | apply list_lookup_middle; reflexivity
        | set_solver ].

Ltac park := unfold processNext;
  erewrite processNarrationQueue_parks with (ctx := running); [|side..];
  cbn [fst snd].
Ltac skip := unfold processNext;
  erewrite processNarrationQueue_skips with (ctx := running); [|side..];
  cbn [fst snd].
Ltac starts tid :=
  erewrite (onDecodeSettled_starts decodeThrows _ tid); [|side..]; cbn [fst snd].
Ltac rejects tid :=
  erewrite (onDecodeSettled_rejected decodeThrows _ tid); [|side..]; cbn [fst snd].
Ltac ends := erewrite onSourceEnded_next; [|side..]; cbn [fst snd].

(** C6.  The queue is [a, b, c], the context is running, and the
    payloads are non-empty; [a] and [c] decode.  Whether [decode(b)]
    throws at once or [decodeAudioData] rejects for [b], the sources
    started are [a] and then [c], both under the generation of the call:
    [b] is skipped and the rest of the queue is played.  In general, when
    the decode of an invocation of the current generation rejects, the
    next item of the queue is taken at once and an invocation is parked
    for it. *)
Theorem decode_failure_skips_item (n : Narration) (a b c : string)
    (notify : bool) :
  narrationAudioContext n = Some running ->
  JsString.truthy a = true -> JsString.truthy b = true ->
  JsString.truthy c = true ->
  decodeThrows a = false -> decodeThrows c = false ->
  let t0 := nextNarrationTask n in
  let s0 := length (started n) in
  let v := S (narrationVersion n) in
  let n1 := fst (playNarrationSequence decodeThrows notify [a; b; c] n) in
  let played :=
    started n ++ [{| src_audio := a; src_version := v |};
                  {| src_audio := c; src_version := v |}] in
  (decodeThrows b = true ->
   let n2 := narrationRun decodeThrows
               [decodeSettled t0 true true; sourceEnded s0;
                decodeSettled (S t0) true true] n1 in
   started n2 = played /\ narrationQueue n2 = []
   /\ narrationVersion n2 = v)
  /\ (decodeThrows b = false ->
      forall startable,
      let n2 := narrationRun decodeThrows
                  [decodeSettled t0 true true; sourceEnded s0;
                   decodeSettled (S t0) false startable;
                   decodeSettled (S (S t0)) true true] n1 in
      started n2 = played /\ narrationQueue n2 = []
      /\ narrationVersion n2 = v)
  /\ (forall m tid t x rest startable,
        narrationTasks m !! tid = Some t ->
        task_await t = awaitDecode ->
        task_version t = narrationVersion m ->
        narrationQueue m = x :: rest ->
        JsString.truthy x = true ->
        narrationAudioContext m = Some running ->
        decodeThrows x = false ->
        let m' := fst (narrationStep decodeThrows (decodeSettled tid false startable) m) in
        narrationQueue m' = rest
        /\ started m' = started m
        /\ narrationTasks m' !! nextNarrationTask m
           = Some {| task_version := narrationVersion m; task_audio := x;
                     task_await := awaitDecode; task_notify := false |}).
Proof.
  intros Hctx Ha Hb Hc Hda Hdc.
  destruct n as [ctx cur queue playing version st pend tasks next factory].
  simpl in Hctx. subst ctx. cbn zeta.
  unfold playNarrationSequence, narrationRun. rewrite stopNarration_eq.
  cbn [foldl narrationStep fst snd nextNarrationTask started narrationVersion].
  split; [|split].
  - intros Hdb. park. starts next. ends. skip. park. starts (S next).
    simpl. rewrite <- app_assoc. repeat split.
  - intros Hdb startable. park. starts next. ends. park. rejects (S next).
    park. starts (S (S next)).
    simpl. rewrite <- app_assoc. repeat split.
  - intros m tid t x rest startable Hl Hw Hv Hq Hx Hm Hd. cbn zeta.
    cbn [narrationStep].
    rewrite (onDecodeSettled_rejected decodeThrows m tid t startable Hl Hw Hv).
    cbn [fst]. unfold processNext.
    erewrite processNarrationQueue_parks with (ctx := running) (x := x) (rest := rest);
      [|destruct m; simpl in *; first [reflexivity|assumption|discriminate]..].
    destruct m; simpl. split; [reflexivity|]. split; [reflexivity|].
    apply lookup_insert_eq.
Qed.

End QueueFailures.

(** An instance: the payloads a, b, c on a running
    context, where [decode] throws on b alone. *)
Lemma decode_failure_skips_item_witness :
  let dec := fun s : string => bool_decide (s = "b"%string) in
  let n := set_narrationAudioContext (Some running) (initialNarration None) in
  narrationAudioContext n = Some running
  /\ JsString.truthy "a" = true /\ JsString.truthy "b" = true
  /\ JsString.truthy "c" = true
  /\ dec "a"%string = false /\ dec "c"%string = false /\ dec "b"%string = true
  /\ started
       (narrationRun dec
          [decodeSettled 0 true true; sourceEnded 0; decodeSettled 1 true true]
          (fst (playNarrationSequence dec false ["a"; "b"; "c"]%string n)))
     = [{| src_audio := "a"; src_version := 1 |};
        {| src_audio := "c"; src_version := 1 |}].
Proof.
  intros dec n.
  repeat (split; [reflexivity|]).
  exact (proj1 (proj1
    (decode_failure_skips_item dec n "a" "b" "c" false
       eq_refl eq_refl eq_refl eq_refl eq_refl eq_refl) eq_refl)).
Defined.

(** ** One drain at a time *)

Section SingleDrain.

Variable decodeThrows : string -> bool.

(** [silent] and [singleDrain] read the counter, the log of started
    sources, the outstanding [ended] events and the suspended invocations
    only. *)
Lemma silent_mono (n n' : Narration) :
  silent n ->
  narrationVersion n' = narrationVersion n ->
  started n' = started n ->
  pendingEnded n' ⊆ pendingEnded n ->
  (forall tid t, narrationTasks n' !! tid = Some t ->
                 narrationTasks n !! tid = Some t) ->
  silent n'.
Proof.
  intros [Ht Hs] Hv Hst Hp Hsub. split.
  - intros tid t Hl. rewrite Hv. apply (Ht tid t). now apply Hsub.
  - intros sid src Hin Hl. rewrite Hv. rewrite Hst in Hl.
    apply (Hs sid src); [now apply Hp|exact Hl].
Qed.

Lemma silent_single (n : Narration) : silent n -> singleDrain n.
Proof.
  intros [Ht Hs]. split.
  - intros tid t Hl Hv. now elim (Ht tid t Hl).
  - intros sid src Hin Hl Hv. now elim (Hs sid src Hin Hl).
Qed.

Lemma singleDrain_mono (n n' : Narration) :
  singleDrain n ->
  narrationVersion n' = narrationVersion n ->
  started n' = started n ->
  pendingEnded n' ⊆ pendingEnded n ->
  (forall tid t, narrationTasks n' !! tid = Some t ->
                 narrationTasks n !! tid = Some t) ->
  singleDrain n'.
Proof.
  intros [Ht Hs] Hv Hst Hp Hsub. split.
  - intros tid t Hl Htv. rewrite Hv in Htv.
    apply (silent_mono (wake tid n)); [now apply (Ht tid t); [apply Hsub|]|..].
    + exact Hv.
    + exact Hst.
    + exact Hp.
    + simpl. intros tid' t' Hl'. apply lookup_delete_Some in Hl' as [Hne Hl'].
      apply lookup_delete_Some. split; [exact Hne|now apply Hsub].
  - intros sid src Hin Hl Hsv. rewrite Hv in Hsv. rewrite Hst in Hl.
    apply (silent_mono (retire sid n));
      [now apply (Hs sid src); [apply Hp| |]|..].
    + exact Hv.
    + exact Hst.
    + simpl. intros x Hx. apply elem_of_difference in Hx as [Hx Hne].
      apply elem_of_difference. split; [now apply Hp|exact Hne].
    + exact Hsub.
Qed.

(** Parking one invocation on a silent player. *)
Lemma silent_suspend (n : Narration) (t : NarrationTask) :
  silent n -> singleDrain (suspend t n).
Proof.
  intros [Ht Hs]. split.
  - intros tid t' Hl Hv. simpl in Hl, Hv.
    destruct (decide (tid = nextNarrationTask n)) as [->|Hne].
    + split.
      * simpl. intros tid' t'' Hl'. apply lookup_delete_Some in Hl' as [Hne Hl'].
        rewrite lookup_insert_ne in Hl' by congruence. now apply (Ht tid' t'').
      * simpl. exact Hs.
    + rewrite lookup_insert_ne in Hl by congruence. now elim (Ht tid t' Hl).
  - intros sid src Hin Hl Hv. now elim (Hs sid src Hin Hl).
Qed.

(** Starting one source on a silent player. *)
Lemma silent_start (n : Narration) (audio : string) (v : nat) :
  silent n -> singleDrain (startSource audio v n).
Proof.
  intros [Ht Hs].
  assert (Hold : forall sid src,
             sid <> length (started n) ->
             (started n ++ [{| src_audio := audio; src_version := v |}]) !! sid
             = Some src ->
             started n !! sid = Some src).
  { intros sid src Hne Hl.
    destruct (decide (sid < length (started n))) as [Hlt|Hge].
    - now rewrite lookup_app_l in Hl.
    - apply lookup_lt_Some in Hl. rewrite length_app in Hl. simpl in Hl. lia. }
  split.
  - intros tid t Hl Hv. now elim (Ht tid t Hl).
  - intros sid src Hin Hl Hv. simpl in Hin, Hl, Hv.
    destruct (decide (sid = length (started n))) as [->|Hne].
    + split; [exact Ht|].
      simpl. intros sid' src' Hin' Hl'.
      apply elem_of_difference in Hin' as [Hin' Hne'].
      apply not_elem_of_singleton in Hne'.
      apply elem_of_union in Hin' as [Hin'|Hin'];
        [apply elem_of_singleton in Hin'; congruence|].
      apply (Hs sid' src' Hin'). now apply Hold.
    + apply elem_of_union in Hin as [Hin|Hin];
        [apply elem_of_singleton in Hin; congruence|].
      elim (Hs sid src Hin); [now apply Hold|exact Hv].
Qed.

Lemma silent_drained (notify r : bool) (n n' : Narration) :
  silent n -> drainedFrom notify n n' r -> singleDrain n'.
Proof.
  intros Hs (Hv & Hst & Hp & _ & _ & Htasks).
  destruct Htasks as [(Htk & _ & _)|(t & Htk & _ & _)].
  - apply silent_single. apply (silent_mono n n' Hs); try assumption.
    + now rewrite Hp.
    + intros tid t. now rewrite Htk.
  - apply (singleDrain_mono (suspend t n) n'); [now apply silent_suspend|..].
    + exact Hv.
    + exact Hst.
    + now rewrite Hp.
    + intros tid t'. simpl. now rewrite Htk.
Qed.

End SingleDrain.

Section SingleDrainSteps.

Variable decodeThrows : string -> bool.

Ltac same_activity H lemma :=
  apply (lemma _ _ H);
  [reflexivity|reflexivity|reflexivity|intros ? ? Hl; exact Hl].

Lemma silent_flag b n : silent n -> silent (set_isPlayingNarration b n).
Proof. intros H. same_activity H silent_mono. Qed.

Lemma silent_context c n : silent n -> silent (set_narrationAudioContext c n).
Proof. intros H. same_activity H silent_mono. Qed.

Lemma silent_current c n : silent n -> silent (set_currentNarrationSource c n).
Proof. intros H. same_activity H silent_mono. Qed.

Lemma silent_queue q n : silent n -> silent (set_narrationQueue q n).
Proof. intros H. same_activity H silent_mono. Qed.

Lemma singleDrain_flag b n : singleDrain n -> singleDrain (set_isPlayingNarration b n).
Proof. intros H. same_activity H singleDrain_mono. Qed.

Lemma singleDrain_context c n :
  singleDrain n -> singleDrain (set_narrationAudioContext c n).
Proof. intros H. same_activity H singleDrain_mono. Qed.

Lemma singleDrain_factory f n :
  singleDrain n -> singleDrain (set_narrationContextFactory f n).
Proof. intros H. same_activity H singleDrain_mono. Qed.

Lemma singleDrain_current c n :
  singleDrain n -> singleDrain (set_currentNarrationSource c n).
Proof. intros H. same_activity H singleDrain_mono. Qed.

Lemma singleDrain_wake tid n : singleDrain n -> singleDrain (wake tid n).
Proof.
  intros H. apply (singleDrain_mono _ _ H); try reflexivity.
  simpl. intros tid' t Hl. apply lookup_delete_Some in Hl. tauto.
Qed.

Lemma singleDrain_retire sid n : singleDrain n -> singleDrain (retire sid n).
Proof.
  intros H. apply (singleDrain_mono _ _ H); try reflexivity.
  - simpl. intros x Hx. apply elem_of_difference in Hx. tauto.
  - intros ? ? Hl; exact Hl.
Qed.

(** The [catch] of an invocation, once the invocation is out of the way. *)
Lemma failedChunk_single v n :
  (v = narrationVersion n -> silent n) -> singleDrain n ->
  singleDrain (failedChunk (processNext decodeThrows) v n).
Proof.
  intros Hs Hd. unfold failedChunk.
  destruct (v =? narrationVersion (set_isPlayingNarration false n)) eqn:E.
  - apply Nat.eqb_eq in E.
    eapply silent_drained; [|apply processNext_drained].
    apply silent_flag. apply Hs. exact E.
  - now apply singleDrain_flag.
Qed.

Lemma decodeChunk_single v audio notify n :
  (v = narrationVersion n -> silent n) -> singleDrain n ->
  singleDrain
    (fst (decodeChunk decodeThrows (processNext decodeThrows) v audio notify n)).
Proof.
  intros Hs Hd. unfold decodeChunk.
  destruct (v =? narrationVersion n) eqn:E; simpl.
  - destruct (decodeThrows audio); simpl.
    + now apply failedChunk_single.
    + apply silent_suspend. apply Hs. now apply Nat.eqb_eq.
  - now apply singleDrain_flag.
Qed.

(** Every event keeps at most one drain in flight. *)
Lemma singleDrain_step e n :
  singleDrain n -> singleDrain (fst (narrationStep decodeThrows e n)).
Proof.
  intros H. destruct e as [tid ok|tid decoded startable|sid|s|f]; simpl.
  - unfold onResumeSettled.
    destruct (narrationTasks n !! tid) as [t|] eqn:El; [|exact H].
    destruct (task_await t); [|exact H].
    pose proof (proj1 H tid t El) as Hsil.
    apply (singleDrain_wake tid) in H.
    destruct ok; [|now apply singleDrain_flag].
    apply decodeChunk_single.
    + intros Hv. destruct (narrationAudioContext (wake tid n)).
      * apply silent_context. apply Hsil. exact Hv.
      * apply Hsil. exact Hv.
    + destruct (narrationAudioContext (wake tid n));
        [now apply singleDrain_context|exact H].
  - unfold onDecodeSettled.
    destruct (narrationTasks n !! tid) as [t|] eqn:El; [|exact H].
    destruct (task_await t); [exact H|].
    pose proof (proj1 H tid t El) as Hsil.
    apply (singleDrain_wake tid) in H.
    destruct decoded; cbn [negb fst]; [|now apply failedChunk_single].
    destruct (task_version t =? narrationVersion (wake tid n)) eqn:E; cbn [negb fst];
      [|now apply singleDrain_flag].
    apply Nat.eqb_eq in E.
    destruct startable; cbn [negb fst]; [|now apply failedChunk_single].
    apply silent_start. now apply Hsil.
  - unfold onSourceEnded.
    destruct (bool_decide (sid ∈ pendingEnded n)) eqn:Ein; [|exact H].
    apply bool_decide_eq_true in Ein.
    destruct (started n !! sid) as [src|] eqn:El; [|exact H].
    pose proof (proj2 H sid src Ein El) as Hsil.
    apply (singleDrain_retire sid) in H.
    apply (singleDrain_flag false) in H.
    assert (Hgo : forall m,
               (src_version src = narrationVersion m -> silent m) ->
               singleDrain m ->
               singleDrain (if src_version src =? narrationVersion m
                            then processNext decodeThrows m else m)).
    { intros m Hm Hd. destruct (src_version src =? narrationVersion m) eqn:E;
        [|exact Hd].
      eapply silent_drained; [|apply processNext_drained].
      apply Hm. now apply Nat.eqb_eq. }
    match goal with |- context [if bool_decide ?c then _ else _] =>
      destruct (bool_decide c) end; apply Hgo.
    + intros Hv. apply silent_current, silent_flag. now apply Hsil.
    + now apply singleDrain_current.
    + intros Hv. apply silent_flag. now apply Hsil.
    + exact H.
  - destruct (narrationAudioContext n); [now apply singleDrain_context|exact H].
  - now apply singleDrain_factory.
Qed.

(** On a silent player no event starts a source or takes an item off the
    queue, and the player stays silent. *)
Lemma silent_step e n :
  silent n ->
  silent (fst (narrationStep decodeThrows e n))
  /\ started (fst (narrationStep decodeThrows e n)) = started n
  /\ narrationQueue (fst (narrationStep decodeThrows e n)) = narrationQueue n.
Proof.
  intros H. pose proof H as [Ht Hs].
  destruct e as [tid ok|tid decoded startable|sid|s|f]; simpl.
  - unfold onResumeSettled.
    destruct (narrationTasks n !! tid) as [t|] eqn:El; [|now split].
    destruct (task_await t); [|now split].
    assert (Hneq : (task_version t =? narrationVersion n) = false)
      by (apply Nat.eqb_neq; exact (Ht tid t El)).
    assert (Hw : silent (wake tid n)).
    { apply (silent_mono _ _ H); try reflexivity.
      simpl. intros tid' t' Hl. apply lookup_delete_Some in Hl. tauto. }
    destruct ok.
    + unfold decodeChunk.
      destruct (narrationAudioContext (wake tid n)); simpl; rewrite Hneq; simpl;
        (split; [|split; reflexivity]).
      * now apply silent_flag, silent_context.
      * now apply silent_flag.
    + simpl. split; [now apply silent_flag|split; reflexivity].
  - unfold onDecodeSettled.
    destruct (narrationTasks n !! tid) as [t|] eqn:El; [|now split].
    destruct (task_await t); [now split|].
    assert (Hneq : (task_version t =? narrationVersion n) = false)
      by (apply Nat.eqb_neq; exact (Ht tid t El)).
    assert (Hw : silent (wake tid n)).
    { apply (silent_mono _ _ H); try reflexivity.
      simpl. intros tid' t' Hl. apply lookup_delete_Some in Hl. tauto. }
    destruct decoded; simpl.
    + rewrite Hneq. simpl. split; [now apply silent_flag|split; reflexivity].
    + unfold failedChunk. simpl. rewrite Hneq.
      split; [now apply silent_flag|split; reflexivity].
  - unfold onSourceEnded.
    destruct (bool_decide (sid ∈ pendingEnded n)) eqn:Ein; [|now split].
    apply bool_decide_eq_true in Ein.
    destruct (started n !! sid) as [src|] eqn:El; [|now split].
    assert (Hneq : (src_version src =? narrationVersion n) = false)
      by (apply Nat.eqb_neq; exact (Hs sid src Ein El)).
    assert (Hr : silent (retire sid n)).
    { apply (silent_mono _ _ H); try reflexivity.
      - simpl. intros x Hx. apply elem_of_difference in Hx. tauto.
      - intros ? ? Hl; exact Hl. }
    match goal with |- context [if bool_decide ?c then _ else _] =>
      destruct (bool_decide c) end; simpl; rewrite Hneq;
      (split; [|split; reflexivity]).
    + now apply silent_current, silent_flag.
    + now apply silent_flag.
  - destruct (narrationAudioContext n);
      (split; [|split; reflexivity]); [now apply silent_context|exact H].
  - split; [|split; reflexivity]. apply (silent_mono _ _ H); try reflexivity.
    intros ? ? Hl; exact Hl.
Qed.

Lemma silent_run es :
  forall n, silent n ->
    started (narrationRun decodeThrows es n) = started n
    /\ narrationQueue (narrationRun decodeThrows es n) = narrationQueue n.
Proof.
  induction es as [|e es IH]; intros n H; simpl; [split; reflexivity|].
  destruct (silent_step e n H) as (H1 & H2 & H3).
  destruct (IH _ H1) as [H4 H5]. split; congruence.
Qed.

(** The calls, the cancellation and the events keep the versions bounded
    and at most one drain in flight. *)
Lemma bounded_stop_silent n :
  versionsBounded n -> silent (stopNarration n).
Proof.
  intros [Hbt Hbs]. destruct (stopNarration_fields n) as (Hv & Hst & Htk & _).
  split.
  - intros tid t Hl. rewrite Htk in Hl. rewrite Hv.
    specialize (Hbt tid t Hl). simpl in Hbt. lia.
  - intros sid src _ Hl. rewrite Hst in Hl. rewrite Hv.
    rewrite Forall_forall in Hbs.
    assert (Hin : src ∈ started n) by (apply list_elem_of_lookup; eauto).
    specialize (Hbs src Hin). simpl in Hbs. lia.
Qed.

Lemma narrationCall_single c n :
  versionsBounded n -> singleDrain (narrationCall decodeThrows n c).
Proof.
  intros Hb. rewrite narrationCall_eq.
  eapply silent_drained; [|apply processNarrationQueue_drained].
  apply silent_queue. now apply bounded_stop_silent.
Qed.

Lemma narrationActs_single acts :
  forall n, versionsBounded n -> singleDrain n ->
    versionsBounded (narrationActs decodeThrows acts n)
    /\ singleDrain (narrationActs decodeThrows acts n).
Proof.
  induction acts as [|a acts IH]; intros n Hb Hd; simpl; [now split|].
  apply IH; destruct a as [c| |e]; simpl.
  - now apply narrationCall_bounded.
  - now apply versionsBounded_stop.
  - now apply versionsBounded_step.
  - now apply narrationCall_single.
  - apply silent_single. now apply bounded_stop_silent.
  - now apply singleDrain_step.
Qed.

Lemma initial_single factory : singleDrain (initialNarration factory).
Proof.
  apply silent_single. split.
  - intros tid t Hl. simpl in Hl. now rewrite lookup_empty in Hl.
  - intros sid src Hin. simpl in Hin. set_solver.
Qed.

End SingleDrainSteps.

Section ResumeFailure.

Variable decodeThrows : string -> bool.

Lemma quiescent_step e n :
  quiescent n ->
  fst (narrationStep decodeThrows e n) =
  match e with
  | contextStateChanged s =>
      match narrationAudioContext n with
      | Some _ => set_narrationAudioContext (Some s) n
      | None => n
      end
  | contextFactoryChanged f => set_narrationContextFactory f n
  | _ => n
  end.
Proof.
  intros [Ht Hp]. destruct e as [tid ok|tid decoded startable|sid|s|f]; simpl.
  - unfold onResumeSettled. now rewrite Ht, lookup_empty.
  - unfold onDecodeSettled. now rewrite Ht, lookup_empty.
  - unfold onSourceEnded. rewrite Hp.
    rewrite bool_decide_eq_false_2 by set_solver. reflexivity.
  - reflexivity.
  - reflexivity.
Qed.

Lemma quiescent_run es :
  forall n, quiescent n ->
    started (narrationRun decodeThrows es n) = started n
    /\ narrationQueue (narrationRun decodeThrows es n) = narrationQueue n.
Proof.
  induction es as [|e es IH]; intros n Hq; simpl; [split; reflexivity|].
  rewrite (quiescent_step e n Hq).
  destruct e as [tid ok|tid decoded startable|sid|s|f]; try now apply IH.
  - destruct (narrationAudioContext n); [|now apply IH].
    destruct (IH (set_narrationAudioContext (Some s) n)) as [H1 H2];
      [exact Hq|]. split; [exact H1|exact H2].
  - destruct (IH (set_narrationContextFactory f n)) as [H1 H2];
      [exact Hq|]. split; [exact H1|exact H2].
Qed.

(** C7, as amended.  In any state the player can reach, when the
    resume of the suspended context rejects for the invocation that drains
    the current queue, the invocation clears the playing flag and returns:
    the item it had taken off the queue is dropped, the rest of the queue
    stays where it is and no invocation is made for it; from then on no
    schedule of events starts a source or takes an item off the queue. *)
Theorem resume_failure_stops_drain (factory : option AudioContextState)
    (pre : list NarrationAction) (tid : nat) (t : NarrationTask) :
  let n := narrationActs decodeThrows pre (initialNarration factory) in
  narrationTasks n !! tid = Some t ->
  task_await t = awaitResume ->
  task_version t = narrationVersion n ->
  let n' := fst (narrationStep decodeThrows (resumeSettled tid false) n) in
  narrationQueue n' = narrationQueue n
  /\ started n' = started n
  /\ narrationTasks n' = delete tid (narrationTasks n)
  /\ isPlayingNarration n' = false
  /\ narrationVersion n' = narrationVersion n
  /\ currentNarrationSource n' = currentNarrationSource n
  /\ (forall es,
        started (narrationRun decodeThrows es n') = started n
        /\ narrationQueue (narrationRun decodeThrows es n') = narrationQueue n).
Proof.
  intros n Hl Ha Hv n'.
  destruct (narrationActs_single decodeThrows pre (initialNarration factory)
              (initial_bounded factory) (initial_single factory)) as [_ Hd].
  fold n in Hd.
  pose proof (proj1 Hd tid t Hl Hv) as Hsil.
  assert (En' : n' = set_isPlayingNarration false (wake tid n)).
  { unfold n'. simpl.
    now rewrite (onResumeSettled_rejected decodeThrows n tid t Hl Ha). }
  rewrite En'.
  split; [reflexivity|]. split; [reflexivity|]. split; [reflexivity|].
  split; [reflexivity|]. split; [reflexivity|]. split; [reflexivity|].
  intros es.
  apply (silent_run decodeThrows es (set_isPlayingNarration false (wake tid n))).
  now apply silent_flag.
Qed.

End ResumeFailure.

(** An instance: the first call of a session, with a and b, on a context
    that comes up suspended and whose resume rejects. *)
Lemma resume_failure_stops_drain_witness :
  let dec := fun _ : string => false in
  let pre := [actCall (callPlayNarrationSequence false ["a"; "b"]%string)] in
  let n := narrationActs dec pre (initialNarration (Some suspended)) in
  let t := {| task_version := 1; task_audio := "a"%string;
              task_await := awaitResume; task_notify := false |} in
  let n' := fst (narrationStep dec (resumeSettled 0 false) n) in
  narrationTasks n !! 0 = Some t
  /\ task_await t = awaitResume
  /\ task_version t = narrationVersion n
  /\ narrationQueue n' = ["b"%string]
  /\ forall es, started (narrationRun dec es n') = [].
Proof.
  intros dec pre n t n'.
  assert (H1 : narrationTasks n !! 0 = Some t) by (vm_compute; reflexivity).
  assert (H2 : task_version t = narrationVersion n) by reflexivity.
  destruct (resume_failure_stops_drain dec (Some suspended) pre 0 t H1 eq_refl H2)
    as (Hq & _ & _ & _ & _ & _ & Hrun).
  split; [exact H1|]. split; [reflexivity|]. split; [exact H2|].
  split; [exact Hq|].
  intros es. exact (proj1 (Hrun es)).
Defined.

(** C7 as the specification words it: with a and b queued on a context
    that comes up suspended and whose resume rejects, b is not attempted:
    it stays in the queue, no invocation is in flight, and no schedule of
    events starts a source. *)
Lemma resume_failure_counterexample :
  let dec := fun _ : string => false in
  let n := fst (playNarrationSequence dec false ["a"; "b"]%string
                  (initialNarration (Some suspended))) in
  let n' := fst (narrationStep dec (resumeSettled 0 false) n) in
  narrationQueue n' = ["b"%string]
  /\ narrationTasks n' = ∅
  /\ isPlayingNarration n' = false
  /\ forall es, started (narrationRun dec es n') = []
                /\ narrationQueue (narrationRun dec es n') = ["b"%string].
Proof.
  intros dec n n'.
  assert (Hq : quiescent n') by (split; vm_compute; reflexivity).
  split; [vm_compute; reflexivity|]. split; [apply Hq|].
  split; [vm_compute; reflexivity|].
  intros es. destruct (quiescent_run dec es n' Hq) as [H1 H2].
  rewrite H1, H2. split; vm_compute; reflexivity.
Qed.

(** ** The ambiance player: failures of a track switch *)

Section AmbianceFailures.

Import AmbiancePlayer.

(** The failures that the [try] block of [playAmbiance] covers: a
    rejected fetch, a response that is not [ok], a rejected body, a body
    below 1024 bytes, a rejected decode, a source that does not start.
    Each clears [currentAmbianceUrl]. *)
Lemma ambiance_caught_failure_clears_marker (a : Ambiance) (tid : nat)
    (t : AmbianceTask) :
  ambianceTasks a !! tid = Some t ->
  (amb_await t = ambAwaitFetch ->
     currentAmbianceUrl (step (ambFetchSettled tid None) a) = None
     /\ forall contentType,
          currentAmbianceUrl (step (ambFetchSettled tid (Some (false, contentType))) a)
          = None)
  /\ (amb_await t = ambAwaitBody ->
        currentAmbianceUrl (step (ambBodySettled tid None) a) = None
        /\ forall len, len < 1024 ->
             currentAmbianceUrl (step (ambBodySettled tid (Some len)) a) = None)
  /\ (amb_await t = ambAwaitDecode ->
        forall decoded startable, decoded && startable = false ->
          currentAmbianceUrl (step (ambDecodeSettled tid decoded startable) a) = None).
Proof.
  intros Hl. split; [|split].
  - intros Ha. split.
    + simpl. unfold onFetchSettled. now rewrite Hl, Ha.
    + intros ct. simpl. unfold onFetchSettled. now rewrite Hl, Ha.
  - intros Ha. split.
    + simpl. unfold onBodySettled. now rewrite Hl, Ha.
    + intros len Hlen. simpl. unfold onBodySettled. rewrite Hl, Ha.
      apply Nat.ltb_lt in Hlen. now rewrite Hlen.
  - intros Ha decoded startable Hds. simpl. unfold onDecodeSettled.
    rewrite Hl, Ha.
    destruct decoded, startable; try discriminate; reflexivity.
Qed.

Lemma playAmbiance_same_track (a : Ambiance) (url : string) (muted : bool) :
  currentAmbianceUrl a = Some url -> playAmbiance url muted a = a.
Proof.
  intros H. unfold playAmbiance. now rewrite bool_decide_eq_true_2.
Qed.

(** C8, on the failures that [playAmbiance] handles before its [try]
    block.  When the context cannot be created, or is suspended and its
    resume rejects, the switch is given up with [currentAmbianceUrl]
    still naming the track: a retry with the same track returns at the
    first test and does nothing. *)
Theorem ambiance_context_failure_keeps_marker (a : Ambiance) (url : string)
    (muted retryMuted : bool) :
  currentAmbianceUrl a <> Some url ->
  (ambianceAudioContext a = None -> ambianceContextFactory a = None ->
   let a1 := playAmbiance url muted a in
   currentAmbianceUrl a1 = Some url
   /\ ambianceTasks a1 = ambianceTasks a
   /\ playAmbiance url retryMuted a1 = a1)
  /\ (ambianceAudioContext a = Some suspended ->
      let a1 := playAmbiance url muted a in
      let a2 := step (ambResumeSettled (nextAmbianceTask a) false) a1 in
      currentAmbianceUrl a2 = Some url
      /\ ambianceTasks a2 = delete (nextAmbianceTask a) (ambianceTasks a1)
      /\ currentAmbianceSource a2 = currentAmbianceSource a
      /\ playAmbiance url retryMuted a2 = a2).
Proof.
  intros Hne.
  assert (Hbd : bool_decide (currentAmbianceUrl a = Some url) = false)
    by now apply bool_decide_eq_false_2.
  destruct a as [ctx gain cur marker sts stops tasks next factory].
  simpl in *. split.
  - intros -> ->. unfold playAmbiance. simpl. rewrite Hbd. simpl.
    repeat split. now rewrite bool_decide_eq_true_2.
  - intros ->. unfold playAmbiance. simpl. rewrite Hbd. simpl.
    unfold onResumeSettled. simpl. rewrite lookup_insert_eq. simpl.
    repeat split. unfold playAmbiance. simpl. now rewrite bool_decide_eq_true_2.
Qed.

End AmbianceFailures.

(** An instance: the first switch of a
    session, to the forest track, on a context that comes up suspended and
    whose resume rejects. *)
Lemma ambiance_context_failure_keeps_marker_witness :
  let a := AmbiancePlayer.playAmbiance (ambianceUrlFor "calm") false
             (initialAmbiance (Some suspended)) in
  let url := ambianceUrlFor "forest" in
  let a2 := AmbiancePlayer.step (ambResumeSettled (nextAmbianceTask a) false)
              (AmbiancePlayer.playAmbiance url false a) in
  currentAmbianceUrl a <> Some url
  /\ ambianceAudioContext a = Some suspended
  /\ currentAmbianceUrl a2 = Some url
  /\ AmbiancePlayer.playAmbiance url false a2 = a2.
Proof.
  intros a url a2.
  assert (H1 : currentAmbianceUrl a <> Some url) by (vm_compute; discriminate).
  assert (H2 : ambianceAudioContext a = Some suspended) by reflexivity.
  split; [exact H1|]. split; [exact H2|].
  destruct (proj2 (ambiance_context_failure_keeps_marker a url false false H1) H2)
    as (H3 & _ & _ & H4).
  split; [exact H3|exact H4].
Defined.

(** ** Dialogue segments *)

Lemma speechRequests_texts (voices : gmap string string)
    (dialogueParts : list DialoguePart) :
  (speechRequests voices dialogueParts).*1 = part_text <$> dialogueParts.
Proof.
  unfold speechRequests. induction dialogueParts as [|p ps IH];
    [reflexivity|]. simpl in *. f_equal. exact IH.
Qed.

(** Fuel: the scan of a string never needs more rounds than the string
    has characters. *)
Lemma span_length p s :
  String.length (snd (JsString.span p s)) <= String.length s.
Proof.
  induction s as [|c s IH]; simpl; [lia|].
  destruct (p c); [|simpl; lia].
  destruct (JsString.span p s) as [a b]. simpl in *. lia.
Qed.

Lemma matchTag_shorter s g1 g2 rest :
  JsString.matchTag s = Some (g1, g2, rest) ->
  String.length rest < String.length s.
Proof.
  destruct s as [|c t]; simpl; [discriminate|].
  destruct (Ascii.eqb c "[" ); [|discriminate].
  pose proof (span_length (fun x => JsString.isUpper x || JsString.isSpace x) t) as H1.
  destruct (JsString.span (fun x => JsString.isUpper x || JsString.isSpace x) t)
    as [[|r run] [|d rest0]]; try discriminate.
  destruct (Ascii.eqb d "]"); [|discriminate].
  pose proof (span_length (JsString.notChar "[") rest0) as H2.
  destruct (JsString.span (JsString.notChar "[") rest0) as [body rest'].
  intros [= <- <- <-]. simpl in *. lia.
Qed.

Lemma matchAllTags_from_enough fuel :
  forall s, String.length s <= fuel ->
    JsString.matchAllTags_from fuel s = JsString.matchAllTags s.
Proof.
  unfold JsString.matchAllTags.
  induction fuel as [|fuel IH]; intros s Hlen.
  - destruct s; [reflexivity|simpl in Hlen; lia].
  - destruct s as [|c t]; [reflexivity|].
    cbn [String.length JsString.matchAllTags_from].
    destruct (JsString.matchTag (String c t)) as [[[g1 g2] rest]|] eqn:E.
    + apply matchTag_shorter in E. simpl in E, Hlen.
      f_equal. rewrite IH by lia. symmetry.
      transitivity (JsString.matchAllTags_from (String.length rest) rest);
        [|reflexivity].
      clear IH. revert E. generalize (String.length t). intros m E.
      assert (Hgen : forall a b u, String.length u <= a -> String.length u <= b ->
                JsString.matchAllTags_from a u = JsString.matchAllTags_from b u).
      { clear. induction a as [|a IHa]; intros b u Ha Hb.
        - destruct u; [destruct b; reflexivity|simpl in Ha; lia].
        - destruct b as [|b]; [destruct u; [reflexivity|simpl in Hb; lia]|].
          destruct u as [|c u]; [reflexivity|].
          cbn [JsString.matchAllTags_from].
          destruct (JsString.matchTag (String c u)) as [[[g1 g2] rest]|] eqn:E.
          + apply matchTag_shorter in E. simpl in E, Ha, Hb.
            f_equal. apply IHa; lia.
          + simpl in Ha, Hb. apply IHa; lia. }
      apply Hgen; lia.
    + simpl in Hlen. apply IH. lia.
Qed.

Lemma matchMarkup_shorter s m rest :
  JsString.matchMarkup s = Some (m, rest) ->
  String.length rest < String.length s.
Proof.
  destruct s as [|c t]; simpl; [discriminate|].
  destruct (Ascii.eqb c "{"); [|discriminate].
  pose proof (span_length (JsString.notChar "}") t) as H1.
  destruct (JsString.span (JsString.notChar "}") t) as [[|r run] [|d rest0]];
    try discriminate.
  intros [= <- <-]. simpl in *. lia.
Qed.

(** The replacement never needs more rounds than the string has
    characters. *)
Lemma replaceMarkup_from_enough f :
  forall a b s, String.length s <= a -> String.length s <= b ->
    JsString.replaceMarkup_from a f s = JsString.replaceMarkup_from b f s.
Proof.
  induction a as [|a IH]; intros b s Ha Hb.
  - destruct s; [destruct b; reflexivity|simpl in Ha; lia].
  - destruct b as [|b]; [destruct s; [reflexivity|simpl in Hb; lia]|].
    destruct s as [|c t]; [reflexivity|].
    cbn [JsString.replaceMarkup_from].
    destruct (JsString.matchMarkup (String c t)) as [[m rest]|] eqn:E.
    + apply matchMarkup_shorter in E. simpl in E, Ha, Hb.
      f_equal. apply IH; lia.
    + simpl in Ha, Hb. f_equal. apply IH; lia.
Qed.

Section DialogueMarkup.

Variable voices : gmap string string.

Lemma deriveDialogue_untagged (storyText : string) :
  JsString.matchAllTags storyText = [] ->
  JsString.truthy (JsString.trim storyText) = true ->
  deriveDialogue voices storyText
  = ([{| speaker := "NARRATOR"; part_text := storyText |}], []).
Proof.
  intros Hm Ht. unfold deriveDialogue. rewrite Hm. simpl. now rewrite Ht.
Qed.

(** C4, evaluated.  The tagged example gives one NARRATOR segment whose
    text is "Hello brave friend".  A story without any speaker tag gives
    one NARRATOR segment whose text is the story as it stands: with the
    same words and no tag, the text sent to synthesis still holds
    "{brave|meaning courageous}". *)
Theorem untagged_segment_keeps_markup :
  fst (deriveDialogue voices "[NARRATOR] Hello {brave|meaning courageous} friend")
  = [{| speaker := "NARRATOR"; part_text := "Hello brave friend" |}]
  /\ fst (deriveDialogue voices "Hello {brave|meaning courageous} friend")
     = [{| speaker := "NARRATOR";
           part_text := "Hello {brave|meaning courageous} friend" |}]
  /\ (forall storyText,
        JsString.matchAllTags storyText = [] ->
        JsString.truthy (JsString.trim storyText) = true ->
        (speechRequests voices (fst (deriveDialogue voices storyText))).*1
        = [storyText]).
Proof.
  split; [|split].
  - unfold deriveDialogue.
    replace (JsString.matchAllTags "[NARRATOR] Hello {brave|meaning courageous} friend")
      with [("NARRATOR"%string, " Hello {brave|meaning courageous} friend"%string)]
      by (vm_compute; reflexivity).
    cbn [foldl]. unfold scanMatch. cbn [fst snd].
    replace (JsString.trim (JsString.stripMarkup " Hello {brave|meaning courageous} friend"))
      with "Hello brave friend"%string by (vm_compute; reflexivity).
    replace (JsString.trim "NARRATOR") with "NARRATOR"%string
      by (vm_compute; reflexivity).
    cbn [JsString.truthy negb app].
    rewrite bool_decide_eq_false_2 by discriminate. reflexivity.
  - rewrite deriveDialogue_untagged; [reflexivity| |]; vm_compute; reflexivity.
  - intros storyText Hm Ht. rewrite speechRequests_texts.
    now rewrite deriveDialogue_untagged.
Qed.

End DialogueMarkup.

(** An instance: a story without tags, with its
    markup sent to synthesis. *)
Lemma untagged_segment_keeps_markup_witness :
  let story := "Hello {brave|meaning courageous} friend"%string in
  JsString.matchAllTags story = []
  /\ JsString.truthy (JsString.trim story) = true
  /\ (speechRequests ∅ (fst (deriveDialogue ∅ story))).*1 = [story].
Proof.
  intros story.
  assert (H1 : JsString.matchAllTags story = []) by (vm_compute; reflexivity).
  assert (H2 : JsString.truthy (JsString.trim story) = true) by reflexivity.
  split; [exact H1|]. split; [exact H2|].
  exact (proj2 (proj2 (untagged_segment_keeps_markup ∅)) story H1 H2).
Defined.

(** ** Numbers: the index that a draw gives *)

Section Numbers.

Import JsNumber.

Lemma two_power_pos (z : Z) : (0 < 2 ^ z)%Q.
Proof. apply Qpower_0_lt. reflexivity. Qed.

Lemma two_power_succ (z : Z) : (2 ^ (z + 1) == 2 * 2 ^ z)%Q.
Proof. rewrite Qpower_plus by discriminate. ring. Qed.

Lemma two_power_le (a b : Z) : (a <= b)%Z -> (2 ^ a <= 2 ^ b)%Q.
Proof. intros H. apply Qpower_le_compat_l; [exact H|discriminate]. Qed.

Lemma two_power_Z (n : Z) : (0 <= n)%Z -> (inject_Z (2 ^ n) == 2 ^ n)%Q.
Proof. intros H. now rewrite Zpower_Qpower. Qed.

(** [binade] gives the exponent of the leading bit. *)
Lemma binade_spec (x : Q) :
  (0 < x)%Q -> (2 ^ binade x <= x)%Q /\ (x < 2 ^ (binade x + 1))%Q.
Proof.
  intros Hx. unfold binade.
  destruct x as [p q]. cbn [Qnum Qden].
  assert (Hp : (0 < p)%Z) by (unfold Qlt in Hx; simpl in Hx; lia).
  set (lp := Z.log2 p). set (lq := Z.log2 (Zpos q)).
  destruct (Z.log2_spec p Hp) as [Hp1 Hp2].
  destruct (Z.log2_spec (Zpos q) eq_refl) as [Hq1 Hq2].
  fold lp in Hp1, Hp2. fold lq in Hq1, Hq2.
  assert (Hlp : (0 <= lp)%Z) by apply Z.log2_nonneg.
  assert (Hlq : (0 <= lq)%Z) by apply Z.log2_nonneg.
  assert (Ex : (p # q) * inject_Z (Zpos q) == inject_Z p).
  { rewrite Qmake_Qdiv. field. discriminate. }
  assert (Hqpos : (0 < inject_Z (Zpos q))%Q) by reflexivity.
  assert (Bp1 : (2 ^ lp <= inject_Z p)%Q).
  { rewrite <- two_power_Z by exact Hlp. now rewrite <- Zle_Qle. }
  assert (Bp2 : (inject_Z p < 2 * 2 ^ lp)%Q).
  { rewrite <- two_power_succ, <- two_power_Z by lia.
    rewrite <- Zlt_Qlt. replace (lp + 1)%Z with (Z.succ lp) by lia. exact Hp2. }
  assert (Bq1 : (2 ^ lq <= inject_Z (Zpos q))%Q).
  { rewrite <- two_power_Z by exact Hlq. now rewrite <- Zle_Qle. }
  assert (Bq2 : (inject_Z (Zpos q) < 2 * 2 ^ lq)%Q).
  { rewrite <- two_power_succ, <- two_power_Z by lia.
    rewrite <- Zlt_Qlt. replace (lq + 1)%Z with (Z.succ lq) by lia. exact Hq2. }
  assert (Ea : (2 ^ (lp - lq) * 2 ^ lq == 2 ^ lp)%Q).
  { rewrite <- Qpower_plus by discriminate. now replace (lp - lq + lq)%Z with lp by lia. }
  pose proof (two_power_pos lq) as Plq.
  pose proof (two_power_pos (lp - lq)) as Pa.
  assert (E1 : (2 * 2 ^ (lp - lq - 1) == 2 ^ (lp - lq))%Q).
  { rewrite <- two_power_succ.
    now replace (lp - lq - 1 + 1)%Z with (lp - lq)%Z by lia. }
  pose proof (two_power_succ (lp - lq)) as E2.
  assert (Hlow : (2 ^ (lp - lq) < 2 * (p # q))%Q).
  { apply Qnot_le_lt. intros Hc.
    assert ((2 * (p # q)) * inject_Z (Zpos q) <= 2 ^ (lp - lq) * inject_Z (Zpos q))%Q
      by (apply Qmult_le_compat_r; [exact Hc|lra]).
    assert (2 ^ (lp - lq) * inject_Z (Zpos q) < 2 ^ (lp - lq) * (2 * 2 ^ lq))%Q
      by (apply Qmult_lt_l; [exact Pa|exact Bq2]).
    lra. }
  assert (Hhigh : ((p # q) < 2 * 2 ^ (lp - lq))%Q).
  { apply Qnot_le_lt. intros Hc.
    assert ((2 * 2 ^ (lp - lq)) * inject_Z (Zpos q) <= (p # q) * inject_Z (Zpos q))%Q
      by (apply Qmult_le_compat_r; [exact Hc|lra]).
    assert (2 ^ (lp - lq) * 2 ^ lq <= 2 ^ (lp - lq) * inject_Z (Zpos q))%Q
      by (apply Qmult_le_l; [exact Pa|exact Bq1]).
    rewrite <- Qmult_assoc in H. lra. }
  destruct (Qle_bool (2 ^ (lp - lq)) (p # q)) eqn:Eb.
  - apply Qle_bool_iff in Eb. split; [exact Eb|]. rewrite E2. exact Hhigh.
  - assert (Hlt : ((p # q) < 2 ^ (lp - lq))%Q).
    { apply Qnot_le_lt. intros Hc. apply Qle_bool_iff in Hc. congruence. }
    replace (lp - lq - 1 + 1)%Z with (lp - lq)%Z by lia.
    split; [lra|exact Hlt].
Qed.

Lemma roundHalfEven_near (t : Q) :
  (t - (1 # 2) <= inject_Z (roundHalfEven t))%Q
  /\ (inject_Z (roundHalfEven t) <= t + (1 # 2))%Q.
Proof.
  unfold roundHalfEven.
  pose proof (Qfloor_le t) as H1. pose proof (Qlt_floor t) as H2.
  rewrite inject_Z_plus in H2. change (inject_Z 1) with 1%Q in H2.
  assert (E : forall z, (inject_Z (z + 1) == inject_Z z + 1)%Q)
    by (intros z; now rewrite inject_Z_plus).
  destruct (t - inject_Z (Qfloor t) ?= 1 # 2)%Q eqn:Ec.
  - apply Qeq_alt in Ec.
    destruct (Z.even (Qfloor t)); rewrite ?E; split; lra.
  - apply Qlt_alt in Ec. split; lra.
  - apply Qgt_alt in Ec. rewrite E. split; lra.
Qed.

Lemma ulp_pos (x : Q) : (0 < ulp x)%Q.
Proof. apply two_power_pos. Qed.

(** Rounding moves a positive value by at most half the spacing. *)
Lemma roundPositive_near (x : Q) :
  (x - (1 # 2) * ulp x <= roundPositive x)%Q
  /\ (roundPositive x <= x + (1 # 2) * ulp x)%Q.
Proof.
  unfold roundPositive. pose proof (ulp_pos x) as Hu.
  destruct (roundHalfEven_near (x / ulp x)) as [H1 H2].
  set (N := inject_Z (roundHalfEven (x / ulp x))) in *.
  set (u := ulp x) in *.
  assert (E : (x / u * u == x)%Q) by (field; lra).
  set (t := (x / u)%Q) in *. clearbody t N u.
  split.
  - assert ((t - (1 # 2)) * u <= N * u)%Q
      by (apply Qmult_le_compat_r; [exact H1|lra]).
    lra.
  - assert (N * u <= (t + (1 # 2)) * u)%Q
      by (apply Qmult_le_compat_r; [exact H2|lra]).
    lra.
Qed.

(** A double below one is at most [1 - 2^-53]. *)
Lemma double_below_one (r : Q) :
  isDouble r -> (r < 1)%Q -> (r <= 1 - 2 ^ (-53))%Q.
Proof.
  intros (m & e & Hm & He & Er) Hr.
  destruct (Z_lt_le_dec e (-53)) as [Hlow|Hhigh].
  - (* below one half *)
    assert (Hm' : (inject_Z m < 2 ^ 53)%Q).
    { rewrite <- two_power_Z by lia. rewrite <- Zlt_Qlt. lia. }
    assert (He' : (2 ^ e <= 2 ^ (-54))%Q) by (apply two_power_le; lia).
    pose proof (two_power_pos e) as Pe.
    assert (inject_Z m * 2 ^ e < 2 ^ 53 * 2 ^ e)%Q
      by (apply Qmult_lt_r; [exact Pe|exact Hm']).
    assert (2 ^ 53 * 2 ^ e <= 2 ^ 53 * 2 ^ (-54))%Q
      by (apply Qmult_le_l; [reflexivity|exact He']).
    assert (E1 : (2 ^ 53 * 2 ^ (-54) == 1 # 2)%Q) by reflexivity.
    assert (E2 : (1 - 2 ^ (-53) == (2 ^ 53 - 1) # (2 ^ 53))%Q) by reflexivity.
    rewrite Er, E2. apply Qle_trans with (1 # 2)%Q; [lra|discriminate].
  - (* a multiple of 2^-53 *)
    assert (Ee : (2 ^ e == inject_Z (2 ^ (e + 53)) * 2 ^ (-53))%Q).
    { rewrite two_power_Z by lia. rewrite <- Qpower_plus by discriminate.
      now replace (e + 53 + -53)%Z with e by lia. }
    assert (Ek : (r == inject_Z (m * 2 ^ (e + 53)) * 2 ^ (-53))%Q).
    { rewrite Er, Ee, inject_Z_mult. ring. }
    set (K := (m * 2 ^ (e + 53))%Z) in *.
    assert (HK : (K < 2 ^ 53)%Z).
    { apply Z.nle_gt. intros Hc.
      assert (2 ^ 53 <= inject_Z K)%Q.
      { rewrite <- two_power_Z by lia. now rewrite <- Zle_Qle. }
      assert (E3 : (2 ^ 53 * 2 ^ (-53) == 1)%Q) by reflexivity.
      assert (2 ^ 53 * 2 ^ (-53) <= inject_Z K * 2 ^ (-53))%Q
        by (apply Qmult_le_compat_r; [assumption|discriminate]).
      lra. }
    assert (HK' : (inject_Z K <= 2 ^ 53 - 1)%Q).
    { assert (E4 : (2 ^ 53 - 1 == inject_Z (2 ^ 53 - 1))%Q) by reflexivity.
      rewrite E4, <- Zle_Qle. lia. }
    assert (inject_Z K * 2 ^ (-53) <= (2 ^ 53 - 1) * 2 ^ (-53))%Q
      by (apply Qmult_le_compat_r; [exact HK'|discriminate]).
    assert (E5 : ((2 ^ 53 - 1) * 2 ^ (-53) == 1 - 2 ^ (-53))%Q) by reflexivity.
    lra.
Qed.

(** [Math.floor(r * n)] for a double [r] in [[0, 1)] and a length [n]:
    an index below [n]. *)
Lemma multiply_index_range (r : Q) (n : nat) :
  isDouble r -> (0 <= r)%Q -> (r < 1)%Q -> 0 < n ->
  (0 <= Qfloor (multiply r (inject_Z (Z.of_nat n))) < Z.of_nat n)%Z.
Proof.
  intros Hd H0 H1 Hn.
  pose proof (double_below_one r Hd H1) as Hr.
  set (L := inject_Z (Z.of_nat n)).
  assert (HL : (1 <= L)%Q).
  { unfold L. change 1%Q with (inject_Z 1). rewrite <- Zle_Qle. lia. }
  unfold multiply, roundDouble. fold L.
  destruct (r * L ?= 0)%Q eqn:Ec.
  - change (Qfloor 0) with 0%Z. lia.
  - apply Qlt_alt in Ec. exfalso.
    assert (0 <= r * L)%Q by (apply Qmult_le_0_compat; lra). lra.
  - apply Qgt_alt in Ec.
    set (x := (r * L)%Q) in *.
    destruct (roundPositive_near x) as [N1 N2].
    destruct (binade_spec x Ec) as [B1 _].
    pose proof (ulp_pos x) as Hu.
    assert (Hx : (x <= L - L * 2 ^ (-53))%Q).
    { unfold x.
      assert (r * L <= (1 - 2 ^ (-53)) * L)%Q
        by (apply Qmult_le_compat_r; [exact Hr|lra]).
      lra. }
    assert (P53 : (0 < 2 ^ (-53))%Q) by reflexivity.
    assert (HxL : (x < L)%Q).
    { assert (0 < L * 2 ^ (-53))%Q by (apply Qmult_lt_0_compat; lra). lra. }
    assert (Hhalf : ((1 # 2) * ulp x < L * 2 ^ (-53))%Q).
    { assert (E : ((1 # 2) * ulp x == 2 ^ Z.max (binade x) (-1022) * 2 ^ (-53))%Q).
      { unfold ulp.
        replace (Z.max (binade x) (-1022) - 52)%Z
          with (Z.max (binade x) (-1022) + -53 + 1)%Z by lia.
        rewrite two_power_succ, Qpower_plus by discriminate. field. }
      rewrite E. apply Qmult_lt_r; [exact P53|].
      destruct (Z.max_spec (binade x) (-1022)) as [[_ ->]|[_ ->]].
      - apply Qlt_le_trans with 1%Q; [reflexivity|exact HL].
      - lra. }
    assert (Hlt : (roundPositive x < L)%Q) by lra.
    assert (Hge : (0 <= roundPositive x)%Q).
    { unfold roundPositive. apply Qmult_le_0_compat; [|lra].
      change 0%Q with (inject_Z 0). rewrite <- Zle_Qle.
      unfold roundHalfEven.
      assert (0 <= Qfloor (x / ulp x))%Z.
      { change 0%Z with (Qfloor 0). apply Qfloor_resp_le.
        apply Qle_shift_div_l; [exact Hu|]. lra. }
      destruct (_ ?= _)%Q; [destruct (Z.even _)| |]; lia. }
    split.
    + change 0%Z with (Qfloor 0). now apply Qfloor_resp_le.
    + rewrite Zlt_Qlt. eapply Qle_lt_trans; [apply Qfloor_le|exact Hlt].
Qed.

End Numbers.

(** ** Character voices *)

Section VoiceAssignment.

Variable Math_random : nat -> Q.

Lemma getRandomElement_in_range {T} (k : nat) (arr : list T) :
  unitDouble (Math_random k) -> arr <> [] ->
  exists i x,
    i = Z.to_nat (Qfloor (JsNumber.multiply (Math_random k)
                            (inject_Z (Z.of_nat (length arr)))))
    /\ i < length arr
    /\ arr !! i = Some x
    /\ getRandomElement Math_random k arr = Some x.
Proof.
  intros (Hd & H0 & H1) Hne.
  assert (Hlen : 0 < length arr) by (destruct arr; [congruence|simpl; lia]).
  destruct (multiply_index_range (Math_random k) (length arr) Hd H0 H1 Hlen)
    as [Hlo Hhi].
  set (i := Z.to_nat (Qfloor (JsNumber.multiply (Math_random k)
                                (inject_Z (Z.of_nat (length arr)))))).
  assert (Hi : i < length arr) by (unfold i; lia).
  destruct (lookup_lt_is_Some_2 arr i Hi) as [x Hx].
  exists i, x. repeat split; try assumption.
  unfold getRandomElement.
  replace (Qfloor (JsNumber.multiply (Math_random k)
                     (inject_Z (Z.of_nat (length arr)))) <? 0)%Z
    with false by (symmetry; apply Z.ltb_ge; lia).
  exact Hx.
Qed.

Lemma availableVoicePool_spec (voices : gmap string string) (v : string) :
  v ∈ availableVoicePool voices <->
  v ∈ availableVoices /\ forall name, voices !! name <> Some v.
Proof.
  unfold availableVoicePool. rewrite list_elem_of_filter.
  split; intros [H1 H2]; split; try assumption.
  - intros name Hl. apply H1. apply list_elem_of_fmap.
    exists (name, v). split; [reflexivity|]. now apply elem_of_map_to_list.
  - intros Hin. apply list_elem_of_fmap in Hin as [[name v'] [-> Hin]].
    apply elem_of_map_to_list in Hin. exact (H2 name Hin).
Qed.

Lemma availableVoicePool_NoDup (voices : gmap string string) :
  NoDup (availableVoicePool voices).
Proof.
  unfold availableVoicePool. apply NoDup_filter.
  apply (bool_decide_unpack (NoDup availableVoices)). vm_compute. exact I.
Qed.

(** While the pool lasts, the new speakers take its voices in order and
    [Math.random] is not called. *)
Lemma assignVoice_from_pool (chars : list string) :
  forall (voices : gmap string string) (pool : list string) (k : nat),
    NoDup chars -> length chars <= length pool ->
    exists voices',
      foldl (assignVoice Math_random) (voices, pool, k) chars
      = (voices', drop (length chars) pool, k)
      /\ (forall i c, chars !! i = Some c -> voices' !! c = pool !! i)
      /\ (forall name, name ∉ chars -> voices' !! name = voices !! name).
Proof.
  induction chars as [|c chars IH]; intros voices pool k Hnd Hlen.
  - exists voices. simpl. split; [reflexivity|]. split; [|reflexivity].
    intros i c Hl. discriminate.
  - destruct pool as [|v pool]; [simpl in Hlen; lia|].
    apply NoDup_cons in Hnd as [Hc Hnd]. simpl in Hlen.
    destruct (IH (<[c := v]> voices) pool k Hnd ltac:(lia))
      as (voices' & Hf & Hget & Hkeep).
    exists voices'. simpl. split; [exact Hf|]. split.
    + intros [|i] c' Hl; simpl in *.
      * injection Hl as <-. rewrite Hkeep by exact Hc. apply lookup_insert_eq.
      * now apply Hget.
    + intros name Hn. apply not_elem_of_cons in Hn as [Hne Hn].
      rewrite Hkeep by exact Hn. now apply lookup_insert_ne.
Qed.

(** In general the new speakers take the voices of the pool in order,
    and each of those that come once the pool is empty takes the voice of
    one more draw. *)
Lemma assignVoice_run (chars : list string) :
  forall (voices : gmap string string) (pool : list string) (k : nat),
    NoDup chars ->
    exists voices',
      foldl (assignVoice Math_random) (voices, pool, k) chars
      = (voices', drop (length chars) pool, k + (length chars - length pool))
      /\ (forall i c, chars !! i = Some c ->
            voices' !! c
            = Some match pool !! i with
                   | Some v => v
                   | None =>
                       default EmptyString
                         (getRandomElement Math_random (k + (i - length pool))
                            availableVoices)
                   end)
      /\ (forall name, name ∉ chars -> voices' !! name = voices !! name).
Proof.
  induction chars as [|c chars IH]; intros voices pool k Hnd.
  - exists voices. split; [|split].
    + cbn [foldl length drop]. f_equal. lia.
    + intros i c Hl. discriminate.
    + reflexivity.
  - apply NoDup_cons in Hnd as [Hc Hnd].
    destruct pool as [|v pool].
    + destruct (IH (<[c := default EmptyString
                             (getRandomElement Math_random k availableVoices)]> voices)
                  [] (S k) Hnd) as (voices' & Hf & Hget & Hkeep).
      exists voices'. split; [|split].
      * cbn [foldl assignVoice]. rewrite Hf. cbn [length]. rewrite !drop_nil.
        f_equal. lia.
      * intros [|i] c' Hl; cbn [lookup list_lookup] in *.
        -- injection Hl as <-. rewrite Hkeep by exact Hc.
           rewrite lookup_insert_eq. cbn [length]. do 3 f_equal. lia.
        -- rewrite (Hget i c' Hl). cbn [lookup list_lookup length].
           destruct i; do 3 f_equal; lia.
      * intros name Hn. apply not_elem_of_cons in Hn as [Hne Hn].
        rewrite Hkeep by exact Hn. now apply lookup_insert_ne.
    + destruct (IH (<[c := v]> voices) pool k Hnd) as (voices' & Hf & Hget & Hkeep).
      exists voices'. split; [|split].
      * cbn [foldl assignVoice]. rewrite Hf. reflexivity.
      * intros [|i] c' Hl; cbn [lookup list_lookup] in *.
        -- injection Hl as <-. rewrite Hkeep by exact Hc. apply lookup_insert_eq.
        -- rewrite (Hget i c' Hl). reflexivity.
      * intros name Hn. apply not_elem_of_cons in Hn as [Hne Hn].
        rewrite Hkeep by exact Hn. now apply lookup_insert_ne.
Qed.

End VoiceAssignment.

Section VoiceAssignmentClaims.

Variable Math_random : nat -> Q.

Lemma setAdd_NoDup x l : NoDup l -> NoDup (setAdd x l).
Proof.
  intros H. unfold setAdd. case_bool_decide as Hin; [exact H|].
  apply NoDup_app. repeat split; [exact H| |apply NoDup_singleton].
  intros y Hy Hy'. apply list_elem_of_singleton in Hy'. now subst.
Qed.

(** [unassignedChars] is a set: no speaker is in it twice. *)
Lemma deriveDialogue_unassigned_NoDup voices storyText :
  NoDup (snd (deriveDialogue voices storyText)).
Proof.
  unfold deriveDialogue.
  assert (H : forall ms acc, NoDup (snd acc) ->
                NoDup (snd (foldl (scanMatch voices) acc ms))).
  { induction ms as [|m ms IH]; intros acc Hacc; simpl; [exact Hacc|].
    apply IH. destruct acc as [parts chars]. unfold scanMatch.
    destruct (negb (JsString.truthy _)); [exact Hacc|]. simpl.
    destruct (negb (hasVoice voices _)); [|exact Hacc].
    now apply setAdd_NoDup. }
  specialize (H (JsString.matchAllTags storyText) ([], []) (NoDup_nil_2 (A:=string))).
  destruct (foldl (scanMatch voices) ([], []) (JsString.matchAllTags storyText))
    as [parts chars].
  destruct (bool_decide (parts = []) && JsString.truthy (JsString.trim storyText));
    exact H.
Qed.

(** C9.  With NARRATOR alone in the voice map, the segments of BARNABY,
    BARNABY and MOLLY give BARNABY the first voice of the pool and MOLLY
    the second, call [Math.random] not at all, and send both segments of
    BARNABY to synthesis with the same voice.  In general, while the pool
    lasts, the i-th new speaker gets the i-th voice of the pool, the
    speakers already in the map keep their voice, and the pool holds each
    fixed voice that no speaker has yet, once.  However many new speakers
    there are, none is left without a voice: each one that comes after the
    pool has run out, whether it ran out part-way or was empty from the
    start, gets the voice at position floor(4 r) of the four fixed voices,
    r being the value that one more call of [Math.random] returns, and
    [Math.random] is called once for each of them. *)
Theorem voice_assignment (k : nat) :
  (let voices0 : gmap string string := {[ "NARRATOR"%string := narratorVoice ]} in
   let story := "[BARNABY] Hi! [BARNABY] Again. [MOLLY] Yo."%string in
   let parts := fst (deriveDialogue voices0 story) in
   let voices' := fst (assignVoices Math_random voices0
                         (snd (deriveDialogue voices0 story)) k) in
   speaker <$> parts = ["BARNABY"; "BARNABY"; "MOLLY"]%string
   /\ snd (deriveDialogue voices0 story) = ["BARNABY"; "MOLLY"]%string
   /\ voices' !! "BARNABY"%string = Some "Puck"%string
   /\ voices' !! "MOLLY"%string = Some "Charon"%string
   /\ voices' !! "NARRATOR"%string = Some "Kore"%string
   /\ snd (assignVoices Math_random voices0
             (snd (deriveDialogue voices0 story)) k) = k
   /\ (speechRequests voices' parts).*2 = ["Puck"; "Puck"; "Charon"]%string)
  /\ (forall (voices : gmap string string) (chars : list string),
        NoDup chars ->
        length chars <= length (availableVoicePool voices) ->
        let voices' := fst (assignVoices Math_random voices chars k) in
        (forall i c, chars !! i = Some c ->
                     voices' !! c = availableVoicePool voices !! i)
        /\ (forall name, name ∉ chars -> voices' !! name = voices !! name)
        /\ snd (assignVoices Math_random voices chars k) = k)
  /\ (forall voices : gmap string string,
        NoDup (availableVoicePool voices)
        /\ forall v, v ∈ availableVoicePool voices <->
                     v ∈ availableVoices /\ forall name, voices !! name <> Some v)
  /\ (forall (voices : gmap string string) (chars : list string),
        NoDup chars ->
        (forall j, unitDouble (Math_random j)) ->
        let pool := availableVoicePool voices in
        let voices' := fst (assignVoices Math_random voices chars k) in
        snd (assignVoices Math_random voices chars k)
        = k + (length chars - length pool)
        /\ (forall i c v, chars !! i = Some c -> pool !! i = Some v ->
                          voices' !! c = Some v)
        /\ (forall i c, chars !! i = Some c -> length pool <= i ->
              exists v,
                availableVoices
                  !! Z.to_nat (Qfloor (JsNumber.multiply
                                         (Math_random (k + (i - length pool))) 4))
                = Some v
                /\ voices' !! c = Some v)
        /\ (forall name, name ∉ chars -> voices' !! name = voices !! name)).
Proof.
  split; [|split; [|split]].
  - vm_compute. repeat split.
  - intros voices chars Hnd Hlen voices'. unfold voices', assignVoices.
    destruct (assignVoice_from_pool Math_random chars voices
                (availableVoicePool voices) k Hnd Hlen)
      as (vs & Hf & Hget & Hkeep).
    rewrite Hf. simpl. repeat split; assumption.
  - intros voices. split.
    + apply availableVoicePool_NoDup.
    + apply availableVoicePool_spec.
  - intros voices chars Hnd Hr pool voices'. unfold voices', assignVoices.
    destruct (assignVoice_run Math_random chars voices pool k Hnd)
      as (vs & Hf & Hget & Hkeep).
    fold pool. rewrite Hf. cbn [fst snd].
    split; [reflexivity|]. split; [|split; [|exact Hkeep]].
    + intros i c v Hc Hv. rewrite (Hget i c Hc), Hv. reflexivity.
    + intros i c Hc Hi.
      destruct (getRandomElement_in_range Math_random (k + (i - length pool))
                  availableVoices (Hr _))
        as (j & v & Hj & _ & Hv & Hdraw); [discriminate|].
      exists v. split; [subst j; exact Hv|].
      rewrite (Hget i c Hc), Hdraw.
      now rewrite (lookup_ge_None_2 pool i Hi).
Qed.

End VoiceAssignmentClaims.

(** An instance: two new speakers on a map that holds the narrator alone;
    three new speakers on a map that holds two of the four voices, so
    that the pool runs out part-way; and two new speakers once the four
    voices are taken, with [Math.random] returning 1/2. *)
Lemma voice_assignment_witness :
  let rnd := fun _ : nat => (1 # 2)%Q in
  let empty : gmap string string := {[ "NARRATOR"%string := narratorVoice ]} in
  let half : gmap string string :=
    list_to_map [("A", "Puck"); ("B", "Fenrir")]%string in
  let full : gmap string string :=
    list_to_map [("A", "Puck"); ("B", "Charon"); ("C", "Fenrir"); ("D", "Zephyr")]%string in
  (NoDup ["BARNABY"; "MOLLY"]%string
   /\ length ["BARNABY"; "MOLLY"]%string <= length (availableVoicePool empty)
   /\ fst (assignVoices rnd empty ["BARNABY"; "MOLLY"]%string 0) !! "MOLLY"%string
      = availableVoicePool empty !! 1)
  /\ (forall j, unitDouble (rnd j))
  /\ (NoDup ["E"; "F"; "G"]%string
      /\ availableVoicePool half = ["Charon"; "Zephyr"]%string
      /\ assignVoices rnd half ["E"; "F"; "G"]%string 0
         = (<["G"%string := "Fenrir"%string]>
              (<["F"%string := "Zephyr"%string]>
                 (<["E"%string := "Charon"%string]> half)), 1))
  /\ (NoDup ["E"; "F"]%string
      /\ availableVoicePool full = []
      /\ snd (assignVoices rnd full ["E"; "F"]%string 0) = 2
      /\ fst (assignVoices rnd full ["E"; "F"]%string 0) !! "F"%string
         = Some "Fenrir"%string).
Proof.
  intros rnd empty half full.
  assert (Hnd : NoDup ["BARNABY"; "MOLLY"]%string).
  { apply (bool_decide_unpack (NoDup ["BARNABY"; "MOLLY"]%string)).
    vm_compute. exact I. }
  assert (Hlen : length ["BARNABY"; "MOLLY"]%string <= length (availableVoicePool empty)).
  { vm_compute. lia. }
  assert (Hr : forall j, unitDouble (rnd j)).
  { intros j. split; [|split; [discriminate|reflexivity]].
    exists 1%Z, (-1)%Z. split; [reflexivity|]. split; [lia|reflexivity]. }
  assert (Hnd3 : NoDup ["E"; "F"; "G"]%string).
  { apply (bool_decide_unpack (NoDup ["E"; "F"; "G"]%string)). vm_compute. exact I. }
  assert (Hnd2 : NoDup ["E"; "F"]%string).
  { apply (bool_decide_unpack (NoDup ["E"; "F"]%string)). vm_compute. exact I. }
  assert (Hhalf : availableVoicePool half = ["Charon"; "Zephyr"]%string)
    by (vm_compute; reflexivity).
  assert (Hfull : availableVoicePool full = []) by (vm_compute; reflexivity).
  pose proof (voice_assignment rnd 0) as (_ & Hpool & _ & Hrun).
  split; [|split; [exact Hr|split]].
  - split; [exact Hnd|]. split; [exact Hlen|].
    exact (proj1 (Hpool empty _ Hnd Hlen) 1 "MOLLY"%string eq_refl).
  - split; [exact Hnd3|]. split; [exact Hhalf|]. vm_compute. reflexivity.
  - split; [exact Hnd2|]. split; [exact Hfull|].
    destruct (Hrun full _ Hnd2 Hr) as (Hk & _ & Hdraw & _).
    split; [rewrite Hk, Hfull; reflexivity|].
    destruct (Hdraw 1 "F"%string eq_refl) as (v & Hv & Hf);
      [rewrite Hfull; simpl; lia|].
    rewrite Hf. rewrite <- Hv. vm_compute. reflexivity.
Defined.

(** ** A turn *)

Section Turn.

Variable decodeThrows : string -> bool.
Variable JSON_parse : string -> option JSValue.
Variable Math_random : nat -> Q.

(** The task that [handleSendMessage] parks at the generation call. *)
Lemma handleSendMessage_accepted (s : App) (userInput : string) :
  JsString.truthy (JsString.trim userInput) = true ->
  isLoading s = false -> chatSession s = true ->
  let s1 := handleSendMessage userInput s in
  turns s1 !! nextTurn s
  = Some {| turn_history := history s;
            turn_historyIndex := historyIndex s;
            turn_characterVoices := characterVoices s;
            turn_isAmbianceMuted := isAmbianceMuted s;
            turn_userInput := userInput;
            turn_newChatHistory := turnChat s userInput;
            turn_await := awaitGeneration |}
  /\ nextTurn s1 = S (nextTurn s)
  /\ logOf s1 = logOf s
  /\ chatHistory s1 = turnChat s userInput
  /\ isLoading s1 = true.
Proof.
  intros Hu Hl Hc. unfold handleSendMessage. rewrite Hu, Hl, Hc.
  destruct s; simpl. rewrite lookup_insert_eq. repeat split.
Qed.

Lemma handleSendMessage_rejected (s : App) (userInput : string) :
  JsString.truthy (JsString.trim userInput) = false
  \/ isLoading s = true \/ chatSession s = false ->
  handleSendMessage userInput s = s.
Proof.
  intros H. unfold handleSendMessage.
  destruct H as [-> | [-> | ->]]; simpl; rewrite ?orb_true_r; reflexivity.
Qed.

Lemma turnFailed_fields (s : App) :
  logOf (turnFailed s) = logOf s
  /\ chatHistory (turnFailed s) = chatHistory s ++ [errorMessage]
  /\ isLoading (turnFailed s) = false
  /\ narration (turnFailed s) = narration s
  /\ ambiance (turnFailed s) = ambiance s
  /\ characterVoices (turnFailed s) = characterVoices s.
Proof. destruct s; repeat split. Qed.

(** The generation call rejects, or answers without text: the [catch]
    and the [finally] run. *)
Lemma onGenerationSettled_failed (s : App) (tid : nat) (t : TurnTask)
    (response : option (option string)) :
  turns s !! tid = Some t -> turn_await t = awaitGeneration ->
  response = None \/ response = Some None ->
  let s' := onGenerationSettled JSON_parse Math_random tid response s in
  logOf s' = logOf s
  /\ chatHistory s' = chatHistory s ++ [errorMessage]
  /\ isLoading s' = false.
Proof.
  intros Hl Ha Hr. unfold onGenerationSettled. rewrite Hl, Ha.
  destruct Hr as [-> | ->]; destruct s; repeat split.
Qed.

(** The generation call answers with a text: the turn parks at
    [Promise.all]; nothing visible changes but the voice map. *)
Lemma onGenerationSettled_text (s : App) (tid : nat) (t : TurnTask)
    (responseText : string) :
  turns s !! tid = Some t -> turn_await t = awaitGeneration ->
  let s' := onGenerationSettled JSON_parse Math_random tid (Some (Some responseText)) s in
  let storyText := fst (parseResponse JSON_parse responseText) in
  let newChoices := snd (parseResponse JSON_parse responseText) in
  let derived := deriveDialogue (turn_characterVoices t) storyText in
  let newCharacterVoices :=
    fst (assignVoices Math_random (turn_characterVoices t) (snd derived)
           (3 + randomCalls s)) in
  turns s' !! nextTurn s
  = Some {| turn_history := turn_history t;
            turn_historyIndex := turn_historyIndex t;
            turn_characterVoices := turn_characterVoices t;
            turn_isAmbianceMuted := turn_isAmbianceMuted t;
            turn_userInput := turn_userInput t;
            turn_newChatHistory := turn_newChatHistory t;
            turn_await :=
              awaitAll
                (turn_newChatHistory t ++ [{| author := MODEL; text := storyText |}])
                newChoices storyText
                (imagePrompt Math_random (randomCalls s) storyText)
                (speechRequests newCharacterVoices (fst derived)) |}
  /\ logOf s' = logOf s
  /\ chatHistory s' = chatHistory s
  /\ isLoading s' = isLoading s
  /\ narration s' = narration s
  /\ ambiance s' = ambiance s
  /\ characterVoices s' = newCharacterVoices.
Proof.
  intros Hl Ha. cbn zeta. unfold onGenerationSettled. rewrite Hl, Ha.
  destruct (parseResponse JSON_parse responseText) as [storyText newChoices].
  cbn [fst snd].
  destruct (deriveDialogue (turn_characterVoices t) storyText)
    as [dialogueParts unassignedChars].
  cbn [fst snd].
  destruct s; simpl.
  destruct (assignVoices Math_random (turn_characterVoices t) unassignedChars _)
    as [newCharacterVoices k'].
  simpl. rewrite lookup_insert_eq. repeat split.
Qed.

Lemma length_speechRequests voices parts :
  length (speechRequests voices parts) = length parts.
Proof. unfold speechRequests. apply length_map. Qed.

(** One of the speech calls rejects: the [catch] and the [finally] run. *)
Lemma onAllSettled_failed (s : App) (tid : nat) (t : TurnTask)
    finalChatHistory newChoices storyText prompt requests
    (newImageUrl ambianceKeyword : string) (speech : nat -> option string) :
  turns s !! tid = Some t ->
  turn_await t = awaitAll finalChatHistory newChoices storyText prompt requests ->
  collectSpeech speech (length requests) = None ->
  let s' := onAllSettled decodeThrows tid newImageUrl ambianceKeyword speech s in
  logOf s' = logOf s
  /\ chatHistory s' = chatHistory s ++ [errorMessage]
  /\ isLoading s' = false.
Proof.
  intros Hl Ha Hs. unfold onAllSettled. rewrite Hl, Ha, Hs.
  destruct s; repeat split.
Qed.

Lemma commit_current {A} (h : list A) (i : nat) (x : A) :
  currentSnapshot (History.commit h i x) = Some x.
Proof.
  unfold currentSnapshot, History.commit. simpl.
  now rewrite list_lookup_middle.
Qed.

(** All the speech calls resolve: the snapshot is committed and shown,
    and the [finally] has run or waits for the narration to start. *)
Lemma onAllSettled_committed (s : App) (tid : nat) (t : TurnTask)
    finalChatHistory newChoices storyText prompt requests
    (newImageUrl ambianceKeyword : string) (speech : nat -> option string)
    (audioData : list string) :
  turns s !! tid = Some t ->
  turn_await t = awaitAll finalChatHistory newChoices storyText prompt requests ->
  collectSpeech speech (length requests) = Some audioData ->
  let s' := onAllSettled decodeThrows tid newImageUrl ambianceKeyword speech s in
  let newState := {| StoryState.chatHistory := finalChatHistory;
                     StoryState.imageUrl := Some newImageUrl;
                     StoryState.choices := newChoices |} in
  logOf s' = History.commit (turn_history t) (turn_historyIndex t) newState
  /\ chatHistory s' = finalChatHistory
  /\ imageUrl s' = Some newImageUrl
  /\ choices s' = newChoices
  /\ (isLoading s' = false \/ (isLoading s' = isLoading s /\ finallyPending s')).
Proof.
  intros Hl Ha Hs. cbn zeta. unfold onAllSettled. rewrite Hl, Ha, Hs.
  set (newState := {| StoryState.chatHistory := finalChatHistory;
                      StoryState.imageUrl := Some newImageUrl;
                      StoryState.choices := newChoices |}).
  pose proof (commit_current (turn_history t) (turn_historyIndex t) newState) as Hcur.
  destruct (History.commit (turn_history t) (turn_historyIndex t) newState)
    as [history' historyIndex'] eqn:Ec.
  unfold currentSnapshot in Hcur. cbn [fst snd] in Hcur.
  unfold playNarrationSequence, syncShareable, syncWithHistory.
  destruct s as [chat0 img0 load0 ch0 share0 mute0 voices0 hist0 idx0 sess0
                 welcome0 n0 amb0 turns0 next0 rnd0].
  cbn [narration set_ambiance set_history set_historyIndex set_turns isLoading].
  pose proof (processNarrationQueue_drained decodeThrows true
                (set_narrationQueue audioData (stopNarration n0))) as Hd.
  destruct (processNarrationQueue decodeThrows true
              (set_narrationQueue audioData (stopNarration n0)))
    as [n returned].
  cbn [fst snd] in Hd.
  destruct Hd as (_ & _ & _ & _ & _ & Htasks).
  destruct returned; simpl; rewrite Hcur; simpl.
  - repeat split. now left.
  - repeat split. right. split; [reflexivity|].
    destruct Htasks as [(_ & _ & Hr)|(t' & Ht' & _ & _ & _ & Hn)];
      [discriminate|].
    exists (nextNarrationTask (set_narrationQueue audioData (stopNarration n0))), t'.
    simpl. rewrite Ht'. split; [apply lookup_insert_eq|].
    destruct Hn as [[_ Hn]|[Hr _]]; [exact Hn|discriminate].
Qed.

End Turn.

Section TurnAtomicity.

Variable decodeThrows : string -> bool.
Variable JSON_parse : string -> option JSValue.
Variable Math_random : nat -> Q.

Lemma onDecodeSettled_notify n tid t decoded startable :
  narrationTasks n !! tid = Some t -> task_await t = awaitDecode ->
  snd (onDecodeSettled decodeThrows tid decoded startable n) = task_notify t.
Proof.
  intros Hl Ha. unfold onDecodeSettled. rewrite Hl, Ha.
  destruct decoded; [|reflexivity]. cbn [negb].
  destruct (negb (task_version t =? narrationVersion (wake tid n))); [reflexivity|].
  destruct startable; reflexivity.
Qed.

Lemma onNarrationEvent_loading (e : NarrationEvent) (s : App) :
  isLoading (onNarrationEvent decodeThrows e s)
  = if snd (narrationStep decodeThrows e (narration s)) then false else isLoading s.
Proof.
  unfold onNarrationEvent.
  destruct (narrationStep decodeThrows e (narration s)) as [n returned].
  destruct returned; destruct s; reflexivity.
Qed.

Lemma onNarrationEvent_narration (e : NarrationEvent) (s : App) :
  narration (onNarrationEvent decodeThrows e s)
  = fst (narrationStep decodeThrows e (narration s)).
Proof.
  unfold onNarrationEvent.
  destruct (narrationStep decodeThrows e (narration s)) as [n returned].
  destruct returned; destruct s; reflexivity.
Qed.

Lemma onNarrationEvent_cleared (e : NarrationEvent) (s : App) :
  isLoading s = false -> isLoading (onNarrationEvent decodeThrows e s) = false.
Proof.
  intros H. rewrite onNarrationEvent_loading, H.
  now destruct (snd (narrationStep decodeThrows e (narration s))).
Qed.

(** Once the awaits of the invocation that [handleSendMessage] waits for
    have settled, whatever their outcome, the loading flag is cleared. *)
Lemma finally_runs (s : App) (tid : nat) (t : NarrationTask)
    (ok decoded startable : bool) :
  narrationTasks (narration s) !! tid = Some t ->
  task_notify t = true ->
  isLoading
    (onNarrationEvent decodeThrows
       (decodeSettled (decodeTaskOf s tid t) decoded startable)
       (onNarrationEvent decodeThrows (resumeSettled tid ok) s)) = false.
Proof.
  intros Hl Hn. unfold decodeTaskOf.
  destruct (task_await t) eqn:Ea.
  - (* parked at the resume *)
    destruct (snd (narrationStep decodeThrows (resumeSettled tid ok) (narration s)))
      eqn:Er.
    + apply onNarrationEvent_cleared. rewrite onNarrationEvent_loading. now rewrite Er.
    + rewrite onNarrationEvent_loading, onNarrationEvent_narration.
      simpl in Er |- *. unfold onResumeSettled in *. rewrite Hl, Ea in *.
      destruct ok; [|simpl in Er; congruence].
      unfold decodeChunk in *.
      match type of Er with context [if ?c then _ else _] => destruct c end;
        [simpl in Er; congruence|].
      destruct (decodeThrows (task_audio t)); [simpl in Er; congruence|].
      cbn [fst].
      rewrite onDecodeSettled_notify with
        (t := {| task_version := task_version t; task_audio := task_audio t;
                 task_await := awaitDecode; task_notify := task_notify t |});
        [simpl; now rewrite Hn| |reflexivity].
      destruct (narration s) as [ctx cur queue playing version st pend tasks next factory].
      simpl. destruct ctx; simpl; apply lookup_insert_eq.
  - (* parked at the decode *)
    assert (E1 : onNarrationEvent decodeThrows (resumeSettled tid ok) s
                 = set_narration (narration s) s).
    { unfold onNarrationEvent. simpl. unfold onResumeSettled. now rewrite Hl, Ea. }
    rewrite E1. rewrite onNarrationEvent_loading. simpl.
    replace (narration (set_narration (narration s) s)) with (narration s)
      by (destruct s; reflexivity).
    now rewrite (onDecodeSettled_notify _ tid t decoded startable Hl Ea), Hn.
Qed.

(** No event writes the log piecemeal. *)
Lemma appStep_log (e : AppEvent) (s : App) :
  logStep s (appStep decodeThrows JSON_parse Math_random e s).
Proof.
  unfold logStep.
  destruct e as [userInput| | | |audio|tid response|tid img mood speech|e|e]; simpl.
  - left.
    destruct (JsString.truthy (JsString.trim userInput)) eqn:Eu;
      [|now rewrite handleSendMessage_rejected by (now left)].
    destruct (isLoading s) eqn:El;
      [now rewrite handleSendMessage_rejected by (right; now left)|].
    destruct (chatSession s) eqn:Ec;
      [|now rewrite handleSendMessage_rejected by (right; now right)].
    apply (handleSendMessage_accepted s userInput Eu El Ec).
  - right. left. apply handleUndo_log.
  - right. right. left. apply handleRedo_log.
  - left. destruct s; reflexivity.
  - left. unfold onWelcomeSpeechSettled.
    destruct audio; [destruct (negb (welcomeAudioHandled s))|]; destruct s; reflexivity.
  - left. unfold onGenerationSettled.
    destruct (turns s !! tid) as [t|] eqn:El; [|reflexivity].
    destruct (turn_await t) eqn:Ea; [|reflexivity].
    destruct response as [[responseText|]|].
    + pose proof (onGenerationSettled_text JSON_parse Math_random s tid t responseText
                    El Ea) as (_ & H & _).
      unfold onGenerationSettled in H. rewrite El, Ea in H. exact H.
    + destruct s; reflexivity.
    + destruct s; reflexivity.
  - destruct (turns s !! tid) as [t|] eqn:El;
      [|left; unfold onAllSettled; now rewrite El].
    destruct (turn_await t) as [|fin ch st pr rq] eqn:Ea;
      [left; unfold onAllSettled; now rewrite El, Ea|].
    destruct (collectSpeech speech (length rq)) as [audioData|] eqn:Es.
    + right. right. right.
      exists tid, t, fin, ch, st, pr, rq, img.
      split; [exact El|]. split; [exact Ea|].
      apply (onAllSettled_committed decodeThrows s tid t fin ch st pr rq img mood
               speech audioData El Ea Es).
    + left.
      apply (onAllSettled_failed decodeThrows s tid t fin ch st pr rq img mood
               speech El Ea Es).
  - left. unfold onNarrationEvent.
    destruct (narrationStep decodeThrows e (narration s)) as [n returned].
    destruct returned; destruct s; reflexivity.
  - left. destruct s; reflexivity.
Qed.


(** C3.  A turn that [handleSendMessage] accepts leaves the log alone
    until its one commit.  When the generation call rejects or answers
    without text, or when a speech call rejects, the log and the cursor
    are what they were, the apology is appended to the visible chat, and
    the loading flag is cleared.  When every call resolves, the log is
    the prefix up to the cursor followed by the one new snapshot, the
    cursor is on it, the view shows it, and the loading flag is cleared
    at once or as soon as the awaits of the narration invocation that the
    handler waits for have settled, whatever their outcome.  Whatever is
    interleaved with a turn, no event changes the log otherwise than by a
    step of the cursor or by the whole commit of one turn. *)
Theorem turn_commits_once_or_never (s : App) (userInput : string) :
  JsString.truthy (JsString.trim userInput) = true ->
  isLoading s = false ->
  chatSession s = true ->
  let tid := nextTurn s in
  let newChatHistory := turnChat s userInput in
  let s1 := handleSendMessage userInput s in
  (logOf s1 = logOf s /\ chatHistory s1 = newChatHistory /\ isLoading s1 = true)
  /\ (forall response, response = None \/ response = Some None ->
        let s2 := onGenerationSettled JSON_parse Math_random tid response s1 in
        logOf s2 = logOf s
        /\ chatHistory s2 = newChatHistory ++ [errorMessage]
        /\ isLoading s2 = false)
  /\ (forall responseText newImageUrl ambianceKeyword speech,
        let s2 := onGenerationSettled JSON_parse Math_random tid
                    (Some (Some responseText)) s1 in
        let storyText := fst (parseResponse JSON_parse responseText) in
        let newChoices := snd (parseResponse JSON_parse responseText) in
        let count := length (fst (deriveDialogue (characterVoices s) storyText)) in
        let s3 := onAllSettled decodeThrows (S tid) newImageUrl ambianceKeyword
                    speech s2 in
        let newState :=
          {| StoryState.chatHistory :=
               newChatHistory ++ [{| author := MODEL; text := storyText |}];
             StoryState.imageUrl := Some newImageUrl;
             StoryState.choices := newChoices |} in
        (logOf s2 = logOf s /\ chatHistory s2 = newChatHistory
         /\ isLoading s2 = true)
        /\ (collectSpeech speech count = None ->
              logOf s3 = logOf s
              /\ chatHistory s3 = newChatHistory ++ [errorMessage]
              /\ isLoading s3 = false)
        /\ (forall audioData, collectSpeech speech count = Some audioData ->
              logOf s3 = (take (S (historyIndex s)) (history s) ++ [newState],
                          length (take (S (historyIndex s)) (history s)))
              /\ currentSnapshot (logOf s3) = Some newState
              /\ chatHistory s3 = StoryState.chatHistory newState
              /\ (isLoading s3 = false \/ finallyPending s3)))
  /\ (forall s' tid' t ok decoded startable,
        narrationTasks (narration s') !! tid' = Some t ->
        task_notify t = true ->
        isLoading
          (appRun decodeThrows JSON_parse Math_random
             [narrationEvent (resumeSettled tid' ok);
              narrationEvent (decodeSettled (decodeTaskOf s' tid' t) decoded startable)]
             s') = false)
  /\ (forall e s', logStep s' (appStep decodeThrows JSON_parse Math_random e s')).
Proof.
  intros Hu Hload Hsess tid newChatHistory s1.
  destruct (handleSendMessage_accepted s userInput Hu Hload Hsess)
    as (Ht1 & Hn1 & Hlog1 & Hchat1 & Hl1).
  fold s1 in Ht1, Hn1, Hlog1, Hchat1, Hl1. fold tid in Ht1.
  split; [repeat split; assumption|].
  split.
  { intros response Hr s2.
    destruct (onGenerationSettled_failed JSON_parse Math_random s1 tid _ response
                Ht1 eq_refl Hr) as (H1 & H2 & H3).
    fold s2 in H1, H2, H3.
    split; [now rewrite H1|]. split; [|exact H3].
    rewrite H2. now rewrite Hchat1. }
  split.
  { intros responseText newImageUrl ambianceKeyword speech
      s2 storyText newChoices count s3 newState.
    destruct (onGenerationSettled_text JSON_parse Math_random s1 tid _ responseText
                Ht1 eq_refl) as (Ht2 & Hlog2 & Hchat2 & Hl2 & _).
    cbn [turn_history turn_historyIndex turn_characterVoices turn_isAmbianceMuted
         turn_userInput turn_newChatHistory] in Ht2.
    fold s2 storyText newChoices in Ht2, Hlog2, Hchat2, Hl2.
    rewrite Hn1 in Ht2. fold tid in Ht2.
    split.
    { split; [now rewrite Hlog2|]. split; [now rewrite Hchat2|now rewrite Hl2]. }
    assert (Hcount :
      length (speechRequests
                (fst (assignVoices Math_random (characterVoices s)
                        (snd (deriveDialogue (characterVoices s) storyText))
                        (3 + randomCalls s1)))
                (fst (deriveDialogue (characterVoices s) storyText))) = count).
    { apply length_speechRequests. }
    split.
    - intros Hnone.
      destruct (onAllSettled_failed decodeThrows s2 (S tid) _ _ _ _ _ _
                  newImageUrl ambianceKeyword speech Ht2 eq_refl
                  ltac:(rewrite Hcount; exact Hnone)) as (H1 & H2 & H3).
      fold s3 in H1, H2, H3.
      split; [now rewrite H1, Hlog2|]. split; [|exact H3].
      rewrite H2, Hchat2. now rewrite Hchat1.
    - intros audioData Hsome.
      destruct (onAllSettled_committed decodeThrows s2 (S tid) _ _ _ _ _ _
                  newImageUrl ambianceKeyword speech audioData Ht2 eq_refl
                  ltac:(rewrite Hcount; exact Hsome)) as (H1 & H2 & _ & _ & H5).
      fold s3 in H1, H2, H5.
      cbn [turn_history turn_historyIndex] in H1.
      split; [exact H1|]. split.
      + rewrite H1. apply (commit_current (history s) (historyIndex s)).
      + split; [exact H2|]. destruct H5 as [H5|[_ H5]]; [now left|now right]. }
  split; [|intros e s'; apply appStep_log].
  intros s' tid' t ok decoded startable Hl Hn. simpl.
  now apply finally_runs.
Qed.

End TurnAtomicity.

Section TurnCommitted.

Variable decodeThrows : string -> bool.
Variable JSON_parse : string -> option JSValue.
Variable Math_random : nat -> Q.

(** A turn whose calls all resolve, run from [handleSendMessage] to the
    commit without anything in between. *)
Lemma turn_committed (s : App) (userInput responseText : string)
    (newImageUrl ambianceKeyword : string) (speech : nat -> option string)
    (audioData : list string) :
  JsString.truthy (JsString.trim userInput) = true ->
  isLoading s = false -> chatSession s = true ->
  let storyText := fst (parseResponse JSON_parse responseText) in
  let newChoices := snd (parseResponse JSON_parse responseText) in
  collectSpeech speech
    (length (fst (deriveDialogue (characterVoices s) storyText))) = Some audioData ->
  let s3 :=
    appRun decodeThrows JSON_parse Math_random
      [sendMessage userInput;
       generationSettled (nextTurn s) (Some (Some responseText));
       allSettled (S (nextTurn s)) newImageUrl ambianceKeyword speech] s in
  let newState :=
    {| StoryState.chatHistory :=
         turnChat s userInput ++ [{| author := MODEL; text := storyText |}];
       StoryState.imageUrl := Some newImageUrl;
       StoryState.choices := newChoices |} in
  logOf s3 = History.commit (history s) (historyIndex s) newState
  /\ currentSnapshot (logOf s3) = Some newState
  /\ chatHistory s3 = StoryState.chatHistory newState
  /\ choices s3 = newChoices.
Proof.
  intros Hu Hload Hsess storyText newChoices Hsome s3 newState.
  destruct (handleSendMessage_accepted s userInput Hu Hload Hsess)
    as (Ht1 & Hn1 & _).
  destruct (onGenerationSettled_text JSON_parse Math_random _ _ _ responseText
              Ht1 eq_refl) as (Ht2 & _).
  cbn [turn_history turn_historyIndex turn_characterVoices turn_isAmbianceMuted
       turn_userInput turn_newChatHistory] in Ht2.
  rewrite Hn1 in Ht2.
  assert (Hs : collectSpeech speech
             (length (speechRequests
                (fst (assignVoices Math_random (characterVoices s)
                        (snd (deriveDialogue (characterVoices s) storyText))
                        (3 + randomCalls (handleSendMessage userInput s))))
                (fst (deriveDialogue (characterVoices s) storyText))))
             = Some audioData).
  { rewrite length_speechRequests. exact Hsome. }
  destruct (onAllSettled_committed decodeThrows _ _ _ _ _ _ _ _
              newImageUrl ambianceKeyword speech audioData Ht2 eq_refl Hs)
    as (H1 & H2 & _ & H4 & _).
  cbn [turn_history turn_historyIndex] in H1.
  unfold s3, appRun. cbn [foldl appStep].
  split; [exact H1|]. split; [|split; [exact H2|exact H4]].
  rewrite H1. apply commit_current.
Qed.

Lemma parseResponse_unparsable (responseText : string) :
  JSON_parse responseText = None ->
  parseResponse JSON_parse responseText = (responseText, JArr []).
Proof. intros H. unfold parseResponse. now rewrite H. Qed.

(** A response that parses, but whose [story] is not a string:
    [storyText] is reset to the raw text, [newChoices] keeps what
    [parsedResponse.choices] gave. *)
Lemma parseResponse_not_a_story (responseText : string)
    (props : list (string * JSValue)) :
  JSON_parse responseText = Some (JObj props) ->
  (forall str, lookupProp "story" props <> JStr str) ->
  parseResponse JSON_parse responseText
  = (responseText, lookupProp "choices" props).
Proof.
  intros H Hs. unfold parseResponse. rewrite H. simpl.
  destruct (lookupProp "story" props) eqn:E; try reflexivity.
  now elim (Hs s).
Qed.

(** C5, evaluated.  When [JSON.parse] throws on the response text, the
    turn commits a snapshot whose model message is the raw text and
    whose choices are empty.  When the text parses to an object that has
    choices but no story, as the object with the one key choices bound
    to the array of the string Go on does, the turn
    commits a snapshot whose model message is the raw text and whose
    choices are the parsed ones, not the empty sequence. *)
Theorem unparsed_shape_keeps_choices (s : App) (userInput responseText : string)
    (newImageUrl ambianceKeyword : string) (speech : nat -> option string)
    (audioData : list string) :
  JsString.truthy (JsString.trim userInput) = true ->
  isLoading s = false -> chatSession s = true ->
  collectSpeech speech
    (length (fst (deriveDialogue (characterVoices s) responseText))) = Some audioData ->
  let s3 :=
    appRun decodeThrows JSON_parse Math_random
      [sendMessage userInput;
       generationSettled (nextTurn s) (Some (Some responseText));
       allSettled (S (nextTurn s)) newImageUrl ambianceKeyword speech] s in
  let committed (ch : JSValue) :=
    {| StoryState.chatHistory :=
         turnChat s userInput ++ [{| author := MODEL; text := responseText |}];
       StoryState.imageUrl := Some newImageUrl;
       StoryState.choices := ch |} in
  (JSON_parse responseText = None ->
   currentSnapshot (logOf s3) = Some (committed (JArr []))
   /\ choices s3 = JArr [])
  /\ (JSON_parse responseText
      = Some (JObj [("choices"%string, JArr [JStr "Go on"])]) ->
      currentSnapshot (logOf s3) = Some (committed (JArr [JStr "Go on"]))
      /\ choices s3 = JArr [JStr "Go on"]
      /\ choices s3 <> JArr []).
Proof.
  intros Hu Hload Hsess Hsome s3 committed.
  split.
  - intros Hp.
    pose proof (parseResponse_unparsable responseText Hp) as Epr.
    destruct (turn_committed s userInput responseText newImageUrl ambianceKeyword
                speech audioData Hu Hload Hsess) as (_ & H2 & _ & H4).
    { rewrite Epr. exact Hsome. }
    fold s3 in H2, H4. rewrite Epr in H2, H4. split; [exact H2|exact H4].
  - intros Hp.
    pose proof (parseResponse_not_a_story responseText _ Hp) as Epr.
    cbn in Epr. specialize (Epr ltac:(intros; discriminate)).
    destruct (turn_committed s userInput responseText newImageUrl ambianceKeyword
                speech audioData Hu Hload Hsess) as (_ & H2 & _ & H4).
    { rewrite Epr. exact Hsome. }
    fold s3 in H2, H4. rewrite Epr in H2, H4.
    split; [exact H2|]. split; [exact H4|]. rewrite H4. discriminate.
Qed.

End TurnCommitted.

(** An instance: the first turn of a session, with a
    generation call that rejects, and with one that answers in plain text
    while every other call resolves. *)
Lemma turn_commits_once_or_never_witness :
  let dec := fun _ : string => false in
  let rnd := fun _ : nat => 0%Q in
  let s := initialApp (Some running) (Some running) in
  let s1 := handleSendMessage "hi" s in
  let failed := onGenerationSettled parseGoOn rnd 0 None s1 in
  let s2 := onGenerationSettled parseGoOn rnd 0 (Some (Some "Once upon a time..."%string)) s1 in
  let s3 := onAllSettled dec 1 "img" "calm" (fun _ => Some "AUD"%string) s2 in
  (JsString.truthy (JsString.trim "hi") = true
   /\ isLoading s = false /\ chatSession s = true)
  /\ (logOf failed = logOf s /\ isLoading failed = false)
  /\ (collectSpeech (fun _ => Some "AUD"%string) 1 = Some ["AUD"%string]
      /\ snd (logOf s3) = 1
      /\ length (fst (logOf s3)) = 2)
  /\ (narrationTasks (narration s3) !! 0
      = Some {| task_version := 2; task_audio := "AUD"%string;
                task_await := awaitDecode; task_notify := true |}
      /\ isLoading (appRun dec parseGoOn rnd
                      [narrationEvent (resumeSettled 0 true);
                       narrationEvent (decodeSettled 0 true true)] s3) = false).
Proof.
  intros dec rnd s s1 failed s2 s3.
  assert (Hu : JsString.truthy (JsString.trim "hi") = true) by reflexivity.
  assert (Hl : isLoading s = false) by reflexivity.
  assert (Hc : chatSession s = true) by reflexivity.
  pose proof (turn_commits_once_or_never dec parseGoOn rnd s "hi" Hu Hl Hc)
    as (_ & Hfail & Hok & Hfin & _).
  split; [repeat split|].
  split.
  { destruct (Hfail None (or_introl eq_refl)) as (H1 & _ & H3).
    split; [exact H1|exact H3]. }
  split.
  { assert (Hs : collectSpeech (fun _ => Some "AUD"%string) 1 = Some ["AUD"%string])
      by reflexivity.
    split; [exact Hs|].
    destruct (Hok "Once upon a time..."%string "img"%string "calm"%string
                (fun _ => Some "AUD"%string)) as (_ & _ & Hcommit).
    destruct (Hcommit ["AUD"%string] Hs) as (H1 & _).
    split; [exact (f_equal snd H1)|exact (f_equal (fun l => length (fst l)) H1)]. }
  assert (Ht : narrationTasks (narration s3) !! 0
               = Some {| task_version := 2; task_audio := "AUD"%string;
                         task_await := awaitDecode; task_notify := true |})
    by (vm_compute; reflexivity).
  split; [exact Ht|].
  exact (Hfin s3 0 _ true true true Ht eq_refl).
Defined.

(** An instance: the first turn of a session, the
    response text [goOnResponse], and every other call resolving. *)
Lemma unparsed_shape_keeps_choices_witness :
  let dec := fun _ : string => false in
  let rnd := fun _ : nat => 0%Q in
  let s := initialApp (Some running) (Some running) in
  let speech := fun _ : nat => Some "AUD"%string in
  let s3 := appRun dec parseGoOn rnd
              [sendMessage "hi"; generationSettled 0 (Some (Some goOnResponse));
               allSettled 1 "img" "calm" speech] s in
  (JsString.truthy (JsString.trim "hi") = true
   /\ isLoading s = false /\ chatSession s = true)
  /\ collectSpeech speech
       (length (fst (deriveDialogue (characterVoices s) goOnResponse)))
     = Some ["AUD"%string]
  /\ parseGoOn goOnResponse = Some (JObj [("choices"%string, JArr [JStr "Go on"])])
  /\ choices s3 = JArr [JStr "Go on"].
Proof.
  intros dec rnd s speech s3.
  assert (Hu : JsString.truthy (JsString.trim "hi") = true) by reflexivity.
  assert (Hl : isLoading s = false) by reflexivity.
  assert (Hc : chatSession s = true) by reflexivity.
  assert (Hs : collectSpeech speech
                 (length (fst (deriveDialogue (characterVoices s) goOnResponse)))
               = Some ["AUD"%string]) by (vm_compute; reflexivity).
  assert (Hp : parseGoOn goOnResponse
               = Some (JObj [("choices"%string, JArr [JStr "Go on"])]))
    by (vm_compute; reflexivity).
  split; [repeat split|]. split; [exact Hs|]. split; [exact Hp|].
  exact (proj1 (proj2 (proj2
    (unparsed_shape_keeps_choices dec parseGoOn rnd s "hi" goOnResponse "img" "calm"
       speech ["AUD"%string] Hu Hl Hc Hs) Hp))).
Defined.

Section HistoryRoundTrips.

Context {A : Type}.

Lemma undo_iter (n i : nat) : Nat.iter n History.undo i = i - n.
Proof.
  induction n as [|n IH]; simpl; [lia|].
  rewrite IH. unfold History.undo, History.canUndo.
  destruct (0 <? i - n) eqn:E; [lia|]. apply Nat.ltb_ge in E. lia.
Qed.

Lemma redo_iter (history : list A) (n i : nat) :
  i + n < length history ->
  Nat.iter n (History.redo history) i = i + n.
Proof.
  induction n as [|n IH]; intros H; simpl; [lia|].
  rewrite IH by lia. unfold History.redo, History.canRedo.
  destruct (Z.of_nat (i + n) <? Z.of_nat (length history) - 1)%Z eqn:E; [lia|].
  apply Z.ltb_ge in E. lia.
Qed.

(** Undo pressed [n] times and then redo pressed [n] times, with at least
    [n] snapshots before the cursor, puts the cursor back where it was;
    so does redo pressed [n] times and then undo pressed [n] times, with
    at least [n] snapshots after the cursor. *)
Theorem undo_redo_round_trip (history : list A) (historyIndex n : nat) :
  historyIndex < length history ->
  (n <= historyIndex ->
   Nat.iter n (History.redo history) (Nat.iter n History.undo historyIndex)
   = historyIndex)
  /\ (historyIndex + n < length history ->
      Nat.iter n History.undo (Nat.iter n (History.redo history) historyIndex)
      = historyIndex).
Proof.
  intros Hv. split.
  - intros Hn. rewrite undo_iter. rewrite redo_iter by lia. lia.
  - intros Hn. rewrite redo_iter by lia. rewrite undo_iter. lia.
Qed.


End HistoryRoundTrips.

Lemma undo_redo_round_trip_witness :
  2 < length [snapshotOf "A"; snapshotOf "B"; snapshotOf "C"]
  /\ 2 <= 2
  /\ Nat.iter 2 (History.redo [snapshotOf "A"; snapshotOf "B"; snapshotOf "C"])
       (Nat.iter 2 History.undo 2) = 2.
Proof.
  assert (H : 2 < length [snapshotOf "A"; snapshotOf "B"; snapshotOf "C"])
    by (simpl; lia).
  split; [exact H|]. split; [lia|].
  exact (proj1 (undo_redo_round_trip
                  [snapshotOf "A"; snapshotOf "B"; snapshotOf "C"] 2 2 H)
           (le_n 2)).
Defined.


(** ** Undo and redo undo each other *)

Lemma moved_cursor_view (s : App) (j : nat) (snap : StoryState) :
  history s !! j = Some snap ->
  syncShareable (syncWithHistory (set_historyIndex j s))
  = {| chatHistory := StoryState.chatHistory snap;
       imageUrl := StoryState.imageUrl snap;
       isLoading := isLoading s;
       choices := StoryState.choices snap;
       isShareable :=
         storyHasBegun (StoryState.chatHistory snap) (StoryState.imageUrl snap);
       isAmbianceMuted := isAmbianceMuted s;
       characterVoices := characterVoices s;
       history := history s;
       historyIndex := j;
       chatSession := chatSession s;
       welcomeAudioHandled := welcomeAudioHandled s;
       narration := narration s;
       ambiance := ambiance s;
       turns := turns s;
       nextTurn := nextTurn s;
       randomCalls := randomCalls s |}.
Proof.
  intros H. unfold syncShareable, syncWithHistory.
  destruct s as [chat0 img0 load0 ch0 share0 mute0 voices0 hist0 idx0 sess0
                 welcome0 n0 amb0 turns0 next0 rnd0].
  simpl in *. rewrite H. reflexivity.
Qed.

(** On a state whose view shows the snapshot at the cursor, undo followed
    by redo gives back the very same state, and so does redo followed by
    undo: the view, the cursor and everything else. *)
Theorem handleUndo_handleRedo_inverse (s : App) :
  historyIndex s < length (history s) ->
  viewAtCursor s ->
  (History.canUndo (historyIndex s) = true -> handleRedo (handleUndo s) = s)
  /\ (History.canRedo (history s) (historyIndex s) = true ->
      handleUndo (handleRedo s) = s).
Proof.
  intros Hv Hview.
  destruct (lookup_lt_is_Some_2 (history s) (historyIndex s) Hv) as [cur Hcur].
  destruct (Hview cur Hcur) as (Hc & Hi & Hch & Hsh).
  assert (Hback : forall j (s1 : App),
            history s1 = history s -> isLoading s1 = isLoading s ->
            isAmbianceMuted s1 = isAmbianceMuted s ->
            characterVoices s1 = characterVoices s ->
            chatSession s1 = chatSession s ->
            welcomeAudioHandled s1 = welcomeAudioHandled s ->
            narration s1 = narration s -> ambiance s1 = ambiance s ->
            turns s1 = turns s -> nextTurn s1 = nextTurn s ->
            randomCalls s1 = randomCalls s ->
            j = historyIndex s ->
            syncShareable (syncWithHistory (set_historyIndex j s1)) = s).
  { intros j s1 E1 E2 E3 E4 E5 E6 E7 E8 E9 E10 E11 ->.
    rewrite (moved_cursor_view s1 (historyIndex s) cur) by (now rewrite E1).
    rewrite E1, E2, E3, E4, E5, E6, E7, E8, E9, E10, E11.
    rewrite <- Hsh, <- Hc, <- Hi, <- Hch. destruct s; reflexivity. }
  split.
  - intros Hu. unfold History.canUndo in Hu. apply Nat.ltb_lt in Hu.
    assert (Hlt : historyIndex s - 1 < length (history s)) by lia.
    destruct (lookup_lt_is_Some_2 _ _ Hlt) as [prev Hprev].
    assert (E : handleUndo s
                = syncShareable (syncWithHistory
                    (set_historyIndex (historyIndex s - 1) s))).
    { unfold handleUndo, History.canUndo.
      now replace (0 <? historyIndex s) with true by (symmetry; apply Nat.ltb_lt; lia). }
    rewrite E, (moved_cursor_view s _ prev Hprev).
    unfold handleRedo, History.canRedo. cbn [history historyIndex].
    replace (Z.of_nat (historyIndex s - 1) <? Z.of_nat (length (history s)) - 1)%Z
      with true by (symmetry; apply Z.ltb_lt; lia).
    apply Hback; try reflexivity. lia.
  - intros Hr. unfold History.canRedo in Hr. apply Z.ltb_lt in Hr.
    assert (Hlt : historyIndex s + 1 < length (history s)) by lia.
    destruct (lookup_lt_is_Some_2 _ _ Hlt) as [next Hnext].
    assert (E : handleRedo s
                = syncShareable (syncWithHistory
                    (set_historyIndex (historyIndex s + 1) s))).
    { unfold handleRedo, History.canRedo.
      now replace (Z.of_nat (historyIndex s) <? Z.of_nat (length (history s)) - 1)%Z
        with true by (symmetry; apply Z.ltb_lt; lia). }
    rewrite E, (moved_cursor_view s _ next Hnext).
    unfold handleUndo, History.canUndo. cbn [history historyIndex].
    replace (0 <? historyIndex s + 1) with true by (symmetry; apply Nat.ltb_lt; lia).
    apply Hback; try reflexivity. lia.
Qed.

(** An instance: the state one undo away from the end of a log of two
    snapshots. *)
Lemma handleUndo_handleRedo_inverse_witness :
  let s := handleUndo
             (set_historyIndex 1
                (set_history [initialStoryState; snapshotOf "A"]
                   (initialApp None None))) in
  historyIndex s < length (history s)
  /\ viewAtCursor s
  /\ History.canRedo (history s) (historyIndex s) = true
  /\ handleUndo (handleRedo s) = s.
Proof.
  intros s.
  assert (Hv : historyIndex s < length (history s)) by (vm_compute; lia).
  assert (Hview : viewAtCursor s).
  { intros snap H. vm_compute in H. injection H as <-. vm_compute. repeat split. }
  assert (Hr : History.canRedo (history s) (historyIndex s) = true)
    by (vm_compute; reflexivity).
  split; [exact Hv|]. split; [exact Hview|]. split; [exact Hr|].
  exact (proj2 (handleUndo_handleRedo_inverse s Hv Hview) Hr).
Defined.

(** ** The log in every state the component can reach *)

Section ReachableLog.

Variable decodeThrows : string -> bool.
Variable JSON_parse : string -> option JSValue.
Variable Math_random : nat -> Q.

Lemma opensWithWelcome_app (chat more : list ChatMessage) :
  opensWithWelcome chat -> opensWithWelcome (chat ++ more).
Proof.
  unfold opensWithWelcome. destruct chat as [|m chat]; [discriminate|].
  intros H. exact H.
Qed.

Lemma seededLog_current (history : list StoryState) (historyIndex : nat) :
  seededLog (history, historyIndex) ->
  exists snap, history !! historyIndex = Some snap
               /\ opensWithWelcome (StoryState.chatHistory snap).
Proof.
  intros (Hv & _ & Hall). unfold cursorValid in Hv. simpl in *.
  destruct (lookup_lt_is_Some_2 _ _ Hv) as [snap Hsnap].
  exists snap. split; [exact Hsnap|].
  rewrite Forall_forall in Hall. apply Hall.
  apply list_elem_of_lookup. eauto.
Qed.

Lemma seededLog_move (history : list StoryState) (i j : nat) :
  seededLog (history, i) -> j < length history -> seededLog (history, j).
Proof. intros (_ & H0 & Hall) Hj. split; [exact Hj|]. split; assumption. Qed.

Lemma seededLog_commit (history : list StoryState) (i : nat) (snap : StoryState) :
  seededLog (history, i) ->
  opensWithWelcome (StoryState.chatHistory snap) ->
  seededLog (History.commit history i snap).
Proof.
  intros (Hv & H0 & Hall) Hsnap. unfold cursorValid in Hv. simpl in Hv, H0, Hall.
  rewrite commit_in_range by exact Hv.
  assert (Hlen : length (take (S i) history) = S i) by (rewrite length_take; lia).
  split; [|split].
  - unfold cursorValid. simpl. rewrite length_app, Hlen. simpl. lia.
  - simpl. rewrite lookup_app_l by lia. rewrite lookup_take_lt by lia. exact H0.
  - simpl. apply Forall_app. split.
    + now apply Forall_take.
    + apply Forall_cons. split; [exact Hsnap|apply Forall_nil_2].
Qed.

Lemma seeded_view (s : App) (j : nat) :
  seeded s -> j < length (history s) ->
  seeded (syncShareable (syncWithHistory (set_historyIndex j s))).
Proof.
  intros (Hlog & Hchat & Hturns) Hj.
  destruct (seededLog_current (history s) j) as (snap & Hsnap & Hopen).
  { now apply (seededLog_move _ (historyIndex s)). }
  rewrite (moved_cursor_view s j snap Hsnap).
  split; [|split].
  - unfold logOf. simpl. now apply (seededLog_move _ (historyIndex s)).
  - exact Hopen.
  - exact Hturns.
Qed.

Lemma seeded_turnFailed (s : App) : seeded s -> seeded (turnFailed s).
Proof.
  intros (Hlog & Hchat & Hturns).
  destruct (turnFailed_fields s) as (E1 & E2 & _).
  split; [now rewrite E1|]. split.
  - rewrite E2. now apply opensWithWelcome_app.
  - destruct s; exact Hturns.
Qed.

Lemma seeded_frame (s s' : App) :
  seeded s -> logOf s' = logOf s -> chatHistory s' = chatHistory s ->
  turns s' = turns s -> seeded s'.
Proof.
  intros (Hlog & Hchat & Hturns) E1 E2 E3.
  split; [now rewrite E1|]. split; [now rewrite E2|now rewrite E3].
Qed.

Lemma seeded_step (e : AppEvent) (s : App) :
  seeded s -> seeded (appStep decodeThrows JSON_parse Math_random e s).
Proof.
  intros Hs. pose proof Hs as (Hlog & Hchat & Hturns).
  destruct e as [userInput| | | |audio|tid response|tid img mood speech|e|e];
    cbn [appStep].
  - (* sendMessage *)
    unfold handleSendMessage.
    destruct (negb (JsString.truthy (JsString.trim userInput)) || isLoading s
              || negb (chatSession s)); [exact Hs|].
    destruct (seededLog_current _ _ Hlog) as (snap & Hsnap & Hopen).
    destruct s as [chat0 img0 load0 ch0 share0 mute0 voices0 hist0 idx0 sess0
                   welcome0 n0 amb0 turns0 next0 rnd0].
    simpl in *. rewrite Hsnap.
    split; [exact Hlog|]. split; [now apply opensWithWelcome_app|].
    apply map_Forall_insert_2; [|exact Hturns].
    split; [exact Hlog|]. split; [now apply opensWithWelcome_app|exact I].
  - (* undo *)
    unfold handleUndo. destruct (History.canUndo (historyIndex s)); [|exact Hs].
    apply seeded_view; [exact Hs|].
    destruct Hlog as (Hv & _). unfold cursorValid in Hv. simpl in Hv. lia.
  - (* redo *)
    unfold handleRedo.
    destruct (History.canRedo (history s) (historyIndex s)) eqn:E; [|exact Hs].
    apply seeded_view; [exact Hs|].
    unfold History.canRedo in E. apply Z.ltb_lt in E. lia.
  - (* mute *)
    apply (seeded_frame s); [exact Hs|destruct s; reflexivity..].
  - (* welcome speech *)
    apply (seeded_frame s); [exact Hs|..];
      (unfold onWelcomeSpeechSettled;
       destruct audio; [destruct (negb (welcomeAudioHandled s))|];
       destruct s; reflexivity).
  - (* generation *)
    unfold onGenerationSettled.
    destruct (turns s !! tid) as [t|] eqn:El; [|exact Hs].
    destruct (turn_await t) eqn:Ea; [|exact Hs].
    pose proof (Hturns tid t El) as (Htlog & Htchat & _).
    assert (Hdel : seeded (set_turns (delete tid (turns s)) s)).
    { split; [destruct s; exact Hlog|]. split; [destruct s; exact Hchat|].
      destruct s; simpl in *. now apply map_Forall_delete. }
    destruct response as [[responseText|]|].
    + destruct (parseResponse JSON_parse responseText) as [storyText newChoices].
      destruct (deriveDialogue (turn_characterVoices t) storyText)
        as [dialogueParts unassignedChars].
      destruct (assignVoices Math_random (turn_characterVoices t) unassignedChars _)
        as [newCharacterVoices k'].
      destruct Hdel as (H1 & H2 & H3).
      destruct s as [chat0 img0 load0 ch0 share0 mute0 voices0 hist0 idx0 sess0
                     welcome0 n0 amb0 turns0 next0 rnd0].
      simpl in *.
      split; [exact H1|]. split; [exact H2|].
      apply map_Forall_insert_2; [|exact H3].
      split; [exact Htlog|]. split; [exact Htchat|].
      simpl. now apply opensWithWelcome_app.
    + apply seeded_turnFailed.
      apply (seeded_frame (set_turns (delete tid (turns s)) s));
        [exact Hdel|destruct s; reflexivity..].
    + now apply seeded_turnFailed.
  - (* Promise.all *)
    unfold onAllSettled.
    destruct (turns s !! tid) as [t|] eqn:El; [|exact Hs].
    destruct (turn_await t) as [|fin ch st pr rq] eqn:Ea; [exact Hs|].
    pose proof (Hturns tid t El) as (Htlog & Htchat & Hfin).
    rewrite Ea in Hfin.
    assert (Hdel : seeded (set_turns (delete tid (turns s)) s)).
    { split; [destruct s; exact Hlog|]. split; [destruct s; exact Hchat|].
      destruct s; simpl in *. now apply map_Forall_delete. }
    destruct (collectSpeech speech (length rq)) as [audioData|];
      [|now apply seeded_turnFailed].
    set (newState := {| StoryState.chatHistory := fin;
                        StoryState.imageUrl := Some img;
                        StoryState.choices := ch |}).
    pose proof (seededLog_commit (turn_history t) (turn_historyIndex t) newState
                  Htlog Hfin) as Hcommit.
    pose proof (commit_current (turn_history t) (turn_historyIndex t) newState) as Hcur.
    destruct (History.commit (turn_history t) (turn_historyIndex t) newState)
      as [history' historyIndex'].
    unfold currentSnapshot in Hcur. cbn [fst snd] in Hcur.
    destruct Hdel as (_ & _ & H3).
    unfold playNarrationSequence, syncShareable, syncWithHistory.
    destruct s as [chat0 img0 load0 ch0 share0 mute0 voices0 hist0 idx0 sess0
                   welcome0 n0 amb0 turns0 next0 rnd0].
    cbn [narration set_ambiance set_history set_historyIndex set_turns isLoading].
    destruct (processNarrationQueue decodeThrows true
                (set_narrationQueue audioData (stopNarration n0)))
      as [n returned].
    destruct returned; simpl; rewrite Hcur; simpl;
      (split; [exact Hcommit|]; split; [exact Hfin|exact H3]).
  - (* narration *)
    apply (seeded_frame s); [exact Hs|..];
      (unfold onNarrationEvent;
       destruct (narrationStep decodeThrows e (narration s)) as [n returned];
       destruct returned; destruct s; reflexivity).
  - (* ambiance *)
    apply (seeded_frame s); [exact Hs|destruct s; reflexivity..].
Qed.

Lemma seeded_initial nf af : seeded (initialApp nf af).
Proof.
  split; [|split].
  - split; [unfold cursorValid; simpl; lia|]. split; [reflexivity|].
    apply Forall_cons. split; [reflexivity|apply Forall_nil_2].
  - reflexivity.
  - simpl. apply map_Forall_empty.
Qed.

Lemma seeded_run (es : list AppEvent) :
  forall s, seeded s -> seeded (appRun decodeThrows JSON_parse Math_random es s).
Proof.
  induction es as [|e es IH]; intros s Hs; [exact Hs|].
  simpl. apply IH. now apply seeded_step.
Qed.

End ReachableLog.

(** ** A turn and the cursor moves made while it is in flight *)

Section StaleRender.

Variable decodeThrows : string -> bool.
Variable JSON_parse : string -> option JSValue.
Variable Math_random : nat -> Q.

Lemma besideTurns_step (e : AppEvent) (s : App) :
  besideTurns e ->
  let s' := appStep decodeThrows JSON_parse Math_random e s in
  turns s' = turns s /\ nextTurn s' = nextTurn s
  /\ randomCalls s' = randomCalls s /\ history s' = history s.
Proof.
  intros He.
  destruct e as [userInput| | | |audio|tid response|tid img mood speech|e|e];
    try contradiction; cbn [appStep].
  - unfold handleUndo. destruct (History.canUndo (historyIndex s)); [|now repeat split].
    destruct (syncWithHistory_frame (set_historyIndex (historyIndex s - 1) s))
      as [(H1 & _ & _ & _ & _ & _ & _ & _ & H9 & H10 & H11) _].
    repeat split; assumption.
  - unfold handleRedo.
    destruct (History.canRedo (history s) (historyIndex s)); [|now repeat split].
    destruct (syncWithHistory_frame (set_historyIndex (historyIndex s + 1) s))
      as [(H1 & _ & _ & _ & _ & _ & _ & _ & H9 & H10 & H11) _].
    repeat split; assumption.
  - destruct s; repeat split.
  - unfold onWelcomeSpeechSettled.
    destruct audio; [destruct (negb (welcomeAudioHandled s))|];
      destruct s; repeat split.
  - unfold onNarrationEvent.
    destruct (narrationStep decodeThrows e (narration s)) as [n returned].
    destruct returned; destruct s; repeat split.
  - destruct s; repeat split.
Qed.

Lemma besideTurns_run (es : list AppEvent) :
  forall s, Forall besideTurns es ->
    let s' := appRun decodeThrows JSON_parse Math_random es s in
    turns s' = turns s /\ nextTurn s' = nextTurn s
    /\ randomCalls s' = randomCalls s /\ history s' = history s.
Proof.
  induction es as [|e es IH]; intros s Hes; [now repeat split|].
  apply Forall_cons in Hes as [He Hes]. simpl.
  destruct (besideTurns_step e s He) as (H1 & H2 & H3 & H4).
  destruct (IH (appStep decodeThrows JSON_parse Math_random e s) Hes)
    as (G1 & G2 & G3 & G4).
  cbn zeta. simpl. repeat split; congruence.
Qed.

Lemma appRun_app (es1 es2 : list AppEvent) (s : App) :
  appRun decodeThrows JSON_parse Math_random (es1 ++ es2) s
  = appRun decodeThrows JSON_parse Math_random es2
      (appRun decodeThrows JSON_parse Math_random es1 s).
Proof. unfold appRun. apply foldl_app. Qed.

(** A turn commits on the log of the render that started it.  Whatever
    undo, redo and mute clicks and audio events come between its steps,
    once its calls have resolved the log is the prefix up to the cursor of
    that render followed by the new snapshot, the cursor is on the new
    snapshot and the view shows it: a cursor move made while the turn was
    in flight does not outlive the commit. *)
Theorem turn_commits_on_its_render (s : App)
    (userInput responseText newImageUrl ambianceKeyword : string)
    (speech : nat -> option string) (audioData : list string)
    (between1 between2 : list AppEvent) :
  JsString.truthy (JsString.trim userInput) = true ->
  isLoading s = false -> chatSession s = true ->
  Forall besideTurns between1 -> Forall besideTurns between2 ->
  let storyText := fst (parseResponse JSON_parse responseText) in
  let newChoices := snd (parseResponse JSON_parse responseText) in
  collectSpeech speech
    (length (fst (deriveDialogue (characterVoices s) storyText))) = Some audioData ->
  let s3 :=
    appRun decodeThrows JSON_parse Math_random
      ([sendMessage userInput] ++ between1
       ++ [generationSettled (nextTurn s) (Some (Some responseText))] ++ between2
       ++ [allSettled (S (nextTurn s)) newImageUrl ambianceKeyword speech]) s in
  let newState :=
    {| StoryState.chatHistory :=
         turnChat s userInput ++ [{| author := MODEL; text := storyText |}];
       StoryState.imageUrl := Some newImageUrl;
       StoryState.choices := newChoices |} in
  logOf s3 = History.commit (history s) (historyIndex s) newState
  /\ currentSnapshot (logOf s3) = Some newState
  /\ chatHistory s3 = StoryState.chatHistory newState
  /\ imageUrl s3 = Some newImageUrl
  /\ choices s3 = newChoices.
Proof.
  intros Hu Hload Hsess Hb1 Hb2 storyText newChoices Hsome s3 newState.
  unfold s3. rewrite !appRun_app.
  change (appRun decodeThrows JSON_parse Math_random [sendMessage userInput] s)
    with (handleSendMessage userInput s).
  destruct (handleSendMessage_accepted s userInput Hu Hload Hsess)
    as (Ht1 & Hn1 & _).
  set (s1 := handleSendMessage userInput s) in *.
  destruct (besideTurns_run between1 s1 Hb1) as (E1 & E2 & E3 & _).
  set (s1' := appRun decodeThrows JSON_parse Math_random between1 s1) in *.
  rewrite <- E1 in Ht1.
  destruct (onGenerationSettled_text JSON_parse Math_random s1' _ _ responseText
              Ht1 eq_refl) as (Ht2 & _).
  cbn [turn_history turn_historyIndex turn_characterVoices turn_isAmbianceMuted
       turn_userInput turn_newChatHistory] in Ht2.
  fold storyText newChoices in Ht2.
  rewrite E2, Hn1 in Ht2.
  change (appRun decodeThrows JSON_parse Math_random
            [generationSettled (nextTurn s) (Some (Some responseText))] s1')
    with (onGenerationSettled JSON_parse Math_random (nextTurn s)
            (Some (Some responseText)) s1').
  set (s2 := onGenerationSettled JSON_parse Math_random (nextTurn s)
               (Some (Some responseText)) s1') in *.
  destruct (besideTurns_run between2 s2 Hb2) as (F1 & _).
  set (s2' := appRun decodeThrows JSON_parse Math_random between2 s2) in *.
  rewrite <- F1 in Ht2.
  change (appRun decodeThrows JSON_parse Math_random
            [allSettled (S (nextTurn s)) newImageUrl ambianceKeyword speech] s2')
    with (onAllSettled decodeThrows (S (nextTurn s)) newImageUrl ambianceKeyword
            speech s2').
  destruct (onAllSettled_committed decodeThrows s2' _ _ _ _ _ _ _
              newImageUrl ambianceKeyword speech audioData Ht2 eq_refl)
    as (H1 & H2 & H3 & H4 & _).
  { rewrite length_speechRequests. exact Hsome. }
  cbn [turn_history turn_historyIndex] in H1.
  split; [exact H1|]. split; [|split; [exact H2|split; [exact H3|exact H4]]].
  rewrite H1. apply commit_current.
Qed.

End StaleRender.

(** An instance: on a log of two snapshots with the cursor on the second,
    a turn is started, undo is clicked while the generation call is in
    flight, and the calls resolve. *)
Lemma turn_commits_on_its_render_witness :
  let dec := fun _ : string => false in
  let rnd := fun _ : nat => 0%Q in
  let s := set_historyIndex 1
             (set_history [initialStoryState; snapshotOf "A"]
                (initialApp (Some running) (Some running))) in
  let speech := fun _ : nat => Some "AUD"%string in
  let s3 := appRun dec parseGoOn rnd
              ([sendMessage "hi"] ++ [undoClicked]
               ++ [generationSettled 0 (Some (Some "Once."%string))] ++ []
               ++ [allSettled 1 "img" "calm" speech]) s in
  (JsString.truthy (JsString.trim "hi") = true
   /\ isLoading s = false /\ chatSession s = true)
  /\ Forall besideTurns [undoClicked]
  /\ collectSpeech speech
       (length (fst (deriveDialogue (characterVoices s)
                       (fst (parseResponse parseGoOn "Once.")))))
     = Some ["AUD"%string]
  /\ snd (logOf s3) = 2 /\ length (fst (logOf s3)) = 3.
Proof.
  intros dec rnd s speech s3.
  assert (Hu : JsString.truthy (JsString.trim "hi") = true) by reflexivity.
  assert (Hl : isLoading s = false) by reflexivity.
  assert (Hc : chatSession s = true) by reflexivity.
  assert (Hb : Forall besideTurns [undoClicked])
    by (apply Forall_cons; split; [exact I|apply Forall_nil_2]).
  assert (Hs : collectSpeech speech
                 (length (fst (deriveDialogue (characterVoices s)
                                 (fst (parseResponse parseGoOn "Once.")))))
               = Some ["AUD"%string]) by (vm_compute; reflexivity).
  split; [repeat split|]. split; [exact Hb|]. split; [exact Hs|].
  destruct (turn_commits_on_its_render dec parseGoOn rnd s "hi" "Once." "img" "calm"
              speech ["AUD"%string] [undoClicked] [] Hu Hl Hc Hb (Forall_nil_2 _) Hs)
    as (H1 & _).
  split; [exact (f_equal snd H1)|exact (f_equal (fun l => length (fst l)) H1)].
Defined.

(** ** A queue that plays through *)

Section PlayThrough.

Variable decodeThrows : string -> bool.

Lemma playThrough_from (items : list string) :
  forall (n : Narration) (notify : bool),
    idleWith items n ->
    Forall (fun x => JsString.truthy x = true /\ decodeThrows x = false) items ->
    let n' := narrationRun decodeThrows
                (playThrough (nextNarrationTask n) (length (started n)) (length items))
                (fst (processNarrationQueue decodeThrows notify n)) in
    started n' = started n ++ sourcesOf (narrationVersion n) items
    /\ idleWith [] n'
    /\ narrationVersion n' = narrationVersion n
    /\ nextNarrationTask n' = nextNarrationTask n + length items.
Proof.
  induction items as [|x rest IH]; intros n notify (Hp & Hq & Hc & Hcur) Hok.
  - cbn [length playThrough]. rewrite processNarrationQueue_empty by exact Hq.
    simpl. rewrite app_nil_r. repeat split; try assumption. lia.
  - apply Forall_cons in Hok as [[Hx Hd] Hok].
    cbn [length playThrough].
    rewrite (processNarrationQueue_parks decodeThrows notify n x rest running
               Hp Hq Hx Hc ltac:(discriminate) Hd).
    cbn [fst]. unfold narrationRun. cbn [foldl narrationStep].
    set (t := {| task_version := narrationVersion n; task_audio := x;
                 task_await := awaitDecode; task_notify := notify |}).
    set (n1 := suspend t (set_narrationQueue rest (set_isPlayingNarration true n))).
    rewrite (onDecodeSettled_starts decodeThrows n1 (nextNarrationTask n) t)
      by (first [apply lookup_insert_eq|reflexivity]).
    cbn [fst].
    set (n2 := startSource (task_audio t) (task_version t)
                 (wake (nextNarrationTask n) n1)).
    rewrite (onSourceEnded_next decodeThrows n2 (length (started n))
               {| src_audio := x; src_version := narrationVersion n |});
      [|simpl; apply elem_of_union_l, elem_of_singleton; reflexivity|simpl; apply list_lookup_middle; reflexivity
       |reflexivity|reflexivity].
    set (n3 := set_currentNarrationSource None
                 (set_isPlayingNarration false (retire (length (started n)) n2))).
    assert (Hidle : idleWith rest n3) by (repeat split; exact Hc).
    specialize (IH n3 false Hidle Hok). cbn zeta in IH.
    replace (nextNarrationTask n3) with (S (nextNarrationTask n)) in IH
      by reflexivity.
    replace (length (started n3)) with (S (length (started n))) in IH
      by (simpl; rewrite length_app; simpl; lia).
    unfold narrationRun, processNext in *.
    destruct IH as (H1 & H2 & H3 & H4).
    split; [|split; [exact H2|split; [exact H3|rewrite H4; simpl; lia]]].
    rewrite H1. simpl. now rewrite <- app_assoc.
Qed.

(** A sequence of non-empty payloads that all decode, handed to
    [playNarrationSequence] on a running context, plays in full and in
    order: when each decode resolves and each source ends in turn, the
    sources started are those of the payloads, one after the other, all
    under the generation of the call; at the end the queue is empty and
    the player is idle with no active source. *)
Theorem sequence_plays_in_order (n : Narration) (notify : bool)
    (audioDataArray : list string) :
  narrationAudioContext n = Some running ->
  Forall (fun x => JsString.truthy x = true /\ decodeThrows x = false)
    audioDataArray ->
  let n1 := fst (playNarrationSequence decodeThrows notify audioDataArray n) in
  let n2 := narrationRun decodeThrows
              (playThrough (nextNarrationTask n) (length (started n))
                 (length audioDataArray)) n1 in
  started n2
  = started n ++ sourcesOf (S (narrationVersion n)) audioDataArray
  /\ narrationQueue n2 = []
  /\ isPlayingNarration n2 = false
  /\ currentNarrationSource n2 = None
  /\ narrationVersion n2 = S (narrationVersion n).
Proof.
  intros Hc Hok n1 n2. unfold n2, n1, playNarrationSequence.
  rewrite stopNarration_eq.
  set (m := set_narrationQueue audioDataArray
              (set_isPlayingNarration false
                 (set_currentNarrationSource None
                    (set_narrationQueue []
                       (set_narrationVersion (S (narrationVersion n)) n))))).
  assert (Hidle : idleWith audioDataArray m).
  { unfold idleWith, m. simpl. repeat split. exact Hc. }
  destruct (playThrough_from audioDataArray m notify Hidle Hok)
    as (H1 & (H2 & H3 & _ & H4) & H5 & _).
  repeat split; assumption.
Qed.

End PlayThrough.

(** An instance: three payloads on a running context. *)
Lemma sequence_plays_in_order_witness :
  let dec := fun _ : string => false in
  let n := set_narrationAudioContext (Some running) (initialNarration None) in
  let items := ["a"; "b"; "c"]%string in
  narrationAudioContext n = Some running
  /\ Forall (fun x => JsString.truthy x = true /\ dec x = false) items
  /\ started (narrationRun dec (playThrough 0 0 3)
                (fst (playNarrationSequence dec true items n)))
     = sourcesOf 1 items.
Proof.
  intros dec n items.
  assert (Hc : narrationAudioContext n = Some running) by reflexivity.
  assert (Hok : Forall (fun x => JsString.truthy x = true /\ dec x = false) items).
  { repeat (apply Forall_cons; split; [split; reflexivity|]). apply Forall_nil_2. }
  split; [exact Hc|]. split; [exact Hok|].
  exact (proj1 (sequence_plays_in_order dec n true items Hc Hok)).
Defined.

(** ** Narration without an audio context *)

Section NoContext.

Variable decodeThrows : string -> bool.

(** When no audio context exists and none can be created, a call of
    [playNarrationSequence] returns at once, so the [finally] of the turn
    is not held up: the first item has been taken off the queue, nothing is
    parked and no source is started; and nothing that happens afterwards,
    not even a context that becomes available, makes the player start a
    source or touch the rest of the queue. *)
Theorem no_context_no_narration (factory : option AudioContextState)
    (pre : list NarrationAction) (notify : bool) (audioDataArray : list string) :
  let n := narrationActs decodeThrows pre (initialNarration factory) in
  narrationAudioContext n = None ->
  narrationContextFactory n = None ->
  let r := playNarrationSequence decodeThrows notify audioDataArray n in
  snd r = notify
  /\ narrationQueue (fst r) = tail audioDataArray
  /\ started (fst r) = started n
  /\ narrationTasks (fst r) = narrationTasks n
  /\ isPlayingNarration (fst r) = false
  /\ (forall es,
        started (narrationRun decodeThrows es (fst r)) = started n
        /\ narrationQueue (narrationRun decodeThrows es (fst r))
           = tail audioDataArray).
Proof.
  intros n Hc Hf r.
  assert (Hb : versionsBounded n).
  { apply narrationActs_bounded. apply initial_bounded. }
  pose proof (bounded_stop_silent n Hb) as Hsil.
  destruct (stopNarration_fields n) as (_ & Hst & Htk & _ & Hfl & _).
  assert (Hc' : narrationAudioContext (stopNarration n) = None).
  { rewrite stopNarration_eq. exact Hc. }
  assert (Hf' : narrationContextFactory (stopNarration n) = None).
  { rewrite stopNarration_eq. exact Hf. }
  set (m := stopNarration n) in *.
  assert (Er : r = (set_isPlayingNarration false
                      (set_narrationQueue (tail audioDataArray) m), notify)).
  { unfold r, playNarrationSequence. fold m.
    unfold processNarrationQueue.
    destruct m as [ctx cur queue playing version st pend tasks next fac].
    simpl in Hc', Hf', Hfl. subst ctx fac playing.
    destruct audioDataArray as [|x rest]; [reflexivity|].
    simpl. destruct (JsString.truthy x); reflexivity. }
  rewrite Er. cbn [fst snd].
  split; [reflexivity|]. split; [reflexivity|]. split; [exact Hst|].
  split; [exact Htk|]. split; [reflexivity|].
  intros es.
  destruct (silent_run decodeThrows es
              (set_isPlayingNarration false
                 (set_narrationQueue (tail audioDataArray) m))) as [H1 H2].
  { now apply silent_flag, silent_queue. }
  split; [rewrite H1; exact Hst|exact H2].
Qed.

End NoContext.

(** An instance: the first narration of a session, on a platform without
    Web Audio. *)
Lemma no_context_no_narration_witness :
  let dec := fun _ : string => false in
  let n := narrationActs dec [] (initialNarration None) in
  narrationAudioContext n = None
  /\ narrationContextFactory n = None
  /\ snd (playNarrationSequence dec true ["a"; "b"]%string n) = true
  /\ narrationQueue (fst (playNarrationSequence dec true ["a"; "b"]%string n))
     = ["b"%string].
Proof.
  intros dec n.
  assert (Hc : narrationAudioContext n = None) by reflexivity.
  assert (Hf : narrationContextFactory n = None) by reflexivity.
  destruct (no_context_no_narration dec None [] true ["a"; "b"]%string Hc Hf)
    as (H1 & H2 & _).
  split; [exact Hc|]. split; [exact Hf|]. split; [exact H1|exact H2].
Defined.

(** ** One voice at a time *)

Section OneVoice.

Variable decodeThrows : string -> bool.

(** [tracked] reads the counter, the log of started sources, the
    outstanding [ended] events and the active source only. *)
Lemma tracked_same (n n' : Narration) (stopped : gset nat) :
  tracked n stopped ->
  narrationVersion n' = narrationVersion n ->
  started n' = started n ->
  pendingEnded n' = pendingEnded n ->
  currentNarrationSource n' = currentNarrationSource n ->
  tracked n' stopped.
Proof.
  intros [Ha Hb] Hv Hs Hp Hc. unfold tracked. rewrite Hv, Hs, Hp, Hc.
  split; assumption.
Qed.

Lemma tracked_drained (notify r : bool) (n n' : Narration) (stopped : gset nat) :
  tracked n stopped -> drainedFrom notify n n' r -> tracked n' stopped.
Proof.
  intros H (Hv & Hs & Hp & Hc & _). now apply (tracked_same n).
Qed.

Lemma tracked_failedChunk v n stopped :
  tracked n stopped ->
  tracked (failedChunk (processNext decodeThrows) v n) stopped.
Proof.
  intros H. unfold failedChunk.
  assert (H' : tracked (set_isPlayingNarration false n) stopped)
    by (now apply (tracked_same n)).
  destruct (v =? narrationVersion (set_isPlayingNarration false n)); [|exact H'].
  eapply tracked_drained; [exact H'|apply processNext_drained].
Qed.

Lemma tracked_decodeChunk v audio notify n stopped :
  tracked n stopped ->
  tracked
    (fst (decodeChunk decodeThrows (processNext decodeThrows) v audio notify n))
    stopped.
Proof.
  intros H. unfold decodeChunk.
  destruct (negb (v =? narrationVersion n)); cbn [fst];
    [now apply (tracked_same n)|].
  destruct (decodeThrows audio); cbn [fst];
    [now apply tracked_failedChunk|now apply (tracked_same n)].
Qed.

Lemma tracked_more (n : Narration) (stopped stopped' : gset nat) :
  tracked n stopped -> stopped ⊆ stopped' -> tracked n stopped'.
Proof.
  intros [Ha Hb] Hsub. split; [|exact Hb].
  intros sid Hin. destruct (Ha sid Hin) as [H|H]; [left; now apply Hsub|now right].
Qed.

(** Every event keeps the sources tracked: a source starts only when no
    other source of the current generation is waiting for its end. *)
Lemma tracked_step e n stopped :
  singleDrain n -> tracked n stopped ->
  tracked (fst (narrationStep decodeThrows e n)) stopped.
Proof.
  intros Hd H. pose proof H as [Ha Hb].
  destruct e as [tid ok|tid decoded startable|sid|s|f]; cbn [narrationStep fst].
  - unfold onResumeSettled.
    destruct (narrationTasks n !! tid) as [t|] eqn:El; [|exact H].
    destruct (task_await t); [|exact H].
    assert (Hw : tracked (wake tid n) stopped) by (now apply (tracked_same n)).
    destruct ok; cbn [fst]; [|now apply (tracked_same n)].
    apply tracked_decodeChunk.
    destruct (narrationAudioContext (wake tid n)); [|exact Hw].
    now apply (tracked_same n).
  - unfold onDecodeSettled.
    destruct (narrationTasks n !! tid) as [t|] eqn:El; [|exact H].
    destruct (task_await t); [exact H|].
    assert (Hw : tracked (wake tid n) stopped) by (now apply (tracked_same n)).
    destruct decoded; cbn [negb fst]; [|now apply tracked_failedChunk].
    destruct (task_version t =? narrationVersion (wake tid n)) eqn:E;
      cbn [negb fst]; [|now apply (tracked_same n)].
    destruct startable; cbn [negb fst]; [|now apply tracked_failedChunk].
    apply Nat.eqb_eq in E. simpl in E.
    (* the source starts: no other source of this generation is pending *)
    destruct (proj1 Hd tid t El E) as [_ Hquiet]. simpl in Hquiet.
    assert (Hnone : currentNarrationSource n = None).
    { destruct (currentNarrationSource n) as [sid0|] eqn:Ec; [|reflexivity].
      destruct (Hb sid0 eq_refl) as (Hin & src & Hsrc & Hsv).
      now elim (Hquiet sid0 src Hin Hsrc). }
    split.
    + intros sid Hin. simpl in Hin. simpl.
      apply elem_of_union in Hin as [Hin|Hin].
      * apply elem_of_singleton in Hin. right. now subst.
      * destruct (Ha sid Hin) as [Hs|Hs]; [now left|congruence].
    + intros sid Hc. simpl in Hc. injection Hc as <-. simpl. split.
      * apply elem_of_union_l, elem_of_singleton. reflexivity.
      * eexists. split; [apply list_lookup_middle; reflexivity|exact E].
  - unfold onSourceEnded.
    destruct (bool_decide (sid ∈ pendingEnded n)) eqn:Ein; [|exact H].
    destruct (started n !! sid) as [src|] eqn:El; [|exact H].
    assert (H3 : tracked
                   (if bool_decide
                         (currentNarrationSource
                            (set_isPlayingNarration false (retire sid n)) = Some sid)
                    then set_currentNarrationSource None
                           (set_isPlayingNarration false (retire sid n))
                    else set_isPlayingNarration false (retire sid n))
                   stopped).
    { cbn [currentNarrationSource set_isPlayingNarration retire].
      destruct (bool_decide (currentNarrationSource n = Some sid)) eqn:Hc;
        [apply bool_decide_eq_true in Hc|apply bool_decide_eq_false in Hc].
      - split.
        + intros sid' Hin. simpl in Hin.
          apply elem_of_difference in Hin as [Hin Hne].
          apply not_elem_of_singleton in Hne.
          destruct (Ha sid' Hin) as [Hst|Hcur]; [now left|congruence].
        + intros sid' Hcur. discriminate.
      - split.
        + intros sid' Hin. simpl in Hin. simpl.
          apply elem_of_difference in Hin as [Hin Hne].
          exact (Ha sid' Hin).
        + intros sid' Hcur. simpl in Hcur. simpl.
          destruct (Hb sid' Hcur) as (Hin & Hsrc).
          split; [|exact Hsrc].
          apply elem_of_difference. split; [exact Hin|].
          apply not_elem_of_singleton. congruence. }
    match goal with |- tracked (if ?c then _ else _) _ => destruct c end;
      [|exact H3].
    eapply tracked_drained; [exact H3|apply processNext_drained].
  - destruct (narrationAudioContext n); [now apply (tracked_same n)|exact H].
  - now apply (tracked_same n).
Qed.


Lemma tracked_stop n stopped :
  tracked n stopped ->
  tracked (stopNarration n) (stopped ∪ stoppedByAct n actStop).
Proof.
  intros [Ha Hb]. rewrite stopNarration_eq. split.
  - intros sid Hin. simpl in Hin. left.
    destruct (Ha sid Hin) as [Hs|Hc].
    + now apply elem_of_union_l.
    + apply elem_of_union_r. unfold stoppedByAct. rewrite Hc.
      now apply elem_of_singleton.
  - intros sid Hc. discriminate.
Qed.

Lemma tracked_act a n stopped :
  versionsBounded n -> singleDrain n -> tracked n stopped ->
  tracked (narrationAct decodeThrows n a) (stopped ∪ stoppedByAct n a).
Proof.
  intros Hbd Hd H. destruct a as [c| |e]; cbn [narrationAct].
  - rewrite narrationCall_eq.
    eapply tracked_drained; [|apply processNarrationQueue_drained].
    apply (tracked_same (stopNarration n)); try reflexivity.
    replace (stoppedByAct n (actCall c)) with (stoppedByAct n actStop)
      by (unfold stoppedByAct; now destruct (currentNarrationSource n)).
    now apply tracked_stop.
  - now apply tracked_stop.
  - apply (tracked_more _ stopped); [now apply tracked_step|].
    apply union_subseteq_l.
Qed.

Lemma narrationTrace_player (acts : list NarrationAction) :
  forall start,
    fst (narrationTrace decodeThrows acts start)
    = narrationActs decodeThrows acts (fst start).
Proof.
  induction acts as [|a acts IH]; intros start; [reflexivity|].
  simpl. now rewrite IH.
Qed.

Lemma tracked_trace (acts : list NarrationAction) :
  forall n stopped,
    versionsBounded n -> singleDrain n -> tracked n stopped ->
    tracked (fst (narrationTrace decodeThrows acts (n, stopped)))
      (snd (narrationTrace decodeThrows acts (n, stopped))).
Proof.
  induction acts as [|a acts IH]; intros n stopped Hbd Hd H; [exact H|].
  simpl. apply IH.
  - exact (proj1 (narrationActs_single decodeThrows [a] n Hbd Hd)).
  - exact (proj2 (narrationActs_single decodeThrows [a] n Hbd Hd)).
  - now apply tracked_act.
Qed.

(** Whatever calls, cancellations and events the player goes through,
    every source that has started and whose end is still to come has been
    stopped by a call or a cancellation, or else is the active source, the
    one that the next call or cancellation will stop: two narration
    sources never sound together.  The active source, when there is one,
    has not ended and belongs to the current generation. *)
Theorem one_voice_at_a_time (factory : option AudioContextState)
    (acts : list NarrationAction) :
  let trace := narrationTrace decodeThrows acts (initialNarration factory, ∅) in
  let n := narrationActs decodeThrows acts (initialNarration factory) in
  fst trace = n
  /\ (forall sid, sid ∈ pendingEnded n ->
        sid ∈ snd trace \/ currentNarrationSource n = Some sid)
  /\ (forall sid, currentNarrationSource n = Some sid ->
        sid ∈ pendingEnded n
        /\ exists src, started n !! sid = Some src
                       /\ src_version src = narrationVersion n).
Proof.
  intros trace n.
  assert (E : fst trace = n) by apply narrationTrace_player.
  assert (H0 : tracked (initialNarration factory) ∅).
  { split.
    - intros sid Hin. simpl in Hin. now apply elem_of_empty in Hin.
    - intros sid Hc. discriminate. }
  pose proof (tracked_trace acts _ _ (initial_bounded factory)
                (initial_single factory) H0) as [Ha Hb].
  fold trace in Ha, Hb. rewrite E in Ha, Hb.
  split; [exact E|]. split; [exact Ha|exact Hb].
Qed.

End OneVoice.

(** ** The narration player inside the component *)

Section ComponentNarration.

Variable decodeThrows : string -> bool.
Variable JSON_parse : string -> option JSValue.
Variable Math_random : nat -> Q.

Lemma narrationActs_app (acts1 acts2 : list NarrationAction) (n : Narration) :
  narrationActs decodeThrows (acts1 ++ acts2) n
  = narrationActs decodeThrows acts2 (narrationActs decodeThrows acts1 n).
Proof. unfold narrationActs. apply foldl_app. Qed.

(** Each event of the component acts on the narration player through at
    most one call, cancellation or event of the player. *)
Lemma appStep_narration (e : AppEvent) (s : App) :
  exists acts,
    narration (appStep decodeThrows JSON_parse Math_random e s)
    = narrationActs decodeThrows acts (narration s).
Proof.
  destruct e as [userInput| | | |audio|tid response|tid img mood speech|e|e];
    cbn [appStep].
  - unfold handleSendMessage.
    destruct (negb (JsString.truthy (JsString.trim userInput)) || isLoading s
              || negb (chatSession s)); [now exists []|].
    exists [actStop]. destruct s; reflexivity.
  - exists []. unfold handleUndo.
    destruct (History.canUndo (historyIndex s)); [|reflexivity].
    now destruct (syncWithHistory_frame (set_historyIndex (historyIndex s - 1) s))
      as [(_ & _ & H & _) _].
  - exists []. unfold handleRedo.
    destruct (History.canRedo (history s) (historyIndex s)); [|reflexivity].
    now destruct (syncWithHistory_frame (set_historyIndex (historyIndex s + 1) s))
      as [(_ & _ & H & _) _].
  - exists []. destruct s; reflexivity.
  - unfold onWelcomeSpeechSettled.
    destruct audio as [audioData|]; [|exists []; destruct s; reflexivity].
    destruct (negb (welcomeAudioHandled s)); [|now exists []].
    exists [actCall (callPlayNarration false audioData)]. destruct s; reflexivity.
  - exists []. unfold onGenerationSettled.
    destruct (turns s !! tid) as [t|] eqn:El; [|reflexivity].
    destruct (turn_await t) eqn:Ea; [|reflexivity].
    destruct response as [[responseText|]|].
    + pose proof (onGenerationSettled_text JSON_parse Math_random s tid t responseText
                    El Ea) as (_ & _ & _ & _ & H & _).
      unfold onGenerationSettled in H. rewrite El, Ea in H. exact H.
    + destruct s; reflexivity.
    + destruct s; reflexivity.
  - unfold onAllSettled.
    destruct (turns s !! tid) as [t|] eqn:El; [|now exists []].
    destruct (turn_await t) as [|fin ch st pr rq] eqn:Ea; [now exists []|].
    destruct (collectSpeech speech (length rq)) as [audioData|];
      [|exists []; destruct s; reflexivity].
    exists [actCall (callPlayNarrationSequence true audioData)].
    destruct (History.commit (turn_history t) (turn_historyIndex t) _)
      as [history' historyIndex'].
    unfold syncShareable, syncWithHistory.
    destruct s as [chat0 img0 load0 ch0 share0 mute0 voices0 hist0 idx0 sess0
                   welcome0 n0 amb0 turns0 next0 rnd0].
    cbn [narration set_ambiance set_history set_historyIndex set_turns isLoading
         narrationActs foldl narrationAct narrationCall].
    destruct (playNarrationSequence decodeThrows true audioData n0) as [n returned].
    destruct returned; simpl; destruct (history' !! historyIndex'); reflexivity.
  - exists [actEvent e]. unfold onNarrationEvent. cbn [narrationActs foldl narrationAct].
    destruct (narrationStep decodeThrows e (narration s)) as [n returned].
    destruct returned; destruct s; reflexivity.
  - exists []. destruct s; reflexivity.
Qed.

Lemma appRun_narration (es : list AppEvent) :
  forall s, exists acts,
    narration (appRun decodeThrows JSON_parse Math_random es s)
    = narrationActs decodeThrows acts (narration s).
Proof.
  induction es as [|e es IH]; intros s; [now exists []|].
  simpl. destruct (appStep_narration e s) as [acts1 E1].
  destruct (IH (appStep decodeThrows JSON_parse Math_random e s)) as [acts2 E2].
  exists (acts1 ++ acts2). rewrite narrationActs_app, <- E1. exact E2.
Qed.

(** On a silent player without an active source, no event makes a source
    the active one. *)
Lemma silent_step_current e n :
  silent n -> currentNarrationSource n = None ->
  currentNarrationSource (fst (narrationStep decodeThrows e n)) = None.
Proof.
  intros H Hc. pose proof H as [Ht Hs].
  destruct e as [tid ok|tid decoded startable|sid|s|f]; simpl.
  - unfold onResumeSettled.
    destruct (narrationTasks n !! tid) as [t|] eqn:El; [|exact Hc].
    destruct (task_await t); [|exact Hc].
    assert (Hneq : (task_version t =? narrationVersion n) = false)
      by (apply Nat.eqb_neq; exact (Ht tid t El)).
    destruct ok; [|exact Hc].
    unfold decodeChunk.
    destruct (narrationAudioContext (wake tid n)); simpl; rewrite Hneq; exact Hc.
  - unfold onDecodeSettled.
    destruct (narrationTasks n !! tid) as [t|] eqn:El; [|exact Hc].
    destruct (task_await t); [exact Hc|].
    assert (Hneq : (task_version t =? narrationVersion n) = false)
      by (apply Nat.eqb_neq; exact (Ht tid t El)).
    destruct decoded; simpl.
    + rewrite Hneq. exact Hc.
    + unfold failedChunk. simpl. rewrite Hneq. exact Hc.
  - unfold onSourceEnded.
    destruct (bool_decide (sid ∈ pendingEnded n)) eqn:Ein; [|exact Hc].
    apply bool_decide_eq_true in Ein.
    destruct (started n !! sid) as [src|] eqn:El; [|exact Hc].
    assert (Hneq : (src_version src =? narrationVersion n) = false)
      by (apply Nat.eqb_neq; exact (Hs sid src Ein El)).
    match goal with |- context [if bool_decide ?c then _ else _] =>
      destruct (bool_decide c) end; simpl; rewrite Hneq; [reflexivity|exact Hc].
  - destruct (narrationAudioContext n); exact Hc.
  - exact Hc.
Qed.

Lemma atRest_frame base (s s' : App) :
  atRest base s -> narration s' = narration s ->
  welcomeAudioHandled s' = welcomeAudioHandled s -> atRest base s'.
Proof. unfold atRest. intros H -> ->. exact H. Qed.

Lemma atRest_stop base (s s' : App) :
  versionsBounded (narration s) -> started (narration s) = base ->
  narration s' = stopNarration (narration s) ->
  welcomeAudioHandled s' = true -> atRest base s'.
Proof.
  intros Hb Hst En Hw.
  destruct (stopNarration_fields (narration s)) as (_ & E1 & _ & E2 & _ & E3).
  unfold atRest. rewrite En.
  split; [now apply versionsBounded_stop|].
  split; [now apply bounded_stop_silent|].
  split; [congruence|]. split; [exact E2|]. split; [exact E3|exact Hw].
Qed.

Lemma handleSendMessage_narration (userInput : string) (s : App) :
  JsString.truthy (JsString.trim userInput) = true ->
  isLoading s = false -> chatSession s = true ->
  narration (handleSendMessage userInput s) = stopNarration (narration s)
  /\ welcomeAudioHandled (handleSendMessage userInput s) = true.
Proof.
  intros Hu Hl Hc. unfold handleSendMessage. rewrite Hu, Hl, Hc.
  destruct s; split; reflexivity.
Qed.

Lemma narrationActs_version (acts : list NarrationAction) :
  forall n, narrationVersion n <= narrationVersion (narrationActs decodeThrows acts n).
Proof.
  induction acts as [|a acts IH]; intros n; [simpl; lia|].
  simpl. etransitivity; [|apply IH].
  destruct a as [c| |e]; cbn [narrationAct].
  - rewrite narrationCall_version. lia.
  - destruct (stopNarration_fields n) as (E & _). rewrite E. lia.
  - rewrite narrationStep_version. lia.
Qed.

Lemma atRest_step base (e : AppEvent) (s : App) :
  beforeAllSettled e -> atRest base s ->
  atRest base (appStep decodeThrows JSON_parse Math_random e s).
Proof.
  intros He H. pose proof H as (Hb & Hsil & Hst & Hq & Hc & Hw).
  destruct e as [userInput| | | |audio|tid response|tid img mood speech|e|e];
    try contradiction; cbn [appStep].
  - unfold handleSendMessage.
    destruct (negb (JsString.truthy (JsString.trim userInput)) || isLoading s
              || negb (chatSession s)); [exact H|].
    apply (atRest_stop base s); [exact Hb|exact Hst|destruct s; reflexivity..].
  - apply (atRest_frame base s); [exact H|..]; unfold handleUndo;
      (destruct (History.canUndo (historyIndex s)); [|reflexivity]);
      now destruct (syncWithHistory_frame (set_historyIndex (historyIndex s - 1) s))
        as [(_ & _ & H3 & _ & _ & _ & _ & H8 & _) _].
  - apply (atRest_frame base s); [exact H|..]; unfold handleRedo;
      (destruct (History.canRedo (history s) (historyIndex s)); [|reflexivity]);
      now destruct (syncWithHistory_frame (set_historyIndex (historyIndex s + 1) s))
        as [(_ & _ & H3 & _ & _ & _ & _ & H8 & _) _].
  - apply (atRest_frame base s); [exact H|destruct s; reflexivity..].
  - unfold onWelcomeSpeechSettled. rewrite Hw.
    destruct audio; [exact H|].
    apply (atRest_frame base s); [exact H|destruct s; simpl in *; congruence..].
  - apply (atRest_frame base s); [exact H|..];
      (unfold onGenerationSettled;
       destruct (turns s !! tid) as [t|]; [|reflexivity];
       destruct (turn_await t); [|reflexivity];
       destruct response as [[responseText|]|];
       [destruct (parseResponse JSON_parse responseText) as [storyText newChoices];
        destruct (deriveDialogue (turn_characterVoices t) storyText)
          as [dialogueParts unassignedChars];
        destruct (assignVoices Math_random (turn_characterVoices t) unassignedChars _)
          as [newCharacterVoices k']|..];
       destruct s; reflexivity).
  - pose proof (versionsBounded_step decodeThrows e _ Hb) as Hb'.
    destruct (silent_step decodeThrows e _ Hsil) as (Hsil' & Hst' & Hq').
    pose proof (silent_step_current e _ Hsil Hc) as Hc'.
    unfold onNarrationEvent.
    destruct (narrationStep decodeThrows e (narration s)) as [n returned].
    cbn [fst] in *.
    assert (G : atRest base (set_narration n s)).
    { unfold atRest.
      replace (narration (set_narration n s)) with n by (destruct s; reflexivity).
      replace (welcomeAudioHandled (set_narration n s)) with (welcomeAudioHandled s)
        by (destruct s; reflexivity).
      split; [exact Hb'|]. split; [exact Hsil'|]. split; [congruence|].
      split; [congruence|]. split; [exact Hc'|exact Hw]. }
    destruct returned; [|exact G].
    apply (atRest_frame base (set_narration n s)); [exact G|destruct s; reflexivity..].
  - apply (atRest_frame base s); [exact H|destruct s; reflexivity..].
Qed.

Lemma atRest_run base (es : list AppEvent) :
  forall s, Forall beforeAllSettled es -> atRest base s ->
    atRest base (appRun decodeThrows JSON_parse Math_random es s).
Proof.
  induction es as [|e es IH]; intros s Hes H; [exact H|].
  apply Forall_cons in Hes as [He Hes]. simpl.
  apply IH; [exact Hes|]. now apply atRest_step.
Qed.

(** Sending a message silences the narration.  In any state the
    component can reach, once [handleSendMessage] has accepted a message,
    and until a [Promise.all] settles, no narration source starts, whatever
    the user clicks and whatever arrives: the decodes and the ends of
    sources of earlier narrations, the welcome audio, the answer of the
    generation call.  The queue stays empty and there is no active
    source. *)
Theorem sending_silences_narration (before after : list AppEvent)
    (narrationFactory ambianceFactory : option AudioContextState)
    (userInput : string) :
  let s := appRun decodeThrows JSON_parse Math_random before
             (initialApp narrationFactory ambianceFactory) in
  JsString.truthy (JsString.trim userInput) = true ->
  isLoading s = false -> chatSession s = true ->
  Forall beforeAllSettled after ->
  let s' := appRun decodeThrows JSON_parse Math_random after
              (handleSendMessage userInput s) in
  started (narration s') = started (narration s)
  /\ narrationQueue (narration s') = []
  /\ currentNarrationSource (narration s') = None
  /\ narrationVersion (narration s) < narrationVersion (narration s').
Proof.
  intros s Hu Hl Hc Hafter s'.
  destruct (appRun_narration before (initialApp narrationFactory ambianceFactory))
    as [acts Eacts].
  fold s in Eacts. cbn [narration initialApp] in Eacts.
  assert (Hb : versionsBounded (narration s)).
  { rewrite Eacts. apply narrationActs_bounded. apply initial_bounded. }
  assert (H1 : atRest (started (narration s)) (handleSendMessage userInput s)).
  { destruct (handleSendMessage_narration userInput s Hu Hl Hc) as [En Hw].
    now apply (atRest_stop _ s). }
  pose proof (atRest_run _ after _ Hafter H1) as (_ & _ & G1 & G2 & G3 & _).
  fold s' in G1, G2, G3.
  split; [exact G1|]. split; [exact G2|]. split; [exact G3|].
  destruct (appRun_narration after (handleSendMessage userInput s)) as [acts' E'].
  fold s' in E'. rewrite E'.
  destruct (handleSendMessage_narration userInput s Hu Hl Hc) as [En _].
  rewrite En.
  pose proof (narrationActs_version acts' (stopNarration (narration s))) as Hle.
  destruct (stopNarration_fields (narration s)) as (Ev & _).
  rewrite Ev in Hle. lia.
Qed.

End ComponentNarration.

(** An instance: the welcome audio is being decoded when the first
    message is sent; its decode then resolves, and nothing plays. *)
Lemma sending_silences_narration_witness :
  let dec := fun _ : string => false in
  let rnd := fun _ : nat => 0%Q in
  let before := [welcomeSpeechSettled (Some "WELCOME"%string)] in
  let after := [narrationEvent (decodeSettled 0 true true)] in
  let s := appRun dec parseGoOn rnd before (initialApp (Some running) None) in
  (JsString.truthy (JsString.trim "hi") = true
   /\ isLoading s = false /\ chatSession s = true)
  /\ Forall beforeAllSettled after
  /\ narrationTasks (narration s) !! 0
     = Some {| task_version := 1; task_audio := "WELCOME"%string;
               task_await := awaitDecode; task_notify := false |}
  /\ started (narration (appRun dec parseGoOn rnd after (handleSendMessage "hi" s)))
     = [].
Proof.
  intros dec rnd before after s.
  assert (Hu : JsString.truthy (JsString.trim "hi") = true) by reflexivity.
  assert (Hl : isLoading s = false) by reflexivity.
  assert (Hc : chatSession s = true) by reflexivity.
  assert (Ha : Forall beforeAllSettled after)
    by (apply Forall_cons; split; [exact I|apply Forall_nil_2]).
  split; [repeat split|]. split; [exact Ha|].
  split; [vm_compute; reflexivity|].
  exact (proj1 (sending_silences_narration dec parseGoOn rnd before after
                  (Some running) None "hi" Hu Hl Hc Ha)).
Defined.

(** ** The ambiance player: a switch that completes, and a retry *)

Section AmbianceSwitch.

Import AmbiancePlayer.

Lemma ambSuspend_parked (t : AmbianceTask) (a : Ambiance) :
  ambianceTasks (ambSuspend t a) !! nextAmbianceTask a = Some t
  /\ nextAmbianceTask (ambSuspend t a) = S (nextAmbianceTask a).
Proof. split; [apply lookup_insert_eq|reflexivity]. Qed.

Lemma onFetchSettled_ok (a : Ambiance) (tid : nat) (t : AmbianceTask)
    (contentType : option string) :
  ambianceTasks a !! tid = Some t -> amb_await t = ambAwaitFetch ->
  onFetchSettled tid (Some (true, contentType)) a
  = ambSuspend {| amb_url := amb_url t; amb_muted := amb_muted t;
                  amb_await := ambAwaitBody |} (ambWake tid a).
Proof. intros Hl Ha. unfold onFetchSettled. now rewrite Hl, Ha. Qed.

Lemma onBodySettled_ok (a : Ambiance) (tid : nat) (t : AmbianceTask) (len : nat) :
  ambianceTasks a !! tid = Some t -> amb_await t = ambAwaitBody ->
  1024 <= len ->
  onBodySettled tid (Some len) a
  = ambSuspend {| amb_url := amb_url t; amb_muted := amb_muted t;
                  amb_await := ambAwaitDecode |} (ambWake tid a).
Proof.
  intros Hl Ha Hlen. unfold onBodySettled. rewrite Hl, Ha.
  now replace (len <? 1024) with false by (symmetry; apply Nat.ltb_ge; exact Hlen).
Qed.

Lemma onDecodeSettled_ok (a : Ambiance) (tid : nat) (t : AmbianceTask) :
  ambianceTasks a !! tid = Some t -> amb_await t = ambAwaitDecode ->
  onDecodeSettled tid true true a
  = let a := gainCall cancelScheduledValues (ambStart (amb_url t) (ambWake tid a)) in
    if negb (amb_muted t) then
      gainCall (linearRampToValueAtTime gainAmbiance)
        (gainCall (setValueAtTime gainZero) a)
    else gainCall (setValueAtTime gainZero) a.
Proof. intros Hl Ha. unfold onDecodeSettled. now rewrite Hl, Ha. Qed.

(** The calls of a switch that completes, one after the other. *)
Lemma switch_run (a : Ambiance) (url : string) (muted : bool)
    (contentType : option string) (len : nat) :
  currentAmbianceUrl a <> Some url ->
  ambianceAudioContext a = Some running ->
  1024 <= len ->
  let tid := nextAmbianceTask a in
  let a4 :=
    foldl (fun a e => step e a) (playAmbiance url muted a)
      [ambFetchSettled tid (Some (true, contentType));
       ambBodySettled (S tid) (Some len);
       ambDecodeSettled (S (S tid)) true true] in
  currentAmbianceUrl a4 = Some url
  /\ currentAmbianceSource a4 = Some (length (ambianceStarted a))
  /\ ambianceStarted a4 = ambianceStarted a ++ [url]
  /\ scheduledStops a4
     = scheduledStops a ++ match currentAmbianceSource a with
                           | Some oldSource => [oldSource]
                           | None => []
                           end
  /\ ambianceGainNode a4
     = (fun ops => ops ++ switchGainOps
                            (bool_decide (is_Some (currentAmbianceSource a))) muted)
       <$> ambianceGainNode a.
Proof.
  intros Hne Hctx Hlen tid a4.
  assert (Hbd : bool_decide (currentAmbianceUrl a = Some url) = false)
    by now apply bool_decide_eq_false_2.
  set (a0 := match currentAmbianceSource a with
             | Some oldSource =>
                 set_currentAmbianceSource None
                   (scheduleStop oldSource
                      (gainCall (linearRampToValueAtTime gainZero)
                         (set_currentAmbianceUrl (Some url) a)))
             | None => set_currentAmbianceUrl (Some url) a
             end).
  assert (Hnext : nextAmbianceTask a0 = tid)
    by (unfold a0, gainCall; destruct a as [ctx [ops|] [old|]]; reflexivity).
  assert (E1 : playAmbiance url muted a
               = ambSuspend {| amb_url := url; amb_muted := muted;
                               amb_await := ambAwaitFetch |} a0).
  { unfold playAmbiance. rewrite Hbd.
    destruct a as [ctx gain cur marker sts stops tasks next factory].
    cbn [ambianceAudioContext] in Hctx. subst ctx. reflexivity. }
  unfold a4. cbn [foldl step]. rewrite E1.
  set (t1 := {| amb_url := url; amb_muted := muted; amb_await := ambAwaitFetch |}).
  destruct (ambSuspend_parked t1 a0) as [P1 N1]. rewrite Hnext in P1, N1.
  rewrite (onFetchSettled_ok _ tid t1 contentType P1 eq_refl).
  cbn [amb_url amb_muted t1].
  set (a1 := ambWake tid (ambSuspend t1 a0)).
  set (t2 := {| amb_url := url; amb_muted := muted; amb_await := ambAwaitBody |}).
  destruct (ambSuspend_parked t2 a1) as [P2 N2].
  change (nextAmbianceTask a1) with (nextAmbianceTask (ambSuspend t1 a0)) in P2, N2.
  rewrite N1 in P2, N2.
  rewrite (onBodySettled_ok _ (S tid) t2 len P2 eq_refl Hlen).
  cbn [amb_url amb_muted t2].
  set (a2 := ambWake (S tid) (ambSuspend t2 a1)).
  set (t3 := {| amb_url := url; amb_muted := muted; amb_await := ambAwaitDecode |}).
  destruct (ambSuspend_parked t3 a2) as [P3 _].
  change (nextAmbianceTask a2) with (nextAmbianceTask (ambSuspend t2 a1)) in P3.
  rewrite N2 in P3.
  rewrite (onDecodeSettled_ok _ (S (S tid)) t3 P3 eq_refl).
  cbn [amb_url amb_muted t3].
  unfold a2, a1, a0, gainCall, switchGainOps. clear.
  destruct a as [ctx [ops|] [old|] marker sts stops tasks next factory], muted;
    cbn -[insert delete];
    rewrite <- ?app_assoc, ?app_nil_r; repeat split.
Qed.

(** A switch to another track on a running context, whose fetch answers
    [ok] with any content type, whose body has at least 1024 bytes and
    whose decode resolves: the new track is started as a new source and
    becomes the current one, the marker names it, the old source, if any,
    is scheduled to stop, and the gain is faded out, reset and, unless
    the render that asked for the switch was muted, ramped up again. *)
Theorem ambiance_switch_completes (a : Ambiance) (url : string) (muted : bool)
    (contentType : option string) (len : nat) :
  currentAmbianceUrl a <> Some url ->
  ambianceAudioContext a = Some running ->
  1024 <= len ->
  let tid := nextAmbianceTask a in
  let a4 :=
    foldl (fun a e => step e a) (playAmbiance url muted a)
      [ambFetchSettled tid (Some (true, contentType));
       ambBodySettled (S tid) (Some len);
       ambDecodeSettled (S (S tid)) true true] in
  currentAmbianceUrl a4 = Some url
  /\ currentAmbianceSource a4 = Some (length (ambianceStarted a))
  /\ ambianceStarted a4 = ambianceStarted a ++ [url]
  /\ scheduledStops a4
     = scheduledStops a ++ match currentAmbianceSource a with
                           | Some oldSource => [oldSource]
                           | None => []
                           end
  /\ ambianceGainNode a4
     = (fun ops => ops ++ switchGainOps
                            (bool_decide (is_Some (currentAmbianceSource a))) muted)
       <$> ambianceGainNode a.
Proof. apply switch_run. Qed.

Lemma onFetchSettled_failed (a : Ambiance) (tid : nat) (t : AmbianceTask)
    (response : option (bool * option string)) :
  ambianceTasks a !! tid = Some t -> amb_await t = ambAwaitFetch ->
  (response = None \/ exists contentType, response = Some (false, contentType)) ->
  onFetchSettled tid response a = failed (ambWake tid a).
Proof.
  intros Hl Ha Hr. unfold onFetchSettled. rewrite Hl, Ha.
  destruct Hr as [->|[contentType ->]]; reflexivity.
Qed.

Lemma onBodySettled_failed (a : Ambiance) (tid : nat) (t : AmbianceTask)
    (byteLength : option nat) :
  ambianceTasks a !! tid = Some t -> amb_await t = ambAwaitBody ->
  (byteLength = None \/ exists len, byteLength = Some len /\ len < 1024) ->
  onBodySettled tid byteLength a = failed (ambWake tid a).
Proof.
  intros Hl Ha Hr. unfold onBodySettled. rewrite Hl, Ha.
  destruct Hr as [->|(len & -> & Hlen)]; [reflexivity|].
  apply Nat.ltb_lt in Hlen. now rewrite Hlen.
Qed.

Lemma onDecodeSettled_failed (a : Ambiance) (tid : nat) (t : AmbianceTask)
    (decoded startable : bool) :
  ambianceTasks a !! tid = Some t -> amb_await t = ambAwaitDecode ->
  decoded && startable = false ->
  onDecodeSettled tid decoded startable a = failed (ambWake tid a).
Proof.
  intros Hl Ha Hr. unfold onDecodeSettled. rewrite Hl, Ha.
  destruct decoded, startable; try discriminate; reflexivity.
Qed.

(** A switch that fails inside the [try] block of [playAmbiance] leaves
    the ambiance without a track.  By the time of the failure the call has
    faded the gain out, scheduled the stop of the track that was playing
    and dropped it as the current source; the [catch] then clears the
    marker.  So after a switch to another track on a running context that
    fails at its fetch, its body or its decode, there is no current
    source and no marker, no new source has started, and the gain has not
    been ramped up again; and a new call for any track, the same one
    included, is not turned away: it sets the marker and fetches. *)
Theorem ambiance_retry_after_failure (a : Ambiance) (url : string) (muted : bool)
    (f : SwitchFailure) :
  currentAmbianceUrl a <> Some url ->
  ambianceAudioContext a = Some running ->
  failsInTry f ->
  let a' :=
    foldl (fun a e => step e a) (playAmbiance url muted a)
      (failureSchedule (nextAmbianceTask a) f) in
  currentAmbianceUrl a' = None
  /\ currentAmbianceSource a' = None
  /\ ambianceStarted a' = ambianceStarted a
  /\ scheduledStops a'
     = scheduledStops a ++ match currentAmbianceSource a with
                           | Some oldSource => [oldSource]
                           | None => []
                           end
  /\ ambianceGainNode a'
     = (fun ops => ops ++ match currentAmbianceSource a with
                          | Some _ => [linearRampToValueAtTime gainZero]
                          | None => []
                          end)
       <$> ambianceGainNode a
  /\ (forall url' muted',
        let a'' := playAmbiance url' muted' a' in
        currentAmbianceUrl a'' = Some url'
        /\ ambianceTasks a'' !! nextAmbianceTask a'
           = Some {| amb_url := url'; amb_muted := muted';
                     amb_await := ambAwaitFetch |}
        /\ ambianceGainNode a'' = ambianceGainNode a'
        /\ scheduledStops a'' = scheduledStops a').
Proof.
  intros Hne Hctx Hf a'.
  assert (Hbd : bool_decide (currentAmbianceUrl a = Some url) = false)
    by now apply bool_decide_eq_false_2.
  set (tid := nextAmbianceTask a) in *.
  set (a0 := match currentAmbianceSource a with
             | Some oldSource =>
                 set_currentAmbianceSource None
                   (scheduleStop oldSource
                      (gainCall (linearRampToValueAtTime gainZero)
                         (set_currentAmbianceUrl (Some url) a)))
             | None => set_currentAmbianceUrl (Some url) a
             end).
  assert (Hnext : nextAmbianceTask a0 = tid)
    by (unfold a0, gainCall, tid; destruct a as [ctx [ops|] [old|]]; reflexivity).
  assert (E1 : playAmbiance url muted a
               = ambSuspend {| amb_url := url; amb_muted := muted;
                               amb_await := ambAwaitFetch |} a0).
  { unfold playAmbiance. rewrite Hbd.
    destruct a as [ctx gain cur marker sts stops tasks next factory].
    cbn [ambianceAudioContext] in Hctx. subst ctx. reflexivity. }
  set (t1 := {| amb_url := url; amb_muted := muted; amb_await := ambAwaitFetch |}) in *.
  destruct (ambSuspend_parked t1 a0) as [P1 N1]. rewrite Hnext in P1, N1.
  set (a1 := ambWake tid (ambSuspend t1 a0)).
  set (t2 := {| amb_url := url; amb_muted := muted; amb_await := ambAwaitBody |}).
  destruct (ambSuspend_parked t2 a1) as [P2 N2].
  change (nextAmbianceTask a1) with (nextAmbianceTask (ambSuspend t1 a0)) in P2, N2.
  rewrite N1 in P2, N2.
  set (a2 := ambWake (S tid) (ambSuspend t2 a1)).
  set (t3 := {| amb_url := url; amb_muted := muted; amb_await := ambAwaitDecode |}).
  destruct (ambSuspend_parked t3 a2) as [P3 _].
  change (nextAmbianceTask a2) with (nextAmbianceTask (ambSuspend t2 a1)) in P3.
  rewrite N2 in P3.
  assert (E : exists b, a' = failed b
                        /\ ambianceAudioContext b = Some running
                        /\ currentAmbianceSource b = None
                        /\ ambianceStarted b = ambianceStarted a
                        /\ scheduledStops b = scheduledStops a0
                        /\ ambianceGainNode b = ambianceGainNode a0).
  { assert (Hctx0 : ambianceAudioContext a0 = Some running
                    /\ currentAmbianceSource a0 = None
                    /\ ambianceStarted a0 = ambianceStarted a).
    { unfold a0, gainCall. clear -Hctx.
      destruct a as [ctx [ops|] [old|] marker sts stops tasks next factory];
        cbn in *; subst; (repeat split). }
    destruct Hctx0 as (C1 & C2 & C3).
    unfold a'. rewrite E1.
    destruct f as [|ct|ct|ct len|ct len decoded startable];
      cbn [failureSchedule foldl step].
    - exists (ambWake tid (ambSuspend t1 a0)). split; [|now repeat split].
      apply (onFetchSettled_failed _ tid t1); [exact P1|reflexivity|now left].
    - exists (ambWake tid (ambSuspend t1 a0)). split; [|now repeat split].
      apply (onFetchSettled_failed _ tid t1); [exact P1|reflexivity|].
      right. now exists ct.
    - rewrite (onFetchSettled_ok _ tid t1 ct P1 eq_refl).
      exists (ambWake (S tid) (ambSuspend t2 a1)). split; [|now repeat split].
      apply (onBodySettled_failed _ (S tid) t2); [exact P2|reflexivity|now left].
    - rewrite (onFetchSettled_ok _ tid t1 ct P1 eq_refl).
      exists (ambWake (S tid) (ambSuspend t2 a1)). split; [|now repeat split].
      apply (onBodySettled_failed _ (S tid) t2); [exact P2|reflexivity|].
      right. exists len. split; [reflexivity|exact Hf].
    - destruct Hf as [Hlen Hds].
      rewrite (onFetchSettled_ok _ tid t1 ct P1 eq_refl).
      change (ambSuspend _ (ambWake tid (ambSuspend t1 a0))) with (ambSuspend t2 a1).
      rewrite (onBodySettled_ok _ (S tid) t2 len P2 eq_refl Hlen).
      exists (ambWake (S (S tid)) (ambSuspend t3 a2)). split; [|now repeat split].
      apply (onDecodeSettled_failed _ (S (S tid)) t3); [exact P3|reflexivity|exact Hds]. }
  destruct E as (b & -> & B1 & B2 & B3 & B4 & B5).
  assert (Hstops : scheduledStops a0
                   = scheduledStops a ++ match currentAmbianceSource a with
                                         | Some oldSource => [oldSource]
                                         | None => []
                                         end).
  { unfold a0, gainCall. clear.
    destruct a as [ctx [ops|] [old|] marker sts stops tasks next factory];
      cbn; now rewrite ?app_nil_r. }
  assert (Hgain : ambianceGainNode a0
                  = (fun ops => ops ++ match currentAmbianceSource a with
                                       | Some _ => [linearRampToValueAtTime gainZero]
                                       | None => []
                                       end)
                    <$> ambianceGainNode a).
  { unfold a0, gainCall. clear.
    destruct a as [ctx [ops|] [old|] marker sts stops tasks next factory];
      cbn; now rewrite ?app_nil_r. }
  split; [reflexivity|]. split; [exact B2|]. split; [exact B3|].
  split; [rewrite <- Hstops; exact B4|]. split; [rewrite <- Hgain; exact B5|].
  intros url' muted' a''. unfold a'', playAmbiance, failed.
  clear -B1 B2.
  destruct b as [ctx gain cur marker sts stops tasks next factory].
  cbn in B1, B2. subst ctx cur. cbn -[insert].
  unfold fadeOutAndFetch. cbn -[insert].
  split; [reflexivity|]. split; [apply lookup_insert_eq|]. split; reflexivity.
Qed.

End AmbianceSwitch.

(** An instance: from the calm track, which is playing, to the forest
    track, unmuted. *)
Lemma ambiance_switch_completes_witness :
  let a0 := foldl (fun a e => AmbiancePlayer.step e a)
              (AmbiancePlayer.playAmbiance (ambianceUrlFor "calm") false
                 (initialAmbiance (Some running)))
              [ambFetchSettled 0 (Some (true, Some "audio/ogg"%string));
               ambBodySettled 1 (Some 4096); ambDecodeSettled 2 true true] in
  let url := ambianceUrlFor "forest" in
  let a4 := foldl (fun a e => AmbiancePlayer.step e a)
              (AmbiancePlayer.playAmbiance url false a0)
              [ambFetchSettled 3 (Some (true, None));
               ambBodySettled 4 (Some 1024); ambDecodeSettled 5 true true] in
  currentAmbianceUrl a0 <> Some url
  /\ ambianceAudioContext a0 = Some running
  /\ 1024 <= 1024
  /\ currentAmbianceSource a4 = Some 1
  /\ scheduledStops a4 = [0].
Proof.
  intros a0 url a4.
  assert (H1 : currentAmbianceUrl a0 <> Some url) by (vm_compute; discriminate).
  assert (H2 : ambianceAudioContext a0 = Some running) by reflexivity.
  destruct (ambiance_switch_completes a0 url false None 1024 H1 H2 (le_n 1024))
    as (_ & H4 & _ & H5 & _).
  split; [exact H1|]. split; [exact H2|]. split; [apply le_n|].
  split; [exact H4|exact H5].
Defined.

(** An instance: the calm track plays; the switch to the forest track gets
    a body of 100 bytes; the calm track is stopped all the same, and asked
    for again it is fetched again. *)
Lemma ambiance_retry_after_failure_witness :
  let a := foldl (fun a e => AmbiancePlayer.step e a)
             (AmbiancePlayer.playAmbiance (ambianceUrlFor "calm") false
                (initialAmbiance (Some running)))
             [ambFetchSettled 0 (Some (true, Some "audio/ogg"%string));
              ambBodySettled 1 (Some 4096); ambDecodeSettled 2 true true] in
  let url := ambianceUrlFor "forest" in
  let f := bodyTooShort None 100 in
  let a' := foldl (fun a e => AmbiancePlayer.step e a)
              (AmbiancePlayer.playAmbiance url false a)
              (failureSchedule (nextAmbianceTask a) f) in
  currentAmbianceUrl a <> Some url
  /\ ambianceAudioContext a = Some running
  /\ failsInTry f
  /\ currentAmbianceSource a = Some 0
  /\ currentAmbianceSource a' = None
  /\ scheduledStops a' = [0]
  /\ currentAmbianceUrl (AmbiancePlayer.playAmbiance (ambianceUrlFor "calm") false a')
     = Some (ambianceUrlFor "calm").
Proof.
  intros a url f a'.
  assert (H1 : currentAmbianceUrl a <> Some url) by (vm_compute; discriminate).
  assert (H2 : ambianceAudioContext a = Some running) by reflexivity.
  assert (H3 : failsInTry f) by (simpl; lia).
  destruct (ambiance_retry_after_failure a url false f H1 H2 H3)
    as (_ & H5 & _ & H6 & _ & H7).
  split; [exact H1|]. split; [exact H2|]. split; [exact H3|].
  split; [reflexivity|]. split; [exact H5|]. split; [exact H6|].
  exact (proj1 (H7 (ambianceUrlFor "calm") false)).
Defined.

(** ** Strings *)

Lemma length_rev_app (s1 s2 : string) :
  String.length (String.rev_app s1 s2) = String.length s1 + String.length s2.
Proof.
  revert s2. induction s1 as [|c s1 IH]; intros s2; simpl; [reflexivity|].
  rewrite IH. simpl. lia.
Qed.

Lemma dropWhile_rev_app p (s1 s2 : string) :
  JsString.dropWhile p (String.rev_app s1 s2) = EmptyString ->
  JsString.dropWhile p s2 = EmptyString.
Proof.
  revert s2. induction s1 as [|c s1 IH]; intros s2 H; simpl in H; [exact H|].
  apply IH in H. simpl in H. destruct (p c); [exact H|discriminate].
Qed.

(** A string that [trim] empties is white space throughout. *)
Lemma trim_blank (s : string) :
  JsString.truthy (JsString.trim s) = false ->
  JsString.dropWhile JsString.isSpace s = EmptyString.
Proof.
  unfold JsString.trim, JsString.trimEnd, JsString.trimStart.
  intros H.
  destruct (JsString.dropWhile JsString.isSpace s) as [|c t] eqn:E; [reflexivity|].
  exfalso.
  assert (Hc : JsString.isSpace c = false).
  { clear H. induction s as [|a s IH]; simpl in E; [discriminate|].
    destruct (JsString.isSpace a) eqn:Ea; [now apply IH|].
    injection E as <- <-. exact Ea. }
  destruct (String.rev (JsString.dropWhile JsString.isSpace (String.rev (String c t))))
    as [|x y] eqn:Er; [|discriminate].
  assert (Hd : JsString.dropWhile JsString.isSpace (String.rev (String c t))
               = EmptyString).
  { pose proof (length_rev_app
                  (JsString.dropWhile JsString.isSpace (String.rev (String c t)))
                  EmptyString) as Hlen.
    fold (String.rev (JsString.dropWhile JsString.isSpace (String.rev (String c t))))
      in Hlen.
    rewrite Er in Hlen. simpl in Hlen.
    destruct (JsString.dropWhile JsString.isSpace (String.rev (String c t)));
      [reflexivity|simpl in Hlen; lia]. }
  unfold String.rev in Hd. simpl in Hd.
  apply dropWhile_rev_app in Hd. simpl in Hd. rewrite Hc in Hd. discriminate.
Qed.

Lemma trim_empty_blank (s : string) :
  JsString.dropWhile JsString.isSpace s = EmptyString ->
  JsString.trim s = EmptyString.
Proof.
  intros H. unfold JsString.trim, JsString.trimStart. now rewrite H.
Qed.

Lemma isSpace_not_bracket (c : ascii) :
  JsString.isSpace c = true -> Ascii.eqb c "[" = false.
Proof.
  intros H. destruct (Ascii.eqb_spec c "[") as [->|]; [discriminate|reflexivity].
Qed.

Lemma blank_no_tags (fuel : nat) :
  forall s, JsString.dropWhile JsString.isSpace s = EmptyString ->
    JsString.matchAllTags_from fuel s = [].
Proof.
  induction fuel as [|fuel IH]; intros s H; [reflexivity|].
  destruct s as [|c t]; [reflexivity|].
  simpl in H. destruct (JsString.isSpace c) eqn:Ec; [|discriminate].
  cbn [JsString.matchAllTags_from JsString.matchTag].
  rewrite (isSpace_not_bracket c Ec). now apply IH.
Qed.

(** ** What is sent to speech synthesis *)

Section SpeechRequests.

Variable Math_random : nat -> Q.

Lemma voiceOf_truthy (voices : gmap string string) (name : string) :
  JsString.truthy (voiceOf voices name) = true.
Proof.
  unfold voiceOf. destruct (voices !! name) as [v|]; [|reflexivity].
  destruct (JsString.truthy v) eqn:E; [exact E|reflexivity].
Qed.

Lemma scanMatch_texts (voices : gmap string string) (ms : list (string * string)) :
  forall acc,
    Forall (fun p => JsString.truthy (part_text p) = true) (fst acc) ->
    Forall (fun p => JsString.truthy (part_text p) = true)
      (fst (foldl (scanMatch voices) acc ms)).
Proof.
  induction ms as [|m ms IH]; intros acc Hacc; [exact Hacc|].
  simpl. apply IH. destruct acc as [parts chars]. unfold scanMatch.
  destruct (JsString.truthy (JsString.trim (JsString.stripMarkup (snd m)))) eqn:E;
    [|exact Hacc].
  simpl. apply Forall_app. split; [exact Hacc|].
  apply Forall_cons. split; [exact E|apply Forall_nil_2].
Qed.




(** Every request made to speech synthesis in a turn has a text that is
    not empty and a voice that is not empty, whatever the story text, the
    voice map and the random draws; and a story gives no request at all
    exactly when it is blank. *)
Theorem speech_requests_never_empty (voices : gmap string string)
    (storyText : string) (k : nat) :
  let parts := fst (deriveDialogue voices storyText) in
  let voices' :=
    fst (assignVoices Math_random voices (snd (deriveDialogue voices storyText)) k) in
  Forall (fun r => JsString.truthy (fst r) = true /\ JsString.truthy (snd r) = true)
    (speechRequests voices' parts)
  /\ (speechRequests voices' parts = []
      <-> JsString.truthy (JsString.trim storyText) = false).
Proof.
  intros parts voices'.
  assert (Hparts : Forall (fun p => JsString.truthy (part_text p) = true) parts).
  { unfold parts, deriveDialogue.
    pose proof (scanMatch_texts voices (JsString.matchAllTags storyText)
                  ([], []) (Forall_nil_2 _)) as H.
    destruct (foldl (scanMatch voices) ([], []) (JsString.matchAllTags storyText))
      as [ps chars].
    destruct (bool_decide (ps = [])); cbn [andb fst]; [|exact H].
    destruct (JsString.truthy (JsString.trim storyText)) eqn:E; [|exact H].
    apply Forall_cons. split; [|apply Forall_nil_2].
    simpl. destruct storyText; [discriminate|reflexivity]. }
  split.
  - unfold speechRequests. apply Forall_fmap.
    eapply Forall_impl; [exact Hparts|].
    intros p Hp. simpl. split; [exact Hp|apply voiceOf_truthy].
  - assert (Hnil : speechRequests voices' parts = [] <-> parts = []).
    { unfold speechRequests. split; [apply fmap_nil_inv|now intros ->]. }
    rewrite Hnil. unfold parts, deriveDialogue. split.
    + intros H.
      destruct (foldl (scanMatch voices) ([], []) (JsString.matchAllTags storyText))
        as [ps chars].
      destruct (JsString.truthy (JsString.trim storyText)); [|reflexivity].
      destruct (bool_decide (ps = [])) eqn:Eb; cbn [andb fst] in H;
        [discriminate|].
      apply bool_decide_eq_false in Eb. contradiction.
    + intros H. apply trim_blank in H.
      unfold JsString.matchAllTags. rewrite blank_no_tags by exact H.
      cbn [foldl]. rewrite (trim_empty_blank _ H). reflexivity.
Qed.


End SpeechRequests.


(** ** Interactive-word markup *)

Lemma append_cons (x : ascii) (a b : string) :
  String x a +:+ b = String x (a +:+ b).
Proof. reflexivity. Qed.

Lemma append_nil_l (b : string) : EmptyString +:+ b = b.
Proof. reflexivity. Qed.

Lemma append_assoc (a b c : string) : (a +:+ b) +:+ c = a +:+ (b +:+ c).
Proof.
  induction a as [|x a IH]; [reflexivity|].
  rewrite !append_cons. f_equal. exact IH.
Qed.

Lemma append_nil_r (a : string) : a +:+ EmptyString = a.
Proof.
  induction a as [|x a IH]; [reflexivity|].
  rewrite append_cons. f_equal. exact IH.
Qed.

Ltac string_cons := rewrite ?append_cons, ?append_nil_l.

Lemma includes_char (c a : ascii) (s : string) :
  JsString.includes (String c EmptyString) (String a s) = false ->
  Ascii.eqb c a = false
  /\ JsString.includes (String c EmptyString) s = false.
Proof.
  cbn [JsString.includes JsString.startsWith]. intros H.
  apply orb_false_iff in H as [H1 H2].
  split; [|exact H2].
  destruct (Ascii.eqb c a); [destruct s; discriminate|reflexivity].
Qed.

Lemma span_until (c : ascii) (x rest : string) :
  JsString.includes (String c EmptyString) x = false ->
  JsString.span (JsString.notChar c) (x +:+ String c rest) = (x, String c rest).
Proof.
  induction x as [|a x IH]; intros H; string_cons.
  - simpl. unfold JsString.notChar. now rewrite Ascii.eqb_refl.
  - apply includes_char in H as [Ha Hx].
    cbn [JsString.span]. unfold JsString.notChar at 1.
    rewrite Ascii.eqb_sym, Ha. cbn [negb]. now rewrite (IH Hx).
Qed.

Lemma span_all (c : ascii) (x : string) :
  JsString.includes (String c EmptyString) x = false ->
  JsString.span (JsString.notChar c) x = (x, EmptyString).
Proof.
  induction x as [|a x IH]; intros H; [reflexivity|].
  apply includes_char in H as [Ha Hx].
  cbn [JsString.span]. unfold JsString.notChar at 1.
  rewrite Ascii.eqb_sym, Ha. cbn [negb]. now rewrite (IH Hx).
Qed.

(** The equations of [replaceMarkup], free of fuel. *)
Lemma replaceMarkup_match f (c : ascii) (t m rest : string) :
  JsString.matchMarkup (String c t) = Some (m, rest) ->
  JsString.replaceMarkup f (String c t) = f m +:+ JsString.replaceMarkup f rest.
Proof.
  intros H. unfold JsString.replaceMarkup.
  cbn [String.length JsString.replaceMarkup_from]. rewrite H. f_equal.
  pose proof (matchMarkup_shorter _ _ _ H) as Hlen. simpl in Hlen.
  apply replaceMarkup_from_enough; lia.
Qed.

Lemma replaceMarkup_skip f (c : ascii) (t : string) :
  JsString.matchMarkup (String c t) = None ->
  JsString.replaceMarkup f (String c t) = String c (JsString.replaceMarkup f t).
Proof.
  intros H. unfold JsString.replaceMarkup.
  cbn [String.length JsString.replaceMarkup_from]. now rewrite H.
Qed.

Lemma replaceMarkup_plain f (pre rest : string) :
  JsString.includes "{" pre = false ->
  JsString.replaceMarkup f (pre +:+ rest) = pre +:+ JsString.replaceMarkup f rest.
Proof.
  induction pre as [|a pre IH]; intros H; [reflexivity|].
  apply includes_char in H as [Ha Hpre].
  string_cons. rewrite replaceMarkup_skip.
  - now rewrite IH.
  - cbn [JsString.matchMarkup]. now rewrite Ascii.eqb_sym, Ha.
Qed.

Lemma matchMarkup_braces (body post : string) :
  body <> EmptyString ->
  JsString.includes "}" body = false ->
  JsString.matchMarkup (String "{" (body +:+ String "}" post))
  = Some (String "{" (body +:+ "}"), post).
Proof.
  intros Hne Hb. cbn [JsString.matchMarkup]. rewrite Ascii.eqb_refl.
  rewrite (span_until "}" body post Hb).
  destruct body as [|r run]; [contradiction|reflexivity].
Qed.

(** In a text, the first piece of markup and what comes before it: the
    text up to the first opening brace is kept as it is; the piece
    [{word|definition}] is replaced by its word for synthesis and by
    nothing for the image prompt; a piece without a bar, [{word}], loses
    its opening brace only; empty braces are no markup and stay.  A text
    without an opening brace is left as it is. *)
Theorem markup_is_replaced_by_its_word (pre word definition post : string) :
  JsString.includes "{" pre = false ->
  JsString.includes "|" word = false ->
  JsString.includes "}" word = false ->
  JsString.includes "}" definition = false ->
  JsString.stripMarkup (pre +:+ "{" +:+ word +:+ "|" +:+ definition +:+ "}" +:+ post)
  = pre +:+ word +:+ JsString.stripMarkup post
  /\ JsString.dropMarkup (pre +:+ "{" +:+ word +:+ "|" +:+ definition +:+ "}" +:+ post)
     = pre +:+ JsString.dropMarkup post
  /\ (word <> EmptyString ->
      JsString.stripMarkup (pre +:+ "{" +:+ word +:+ "}" +:+ post)
      = pre +:+ word +:+ "}" +:+ JsString.stripMarkup post)
  /\ JsString.stripMarkup (pre +:+ "{}" +:+ post)
     = pre +:+ "{}" +:+ JsString.stripMarkup post
  /\ JsString.stripMarkup pre = pre.
Proof.
  intros Hpre Hbar Hw Hd.
  assert (Hbody : JsString.includes "}" (word +:+ String "|" definition) = false).
  { clear Hbar. induction word as [|a w IH]; string_cons.
    - cbn [JsString.includes JsString.startsWith]. rewrite Hd.
      destruct definition; reflexivity.
    - apply includes_char in Hw as [Ha Hw].
      cbn [JsString.includes JsString.startsWith]. rewrite Ha. simpl. now apply IH. }
  assert (Hne : word +:+ String "|" definition <> EmptyString)
    by (destruct word; discriminate).
  pose proof (matchMarkup_braces _ post Hne Hbody) as Hm.
  rewrite !append_assoc in Hm. rewrite !append_cons in Hm.
  split; [|split; [|split; [|split]]].
  - unfold JsString.stripMarkup. rewrite (replaceMarkup_plain _ pre _ Hpre).
    f_equal. string_cons.
    rewrite (replaceMarkup_match _ _ _ _ _ Hm). f_equal.
    unfold JsString.markupWord. cbn [JsString.span].
    unfold JsString.notChar at 1. cbn [Ascii.eqb Bool.eqb negb andb].
    now rewrite (span_until "|" word _ Hbar).
  - unfold JsString.dropMarkup. rewrite (replaceMarkup_plain _ pre _ Hpre).
    f_equal. string_cons.
    now rewrite (replaceMarkup_match _ _ _ _ _ Hm).
  - intros Hwne.
    pose proof (matchMarkup_braces word post Hwne Hw) as Hm'.
    unfold JsString.stripMarkup. rewrite (replaceMarkup_plain _ pre _ Hpre).
    f_equal. string_cons.
    rewrite (replaceMarkup_match _ _ _ _ _ Hm').
    replace (word +:+ String "}" (JsString.replaceMarkup JsString.markupWord post))
      with ((word +:+ "}") +:+ JsString.replaceMarkup JsString.markupWord post)
      by (now rewrite append_assoc).
    f_equal.
    unfold JsString.markupWord. cbn [JsString.span].
    unfold JsString.notChar at 1. cbn [Ascii.eqb Bool.eqb negb andb].
    assert (Hs : JsString.includes "|" (word +:+ "}") = false).
    { clear -Hbar. induction word as [|a w IH]; [reflexivity|].
      apply includes_char in Hbar as [Ha Hbar]. string_cons.
      cbn [JsString.includes JsString.startsWith]. rewrite Ha. simpl. now apply IH. }
    now rewrite (span_all "|" _ Hs).
  - unfold JsString.stripMarkup. rewrite (replaceMarkup_plain _ pre _ Hpre).
    apply (f_equal (String.append pre)). string_cons.
    do 2 (rewrite replaceMarkup_skip by reflexivity). reflexivity.
  - unfold JsString.stripMarkup.
    rewrite <- (append_nil_r pre) at 1.
    rewrite (replaceMarkup_plain _ pre _ Hpre).
    change (JsString.replaceMarkup JsString.markupWord EmptyString) with EmptyString.
    apply append_nil_r.
Qed.

(** An instance: the example text of the system instruction. *)
Lemma markup_is_replaced_by_its_word_witness :
  let pre := "The little bear found a "%string in
  let post := " sparkling cave."%string in
  (JsString.includes "{" pre = false
   /\ JsString.includes "|" "mysterious" = false
   /\ JsString.includes "}" "mysterious" = false
   /\ JsString.includes "}" "meaning strange and interesting" = false)
  /\ JsString.stripMarkup
       (pre +:+ "{" +:+ "mysterious" +:+ "|" +:+ "meaning strange and interesting"
            +:+ "}" +:+ post)
     = pre +:+ "mysterious" +:+ JsString.stripMarkup post.
Proof.
  intros pre post.
  split; [repeat split|].
  exact (proj1 (markup_is_replaced_by_its_word pre "mysterious"
                  "meaning strange and interesting" post
                  eq_refl eq_refl eq_refl eq_refl)).
Defined.

(** ** The image prompt *)

Lemma take_length (n : nat) (s : string) :
  String.length (JsString.take n s) <= n.
Proof.
  revert s. induction n as [|n IH]; intros s; [simpl; lia|].
  destruct s as [|c t]; simpl; [lia|]. specialize (IH t). lia.
Qed.

Lemma take_all (n : nat) (s : string) :
  String.length s <= n -> JsString.take n s = s.
Proof.
  revert s. induction n as [|n IH]; intros s H.
  - destruct s; [reflexivity|simpl in H; lia].
  - destruct s as [|c t]; [reflexivity|]. simpl in *. f_equal. apply IH. lia.
Qed.

Section ImagePrompt.

Variable Math_random : nat -> Q.

(** With [Math.random] returning doubles of its range, the prompt sent
    for the illustration is always complete: an adjective, a style and a
    detail, each the entry of its table at the index that the draw gives,
    the floor of the product as binary64 rounds it, and never missing;
    then the opening of the story, at most 300 characters of it with the
    markup pieces left out.  A story of at most 300 characters without an
    opening brace is quoted whole. *)
Theorem image_prompt_is_complete (k : nat) (storyText : string) :
  (forall j, unitDouble (Math_random j)) ->
  exists adjective style detail,
    imageAdjectives
      !! Z.to_nat (Qfloor (JsNumber.multiply (Math_random k) 12))
    = Some adjective
    /\ imageStyles
         !! Z.to_nat (Qfloor (JsNumber.multiply (Math_random (S k)) 8))
       = Some style
    /\ imageDetails
         !! Z.to_nat (Qfloor (JsNumber.multiply (Math_random (S (S k))) 7))
       = Some detail
    /\ imagePrompt Math_random k storyText
       = "A " +:+ adjective +:+ " " +:+ style +:+ ", " +:+ detail +:+ ", of: "
           +:+ JsString.take 300 (JsString.dropMarkup storyText)
    /\ String.length (JsString.take 300 (JsString.dropMarkup storyText)) <= 300
    /\ (JsString.includes "{" storyText = false ->
        String.length storyText <= 300 ->
        JsString.take 300 (JsString.dropMarkup storyText) = storyText).
Proof.
  intros Hr.
  destruct (getRandomElement_in_range Math_random k imageAdjectives
              (Hr k) ltac:(discriminate))
    as (i1 & adjective & E1 & _ & Hin1 & Hget1).
  destruct (getRandomElement_in_range Math_random (S k) imageStyles
              (Hr (S k)) ltac:(discriminate))
    as (i2 & style & E2 & _ & Hin2 & Hget2).
  destruct (getRandomElement_in_range Math_random (S (S k)) imageDetails
              (Hr (S (S k))) ltac:(discriminate))
    as (i3 & detail & E3 & _ & Hin3 & Hget3).
  exists adjective, style, detail.
  split; [subst i1; exact Hin1|].
  split; [subst i2; exact Hin2|].
  split; [subst i3; exact Hin3|].
  split; [unfold imagePrompt; now rewrite Hget1, Hget2, Hget3|].
  split; [apply take_length|].
  intros Hplain Hlen.
  assert (Hdrop : JsString.dropMarkup storyText = storyText).
  { unfold JsString.dropMarkup.
    rewrite <- (append_nil_r storyText) at 1.
    rewrite (replaceMarkup_plain _ storyText _ Hplain).
    change (JsString.replaceMarkup (fun _ => EmptyString) EmptyString)
      with EmptyString.
    apply append_nil_r. }
  rewrite Hdrop. now apply take_all.
Qed.

End ImagePrompt.

(** An instance: every draw gives 6004799503160661 / 2^54, a double just
    below one third.  Its product with 12 lies half-way between two
    doubles and is rounded to 4, so that the adjective is the one at
    index 4, where the exact product would give index 3. *)
Lemma image_prompt_is_complete_witness :
  let Math_random := fun _ : nat => (6004799503160661 # 18014398509481984)%Q in
  (forall j, unitDouble (Math_random j))
  /\ (Qfloor (Math_random 0%nat * 12) = 3%Z
      /\ Qfloor (JsNumber.multiply (Math_random 0%nat) 12) = 4%Z)
  /\ imagePrompt Math_random 0 "A fox."
     = "A enchanting crayon drawing, featuring cute and lovable characters, of: A fox."%string.
Proof.
  intros Math_random.
  assert (Hr : forall j, unitDouble (Math_random j)).
  { intros j. split; [|split; [discriminate|reflexivity]].
    exists 6004799503160661%Z, (-54)%Z.
    split; [reflexivity|]. split; [lia|reflexivity]. }
  split; [exact Hr|]. split; [split; vm_compute; reflexivity|].
  destruct (image_prompt_is_complete Math_random 0 "A fox." Hr)
    as (adjective & style & detail & H1 & H2 & H3 & Hp & _ & Hq).
  rewrite Hp, (Hq eq_refl) by (simpl; lia).
  assert (E1 : adjective = "enchanting"%string)
    by (apply (inj Some); rewrite <- H1; vm_compute; reflexivity).
  assert (E2 : style = "crayon drawing"%string)
    by (apply (inj Some); rewrite <- H2; vm_compute; reflexivity).
  assert (E3 : detail = "featuring cute and lovable characters"%string)
    by (apply (inj Some); rewrite <- H3; vm_compute; reflexivity).
  subst. reflexivity.
Defined.

(** ** The generation service *)

Section Service.

Variable decodeThrows : string -> bool.
Variable JSON_parse : string -> option JSValue.
Variable Math_random : nat -> Q.

(** Whatever the mood call answers, and when it fails, the keyword that
    [getStoryAmbiance] returns is one of the six moods, and each of them
    has a track of its own in the table: the lookup in [handleSendMessage]
    always finds a track, and it is the calm stream for the keyword calm
    only. *)
Theorem story_ambiance_has_a_track (response : option (option string)) :
  let keyword := getStoryAmbiance JSON_parse response in
  keyword ∈ ambianceKeywords
  /\ ambianceAudioMap !! keyword = Some (ambianceUrlFor keyword)
  /\ (ambianceUrlFor keyword = calmUrl -> keyword = "calm"%string)
  /\ (response = None \/ response = Some None -> keyword = "calm"%string).
Proof.
  intros keyword.
  assert (Hall : forall k, k ∈ ambianceKeywords ->
            ambianceAudioMap !! k = Some (ambianceUrlFor k)
            /\ (ambianceUrlFor k = calmUrl -> k = "calm"%string)).
  { intros k Hk. unfold ambianceKeywords in Hk.
    repeat (apply elem_of_cons in Hk as [->|Hk];
            [split; [vm_compute; reflexivity|]; vm_compute;
             first [reflexivity|discriminate]; intros; reflexivity|]).
    now apply elem_of_nil in Hk. }
  assert (Hcalm : "calm"%string ∈ ambianceKeywords).
  { unfold ambianceKeywords. do 5 (apply elem_of_cons; right).
    apply elem_of_cons. now left. }
  assert (Hin : keyword ∈ ambianceKeywords).
  { unfold keyword, getStoryAmbiance.
    destruct response as [[responseText|]|]; try exact Hcalm.
    destruct (JSON_parse responseText) as [parsed|]; [|exact Hcalm].
    destruct (getProp parsed "ambiance") as [[| | | |a| |]|]; try exact Hcalm.
    case_bool_decide as Ha; [exact Ha|exact Hcalm]. }
  split; [exact Hin|]. destruct (Hall keyword Hin) as [H1 H2].
  split; [exact H1|]. split; [exact H2|].
  intros [->| ->]; reflexivity.
Qed.

Lemma textToSpeech_truthy (response : option (option string)) (audio : string) :
  textToSpeech response = Some audio -> JsString.truthy audio = true.
Proof.
  unfold textToSpeech. destruct response as [[base64Audio|]|]; try discriminate.
  destruct (JsString.truthy base64Audio) eqn:E; [|discriminate].
  now intros [= <-].
Qed.

Lemma mapM_Forall {A B} (f : A -> option B) (P : B -> Prop) (l : list A)
    (k : list B) :
  (forall x y, f x = Some y -> P y) -> mapM f l = Some k -> Forall P k.
Proof.
  intros Hf. revert k. induction l as [|x l IH]; intros k H.
  - simpl in H. injection H as <-. apply Forall_nil_2.
  - apply mapM_Some in H. apply Forall2_cons_inv_l in H as (y & k' & Hy & Hl & ->).
    apply Forall_cons. split; [now apply (Hf x)|].
    apply IH. now apply mapM_Some.
Qed.

(** The payloads that the speech calls of a turn resolve with are never
    empty, so handed to [playNarrationSequence] on a running context, and
    provided each of them decodes, they play in full and in order: the
    drain never meets an empty item, which would stop it. *)
Theorem speech_of_a_turn_plays_in_full (responses : nat -> option (option string))
    (count : nat) (audioData : list string) (n : Narration) (notify : bool) :
  collectSpeech (fun i => textToSpeech (responses i)) count = Some audioData ->
  narrationAudioContext n = Some running ->
  Forall (fun x => decodeThrows x = false) audioData ->
  let n1 := fst (playNarrationSequence decodeThrows notify audioData n) in
  let n2 := narrationRun decodeThrows
              (playThrough (nextNarrationTask n) (length (started n))
                 (length audioData)) n1 in
  length audioData = count
  /\ Forall (fun x => JsString.truthy x = true) audioData
  /\ started n2 = started n ++ sourcesOf (S (narrationVersion n)) audioData
  /\ narrationQueue n2 = [].
Proof.
  intros Hs Hc Hd n1 n2.
  assert (Ht : Forall (fun x => JsString.truthy x = true) audioData).
  { unfold collectSpeech in Hs.
    apply (mapM_Forall _ _ _ _ (fun i y => textToSpeech_truthy (responses i) y) Hs). }
  assert (Hlen : length audioData = count).
  { unfold collectSpeech in Hs. apply length_mapM in Hs.
    rewrite length_seq in Hs. now symmetry. }
  split; [exact Hlen|]. split; [exact Ht|].
  assert (Hok : Forall (fun x => JsString.truthy x = true /\ decodeThrows x = false)
                  audioData).
  { rewrite Forall_forall in *. intros x Hx. split; [now apply Ht|now apply Hd]. }
  unfold n2, n1, playNarrationSequence. rewrite stopNarration_eq.
  set (m := set_narrationQueue audioData
              (set_isPlayingNarration false
                 (set_currentNarrationSource None
                    (set_narrationQueue []
                       (set_narrationVersion (S (narrationVersion n)) n))))).
  assert (Hidle : idleWith audioData m).
  { unfold idleWith, m. simpl. repeat split. exact Hc. }
  destruct (playThrough_from decodeThrows audioData m notify Hidle Hok)
    as (H1 & (_ & H3 & _) & _).
  split; [exact H1|exact H3].
Qed.

End Service.

(** An instance: two speech calls that resolve, on a running context. *)
Lemma speech_of_a_turn_plays_in_full_witness :
  let dec := fun _ : string => false in
  let responses := fun i : nat =>
    Some (Some (if (i =? 0)%nat then "one"%string else "two"%string)) in
  let n := set_narrationAudioContext (Some running) (initialNarration None) in
  collectSpeech (fun i => textToSpeech (responses i)) 2 = Some ["one"; "two"]%string
  /\ narrationAudioContext n = Some running
  /\ Forall (fun x => dec x = false) ["one"; "two"]%string
  /\ started (narrationRun dec (playThrough 0 0 2)
                (fst (playNarrationSequence dec true ["one"; "two"]%string n)))
     = sourcesOf 1 ["one"; "two"]%string.
Proof.
  intros dec responses n.
  assert (H1 : collectSpeech (fun i => textToSpeech (responses i)) 2
               = Some ["one"; "two"]%string) by reflexivity.
  assert (H2 : narrationAudioContext n = Some running) by reflexivity.
  assert (H3 : Forall (fun x => dec x = false) ["one"; "two"]%string).
  { repeat (apply Forall_cons; split; [reflexivity|]). apply Forall_nil_2. }
  split; [exact H1|]. split; [exact H2|]. split; [exact H3|].
  exact (proj1 (proj2 (proj2
    (speech_of_a_turn_plays_in_full dec responses 2 _ n true H1 H2 H3)))).
Defined.

(** ** A turn and its media calls *)

Section MediaFailures.

Variable decodeThrows : string -> bool.
Variable JSON_parse : string -> option JSValue.
Variable Math_random : nat -> Q.

Lemma generateIllustration_truthy (response : option (option (list Part))) :
  JsString.truthy (generateIllustration response) = true.
Proof.
  unfold generateIllustration.
  destruct response as [[parts|]|]; try reflexivity.
  destruct (List.find _ parts) as [[[inlineData|]]|]; reflexivity.
Qed.

(** After the commit of a turn the share flag is the one of the committed
    snapshot. *)
Lemma onAllSettled_shareable (s : App) (tid : nat) (t : TurnTask)
    finalChatHistory newChoices storyText prompt requests
    (newImageUrl ambianceKeyword : string) (speech : nat -> option string)
    (audioData : list string) :
  turns s !! tid = Some t ->
  turn_await t = awaitAll finalChatHistory newChoices storyText prompt requests ->
  collectSpeech speech (length requests) = Some audioData ->
  isShareable (onAllSettled decodeThrows tid newImageUrl ambianceKeyword speech s)
  = storyHasBegun finalChatHistory (Some newImageUrl).
Proof.
  intros Hl Ha Hs. unfold onAllSettled. rewrite Hl, Ha, Hs.
  set (newState := {| StoryState.chatHistory := finalChatHistory;
                      StoryState.imageUrl := Some newImageUrl;
                      StoryState.choices := newChoices |}).
  pose proof (commit_current (turn_history t) (turn_historyIndex t) newState) as Hcur.
  destruct (History.commit (turn_history t) (turn_historyIndex t) newState)
    as [history' historyIndex'] eqn:Ec.
  unfold currentSnapshot in Hcur. cbn [fst snd] in Hcur.
  unfold playNarrationSequence, syncShareable, syncWithHistory.
  destruct s as [chat0 img0 load0 ch0 share0 mute0 voices0 hist0 idx0 sess0
                 welcome0 n0 amb0 turns0 next0 rnd0].
  cbn [narration set_ambiance set_history set_historyIndex set_turns isLoading].
  destruct (processNarrationQueue decodeThrows true
              (set_narrationQueue audioData (stopNarration n0)))
    as [n returned].
  destruct returned; simpl; rewrite Hcur; reflexivity.
Qed.

(** The illustration call and the mood call cannot fail a turn.
    Whatever they answer, and when they reject, a turn whose generation
    call and speech calls resolve commits its snapshot; the picture of the
    snapshot is the generated one or else the placeholder, never an empty
    address, and with the placeholder the story can be shared all the
    same. *)
Theorem media_failures_never_fail_a_turn (s : App)
    (userInput responseText : string)
    (illustration : option (option (list Part)))
    (mood : option (option string))
    (speech : nat -> option string) (audioData : list string) :
  JsString.truthy (JsString.trim userInput) = true ->
  isLoading s = false -> chatSession s = true ->
  let storyText := fst (parseResponse JSON_parse responseText) in
  collectSpeech speech
    (length (fst (deriveDialogue (characterVoices s) storyText))) = Some audioData ->
  let newImageUrl := generateIllustration illustration in
  let s3 :=
    appRun decodeThrows JSON_parse Math_random
      [sendMessage userInput;
       generationSettled (nextTurn s) (Some (Some responseText));
       allSettled (S (nextTurn s)) newImageUrl (getStoryAmbiance JSON_parse mood)
         speech] s in
  logOf s3
  = History.commit (history s) (historyIndex s)
      {| StoryState.chatHistory :=
           turnChat s userInput ++ [{| author := MODEL; text := storyText |}];
         StoryState.imageUrl := Some newImageUrl;
         StoryState.choices := snd (parseResponse JSON_parse responseText) |}
  /\ imageUrl s3 = Some newImageUrl
  /\ JsString.truthy newImageUrl = true
  /\ (illustration = None \/ illustration = Some None \/ illustration = Some (Some []) ->
      imageUrl s3 = Some placeholderImage /\ isShareable s3 = true).
Proof.
  intros Hu Hload Hsess storyText Hsome newImageUrl s3.
  destruct (handleSendMessage_accepted s userInput Hu Hload Hsess)
    as (Ht1 & Hn1 & _).
  destruct (onGenerationSettled_text JSON_parse Math_random _ _ _ responseText
              Ht1 eq_refl) as (Ht2 & _).
  cbn [turn_history turn_historyIndex turn_characterVoices turn_isAmbianceMuted
       turn_userInput turn_newChatHistory] in Ht2.
  rewrite Hn1 in Ht2. fold storyText in Ht2.
  assert (Hs : collectSpeech speech
             (length (speechRequests
                (fst (assignVoices Math_random (characterVoices s)
                        (snd (deriveDialogue (characterVoices s) storyText))
                        (3 + randomCalls (handleSendMessage userInput s))))
                (fst (deriveDialogue (characterVoices s) storyText))))
             = Some audioData).
  { rewrite length_speechRequests. exact Hsome. }
  destruct (onAllSettled_committed decodeThrows _ _ _ _ _ _ _ _
              newImageUrl (getStoryAmbiance JSON_parse mood) speech audioData
              Ht2 eq_refl Hs) as (H1 & _ & H3 & _).
  pose proof (onAllSettled_shareable _ _ _ _ _ _ _ _
                newImageUrl (getStoryAmbiance JSON_parse mood) speech audioData
                Ht2 eq_refl Hs) as H5.
  cbn [turn_history turn_historyIndex] in H1.
  unfold s3, appRun. cbn [foldl appStep].
  split; [exact H1|]. split; [exact H3|].
  split; [apply generateIllustration_truthy|].
  intros Hfail.
  assert (E : newImageUrl = placeholderImage).
  { unfold newImageUrl. destruct Hfail as [->|[->| ->]]; reflexivity. }
  split; [rewrite H3; now rewrite E|].
  rewrite H5, E. unfold storyHasBegun.
  replace (1 <? length (turnChat s userInput
                          ++ [{| author := MODEL; text := storyText |}]))
    with true; [reflexivity|].
  symmetry. apply Nat.ltb_lt. unfold turnChat. rewrite !length_app. simpl. lia.
Qed.

End MediaFailures.

(** An instance: the first turn of a session, with an illustration call
    and a mood call that both reject. *)
Lemma media_failures_never_fail_a_turn_witness :
  let dec := fun _ : string => false in
  let rnd := fun _ : nat => 0%Q in
  let s := initialApp (Some running) (Some running) in
  let speech := fun _ : nat => Some "AUD"%string in
  let s3 := appRun dec parseGoOn rnd
              [sendMessage "hi"; generationSettled 0 (Some (Some "Once."%string));
               allSettled 1 (generateIllustration None)
                 (getStoryAmbiance parseGoOn None) speech] s in
  (JsString.truthy (JsString.trim "hi") = true
   /\ isLoading s = false /\ chatSession s = true)
  /\ collectSpeech speech
       (length (fst (deriveDialogue (characterVoices s)
                       (fst (parseResponse parseGoOn "Once.")))))
     = Some ["AUD"%string]
  /\ imageUrl s3 = Some placeholderImage
  /\ isShareable s3 = true.
Proof.
  intros dec rnd s speech s3.
  assert (Hu : JsString.truthy (JsString.trim "hi") = true) by reflexivity.
  assert (Hl : isLoading s = false) by reflexivity.
  assert (Hc : chatSession s = true) by reflexivity.
  assert (Hs : collectSpeech speech
                 (length (fst (deriveDialogue (characterVoices s)
                                 (fst (parseResponse parseGoOn "Once.")))))
               = Some ["AUD"%string]) by (vm_compute; reflexivity).
  split; [repeat split|]. split; [exact Hs|].
  exact (proj2 (proj2 (proj2
    (media_failures_never_fail_a_turn dec parseGoOn rnd s "hi" "Once." None None
       speech ["AUD"%string] Hu Hl Hc Hs))) (or_introl eq_refl)).
Defined.

(** ** One turn at a time *)

Section OneTurn.

Variable decodeThrows : string -> bool.
Variable JSON_parse : string -> option JSValue.
Variable Math_random : nat -> Q.

Lemma noneAwaited_one n : noneAwaited n -> oneAwaited n.
Proof.
  intros H tid1 t1 tid2 t2 H1 Hn1 _ _. rewrite (H tid1 t1 H1) in Hn1. discriminate.
Qed.

Lemma noneAwaited_sub (n n' : Narration) :
  noneAwaited n ->
  (forall tid t, narrationTasks n' !! tid = Some t ->
                 narrationTasks n !! tid = Some t \/ task_notify t = false) ->
  noneAwaited n'.
Proof.
  intros H Hsub tid t Hl. destruct (Hsub tid t Hl) as [Hold|Hf]; [|exact Hf].
  exact (H tid t Hold).
Qed.

Lemma oneAwaited_sub (n n' : Narration) :
  oneAwaited n ->
  (forall tid t, narrationTasks n' !! tid = Some t ->
                 narrationTasks n !! tid = Some t \/ task_notify t = false) ->
  oneAwaited n'.
Proof.
  intros H Hsub tid1 t1 tid2 t2 H1 Hn1 H2 Hn2.
  destruct (Hsub tid1 t1 H1) as [Ho1|Hf]; [|congruence].
  destruct (Hsub tid2 t2 H2) as [Ho2|Hf]; [|congruence].
  exact (H tid1 t1 tid2 t2 Ho1 Hn1 Ho2 Hn2).
Qed.

(** What one call of [processNarrationQueue] does to the awaited
    invocations: when it returns [true] it has parked none that is
    awaited; when it is not awaited itself it parks none that is. *)
Lemma drained_tasks (notify r : bool) (n n' : Narration) :
  drainedFrom notify n n' r ->
  (forall tid t, narrationTasks n' !! tid = Some t ->
                 narrationTasks n !! tid = Some t
                 \/ (task_notify t = false /\ (notify = true -> r = true))
                 \/ (task_notify t = notify /\ r = false
                     /\ forall tid' t', narrationTasks n' !! tid' = Some t' ->
                          tid' = tid \/ narrationTasks n !! tid' = Some t'))
  /\ (r = true -> notify = true).
Proof.
  intros (_ & _ & _ & _ & _ & Htasks).
  destruct Htasks as [(Htk & _ & Hr)|(t0 & Htk & _ & _ & _ & Hn)].
  - split; [|intros ->; now symmetry].
    intros tid t Hl. left. now rewrite Htk in Hl.
  - split.
    + intros tid t Hl. rewrite Htk in Hl.
      destruct (decide (tid = nextNarrationTask n)) as [->|Hne].
      * rewrite lookup_insert_eq in Hl. injection Hl as <-.
        destruct Hn as [[Hr Hn]|[Hr Hn]].
        -- right. right. split; [exact Hn|]. split; [exact Hr|].
           intros tid' t' Hl'. rewrite Htk in Hl'.
           destruct (decide (tid' = nextNarrationTask n)) as [->|Hne'];
             [now left|].
           right. now rewrite lookup_insert_ne in Hl' by congruence.
        -- right. left. split; [exact Hn|]. intros ->. exact Hr.
      * left. now rewrite lookup_insert_ne in Hl by congruence.
    + intros ->. destruct Hn as [[Hr _]|[Hr _]]; [discriminate|now symmetry].
Qed.

Lemma noneAwaited_drained (r : bool) (n n' : Narration) :
  drainedFrom false n n' r -> noneAwaited n -> noneAwaited n' /\ r = false.
Proof.
  intros Hd Hn. destruct (drained_tasks _ _ _ _ Hd) as [Ht Hr].
  split.
  - intros tid t Hl. destruct (Ht tid t Hl) as [Ho|[[Hf _]|[Hf _]]];
      [exact (Hn tid t Ho)|exact Hf|exact Hf].
  - destruct r; [|reflexivity]. now specialize (Hr eq_refl).
Qed.

Lemma oneAwaited_drained (r : bool) (n n' : Narration) :
  drainedFrom false n n' r -> oneAwaited n -> oneAwaited n'.
Proof.
  intros Hd Hn. destruct (drained_tasks _ _ _ _ Hd) as [Ht _].
  apply (oneAwaited_sub n); [exact Hn|].
  intros tid t Hl. destruct (Ht tid t Hl) as [Ho|[[Hf _]|[Hf _]]];
    [now left|now right|now right].
Qed.

Lemma processNext_awaited (n : Narration) :
  (noneAwaited n -> noneAwaited (processNext decodeThrows n))
  /\ (oneAwaited n -> oneAwaited (processNext decodeThrows n)).
Proof.
  split; intros H.
  - exact (proj1 (noneAwaited_drained _ _ _ (processNext_drained decodeThrows n) H)).
  - exact (oneAwaited_drained _ _ _ (processNext_drained decodeThrows n) H).
Qed.

Lemma failedChunk_awaited v (n : Narration) :
  (noneAwaited n -> noneAwaited (failedChunk (processNext decodeThrows) v n))
  /\ (oneAwaited n -> oneAwaited (failedChunk (processNext decodeThrows) v n)).
Proof.
  unfold failedChunk.
  destruct (v =? narrationVersion (set_isPlayingNarration false n)).
  - apply (processNext_awaited (set_isPlayingNarration false n)).
  - split; intros H; exact H.
Qed.

(** An invocation taken out of the suspended ones, and what becomes of
    the turn that awaits it: with [decodeChunk] the awaiting either ends
    with the boolean of the result or moves to the invocation parked for
    the decode. *)
Lemma decodeChunk_awaited v audio (notify : bool) (n : Narration) :
  let r := decodeChunk decodeThrows (processNext decodeThrows) v audio notify n in
  (noneAwaited n -> notify = false -> noneAwaited (fst r) /\ snd r = false)
  /\ (noneAwaited n -> notify = true ->
      (snd r = true /\ noneAwaited (fst r))
      \/ (snd r = false /\ oneAwaited (fst r)))
  /\ (oneAwaited n -> notify = false -> oneAwaited (fst r) /\ snd r = false).
Proof.
  unfold decodeChunk.
  destruct (negb (v =? narrationVersion n)); cbn [fst snd].
  { split; [|split].
    - intros H ->. now split.
    - intros H ->. left. now split.
    - intros H ->. now split. }
  destruct (decodeThrows audio); cbn [fst snd].
  { destruct (failedChunk_awaited v n) as [F1 F2]. split; [|split].
    - intros H ->. split; [now apply F1|reflexivity].
    - intros H ->. left. split; [reflexivity|now apply F1].
    - intros H ->. split; [now apply F2|reflexivity]. }
  split; [|split].
  - intros H ->. split; [|reflexivity].
    intros tid t Hl. simpl in Hl.
    destruct (decide (tid = nextNarrationTask n)) as [->|Hne].
    + rewrite lookup_insert_eq in Hl. now injection Hl as <-.
    + rewrite lookup_insert_ne in Hl by congruence. exact (H tid t Hl).
  - intros H ->. right. split; [reflexivity|].
    intros tid1 t1 tid2 t2 H1 Hn1 H2 Hn2. simpl in H1, H2.
    destruct (decide (tid1 = nextNarrationTask n)) as [->|Hne1];
      destruct (decide (tid2 = nextNarrationTask n)) as [->|Hne2];
      try reflexivity.
    + rewrite lookup_insert_ne in H2 by congruence.
      rewrite (H tid2 t2 H2) in Hn2. discriminate.
    + rewrite lookup_insert_ne in H1 by congruence.
      rewrite (H tid1 t1 H1) in Hn1. discriminate.
    + rewrite lookup_insert_ne in H1 by congruence.
      rewrite (H tid1 t1 H1) in Hn1. discriminate.
  - intros H ->. split; [|reflexivity].
    apply (oneAwaited_sub n); [exact H|].
    intros tid t Hl. simpl in Hl.
    destruct (decide (tid = nextNarrationTask n)) as [->|Hne].
    + rewrite lookup_insert_eq in Hl. injection Hl as <-. now right.
    + rewrite lookup_insert_ne in Hl by congruence. now left.
Qed.

Lemma wake_awaited tid t (n : Narration) :
  narrationTasks n !! tid = Some t ->
  (noneAwaited n -> noneAwaited (wake tid n) /\ task_notify t = false)
  /\ (oneAwaited n ->
      oneAwaited (wake tid n)
      /\ (task_notify t = true -> noneAwaited (wake tid n))).
Proof.
  intros Hl. split.
  - intros H. split; [|exact (H tid t Hl)].
    intros tid' t' Hl'. simpl in Hl'. apply lookup_delete_Some in Hl' as [_ Hl'].
    exact (H tid' t' Hl').
  - intros H. split.
    + apply (oneAwaited_sub n); [exact H|].
      intros tid' t' Hl'. simpl in Hl'. apply lookup_delete_Some in Hl' as [_ Hl'].
      now left.
    + intros Hn tid' t' Hl'. simpl in Hl'.
      apply lookup_delete_Some in Hl' as [Hne Hl'].
      destruct (task_notify t') eqn:E; [|reflexivity].
      elim Hne. exact (H tid t tid' t' Hl Hn Hl' E).
Qed.

Lemma same_tasks_awaited (n n' : Narration) :
  narrationTasks n' = narrationTasks n ->
  (noneAwaited n -> noneAwaited n') /\ (oneAwaited n -> oneAwaited n').
Proof.
  intros E. unfold noneAwaited, oneAwaited. rewrite E. split; intros H; exact H.
Qed.

(** Every event of the player keeps at most one invocation awaited, and
    when its result is [true] the awaited one is gone; with none awaited
    its result is [false] and none is awaited afterwards. *)
Lemma narrationStep_awaited (e : NarrationEvent) (n : Narration) :
  let r := narrationStep decodeThrows e n in
  (noneAwaited n -> noneAwaited (fst r) /\ snd r = false)
  /\ (oneAwaited n ->
      oneAwaited (fst r) /\ (snd r = true -> noneAwaited (fst r))).
Proof.
  destruct e as [tid ok|tid decoded startable|sid|s|f]; cbn [narrationStep].
  - unfold onResumeSettled.
    destruct (narrationTasks n !! tid) as [t|] eqn:El;
      [|split; intros H; split; [exact H|reflexivity|exact H|discriminate]].
    destruct (task_await t);
      [|split; intros H; split; [exact H|reflexivity|exact H|discriminate]].
    destruct (wake_awaited tid t n El) as [W1 W2].
    set (m := match narrationAudioContext (wake tid n) with
              | Some _ => set_narrationAudioContext (Some running) (wake tid n)
              | None => wake tid n
              end).
    assert (Em : narrationTasks m = narrationTasks (wake tid n))
      by (unfold m; destruct (narrationAudioContext (wake tid n)); reflexivity).
    destruct (same_tasks_awaited (wake tid n) m Em) as [M1 M2].
    destruct (decodeChunk_awaited (task_version t) (task_audio t) (task_notify t) m)
      as (D1 & D2 & D3).
    split.
    + intros H. destruct (W1 H) as [Hw Hn].
      destruct ok; cbn [fst snd]; [|now split].
      now apply D1; [apply M1|].
    + intros H. destruct (W2 H) as [Hw Hnone].
      destruct ok; cbn [fst snd].
      * destruct (task_notify t) eqn:En.
        -- destruct (D2 (M1 (Hnone eq_refl)) eq_refl) as [[Hr Hq]|[Hr Hq]].
           ++ split; [now apply noneAwaited_one|intros _; exact Hq].
           ++ split; [exact Hq|intros Hr'; congruence].
        -- destruct (D3 (M2 Hw) eq_refl) as [Hq Hr].
           split; [exact Hq|intros Hr'; congruence].
      * split; [exact Hw|]. intros Hr. now apply Hnone.
  - unfold onDecodeSettled.
    destruct (narrationTasks n !! tid) as [t|] eqn:El;
      [|split; intros H; split; [exact H|reflexivity|exact H|discriminate]].
    destruct (task_await t);
      [split; intros H; split; [exact H|reflexivity|exact H|discriminate]|].
    destruct (wake_awaited tid t n El) as [W1 W2].
    destruct (failedChunk_awaited (task_version t) (wake tid n)) as [F1 F2].
    assert (G : forall m : Narration,
               (noneAwaited (wake tid n) -> noneAwaited m) ->
               (oneAwaited (wake tid n) -> oneAwaited m) ->
               (noneAwaited n -> noneAwaited m /\ task_notify t = false)
               /\ (oneAwaited n ->
                   oneAwaited m /\ (task_notify t = true -> noneAwaited m))).
    { intros m G1 G2. split.
      - intros H. destruct (W1 H) as [Hw Hn]. split; [now apply G1|exact Hn].
      - intros H. destruct (W2 H) as [Hw Hnone].
        split; [now apply G2|]. intros Hn. apply G1. now apply Hnone. }
    destruct decoded; cbn [negb fst snd]; [|now apply G].
    destruct (negb (task_version t =? narrationVersion (wake tid n)));
      cbn [fst snd]; [now apply G|].
    destruct startable; cbn [negb fst snd]; [|now apply G].
    apply G; intros H; exact H.
  - cbn [fst snd]. unfold onSourceEnded.
    destruct (bool_decide (sid ∈ pendingEnded n));
      [|split; intros H; split; [exact H|reflexivity|exact H|discriminate]].
    destruct (started n !! sid) as [src|];
      [|split; intros H; split; [exact H|reflexivity|exact H|discriminate]].
    set (m := if bool_decide
                   (currentNarrationSource
                      (set_isPlayingNarration false (retire sid n)) = Some sid)
              then set_currentNarrationSource None
                     (set_isPlayingNarration false (retire sid n))
              else set_isPlayingNarration false (retire sid n)).
    assert (Em : narrationTasks m = narrationTasks n)
      by (unfold m; destruct (bool_decide _); reflexivity).
    destruct (same_tasks_awaited n m Em) as [M1 M2].
    destruct (processNext_awaited m) as [P1 P2].
    destruct (src_version src =? narrationVersion m).
    + split; intros H; split;
        [now apply P1, M1|reflexivity|now apply P2, M2|discriminate].
    + split; intros H; split;
        [now apply M1|reflexivity|now apply M2|discriminate].
  - cbn [fst snd].
    assert (Em : narrationTasks
                   (match narrationAudioContext n with
                    | Some _ => set_narrationAudioContext (Some s) n
                    | None => n
                    end) = narrationTasks n)
      by (destruct (narrationAudioContext n); reflexivity).
    destruct (same_tasks_awaited n _ Em) as [M1 M2].
    split; intros H; split;
      [now apply M1|reflexivity|now apply M2|discriminate].
  - cbn [fst snd].
    split; intros H; split; [exact H|reflexivity|exact H|discriminate].
Qed.

Lemma oneTurn_frame (s s' : App) :
  oneTurn s -> isLoading s' = isLoading s -> turns s' = turns s ->
  narrationTasks (narration s') = narrationTasks (narration s) -> oneTurn s'.
Proof.
  intros (L1 & L2 & L3 & L4) E1 E2 E3.
  destruct (same_tasks_awaited (narration s) (narration s') E3) as [M1 M2].
  unfold oneTurn. rewrite E1, E2.
  split; [|split; [|split]].
  - intros H. destruct (L1 H) as [H1 H2]. split; [exact H1|now apply M1].
  - exact L2.
  - intros tid t Hl. apply M1. exact (L3 tid t Hl).
  - now apply M2.
Qed.

Lemma only_turn (s : App) (tid : nat) (t : TurnTask) :
  oneTurn s -> turns s !! tid = Some t ->
  forall tid', delete tid (turns s) !! tid' = None.
Proof.
  intros (_ & L2 & _) Hl tid'.
  destruct (decide (tid' = tid)) as [->|Hne]; [apply lookup_delete_eq|].
  rewrite lookup_delete_ne by congruence.
  destruct (turns s !! tid') as [t'|] eqn:E; [|reflexivity].
  elim Hne. exact (L2 tid' t' tid t E Hl).
Qed.

Lemma oneTurn_failed (s : App) (tid : nat) (t : TurnTask) :
  oneTurn s -> turns s !! tid = Some t ->
  oneTurn (turnFailed (set_turns (delete tid (turns s)) s)).
Proof.
  intros H Hl. pose proof (only_turn s tid t H Hl) as Hnone.
  destruct H as (L1 & L2 & L3 & L4).
  pose proof (L3 tid t Hl) as Hq.
  assert (E1 : turns (turnFailed (set_turns (delete tid (turns s)) s))
               = delete tid (turns s)) by (destruct s; reflexivity).
  assert (E2 : narration (turnFailed (set_turns (delete tid (turns s)) s))
               = narration s) by (destruct s; reflexivity).
  unfold oneTurn. rewrite E1, E2.
  split; [|split; [|split]].
  - intros _. split; [exact Hnone|exact Hq].
  - intros tid1 t1 tid2 t2 H1. now rewrite Hnone in H1.
  - intros tid1 t1 H1. now rewrite Hnone in H1.
  - exact L4.
Qed.

Lemma oneTurn_respawn (s s' : App) (tid k : nat) (t t' : TurnTask) :
  oneTurn s -> turns s !! tid = Some t ->
  isLoading s' = isLoading s ->
  turns s' = <[k := t']> (delete tid (turns s)) ->
  narration s' = narration s -> oneTurn s'.
Proof.
  intros H Hl E1 E2 E3. pose proof (only_turn s tid t H Hl) as Hnone.
  destruct H as (L1 & L2 & L3 & L4).
  pose proof (L3 tid t Hl) as Hq.
  assert (Hk : forall i x, turns s' !! i = Some x -> i = k).
  { intros i x Hi. rewrite E2 in Hi.
    destruct (decide (i = k)) as [->|Hne]; [reflexivity|].
    rewrite lookup_insert_ne in Hi by congruence. now rewrite Hnone in Hi. }
  unfold oneTurn. rewrite E1, E3.
  split; [|split; [|split]].
  - intros Hf. destruct (L1 Hf) as [H1 _]. now rewrite H1 in Hl.
  - intros tid1 t1 tid2 t2 H1 H2. rewrite (Hk _ _ H1), (Hk _ _ H2). reflexivity.
  - intros tid1 t1 _. exact Hq.
  - exact L4.
Qed.

(** Every event keeps at most one turn in flight. *)
Lemma oneTurn_step (e : AppEvent) (s : App) :
  oneTurn s -> oneTurn (appStep decodeThrows JSON_parse Math_random e s).
Proof.
  intros H. pose proof H as (L1 & L2 & L3 & L4).
  destruct e as [userInput| | | |audio|tid response|tid img mood speech|e|e];
    cbn [appStep].
  - (* sendMessage *)
    unfold handleSendMessage.
    destruct (negb (JsString.truthy (JsString.trim userInput))); [exact H|].
    destruct (isLoading s) eqn:El; [exact H|].
    destruct (negb (chatSession s)); [exact H|]. cbn [orb].
    destruct (L1 eq_refl) as [Hnone Hq].
    destruct (stopNarration_fields (narration s)) as (_ & _ & Htk & _).
    destruct (same_tasks_awaited _ _ Htk) as [M1 _].
    set (s' := syncShareable _).
    assert (E2 : exists t', turns s' = <[nextTurn s := t']> (turns s))
      by (eexists; unfold s'; destruct s; reflexivity).
    assert (E3 : narration s' = stopNarration (narration s))
      by (unfold s'; destruct s; reflexivity).
    assert (E1 : isLoading s' = true) by (unfold s'; destruct s; reflexivity).
    destruct E2 as [t' E2].
    assert (Hk : forall i x, turns s' !! i = Some x -> i = nextTurn s).
    { intros i x Hi. rewrite E2 in Hi.
      destruct (decide (i = nextTurn s)) as [->|Hne]; [reflexivity|].
      rewrite lookup_insert_ne in Hi by congruence. now rewrite Hnone in Hi. }
    unfold oneTurn. rewrite E1, E3.
    split; [|split; [|split]].
    + discriminate.
    + intros tid1 t1 tid2 t2 H1 H2. rewrite (Hk _ _ H1), (Hk _ _ H2). reflexivity.
    + intros tid1 t1 _. now apply M1.
    + now apply noneAwaited_one, M1.
  - (* undo *)
    unfold handleUndo. destruct (History.canUndo (historyIndex s)); [|exact H].
    destruct (syncWithHistory_frame (set_historyIndex (historyIndex s - 1) s))
      as [(_ & _ & H3 & _ & H5 & _ & _ & _ & H9 & _) _].
    apply (oneTurn_frame s); [exact H|exact H5|exact H9|now rewrite H3].
  - (* redo *)
    unfold handleRedo.
    destruct (History.canRedo (history s) (historyIndex s)); [|exact H].
    destruct (syncWithHistory_frame (set_historyIndex (historyIndex s + 1) s))
      as [(_ & _ & H3 & _ & H5 & _ & _ & _ & H9 & _) _].
    apply (oneTurn_frame s); [exact H|exact H5|exact H9|now rewrite H3].
  - (* mute *)
    apply (oneTurn_frame s); [exact H|destruct s; reflexivity..].
  - (* welcome speech *)
    unfold onWelcomeSpeechSettled.
    destruct audio as [audioData|];
      [|apply (oneTurn_frame s); [exact H|destruct s; reflexivity..]].
    destruct (negb (welcomeAudioHandled s)); [|exact H].
    unfold playNarration.
    set (m := set_narrationQueue [audioData] (stopNarration (narration s))).
    pose proof (processNarrationQueue_drained decodeThrows false m) as Hd.
    assert (Em : narrationTasks m = narrationTasks (narration s)).
    { unfold m. destruct (stopNarration_fields (narration s)) as (_ & _ & Htk & _).
      exact Htk. }
    destruct (same_tasks_awaited _ _ Em) as [M1 M2].
    set (s' := set_narration _ _).
    assert (E1 : isLoading s' = isLoading s) by (destruct s; reflexivity).
    assert (E2 : turns s' = turns s) by (destruct s; reflexivity).
    assert (E3 : narration s' = fst (processNarrationQueue decodeThrows false m))
      by (destruct s; reflexivity).
    unfold oneTurn. rewrite E1, E2, E3.
    split; [|split; [|split]].
    + intros Hf. destruct (L1 Hf) as [H1 H2]. split; [exact H1|].
      exact (proj1 (noneAwaited_drained _ _ _ Hd (M1 H2))).
    + exact L2.
    + intros tid t Hl.
      exact (proj1 (noneAwaited_drained _ _ _ Hd (M1 (L3 tid t Hl)))).
    + exact (oneAwaited_drained _ _ _ Hd (M2 L4)).
  - (* generation *)
    unfold onGenerationSettled.
    destruct (turns s !! tid) as [t|] eqn:El; [|exact H].
    destruct (turn_await t) eqn:Ea; [|exact H].
    destruct response as [[responseText|]|].
    + destruct (parseResponse JSON_parse responseText) as [storyText newChoices].
      destruct (deriveDialogue (turn_characterVoices t) storyText)
        as [dialogueParts unassignedChars].
      destruct (assignVoices Math_random (turn_characterVoices t) unassignedChars _)
        as [newCharacterVoices k'].
      eapply (oneTurn_respawn s _ tid (nextTurn s) t); [exact H|exact El|..];
        destruct s; reflexivity.
    + assert (E : turnFailed
                    (set_randomCalls
                       (3 + randomCalls (set_turns (delete tid (turns s)) s))
                       (set_turns (delete tid (turns s)) s))
                  = set_randomCalls (3 + randomCalls s)
                      (turnFailed (set_turns (delete tid (turns s)) s)))
        by (destruct s; reflexivity).
      rewrite E.
      apply (oneTurn_frame (turnFailed (set_turns (delete tid (turns s)) s)));
        [now apply (oneTurn_failed s tid t)|destruct s; reflexivity..].
    + now apply (oneTurn_failed s tid t).
  - (* Promise.all *)
    unfold onAllSettled.
    destruct (turns s !! tid) as [t|] eqn:El; [|exact H].
    destruct (turn_await t) as [|fin ch st pr rq] eqn:Ea; [exact H|].
    destruct (collectSpeech speech (length rq)) as [audioData|];
      [|now apply (oneTurn_failed s tid t)].
    pose proof (only_turn s tid t H El) as Hnone.
    pose proof (L3 tid t El) as Hq.
    assert (Hload : isLoading s = true).
    { destruct (isLoading s) eqn:E; [reflexivity|].
      destruct (L1 eq_refl) as [H1 _]. now rewrite H1 in El. }
    destruct (History.commit (turn_history t) (turn_historyIndex t) _)
      as [history' historyIndex'].
    unfold playNarrationSequence.
    set (m := set_narrationQueue audioData (stopNarration _)).
    assert (Em : m = set_narrationQueue audioData (stopNarration (narration s)))
      by (unfold m; destruct s; reflexivity).
    pose proof (processNarrationQueue_drained decodeThrows true m) as Hd.
    assert (Hqm : noneAwaited m).
    { rewrite Em.
      destruct (stopNarration_fields (narration s)) as (_ & _ & Htk & _).
      now apply (same_tasks_awaited (narration s)). }
    destruct (drained_tasks _ _ _ _ Hd) as [Ht _].
    destruct (processNarrationQueue decodeThrows true m) as [n returned].
    cbn [fst snd] in Ht.
    set (s' := syncShareable _).
    assert (E2 : turns s' = delete tid (turns s)).
    { unfold s', syncShareable, syncWithHistory.
      destruct returned; destruct s; simpl;
        destruct (history' !! historyIndex'); reflexivity. }
    assert (E3 : narration s' = n).
    { unfold s', syncShareable, syncWithHistory.
      destruct returned; destruct s; simpl;
        destruct (history' !! historyIndex'); reflexivity. }
    assert (E1 : isLoading s' = negb returned).
    { unfold s', syncShareable, syncWithHistory.
      destruct returned; destruct s; simpl in *;
        destruct (history' !! historyIndex'); simpl; congruence. }
    unfold oneTurn. rewrite E1, E2, E3.
    split; [|split; [|split]].
    + intros Hr. destruct returned; [|discriminate]. split; [exact Hnone|].
      intros tid' t' Hl'.
      destruct (Ht tid' t' Hl') as [Ho|[[Hf _]|[_ [Hr' _]]]];
        [exact (Hqm tid' t' Ho)|exact Hf|discriminate].
    + intros tid1 t1 tid2 t2 H1. now rewrite Hnone in H1.
    + intros tid1 t1 H1. now rewrite Hnone in H1.
    + intros tid1 t1 tid2 t2 H1 Hn1 H2 Hn2.
      destruct (Ht tid1 t1 H1) as [Ho|[[Hf _]|(_ & _ & Honly)]];
        [rewrite (Hqm tid1 t1 Ho) in Hn1; discriminate|congruence|].
      destruct (Honly tid2 t2 H2) as [->|Ho]; [reflexivity|].
      rewrite (Hqm tid2 t2 Ho) in Hn2. discriminate.
  - (* narration *)
    unfold onNarrationEvent.
    destruct (narrationStep_awaited e (narration s)) as [N1 N2].
    destruct (narrationStep decodeThrows e (narration s)) as [n returned].
    cbn [fst snd] in N1, N2.
    destruct (N2 L4) as [Hone Hret].
    destruct returned.
    + assert (E1 : isLoading (set_isLoading false (set_narration n s)) = false)
        by (destruct s; reflexivity).
      assert (E2 : turns (set_isLoading false (set_narration n s)) = turns s)
        by (destruct s; reflexivity).
      assert (E3 : narration (set_isLoading false (set_narration n s)) = n)
        by (destruct s; reflexivity).
      assert (Hnoturn : forall tid, turns s !! tid = None).
      { intros tid. destruct (turns s !! tid) as [t|] eqn:E; [|reflexivity].
        destruct (N1 (L3 tid t E)) as [_ Hr]. discriminate. }
      unfold oneTurn. rewrite E1, E2, E3.
      split; [|split; [|split]].
      * intros _. split; [exact Hnoturn|now apply Hret].
      * exact L2.
      * intros tid t Hl. now rewrite Hnoturn in Hl.
      * exact Hone.
    + assert (E1 : isLoading (set_narration n s) = isLoading s)
        by (destruct s; reflexivity).
      assert (E2 : turns (set_narration n s) = turns s) by (destruct s; reflexivity).
      assert (E3 : narration (set_narration n s) = n) by (destruct s; reflexivity).
      unfold oneTurn. rewrite E1, E2, E3.
      split; [|split; [|split]].
      * intros Hf. destruct (L1 Hf) as [H1 H2]. split; [exact H1|].
        exact (proj1 (N1 H2)).
      * exact L2.
      * intros tid t Hl. exact (proj1 (N1 (L3 tid t Hl))).
      * exact Hone.
  - (* ambiance *)
    apply (oneTurn_frame s); [exact H|destruct s; reflexivity..].
Qed.

Lemma oneTurn_initial nf af : oneTurn (initialApp nf af).
Proof.
  assert (Hq : noneAwaited (narration (initialApp nf af))).
  { intros tid t Hl. simpl in Hl. now rewrite lookup_empty in Hl. }
  split; [|split; [|split]].
  - intros _. split; [|exact Hq]. intros tid. apply lookup_empty.
  - intros tid1 t1 tid2 t2 H1. simpl in H1. now rewrite lookup_empty in H1.
  - intros tid t H1. simpl in H1. now rewrite lookup_empty in H1.
  - now apply noneAwaited_one.
Qed.

Lemma oneTurn_run (es : list AppEvent) :
  forall s, oneTurn s -> oneTurn (appRun decodeThrows JSON_parse Math_random es s).
Proof.
  induction es as [|e es IH]; intros s H; [exact H|].
  simpl. apply IH. now apply oneTurn_step.
Qed.

(** What the invariant says of the turns and of the loading flag. *)
Lemma oneTurn_facts (s : App) :
  oneTurn s ->
  (forall tid1 t1 tid2 t2,
     turns s !! tid1 = Some t1 -> turns s !! tid2 = Some t2 -> tid1 = tid2)
  /\ (forall tid t, turns s !! tid = Some t ->
        isLoading s = true /\ ~ finallyPending s)
  /\ (finallyPending s -> isLoading s = true)
  /\ (isLoading s = true -> forall userInput, handleSendMessage userInput s = s).
Proof.
  intros (L1 & L2 & L3 & L4).
  split; [exact L2|]. split; [|split].
  - intros tid t Hl. split.
    + destruct (isLoading s) eqn:E; [reflexivity|].
      destruct (L1 eq_refl) as [H1 _]. now rewrite H1 in Hl.
    + intros (tid' & t' & Hl' & Hn). rewrite (L3 tid t Hl tid' t' Hl') in Hn.
      discriminate.
  - intros (tid' & t' & Hl' & Hn).
    destruct (isLoading s) eqn:E; [reflexivity|].
    destruct (L1 eq_refl) as [_ H2]. rewrite (H2 tid' t' Hl') in Hn. discriminate.
  - intros Hl userInput. apply handleSendMessage_rejected. right. now left.
Qed.

End OneTurn.

(** ** Saving and loading *)

Lemma jsonRoundTrip_message (m : ChatMessage) :
  jsonRoundTrip (messageValue m) = messageValue m.
Proof. reflexivity. Qed.

Lemma asChatMessage_value (m : ChatMessage) :
  asChatMessage (messageValue m) = Some m.
Proof. destruct m as [[|] t]; reflexivity. Qed.

Lemma jsonRoundTrip_messages (chat : list ChatMessage) :
  map (fun x => match x with
                | JUndefined => JNull
                | _ => jsonRoundTrip x
                end) (messageValue <$> chat)
  = messageValue <$> chat.
Proof.
  induction chat as [|m chat IH]; [reflexivity|].
  cbn [fmap list_fmap map] in *. rewrite IH. reflexivity.
Qed.

Lemma asStoryState_value (snap : StoryState) :
  asStoryState (jsonRoundTrip (snapshotValue snap)) = Some (storedSnapshot snap).
Proof.
  destruct snap as [chat url ch].
  assert (Hchat : asArray asChatMessage (JArr (messageValue <$> chat)) = Some chat).
  { simpl. apply mapM_fmap_Some. apply asChatMessage_value. }
  unfold snapshotValue, storedSnapshot. cbn [StoryState.chatHistory StoryState.imageUrl
    StoryState.choices jsonRoundTrip].
  rewrite jsonRoundTrip_messages.
  destruct url as [u|], ch; cbn [asStoryState lookupProp]; simpl bool_decide;
    cbn [lookupProp]; rewrite ?Hchat; reflexivity.
Qed.

Lemma jsonRoundTrip_snapshots (snaps : list StoryState) :
  asArray asStoryState (jsonRoundTrip (JArr (snapshotValue <$> snaps)))
  = Some (storedSnapshot <$> snaps).
Proof.
  cbn [jsonRoundTrip asArray]. apply mapM_Some.
  induction snaps as [|snap snaps IH]; [constructor|].
  cbn [fmap list_fmap map]. constructor; [|exact IH].
  change (asStoryState (jsonRoundTrip (snapshotValue snap))
          = Some (storedSnapshot snap)).
  apply asStoryState_value.
Qed.

Lemma jsonRoundTrip_voices (voices : gmap string string) :
  jsonRoundTrip (voicesValue voices) = voicesValue voices.
Proof.
  unfold voicesValue. cbn [jsonRoundTrip]. f_equal.
  induction (map_to_list voices) as [|[k v] l IH]; [reflexivity|].
  cbn [fmap list_fmap fst snd]. f_equal. exact IH.
Qed.

Lemma asVoices_value (voices : gmap string string) :
  asVoices (voicesValue voices) = Some voices.
Proof.
  unfold asVoices, voicesValue.
  rewrite (mapM_fmap_Some _ _ (map_to_list voices)).
  - simpl. f_equal. apply list_to_map_to_list.
  - intros [k v]. reflexivity.
Qed.

Lemma jsonRoundTrip_saveData (sh : Shell) :
  jsonRoundTrip (saveData sh)
  = JObj [("history"%string, jsonRoundTrip (JArr (snapshotValue <$> history (app sh))));
          ("historyIndex"%string, JNum (Z.of_nat (historyIndex (app sh))));
          ("fontSize"%string, JStr (fontSize sh));
          ("fontFamily"%string, JStr (fontFamily sh));
          ("characterVoices"%string, voicesValue (characterVoices (app sh)))].
Proof.
  unfold saveData. cbn [jsonRoundTrip]. rewrite jsonRoundTrip_voices. reflexivity.
Qed.

Section PersistenceProperties.

Variable JSON_parse : string -> option JSValue.
Variable JSON_stringify : JSValue -> string.

Lemma stopAudio_fields (s : App) :
  narration (stopAudio s) = stopNarration (narration s)
  /\ history (stopAudio s) = history s
  /\ historyIndex (stopAudio s) = historyIndex s
  /\ chatHistory (stopAudio s) = chatHistory s
  /\ imageUrl (stopAudio s) = imageUrl s
  /\ choices (stopAudio s) = choices s
  /\ characterVoices (stopAudio s) = characterVoices s
  /\ isLoading (stopAudio s) = isLoading s
  /\ turns (stopAudio s) = turns s
  /\ currentAmbianceUrl (ambiance (stopAudio s))
     = match currentAmbianceSource (ambiance s) with
       | Some _ => None
       | None => currentAmbianceUrl (ambiance s)
       end.
Proof.
  unfold stopAudio.
  destruct s as [chat0 img0 load0 ch0 share0 mute0 voices0 hist0 idx0 sess0
                 welcome0 n0 amb0 turns0 next0 rnd0].
  cbn [ambiance set_narration].
  destruct (currentAmbianceSource amb0); repeat split.
Qed.

(** Loading gives back what was saved.  When the item in storage is the
    one that Save wrote from the state [saved], whatever has happened
    since, Load puts the log, the cursor, the voice map and the font
    settings of [saved] back, shows the snapshot under the cursor, clears
    the loading flag and stops the narration; a choice list comes back as
    JSON carries it.  Turns in flight are not cancelled.  With nothing in
    storage, Load changes nothing; with an item that does not parse, it
    stops the audio and changes nothing else. *)
Theorem load_restores_the_saved_story (saved now : Shell) :
  savedStory now = savedStory (handleSaveStory JSON_stringify true saved) ->
  JsString.truthy (JSON_stringify (saveData saved)) = true ->
  JSON_parse (JSON_stringify (saveData saved))
  = Some (jsonRoundTrip (saveData saved)) ->
  (exists after,
      handleLoadStory JSON_parse now = Some after
      /\ history (app after) = storedSnapshot <$> history (app saved)
      /\ historyIndex (app after) = historyIndex (app saved)
      /\ characterVoices (app after) = characterVoices (app saved)
      /\ fontSize after = fontSize saved
      /\ fontFamily after = fontFamily saved
      /\ isLoading (app after) = false
      /\ narration (app after) = stopNarration (narration (app now))
      /\ turns (app after) = turns (app now)
      /\ (forall snap,
            history (app saved) !! historyIndex (app saved) = Some snap ->
            chatHistory (app after) = StoryState.chatHistory snap
            /\ imageUrl (app after) = StoryState.imageUrl snap
            /\ choices (app after) = jsonRoundTrip (StoryState.choices snap)))
  /\ (forall sh, savedStory sh = None \/ savedStory sh = Some EmptyString ->
        handleLoadStory JSON_parse sh = Some sh)
  /\ (forall sh savedData,
        savedStory sh = Some savedData -> JsString.truthy savedData = true ->
        JSON_parse savedData = None ->
        handleLoadStory JSON_parse sh = Some (set_app (stopAudio (app sh)) sh)).
Proof.
  intros Hslot Htruthy Hparse.
  split; [|split].
  - unfold handleLoadStory. rewrite Hslot. cbn [handleSaveStory savedStory].
    rewrite Htruthy, Hparse. cbn [negb].
    rewrite jsonRoundTrip_saveData.
    unfold propOf. cbn [getProp default lookupProp].
    simpl bool_decide. cbn [lookupProp]. unfold id.
    rewrite jsonRoundTrip_snapshots.
    rewrite asVoices_value. cbn [asIndex asString].
    replace (0 <=? Z.of_nat (historyIndex (app saved)))%Z with true
      by (symmetry; apply Z.leb_le; lia).
    rewrite Nat2Z.id.
    destruct (stopAudio_fields (app now)) as (E1 & E2 & E3 & E4 & E5 & E6 & E7 & E8 & E9 & _).
    eexists. split; [reflexivity|].
    cbn [app fontSize fontFamily].
    unfold syncShareable, syncWithHistory.
    destruct (stopAudio (app now))
      as [chat0 img0 load0 ch0 share0 mute0 voices0 hist0 idx0 sess0
          welcome0 n0 amb0 turns0 next0 rnd0].
    cbn [history historyIndex set_history set_historyIndex set_characterVoices
         set_isLoading] in *.
    rewrite list_lookup_fmap.
    destruct (history (app saved) !! historyIndex (app saved)) as [cur|] eqn:Ecur;
      cbn [fmap option_fmap option_map]; simpl;
      (split; [reflexivity|]); (split; [reflexivity|]); (split; [reflexivity|]);
      (split; [reflexivity|]); (split; [reflexivity|]); (split; [reflexivity|]);
      (split; [exact E1|]); (split; [exact E9|]).
    + intros snap [= <-]. repeat split.
    + intros snap Hs. discriminate.
  - intros sh [H|H]; unfold handleLoadStory; rewrite H; reflexivity.
  - intros sh savedData Hs Ht Hp. unfold handleLoadStory.
    now rewrite Hs, Ht, Hp.
Qed.

End PersistenceProperties.

(** An instance: the welcome screen is saved, a turn is started, and the
    story is loaded again. *)
Lemma load_restores_the_saved_story_witness :
  let stringify := fun _ : JSValue => savedText in
  let saved := initialShell None (Some running) (Some running) in
  let parse := fun text : string =>
    if bool_decide (text = savedText) then Some (jsonRoundTrip (saveData saved))
    else None in
  let now := set_app (handleSendMessage "hi" (app (handleSaveStory stringify true saved)))
               (handleSaveStory stringify true saved) in
  savedStory now = savedStory (handleSaveStory stringify true saved)
  /\ JsString.truthy (stringify (saveData saved)) = true
  /\ parse (stringify (saveData saved)) = Some (jsonRoundTrip (saveData saved))
  /\ exists after,
       handleLoadStory parse now = Some after
       /\ history (app after) = [initialStoryState]
       /\ isLoading (app after) = false.
Proof.
  intros stringify saved parse now.
  assert (H1 : savedStory now = savedStory (handleSaveStory stringify true saved))
    by reflexivity.
  assert (H2 : JsString.truthy (stringify (saveData saved)) = true) by reflexivity.
  assert (H3 : parse (stringify (saveData saved))
               = Some (jsonRoundTrip (saveData saved))) by reflexivity.
  split; [exact H1|]. split; [exact H2|]. split; [exact H3|].
  destruct (proj1 (load_restores_the_saved_story parse stringify saved now H1 H2 H3))
    as (after & Ha & Hh & _ & _ & _ & _ & Hl & _).
  exists after. split; [exact Ha|]. split; [exact Hh|exact Hl].
Defined.

(** ** The shared page *)

Lemma rev_app_app (a b acc : string) :
  String.rev_app (a +:+ b) acc = String.rev_app b (String.rev_app a acc).
Proof.
  revert acc. induction a as [|c a IH]; intros acc; [reflexivity|].
  rewrite append_cons. cbn [String.rev_app]. apply IH.
Qed.

Lemma rev_app_acc (a acc : string) :
  String.rev_app a acc = String.rev_app a EmptyString +:+ acc.
Proof.
  revert acc. induction a as [|c a IH]; intros acc; [reflexivity|].
  cbn [String.rev_app]. rewrite (IH (String c acc)), (IH (String c EmptyString)).
  rewrite append_assoc. reflexivity.
Qed.

Lemma rev_app_rev_app (a acc acc' : string) :
  String.rev_app (String.rev_app a acc) acc' = String.rev_app acc (a +:+ acc').
Proof.
  revert acc. induction a as [|c a IH]; intros acc; [reflexivity|].
  cbn [String.rev_app]. rewrite IH. reflexivity.
Qed.

Lemma dropWhile_suffix p (s : string) :
  exists a, s = a +:+ JsString.dropWhile p s.
Proof.
  induction s as [|c s [a IH]]; [now exists EmptyString|].
  cbn [JsString.dropWhile]. destruct (p c).
  - exists (String c a). rewrite append_cons. now f_equal.
  - now exists EmptyString.
Qed.

(** What [trimEnd] leaves is a prefix of the string. *)
Lemma trimEnd_prefix (s : string) :
  exists b, s = JsString.trimEnd s +:+ b.
Proof.
  unfold JsString.trimEnd.
  destruct (dropWhile_suffix JsString.isSpace (String.rev s)) as [x Hx].
  exists (String.rev x).
  assert (Hs : s = String.rev (String.rev s)).
  { unfold String.rev. rewrite rev_app_rev_app. cbn [String.rev_app].
    now rewrite append_nil_r. }
  rewrite Hs at 1. rewrite Hx at 1.
  unfold String.rev at 1. rewrite rev_app_app.
  now rewrite rev_app_acc.
Qed.

Lemma span_lengths p (s : string) :
  String.length (fst (JsString.span p s)) + String.length (snd (JsString.span p s))
  = String.length s.
Proof.
  induction s as [|c s IH]; [reflexivity|].
  cbn [JsString.span]. destruct (p c); [|reflexivity].
  destruct (JsString.span p s) as [a b]. simpl in *. lia.
Qed.

Lemma span_app_stop p (a b x r : string) (d : ascii) :
  JsString.span p a = (x, String d r) ->
  JsString.span p (a +:+ b) = (x, String d (r +:+ b)).
Proof.
  revert x. induction a as [|c a IH]; intros x H; [discriminate|].
  rewrite append_cons. cbn [JsString.span] in *. destruct (p c).
  - destruct (JsString.span p a) as [x' y'] eqn:E.
    injection H as <- ->. now rewrite (IH x' eq_refl).
  - injection H as <- <- <-. reflexivity.
Qed.

Lemma matchBracketed_shorter (s rest : string) :
  matchBracketed s = Some rest -> String.length rest < String.length s.
Proof.
  destruct s as [|c t]; [discriminate|].
  cbn [matchBracketed]. destruct (Ascii.eqb c "["); [|discriminate].
  pose proof (span_lengths
                (fun x => JsString.notChar "]" x && negb (isLineTerminator x)) t) as Hl.
  destruct (JsString.span _ t) as [a [|d r]]; [discriminate|].
  destruct (Ascii.eqb d "]"); [|discriminate].
  intros [= <-]. simpl in *. lia.
Qed.

Lemma matchBracketed_app (a b rest : string) :
  matchBracketed a = Some rest -> matchBracketed (a +:+ b) = Some (rest +:+ b).
Proof.
  destruct a as [|c t]; [discriminate|].
  rewrite append_cons. cbn [matchBracketed].
  destruct (Ascii.eqb c "["); [|discriminate].
  destruct (JsString.span _ t) as [x [|d r]] eqn:E; [discriminate|].
  rewrite (span_app_stop _ t b x r d E).
  destruct (Ascii.eqb d "]"); [|discriminate].
  now intros [= <-].
Qed.

(** The expression fails at an opening bracket exactly when the line
    holds no closing bracket after it. *)
Lemma matchBracketed_unclosed (c : ascii) (t : string) :
  matchBracketed (String c t) = None
  <-> Ascii.eqb c "[" = false \/ unclosed t = true.
Proof.
  cbn [matchBracketed]. unfold unclosed.
  destruct (Ascii.eqb c "["); [|split; [now left|reflexivity]].
  destruct (JsString.span _ t) as [x [|d r]]; cbn [snd].
  - split; [now right|reflexivity].
  - destruct (Ascii.eqb d "]"); cbn [negb].
    + split; [discriminate|intros [H|H]; discriminate].
    + split; [now right|reflexivity].
Qed.

Lemma unclosed_cons (d : ascii) (t : string) :
  unclosed (String d t)
  = if JsString.notChar "]" d && negb (isLineTerminator d) then unclosed t
    else negb (Ascii.eqb d "]").
Proof.
  unfold unclosed. cbn [JsString.span].
  destruct (JsString.notChar "]" d && negb (isLineTerminator d)); [|reflexivity].
  now destruct (JsString.span _ t).
Qed.

Lemma unclosed_dropBracketed (fuel : nat) :
  forall t, String.length t <= fuel -> unclosed t = true ->
    unclosed (dropBracketed_from fuel t) = true.
Proof.
  induction fuel as [|fuel IH]; intros t Hl Ht.
  - destruct t; [reflexivity|simpl in Hl; lia].
  - destruct t as [|d t]; [reflexivity|].
    cbn [dropBracketed_from]. simpl in Hl.
    rewrite unclosed_cons in Ht.
    assert (Hnone : matchBracketed (String d t) = None).
    { apply matchBracketed_unclosed.
      destruct (JsString.notChar "]" d && negb (isLineTerminator d)) eqn:Ed;
        [now right|left].
      destruct (Ascii.eqb_spec d "[") as [->|]; [discriminate Ed|reflexivity]. }
    rewrite Hnone, unclosed_cons.
    destruct (JsString.notChar "]" d && negb (isLineTerminator d));
      [apply IH; [lia|exact Ht]|exact Ht].
Qed.

Lemma bracketFree_dropBracketed (fuel : nat) :
  forall s, String.length s <= fuel ->
    bracketFree (dropBracketed_from fuel s) = true.
Proof.
  induction fuel as [|fuel IH]; intros s Hl.
  - destruct s; [reflexivity|simpl in Hl; lia].
  - destruct s as [|c t]; [reflexivity|].
    cbn [dropBracketed_from]. simpl in Hl.
    destruct (matchBracketed (String c t)) as [rest|] eqn:Em.
    + apply IH. apply matchBracketed_shorter in Em. simpl in Em. lia.
    + cbn [bracketFree].
      assert (Hnone : matchBracketed (String c (dropBracketed_from fuel t)) = None).
      { apply matchBracketed_unclosed. apply matchBracketed_unclosed in Em.
        destruct Em as [Hc|Hu]; [now left|right].
        apply unclosed_dropBracketed; [lia|exact Hu]. }
      rewrite Hnone. apply IH. lia.
Qed.

Lemma bracketFree_tail (c : ascii) (t : string) :
  bracketFree (String c t) = true -> bracketFree t = true.
Proof.
  cbn [bracketFree]. now destruct (matchBracketed (String c t)).
Qed.

Lemma bracketFree_dropWhile p (s : string) :
  bracketFree s = true -> bracketFree (JsString.dropWhile p s) = true.
Proof.
  induction s as [|c t IH]; intros H; [exact H|].
  cbn [JsString.dropWhile]. destruct (p c); [|exact H].
  apply IH. now apply bracketFree_tail in H.
Qed.

Lemma bracketFree_prefix (a b : string) :
  bracketFree (a +:+ b) = true -> bracketFree a = true.
Proof.
  induction a as [|c a IH]; intros H; [reflexivity|].
  rewrite append_cons in H. cbn [bracketFree].
  destruct (matchBracketed (String c a)) as [rest|] eqn:Em.
  - apply (matchBracketed_app _ b) in Em. rewrite append_cons in Em.
    cbn [bracketFree] in H. now rewrite Em in H.
  - apply IH. now apply bracketFree_tail in H.
Qed.

(** No bracketed tag is left in a paragraph of the shared page: once the
    tags are dropped and the text trimmed, the expression [\[.*?\]]
    matches at no position of it.  A bracket that stays is one that is
    not closed on its line. *)
Theorem shared_paragraph_holds_no_tag (msg : ChatMessage) :
  bracketFree (paragraphText msg) = true.
Proof.
  unfold paragraphText, JsString.trim, JsString.trimStart.
  set (s := dropBracketed (JsString.stripMarkup (text msg))).
  assert (Hs : bracketFree s = true)
    by (apply bracketFree_dropBracketed; reflexivity).
  apply (bracketFree_dropWhile JsString.isSpace) in Hs.
  destruct (trimEnd_prefix (JsString.dropWhile JsString.isSpace s)) as [b Hb].
  rewrite Hb in Hs. now apply bracketFree_prefix in Hs.
Qed.

Section SharedPage.

Variable decodeThrows : string -> bool.
Variable JSON_parse : string -> option JSValue.
Variable Math_random : nat -> Q.

Lemma inSync_sync (s : App) : shareableInSync (syncShareable s).
Proof. destruct s; reflexivity. Qed.

Lemma inSync_frame (s s' : App) :
  shareableInSync s -> chatHistory s' = chatHistory s ->
  imageUrl s' = imageUrl s -> isShareable s' = isShareable s ->
  shareableInSync s'.
Proof. unfold shareableInSync. intros H -> -> ->. exact H. Qed.

Lemma inSync_turnFailed (s : App) : shareableInSync (turnFailed s).
Proof. unfold turnFailed. apply inSync_sync. Qed.

Lemma inSync_step (e : AppEvent) (s : App) :
  shareableInSync s ->
  shareableInSync (appStep decodeThrows JSON_parse Math_random e s).
Proof.
  intros Hs.
  destruct e as [userInput| | | |audio|tid response|tid img mood speech|e|e];
    cbn [appStep].
  - unfold handleSendMessage.
    destruct (negb (JsString.truthy (JsString.trim userInput)) || isLoading s
              || negb (chatSession s)); [exact Hs|apply inSync_sync].
  - unfold handleUndo. destruct (History.canUndo (historyIndex s));
      [apply inSync_sync|exact Hs].
  - unfold handleRedo. destruct (History.canRedo (history s) (historyIndex s));
      [apply inSync_sync|exact Hs].
  - apply (inSync_frame s); [exact Hs|destruct s; reflexivity..].
  - apply (inSync_frame s); [exact Hs|..];
      (unfold onWelcomeSpeechSettled;
       destruct audio; [destruct (negb (welcomeAudioHandled s))|];
       destruct s; reflexivity).
  - unfold onGenerationSettled.
    destruct (turns s !! tid) as [t|]; [|exact Hs].
    destruct (turn_await t); [|exact Hs].
    destruct response as [[responseText|]|]; try apply inSync_turnFailed.
    destruct (parseResponse JSON_parse responseText) as [storyText newChoices].
    destruct (deriveDialogue (turn_characterVoices t) storyText)
      as [dialogueParts unassignedChars].
    destruct (assignVoices Math_random (turn_characterVoices t) unassignedChars _)
      as [newCharacterVoices k'].
    apply (inSync_frame s); [exact Hs|destruct s; reflexivity..].
  - unfold onAllSettled.
    destruct (turns s !! tid) as [t|]; [|exact Hs].
    destruct (turn_await t) as [|fin ch st pr rq]; [exact Hs|].
    destruct (collectSpeech speech (length rq)) as [audioData|];
      [|apply inSync_turnFailed].
    destruct (History.commit _ _ _) as [history' historyIndex'].
    destruct (playNarrationSequence _ _ _ _) as [n returned].
    apply inSync_sync.
  - apply (inSync_frame s); [exact Hs|..];
      (unfold onNarrationEvent;
       destruct (narrationStep decodeThrows e (narration s)) as [n returned];
       destruct returned; destruct s; reflexivity).
  - apply (inSync_frame s); [exact Hs|destruct s; reflexivity..].
Qed.

Lemma inSync_run (es : list AppEvent) :
  forall s, shareableInSync s ->
    shareableInSync (appRun decodeThrows JSON_parse Math_random es s).
Proof.
  induction es as [|e es IH]; intros s Hs; [exact Hs|].
  simpl. apply IH. now apply inSync_step.
Qed.

(** What Share hands out, whatever the user has done and whatever the
    calls have answered since the mount.  A page is built only when the
    chat holds more than the welcome message and the picture is neither
    missing nor the welcome picture; the page then shows that picture and
    one paragraph for each message of the model after the welcome
    message, in order.  The welcome message and the messages of the user
    are not on it. *)
Theorem shared_page_is_the_story (es : list AppEvent)
    (narrationFactory ambianceFactory : option AudioContextState) :
  let s := appRun decodeThrows JSON_parse Math_random es
             (initialApp narrationFactory ambianceFactory) in
  match handleShareStory s with
  | Some page =>
      exists url rest,
        chatHistory s = welcomeMessage :: rest
        /\ rest <> []
        /\ imageUrl s = Some url
        /\ url <> EmptyString
        /\ JsString.includes "picsum.photos/seed/welcome" url = false
        /\ page = htmlContent (Some url)
                    (String.concat EmptyString
                       (paragraph <$> List.filter isModel rest))
  | None => storyHasBegun (chatHistory s) (imageUrl s) = false
  end.
Proof.
  intros s.
  assert (Hsync : shareableInSync s)
    by (apply inSync_run; reflexivity).
  destruct (seeded_run decodeThrows JSON_parse Math_random es _
              (seeded_initial narrationFactory ambianceFactory))
    as (_ & Hchat & _).
  fold s in Hchat. unfold opensWithWelcome in Hchat.
  unfold handleShareStory, shareableInSync in *.
  destruct (isShareable s); cbn [negb]; [|now symmetry].
  symmetry in Hsync. unfold storyHasBegun in Hsync.
  apply andb_true_iff in Hsync as [Hlen Hurl].
  destruct (imageUrl s) as [url|]; [|discriminate].
  apply andb_true_iff in Hurl as [Htruthy Hseed].
  destruct (chatHistory s) as [|m rest]; [discriminate|].
  injection Hchat as ->.
  exists url, rest. split; [reflexivity|].
  split; [intros ->; discriminate|]. split; [reflexivity|].
  split; [intros ->; discriminate|].
  split; [now apply negb_true_iff in Hseed|reflexivity].
Qed.

End SharedPage.

(** ** A mute click while a turn is in flight *)

Section MuteInFlight.

Variable decodeThrows : string -> bool.
Variable JSON_parse : string -> option JSValue.
Variable Math_random : nat -> Q.

Lemma turnFailed_muted (s : App) :
  isAmbianceMuted (turnFailed s) = isAmbianceMuted s
  /\ ambiance (turnFailed s) = ambiance s.
Proof. destruct s; split; reflexivity. Qed.

Lemma handleSendMessage_muted (userInput : string) (s : App) :
  isAmbianceMuted (handleSendMessage userInput s) = isAmbianceMuted s
  /\ ambiance (handleSendMessage userInput s) = ambiance s.
Proof.
  unfold handleSendMessage.
  destruct (negb (JsString.truthy (JsString.trim userInput)) || isLoading s
            || negb (chatSession s)); [now split|].
  destruct s; split; reflexivity.
Qed.

Lemma onGenerationSettled_muted (tid : nat) (response : option (option string))
    (s : App) :
  isAmbianceMuted (onGenerationSettled JSON_parse Math_random tid response s)
  = isAmbianceMuted s.
Proof.
  unfold onGenerationSettled.
  destruct (turns s !! tid) as [t|]; [|reflexivity].
  destruct (turn_await t); [|reflexivity].
  destruct response as [[responseText|]|].
  - destruct (parseResponse JSON_parse responseText) as [storyText newChoices].
    destruct (deriveDialogue (turn_characterVoices t) storyText)
      as [dialogueParts unassignedChars].
    destruct (assignVoices Math_random (turn_characterVoices t) unassignedChars _)
      as [newCharacterVoices k'].
    destruct s; reflexivity.
  - rewrite (proj1 (turnFailed_muted _)). destruct s; reflexivity.
  - rewrite (proj1 (turnFailed_muted _)). destruct s; reflexivity.
Qed.

(** The switch that a committing turn asks for: with the mute setting
    that the turn holds. *)
Lemma onAllSettled_ambiance (s : App) (tid : nat) (t : TurnTask)
    finalChatHistory newChoices storyText prompt requests
    (newImageUrl ambianceKeyword : string) (speech : nat -> option string)
    (audioData : list string) :
  turns s !! tid = Some t ->
  turn_await t = awaitAll finalChatHistory newChoices storyText prompt requests ->
  collectSpeech speech (length requests) = Some audioData ->
  let s' := onAllSettled decodeThrows tid newImageUrl ambianceKeyword speech s in
  ambiance s'
  = AmbiancePlayer.playAmbiance (ambianceUrlFor ambianceKeyword)
      (turn_isAmbianceMuted t) (ambiance s)
  /\ isAmbianceMuted s' = isAmbianceMuted s.
Proof.
  intros Hl Ha Hs. cbn zeta. unfold onAllSettled. rewrite Hl, Ha, Hs.
  destruct (History.commit (turn_history t) (turn_historyIndex t) _)
    as [history' historyIndex'].
  unfold playNarrationSequence, syncShareable, syncWithHistory.
  destruct s as [chat0 img0 load0 ch0 share0 mute0 voices0 hist0 idx0 sess0
                 welcome0 n0 amb0 turns0 next0 rnd0].
  cbn [narration set_ambiance set_history set_historyIndex set_turns isLoading].
  destruct (processNarrationQueue decodeThrows true
              (set_narrationQueue audioData (stopNarration n0)))
    as [n returned].
  destruct returned; simpl; destruct (history' !! historyIndex'); split; reflexivity.
Qed.

(** A switch of the ambiance goes by the mute setting of the render that
    started the turn.  A click on the mute button while the turn is in
    flight flips the flag and ramps the gain at once; the switch that the
    turn then makes sets the gain as for the setting before the click: it
    ramps the new track up although the flag now says muted, and leaves it
    at zero although the flag now says unmuted. *)
Theorem mute_click_during_a_turn (s : App)
    (userInput responseText newImageUrl ambianceKeyword : string)
    (speech : nat -> option string) (audioData : list string)
    (contentType : option string) (len : nat) :
  JsString.truthy (JsString.trim userInput) = true ->
  isLoading s = false -> chatSession s = true ->
  collectSpeech speech
    (length (fst (deriveDialogue (characterVoices s)
                    (fst (parseResponse JSON_parse responseText))))) = Some audioData ->
  ambianceAudioContext (ambiance s) = Some running ->
  currentAmbianceUrl (ambiance s) <> Some (ambianceUrlFor ambianceKeyword) ->
  1024 <= len ->
  let tid := nextAmbianceTask (ambiance s) in
  let s' :=
    appRun decodeThrows JSON_parse Math_random
      [sendMessage userInput;
       muteToggled;
       generationSettled (nextTurn s) (Some (Some responseText));
       allSettled (S (nextTurn s)) newImageUrl ambianceKeyword speech;
       ambianceEvent (ambFetchSettled tid (Some (true, contentType)));
       ambianceEvent (ambBodySettled (S tid) (Some len));
       ambianceEvent (ambDecodeSettled (S (S tid)) true true)] s in
  isAmbianceMuted s' = negb (isAmbianceMuted s)
  /\ currentAmbianceUrl (ambiance s') = Some (ambianceUrlFor ambianceKeyword)
  /\ ambianceGainNode (ambiance s')
     = (fun ops =>
          ops
          ++ [linearRampToValueAtTime
                (if negb (isAmbianceMuted s) then gainZero else gainAmbiance)]
          ++ switchGainOps
               (bool_decide (is_Some (currentAmbianceSource (ambiance s))))
               (isAmbianceMuted s))
       <$> ambianceGainNode (ambiance s).
Proof.
  intros Hu Hload Hsess Hsome Hctx Hne Hlen tid s'.
  unfold s', appRun. cbn [foldl appStep].
  destruct (handleSendMessage_accepted s userInput Hu Hload Hsess)
    as (Ht1 & Hn1 & _).
  destruct (handleSendMessage_muted userInput s) as (Hm1 & Ha1).
  set (s1 := handleSendMessage userInput s) in *.
  set (s2 := handleToggleAmbianceMute s1).
  assert (Ht2 : turns s2 = turns s1) by (destruct s1; reflexivity).
  assert (Hn2 : nextTurn s2 = nextTurn s1) by (destruct s1; reflexivity).
  assert (Hm2 : isAmbianceMuted s2 = negb (isAmbianceMuted s))
    by (rewrite <- Hm1; destruct s1; reflexivity).
  assert (Ha2 : ambiance s2
                = AmbiancePlayer.toggleMute (negb (isAmbianceMuted s)) (ambiance s))
    by (rewrite <- Hm1, <- Ha1; destruct s1; reflexivity).
  rewrite <- Ht2 in Ht1.
  destruct (onGenerationSettled_text JSON_parse Math_random s2 _ _ responseText
              Ht1 eq_refl) as (Ht3 & _ & _ & _ & _ & Ha3 & _).
  pose proof (onGenerationSettled_muted (nextTurn s) (Some (Some responseText)) s2)
    as Hm3.
  cbn [turn_history turn_historyIndex turn_characterVoices turn_isAmbianceMuted
       turn_userInput turn_newChatHistory] in Ht3.
  rewrite Hn2, Hn1 in Ht3.
  set (s3 := onGenerationSettled JSON_parse Math_random (nextTurn s)
               (Some (Some responseText)) s2) in *.
  destruct (onAllSettled_ambiance s3 _ _ _ _ _ _ _
              newImageUrl ambianceKeyword speech audioData Ht3 eq_refl)
    as (Ha4 & Hm4).
  { rewrite length_speechRequests. exact Hsome. }
  cbn [turn_isAmbianceMuted] in Ha4.
  set (s4 := onAllSettled decodeThrows (S (nextTurn s)) newImageUrl ambianceKeyword
               speech s3) in *.
  set (a2 := AmbiancePlayer.toggleMute (negb (isAmbianceMuted s)) (ambiance s)) in *.
  assert (Hfields : ambianceAudioContext a2 = Some running
                    /\ currentAmbianceUrl a2 = currentAmbianceUrl (ambiance s)
                    /\ nextAmbianceTask a2 = tid
                    /\ currentAmbianceSource a2 = currentAmbianceSource (ambiance s)
                    /\ ambianceGainNode a2
                       = (fun ops =>
                            ops ++ [linearRampToValueAtTime
                                      (if negb (isAmbianceMuted s)
                                       then gainZero else gainAmbiance)])
                         <$> ambianceGainNode (ambiance s)).
  { unfold a2, tid, AmbiancePlayer.toggleMute, gainCall. clear -Hctx.
    destruct (ambiance s) as [ctx gain cur marker sts stops tasks next factory].
    cbn [ambianceAudioContext] in Hctx. subst ctx.
    destruct gain; repeat split. }
  destruct Hfields as (Hctx2 & Hmark & Hnext & Hsrc & Hgain).
  assert (Hne2 : currentAmbianceUrl a2 <> Some (ambianceUrlFor ambianceKeyword))
    by (rewrite Hmark; exact Hne).
  destruct (switch_run a2 (ambianceUrlFor ambianceKeyword) (isAmbianceMuted s)
              contentType len Hne2 Hctx2 Hlen) as (G1 & _ & _ & _ & G5).
  rewrite Hnext, Hsrc, Hgain in *. cbn [foldl] in G1, G5.
  assert (Hrun :
    forall e1 e2 e3 s0,
      ambiance (set_ambiance (AmbiancePlayer.step e3
                  (ambiance (set_ambiance (AmbiancePlayer.step e2
                     (ambiance (set_ambiance (AmbiancePlayer.step e1 (ambiance s0)) s0)))
                     (set_ambiance (AmbiancePlayer.step e1 (ambiance s0)) s0))))
                  (set_ambiance (AmbiancePlayer.step e2
                     (ambiance (set_ambiance (AmbiancePlayer.step e1 (ambiance s0)) s0)))
                     (set_ambiance (AmbiancePlayer.step e1 (ambiance s0)) s0)))
      = AmbiancePlayer.step e3 (AmbiancePlayer.step e2
          (AmbiancePlayer.step e1 (ambiance s0)))
      /\ isAmbianceMuted
           (set_ambiance (AmbiancePlayer.step e3
              (ambiance (set_ambiance (AmbiancePlayer.step e2
                 (ambiance (set_ambiance (AmbiancePlayer.step e1 (ambiance s0)) s0)))
                 (set_ambiance (AmbiancePlayer.step e1 (ambiance s0)) s0))))
              (set_ambiance (AmbiancePlayer.step e2
                 (ambiance (set_ambiance (AmbiancePlayer.step e1 (ambiance s0)) s0)))
                 (set_ambiance (AmbiancePlayer.step e1 (ambiance s0)) s0)))
         = isAmbianceMuted s0)
    by (intros; destruct s0; split; reflexivity).
  destruct (Hrun (ambFetchSettled tid (Some (true, contentType)))
              (ambBodySettled (S tid) (Some len))
              (ambDecodeSettled (S (S tid)) true true) s4) as (R1 & R2).
  rewrite R1, R2, Ha4, Ha3, Ha2, Hm4, Hm3, Hm2.
  fold a2. split; [reflexivity|]. split; [exact G1|].
  rewrite G5. destruct (ambianceGainNode (ambiance s)); [|reflexivity].
  cbn. now rewrite <- app_assoc.
Qed.

End MuteInFlight.

(** An instance: the calm track plays unmuted; a message is sent, the
    mute button is clicked, and the turn switches to the forest track. *)
Lemma mute_click_during_a_turn_witness :
  let decodeThrows := fun _ : string => false in
  let JSON_parse := fun _ : string => @None JSValue in
  let Math_random := fun _ : nat => 0%Q in
  let s := set_ambiance
             (foldl (fun a e => AmbiancePlayer.step e a)
                (AmbiancePlayer.playAmbiance (ambianceUrlFor "calm") false
                   (initialAmbiance (Some running)))
                [ambFetchSettled 0 (Some (true, Some "audio/ogg"%string));
                 ambBodySettled 1 (Some 4096); ambDecodeSettled 2 true true])
             (initialApp (Some running) (Some running)) in
  let s' :=
    appRun decodeThrows JSON_parse Math_random
      [sendMessage "a fox";
       muteToggled;
       generationSettled 0 (Some (Some "The fox ran."%string));
       allSettled 1 "img" "forest" (fun _ => Some "UklGRg=="%string);
       ambianceEvent (ambFetchSettled 3 (Some (true, None)));
       ambianceEvent (ambBodySettled 4 (Some 2048));
       ambianceEvent (ambDecodeSettled 5 true true)] s in
  isAmbianceMuted s' = true
  /\ option_map (last (A:=GainOp)) (ambianceGainNode (ambiance s'))
     = Some (Some (linearRampToValueAtTime gainAmbiance)).
Proof.
  intros decodeThrows JSON_parse Math_random s s'.
  assert (Hs : isLoading s = false) by reflexivity.
  destruct (mute_click_during_a_turn decodeThrows JSON_parse Math_random s
              "a fox" "The fox ran." "img" "forest"
              (fun _ => Some "UklGRg=="%string) ["UklGRg=="%string] None 2048)
    as (H1 & _ & H3);
    [reflexivity|exact Hs|reflexivity|reflexivity|reflexivity
    |vm_compute; discriminate|lia|].
  split; [exact H1|].
  refine (eq_trans (f_equal (option_map (last (A:=GainOp))) H3) _).
  reflexivity.
Defined.

(** ** The component with its storage: what holds along every run *)

Section ComponentRuns.

Variable decodeThrows : string -> bool.
Variable JSON_parse : string -> option JSValue.
Variable JSON_stringify : JSValue -> string.
Variable Math_random : nat -> Q.

(** A Load that finds what Save wrote from [saved]. *)
Lemma handleLoadStory_saved (saved now : Shell) (savedData : string) :
  savedStory now = Some savedData ->
  JsString.truthy savedData = true ->
  JSON_parse savedData = Some (jsonRoundTrip (saveData saved)) ->
  handleLoadStory JSON_parse now
  = Some {| app :=
              syncShareable
                (syncWithHistory
                   (set_isLoading false
                      (set_characterVoices (characterVoices (app saved))
                         (set_historyIndex (historyIndex (app saved))
                            (set_history (storedSnapshot <$> history (app saved))
                               (stopAudio (app now)))))));
            fontSize := fontSize saved;
            fontFamily := fontFamily saved;
            isSaveAvailable := isSaveAvailable now;
            savedStory := savedStory now |}.
Proof.
  intros Hslot Htruthy Hparse.
  unfold handleLoadStory. rewrite Hslot, Htruthy, Hparse. cbn [negb].
  rewrite jsonRoundTrip_saveData.
  unfold propOf. cbn [getProp default lookupProp].
  simpl bool_decide. cbn [lookupProp]. unfold id.
  rewrite jsonRoundTrip_snapshots.
  rewrite asVoices_value. cbn [asIndex asString].
  replace (0 <=? Z.of_nat (historyIndex (app saved)))%Z with true
    by (symmetry; apply Z.leb_le; lia).
  rewrite Nat2Z.id. reflexivity.
Qed.

Lemma loaded_fields (saved : Shell) (s : App) :
  let s' :=
    syncShareable
      (syncWithHistory
         (set_isLoading false
            (set_characterVoices (characterVoices (app saved))
               (set_historyIndex (historyIndex (app saved))
                  (set_history (storedSnapshot <$> history (app saved))
                     (stopAudio s)))))) in
  logOf s' = (storedSnapshot <$> history (app saved), historyIndex (app saved))
  /\ isLoading s' = false
  /\ turns s' = turns s
  /\ nextTurn s' = nextTurn s
  /\ chatSession s' = chatSession s
  /\ narrationTasks (narration s') = narrationTasks (narration s)
  /\ (forall snap,
        history (app saved) !! historyIndex (app saved) = Some snap ->
        chatHistory s' = StoryState.chatHistory snap).
Proof.
  intros s'.
  assert (E : narrationTasks (narration (stopAudio s)) = narrationTasks (narration s)
              /\ turns (stopAudio s) = turns s
              /\ nextTurn (stopAudio s) = nextTurn s
              /\ chatSession (stopAudio s) = chatSession s).
  { unfold stopAudio.
    destruct (stopNarration_fields (narration s)) as (_ & _ & Htk & _).
    destruct s as [chat0 img0 load0 ch0 share0 mute0 voices0 hist0 idx0 sess0
                   welcome0 n0 amb0 turns0 next0 rnd0].
    cbn [ambiance set_narration narration] in *.
    destruct (currentAmbianceSource amb0); repeat split; exact Htk. }
  destruct E as (E1 & E2 & E3 & E4).
  unfold s', syncShareable, syncWithHistory, logOf.
  destruct (stopAudio s)
    as [chat0 img0 load0 ch0 share0 mute0 voices0 hist0 idx0 sess0
        welcome0 n0 amb0 turns0 next0 rnd0].
  cbn [history historyIndex set_history set_historyIndex set_characterVoices
       set_isLoading narration turns nextTurn chatSession] in *.
  rewrite list_lookup_fmap.
  destruct (history (app saved) !! historyIndex (app saved)) as [cur|];
    cbn [fmap option_fmap option_map]; simpl;
    (repeat split; try assumption).
  - intros snap [= <-]. reflexivity.
  - intros snap Hs. discriminate.
Qed.

Lemma seeded_loaded (saved : Shell) (s : App) :
  seededLog (logOf (app saved)) -> seeded s ->
  seeded
    (syncShareable
       (syncWithHistory
          (set_isLoading false
             (set_characterVoices (characterVoices (app saved))
                (set_historyIndex (historyIndex (app saved))
                   (set_history (storedSnapshot <$> history (app saved))
                      (stopAudio s))))))).
Proof.
  intros Hsaved (Hlog & Hchat & Hturns).
  destruct (loaded_fields saved s) as (L1 & _ & L3 & _ & _ & _ & L7).
  destruct (seededLog_current _ _ Hsaved) as (snap & Hsnap & Hopen).
  destruct Hsaved as (Hv & H0 & Hall).
  unfold cursorValid, logOf in Hv, H0, Hall. cbn [fst snd] in Hv, H0, Hall.
  split; [|split].
  - rewrite L1. split; [|split]; cbn [fst snd].
    + unfold cursorValid. cbn [fst snd]. now rewrite length_fmap.
    + rewrite list_lookup_fmap, H0. reflexivity.
    + apply Forall_fmap. eapply Forall_impl; [exact Hall|].
      intros x Hx. exact Hx.
  - rewrite (L7 snap Hsnap). exact Hopen.
  - rewrite L3. exact Hturns.
Qed.

Lemma oneTurn_loaded (saved : Shell) (s : App) :
  oneTurn s -> isLoading s = false ->
  oneTurn
    (syncShareable
       (syncWithHistory
          (set_isLoading false
             (set_characterVoices (characterVoices (app saved))
                (set_historyIndex (historyIndex (app saved))
                   (set_history (storedSnapshot <$> history (app saved))
                      (stopAudio s))))))).
Proof.
  intros H Hl.
  destruct (loaded_fields saved s) as (_ & L2 & L3 & _ & _ & L6 & _).
  apply (oneTurn_frame s); [exact H|now rewrite L2|exact L3|exact L6].
Qed.

(** What a step keeps, with Save and Load among the events. *)
Lemma shellSeeded_step (e : ShellEvent) (sh : Shell) :
  shellSeeded JSON_parse sh -> saveReadsBack JSON_parse JSON_stringify e sh ->
  exists sh', shellStep decodeThrows JSON_parse JSON_stringify Math_random e sh = Some sh'
              /\ shellSeeded JSON_parse sh'
              /\ (oneTurn (app sh) ->
                  loadWhenIdle e sh -> oneTurn (app sh')).
Proof.
  intros [Hs Hitem] Hrb.
  destruct e as [e|stored| |size|family]; cbn [shellStep].
  - eexists. split; [reflexivity|]. split.
    + split; [now apply seeded_step|exact Hitem].
    + intros H _. now apply oneTurn_step.
  - eexists. split; [reflexivity|]. split.
    + destruct stored; [|split; assumption].
      split; [exact Hs|]. cbn [handleSaveStory savedStory itemSeeded].
      intros _. exists sh. split; [exact (proj1 Hs)|exact Hrb].
    + intros H _. destruct stored; exact H.
  - destruct (isSaveAvailable sh);
      [|exists sh; split; [reflexivity|split; [split; assumption|tauto]]].
    destruct (savedStory sh) as [savedData|] eqn:Eitem.
    + destruct (JsString.truthy savedData) eqn:Et.
      * destruct (Hitem Et) as (saved & Hsaved & Hparse).
        rewrite (handleLoadStory_saved saved sh savedData Eitem Et Hparse).
        eexists. split; [reflexivity|]. cbn [app]. split.
        -- split; [now apply seeded_loaded|]. cbn [savedStory]. rewrite Eitem.
           exact Hitem.
        -- intros H Hidle. now apply oneTurn_loaded.
      * exists sh. unfold handleLoadStory. rewrite Eitem, Et.
        split; [reflexivity|]. split; [split; [exact Hs|now rewrite Eitem]|tauto].
    + exists sh. unfold handleLoadStory. rewrite Eitem.
      split; [reflexivity|]. split; [split; [exact Hs|now rewrite Eitem]|tauto].
  - eexists. split; [reflexivity|]. split; [split; assumption|tauto].
  - eexists. split; [reflexivity|]. split; [split; assumption|tauto].
Qed.

Lemma shellSeeded_run (es : list ShellEvent) :
  forall sh,
    shellSeeded JSON_parse sh ->
    allAlong decodeThrows JSON_parse JSON_stringify Math_random
      (saveReadsBack JSON_parse JSON_stringify) es sh ->
    exists sh', shellRun decodeThrows JSON_parse JSON_stringify Math_random es sh = Some sh'
                /\ shellSeeded JSON_parse sh'
                /\ (oneTurn (app sh) ->
                    allAlong decodeThrows JSON_parse JSON_stringify Math_random
                      loadWhenIdle es sh ->
                    oneTurn (app sh')).
Proof.
  induction es as [|e es IH]; intros sh Hs Hrb.
  - exists sh. split; [reflexivity|]. split; [exact Hs|tauto].
  - cbn [allAlong] in Hrb. destruct Hrb as [Hrb Hrest].
    destruct (shellSeeded_step e sh Hs Hrb) as (sh1 & E1 & Hs1 & Ht1).
    rewrite E1 in Hrest.
    destruct (IH sh1 Hs1 Hrest) as (sh' & E' & Hs' & Ht').
    exists sh'. cbn [shellRun allAlong]. rewrite E1.
    split; [exact E'|]. split; [exact Hs'|].
    intros H [Hidle Hidles]. apply Ht'; [now apply Ht1|exact Hidles].
Qed.

Lemma shellSeeded_initial (saved0 : option string)
    (narrationFactory ambianceFactory : option AudioContextState) :
  itemSeeded JSON_parse saved0 ->
  shellSeeded JSON_parse (initialShell saved0 narrationFactory ambianceFactory).
Proof. intros H. split; [apply seeded_initial|exact H]. Qed.

(** Whatever the user does, Save and Load included, and whatever the
    calls answer, from the mount of the component on, the run goes
    through and the log keeps its seed: the cursor is a valid index of the
    log, the first snapshot of the log is the welcome screen, the chat of
    every snapshot opens with the welcome message, and so does the visible
    chat.  This is for a storage that gives back what Save wrote: each
    text that a Save of the run writes reads back as JSON carries it, and
    so does the item found at the mount, if there is one. *)
Theorem reachable_log_keeps_seed (es : list ShellEvent) (saved0 : option string)
    (narrationFactory ambianceFactory : option AudioContextState) :
  itemSeeded JSON_parse saved0 ->
  allAlong decodeThrows JSON_parse JSON_stringify Math_random
    (saveReadsBack JSON_parse JSON_stringify) es
    (initialShell saved0 narrationFactory ambianceFactory) ->
  exists sh,
    shellRun decodeThrows JSON_parse JSON_stringify Math_random es
      (initialShell saved0 narrationFactory ambianceFactory) = Some sh
    /\ historyIndex (app sh) < length (history (app sh))
    /\ history (app sh) !! 0 = Some initialStoryState
    /\ Forall (fun snap => head (StoryState.chatHistory snap) = Some welcomeMessage)
         (history (app sh))
    /\ head (chatHistory (app sh)) = Some welcomeMessage.
Proof.
  intros Hitem Hrb.
  destruct (shellSeeded_run es _
              (shellSeeded_initial saved0 narrationFactory ambianceFactory Hitem) Hrb)
    as (sh & E & (((Hv & H0 & Hall) & Hchat & _) & _) & _).
  exists sh. split; [exact E|].
  split; [exact Hv|]. split; [exact H0|]. split; [exact Hall|exact Hchat].
Qed.

(** As long as Load is not clicked while the loading flag is set, and
    whatever else the user does and the calls answer, from the mount on:
    at most one turn is in flight; while a turn waits for its calls, and
    afterwards while it waits for its narration to start, the loading flag
    is set; and while the flag is set a new message is turned away.  The
    storage is one that gives back what Save wrote. *)
Theorem one_turn_at_a_time (es : list ShellEvent) (saved0 : option string)
    (narrationFactory ambianceFactory : option AudioContextState) :
  itemSeeded JSON_parse saved0 ->
  allAlong decodeThrows JSON_parse JSON_stringify Math_random
    (saveReadsBack JSON_parse JSON_stringify) es
    (initialShell saved0 narrationFactory ambianceFactory) ->
  allAlong decodeThrows JSON_parse JSON_stringify Math_random loadWhenIdle es
    (initialShell saved0 narrationFactory ambianceFactory) ->
  exists sh,
    shellRun decodeThrows JSON_parse JSON_stringify Math_random es
      (initialShell saved0 narrationFactory ambianceFactory) = Some sh
    /\ (forall tid1 t1 tid2 t2,
          turns (app sh) !! tid1 = Some t1 -> turns (app sh) !! tid2 = Some t2 ->
          tid1 = tid2)
    /\ (forall tid t, turns (app sh) !! tid = Some t ->
          isLoading (app sh) = true /\ ~ finallyPending (app sh))
    /\ (finallyPending (app sh) -> isLoading (app sh) = true)
    /\ (isLoading (app sh) = true ->
        forall userInput, handleSendMessage userInput (app sh) = app sh).
Proof.
  intros Hitem Hrb Hidle.
  destruct (shellSeeded_run es _
              (shellSeeded_initial saved0 narrationFactory ambianceFactory Hitem) Hrb)
    as (sh & E & _ & Hturn).
  exists sh. split; [exact E|].
  apply oneTurn_facts. apply Hturn; [apply oneTurn_initial|exact Hidle].
Qed.

(** A click on Load while a turn is in flight lets a second turn start.
    The Load button is enabled whatever the loading flag says, and
    [handleLoadStory] clears the flag without cancelling the turn: after a
    message has been accepted and the stored story loaded, the turn is
    still in flight with the flag clear, so the next message is accepted
    too and two turns are in flight. *)
Theorem load_during_a_turn (sh saved : Shell) (savedData userInput1 userInput2 : string) :
  JsString.truthy (JsString.trim userInput1) = true ->
  JsString.truthy (JsString.trim userInput2) = true ->
  isLoading (app sh) = false -> chatSession (app sh) = true ->
  isSaveAvailable sh = true ->
  savedStory sh = Some savedData -> JsString.truthy savedData = true ->
  JSON_parse savedData = Some (jsonRoundTrip (saveData saved)) ->
  exists sh1 sh2 sh3,
    shellStep decodeThrows JSON_parse JSON_stringify Math_random
      (appEvent (sendMessage userInput1)) sh = Some sh1
    /\ shellStep decodeThrows JSON_parse JSON_stringify Math_random loadClicked sh1
       = Some sh2
    /\ shellStep decodeThrows JSON_parse JSON_stringify Math_random
         (appEvent (sendMessage userInput2)) sh2 = Some sh3
    /\ isLoading (app sh1) = true
    /\ is_Some (turns (app sh1) !! nextTurn (app sh))
    /\ isLoading (app sh2) = false
    /\ turns (app sh2) = turns (app sh1)
    /\ history (app sh2) = storedSnapshot <$> history (app saved)
    /\ isLoading (app sh3) = true
    /\ is_Some (turns (app sh3) !! nextTurn (app sh))
    /\ is_Some (turns (app sh3) !! S (nextTurn (app sh))).
Proof.
  intros Hu1 Hu2 Hload Hsess Havail Hitem Htruthy Hparse.
  destruct (handleSendMessage_accepted (app sh) userInput1 Hu1 Hload Hsess)
    as (Ht1 & Hn1 & _ & _ & Hl1).
  assert (Hc1 : chatSession (handleSendMessage userInput1 (app sh)) = true).
  { unfold handleSendMessage. rewrite Hu1, Hload, Hsess. cbn [negb orb].
    destruct (app sh); exact Hsess. }
  set (s1 := handleSendMessage userInput1 (app sh)) in *.
  set (sh1 := set_app s1 sh).
  pose proof (handleLoadStory_saved saved sh1 savedData Hitem Htruthy Hparse) as E2.
  destruct (loaded_fields saved s1) as (L1 & L2 & L3 & L4 & L5 & _ & _).
  change (app sh1) with s1 in E2.
  set (s2 := syncShareable _) in *.
  set (sh2 := {| app := s2; fontSize := fontSize saved;
                 fontFamily := fontFamily saved;
                 isSaveAvailable := isSaveAvailable sh1;
                 savedStory := savedStory sh1 |}) in *.
  assert (Hsess2 : chatSession s2 = true) by (rewrite L5; exact Hc1).
  destruct (handleSendMessage_accepted s2 userInput2 Hu2 L2 Hsess2)
    as (Ht3 & _ & _ & _ & Hl3).
  assert (Hturns3 : turns (handleSendMessage userInput2 s2) !! nextTurn (app sh)
                    = turns s2 !! nextTurn (app sh)).
  { unfold handleSendMessage. rewrite Hu2, L2, Hsess2. cbn [negb orb].
    assert (Hne : nextTurn s2 <> nextTurn (app sh)) by (rewrite L4, Hn1; lia).
    destruct s2; cbn in *. now apply lookup_insert_ne. }
  exists sh1, sh2, (set_app (handleSendMessage userInput2 s2) sh2).
  split; [reflexivity|].
  split; [cbn [shellStep]; change (isSaveAvailable sh1) with (isSaveAvailable sh);
          rewrite Havail; exact E2|].
  split; [reflexivity|].
  change (app sh1) with s1. change (app sh2) with s2.
  change (app (set_app (handleSendMessage userInput2 s2) sh2))
    with (handleSendMessage userInput2 s2).
  split; [exact Hl1|]. split; [rewrite Ht1; eauto|].
  split; [exact L2|]. split; [exact L3|].
  split; [exact (f_equal fst L1)|]. split; [exact Hl3|].
  split.
  - rewrite Hturns3, L3, Ht1. eauto.
  - rewrite L4, Hn1 in Ht3. rewrite Ht3. eauto.
Qed.

End ComponentRuns.

(** An instance: the welcome screen is saved, a message is sent, and the
    story is loaded once its turn has failed. *)
Lemma reachable_log_keeps_seed_witness :
  let dec := fun _ : string => false in
  let rnd := fun _ : nat => 0%Q in
  let stringify := fun _ : JSValue => savedText in
  let welcome := initialShell None (Some running) (Some running) in
  let parse := fun text : string =>
    if bool_decide (text = savedText) then Some (jsonRoundTrip (saveData welcome))
    else None in
  let es := [saveClicked true; appEvent (sendMessage "hi");
             appEvent (generationSettled 0 None); loadClicked] in
  itemSeeded parse None
  /\ allAlong dec parse stringify rnd (saveReadsBack parse stringify) es welcome
  /\ exists sh,
       shellRun dec parse stringify rnd es welcome = Some sh
       /\ history (app sh) !! 0 = Some initialStoryState
       /\ head (chatHistory (app sh)) = Some welcomeMessage.
Proof.
  intros dec rnd stringify welcome parse es.
  assert (H1 : itemSeeded parse None) by exact I.
  assert (H2 : allAlong dec parse stringify rnd (saveReadsBack parse stringify)
                 es welcome).
  { vm_compute. repeat split. }
  split; [exact H1|]. split; [exact H2|].
  destruct (reachable_log_keeps_seed dec parse stringify rnd es None
              (Some running) (Some running) H1 H2)
    as (sh & E & _ & H0 & _ & Hchat).
  exists sh. split; [exact E|]. split; [exact H0|exact Hchat].
Defined.

(** An instance: a message is sent, the story is saved while the turn is
    in flight and loaded once the turn has failed, and a second message
    is sent. *)
Lemma one_turn_at_a_time_witness :
  let dec := fun _ : string => false in
  let rnd := fun _ : nat => 0%Q in
  let stringify := fun _ : JSValue => savedText in
  let welcome := initialShell None (Some running) (Some running) in
  let sent := set_app (handleSendMessage "hi" (app welcome)) welcome in
  let parse := fun text : string =>
    if bool_decide (text = savedText) then Some (jsonRoundTrip (saveData sent))
    else None in
  let es := [appEvent (sendMessage "hi"); saveClicked true;
             appEvent (generationSettled 0 None); loadClicked;
             appEvent (sendMessage "again")] in
  itemSeeded parse None
  /\ allAlong dec parse stringify rnd (saveReadsBack parse stringify) es welcome
  /\ allAlong dec parse stringify rnd loadWhenIdle es welcome
  /\ exists sh,
       shellRun dec parse stringify rnd es welcome = Some sh
       /\ isLoading (app sh) = true
       /\ forall tid1 t1 tid2 t2,
            turns (app sh) !! tid1 = Some t1 -> turns (app sh) !! tid2 = Some t2 ->
            tid1 = tid2.
Proof.
  intros dec rnd stringify welcome sent parse es.
  assert (H1 : itemSeeded parse None) by exact I.
  assert (H2 : allAlong dec parse stringify rnd (saveReadsBack parse stringify)
                 es welcome).
  { vm_compute. repeat split. }
  assert (H3 : allAlong dec parse stringify rnd loadWhenIdle es welcome).
  { vm_compute. repeat split. }
  split; [exact H1|]. split; [exact H2|]. split; [exact H3|].
  destruct (one_turn_at_a_time dec parse stringify rnd es None
              (Some running) (Some running) H1 H2 H3)
    as (sh & E & Hone & _).
  exists sh. split; [exact E|]. split; [|exact Hone].
  vm_compute in E. injection E as <-. reflexivity.
Defined.

(** An instance: the welcome screen is saved, a message is sent, the
    story is loaded while the turn is in flight, and a second message is
    sent. *)
Lemma load_during_a_turn_witness :
  let dec := fun _ : string => false in
  let rnd := fun _ : nat => 0%Q in
  let stringify := fun _ : JSValue => savedText in
  let welcome := initialShell None (Some running) (Some running) in
  let parse := fun text : string =>
    if bool_decide (text = savedText) then Some (jsonRoundTrip (saveData welcome))
    else None in
  let sh := handleSaveStory stringify true welcome in
  exists sh3,
    shellRun dec parse stringify rnd
      [appEvent (sendMessage "hi"); loadClicked; appEvent (sendMessage "again")] sh
    = Some sh3
    /\ is_Some (turns (app sh3) !! 0)
    /\ is_Some (turns (app sh3) !! 1).
Proof.
  intros dec rnd stringify welcome parse sh.
  destruct (load_during_a_turn dec parse stringify rnd sh welcome savedText
              "hi" "again")
    as (sh1 & sh2 & sh3 & E1 & E2 & E3 & _ & _ & _ & _ & _ & _ & T0 & T1);
    try reflexivity.
  exists sh3. cbn [shellRun]. rewrite E1, E2, E3.
  split; [reflexivity|]. split; [exact T0|exact T1].
Defined.
